(** * csvc: the CSV readers of oleg578/csvc, embedded and verified

    The repository holds several generations of the same [Reader]:

    - [ByteReader]   the first reader over [bufio.Reader.ReadByte]
                     (unnamed/part_007, lines 1-110);
    - [FastReader]   the reader with [ParseError], line and column tracking,
                     [readByte]/[peekByte] and the [finished] flag
                     (unnamed/part_007, lines 111-390);
    - [BufReader]    the first reader again, with a field buffer that is
                     kept between calls (unnamed/part_007, lines 391-508);
    - [Buffered]     the buffer that [readByte] and [peekByte] of that
                     reader fill from [src.Read] (lines 344-390);
    - [ReuseReader]  that reader with the array of [dataBuf] and the
                     strings that [buildRecord] makes over it with
                     [ReuseRecord] (lines 194-338);
    - [RecordReader] the reader built on [readRecord] and the five-state
                     automaton (unnamed/part_007, lines 509-821);
    - [LineReader]   the line-oriented reader of csvc.go.

    Each one is translated function by function; Go's [(value, error)]
    returns become a sum or a pair, mutation of the receiver becomes explicit
    state passing, and [for] loops over the input become structural
    recursion on the bytes still to be read. *)

From Stdlib Require Import Ascii String List Arith Bool Lia ZArith.
Import ListNotations.

(** ** Bytes and Go strings *)

(** A Go [string] or [[]byte] is a sequence of bytes. *)
Definition bytes := list ascii.

Definition str (s : string) : bytes := list_ascii_of_string s.

Definition LF : ascii := "010"%char.
Definition CR : ascii := "013"%char.
Definition DQ : ascii := "034"%char.
Definition COMMA : ascii := ","%char.
Definition NUL : ascii := "000"%char.

(** Go's [s[a:b]] on an in-range pair of indexes. *)
Definition slice (s : bytes) (a b : nat) : bytes := firstn (b - a) (skipn a s).

(** ** FastReader: unnamed/part_007, lines 111-390 *)

Module FastReader.

Inductive error : Type :=
| EOF                                   (* io.EOF *)
| ErrBareQuote
| ErrUnterminatedQuote
| SourceError (code : nat)              (* any other error of the io.Reader *)
| ParseError (Line Column : nat) (Err : error).

Definition is_EOF (e : error) : bool :=
  match e with EOF => true | _ => false end.

(** What [Read] hands back: [(record, nil)] or [(nil, err)]. *)
Inductive result : Type :=
| Rec (record : list bytes)
| Err (e : error).

(** The reader.  [src] is the run of bytes that [readByte] will still
    deliver (what is left in [buf] followed by what the [io.Reader] has not
    yet handed over) and [srcFail] says how the source behaves once they are
    used up: it reports [io.EOF], or an I/O error of its own.  [ReuseRecord]
    and [record] decide only whether the slice that is returned shares its
    storage with the one returned before, not its contents, and are left
    out; so is the guard against a nil reader, which [NewReader] rules
    out. *)
Record Reader : Type := mkReader {
  src : bytes;
  srcFail : option nat;
  Comma : ascii;
  Quote : ascii;
  dataBuf : bytes;
  fieldBounds : list nat;
  finished : bool;
  line : nat
}.

Definition set_src (v : bytes) (r : Reader) : Reader :=
  mkReader v (srcFail r) (Comma r) (Quote r) (dataBuf r) (fieldBounds r) (finished r) (line r).
Definition set_dataBuf (v : bytes) (r : Reader) : Reader :=
  mkReader (src r) (srcFail r) (Comma r) (Quote r) v (fieldBounds r) (finished r) (line r).
Definition set_fieldBounds (v : list nat) (r : Reader) : Reader :=
  mkReader (src r) (srcFail r) (Comma r) (Quote r) (dataBuf r) v (finished r) (line r).
Definition set_finished (v : bool) (r : Reader) : Reader :=
  mkReader (src r) (srcFail r) (Comma r) (Quote r) (dataBuf r) (fieldBounds r) v (line r).
Definition set_line (v : nat) (r : Reader) : Reader :=
  mkReader (src r) (srcFail r) (Comma r) (Quote r) (dataBuf r) (fieldBounds r) (finished r) v.

(** The error [src.Read] returns once the source is used up. *)
Definition srcEnd (r : Reader) : error :=
  match srcFail r with
  | None => EOF
  | Some code => SourceError code
  end.

(** [NewReader] over a source that delivers [input] and then [io.EOF]. *)
Definition NewReader (input : bytes) : Reader :=
  mkReader input None COMMA DQ [] [] false 1.

(** [readByte]: the next byte, consumed, or the source's error. *)
Definition readByte (r : Reader) : (ascii + error) * Reader :=
  match src r with
  | b :: tl => (inl b, set_src tl r)
  | [] => (inr (srcEnd r), r)
  end.

(** [peekByte]: the next byte, left in place, or the source's error. *)
Definition peekByte (r : Reader) : ascii + error :=
  match src r with
  | b :: _ => inl b
  | [] => inr (srcEnd r)
  end.

Definition wrapError (r : Reader) (column : nat) (err : error) : error :=
  ParseError (line r) column err.

(** [buildRecord]: field [i] is [recordStr[fieldBounds[2i]:fieldBounds[2i+1]]]. *)
Definition buildRecord (r : Reader) : list bytes :=
  let fieldCount := length (fieldBounds r) / 2 in
  let recordStr := dataBuf r in
  map (fun i => slice recordStr (nth (2 * i) (fieldBounds r) 0)
                                (nth (2 * i + 1) (fieldBounds r) 0))
      (seq 0 fieldCount).

(** The variables [Read] declares before its loop. *)
Record Locals : Type := mkLocals {
  inQuotes : bool;
  sawQuotedField : bool;
  column : nat;
  fieldStart : nat
}.

Definition closeField (r : Reader) (l : Locals) : Reader :=
  set_fieldBounds (fieldBounds r ++ [fieldStart l; length (dataBuf r)]) r.

(** The [for] loop of [Read].  [bs] is what the source still holds when an
    iteration starts; [readByte] takes its head, and the [r.bufPos++] after a
    successful [peekByte] takes the next one as well. *)
Fixpoint readLoop (comma quote : ascii) (bs : bytes) (r : Reader) (l : Locals)
  {struct bs} : result * Reader :=
  let curColumn := column l in
  match bs with
  | [] =>
      if is_EOF (srcEnd r) then
        if inQuotes l then
          let r := set_finished true r in
          (Err (wrapError r curColumn ErrUnterminatedQuote), set_src [] r)
        else if (0 <? length (fieldBounds r)) || (0 <? length (dataBuf r))
                || sawQuotedField l then
          let r := closeField r l in
          let r := set_finished true r in
          (Rec (buildRecord r), set_src [] r)
        else
          let r := set_finished true r in
          (Err EOF, set_src [] r)
      else (Err (srcEnd r), set_src [] r)
  | b :: tl =>
      if inQuotes l then
        if Ascii.eqb b quote then
          let closing :=
            readLoop comma quote tl r
              (mkLocals false (sawQuotedField l) (curColumn + 1) (fieldStart l)) in
          match tl with
          | next :: tl' =>
              if Ascii.eqb next quote then
                readLoop comma quote tl' (set_dataBuf (dataBuf r ++ [quote]) r)
                  (mkLocals true (sawQuotedField l) (curColumn + 2) (fieldStart l))
              else closing
          | [] =>
              if is_EOF (srcEnd r) then closing
              else (Err (srcEnd r), set_src tl r)
          end
        else
          let r' := if Ascii.eqb b LF then set_line (line r + 1) r else r in
          let column' := if Ascii.eqb b LF then 1 else curColumn + 1 in
          readLoop comma quote tl (set_dataBuf (dataBuf r ++ [b]) r')
            (mkLocals true (sawQuotedField l) column' (fieldStart l))
      else if Ascii.eqb b comma then
        let r := closeField r l in
        readLoop comma quote tl r
          (mkLocals false false (curColumn + 1) (length (dataBuf r)))
      else if Ascii.eqb b LF then
        let r := closeField r l in
        let r := set_line (line r + 1) r in
        (Rec (buildRecord r), set_src tl r)
      else if Ascii.eqb b CR then
        match tl with
        | next :: tl' =>
            let rest := if Ascii.eqb next LF then tl' else tl in
            let r := closeField r l in
            let r := set_line (line r + 1) r in
            (Rec (buildRecord r), set_src rest r)
        | [] =>
            if is_EOF (srcEnd r) then
              let r := closeField r l in
              let r := set_line (line r + 1) r in
              (Rec (buildRecord r), set_src tl r)
            else (Err (srcEnd r), set_src tl r)
        end
      else if Ascii.eqb b quote then
        if (length (dataBuf r) =? fieldStart l) && negb (sawQuotedField l) then
          readLoop comma quote tl r
            (mkLocals true true (curColumn + 1) (fieldStart l))
        else (Err (wrapError r curColumn ErrBareQuote), set_src tl r)
      else
        readLoop comma quote tl (set_dataBuf (dataBuf r ++ [b]) r)
          (mkLocals false (sawQuotedField l) (curColumn + 1) (fieldStart l))
  end.

Definition effective (configured fallback : ascii) : ascii :=
  if Ascii.eqb configured NUL then fallback else configured.

(** [Read]: the next record, [io.EOF], or an error. *)
Definition Read (r : Reader) : result * Reader :=
  if finished r then (Err EOF, r)
  else
    let comma := effective (Comma r) COMMA in
    let quote := effective (Quote r) DQ in
    let r := set_dataBuf [] r in
    let r := set_fieldBounds [] r in
    readLoop comma quote (src r) r (mkLocals false false 1 0).

End FastReader.

(** ** The buffer under [readByte] and [peekByte]: unnamed/part_007,
    lines 344-390

    [FastReader] above keeps the bytes that are still to come in one list.
    The code keeps them in [buf] between [bufPos] and [bufLen], fills
    [buf] from [src.Read] when it is empty, and keeps the error that came
    with the last bytes in [bufErr] until they are used up.  This is that
    code; the facts below show that the list is a faithful view of it. *)

Module Buffered.
Import FastReader.

(** One call of [src.Read]: the bytes it puts at the start of [buf] and the
    error it returns with them, if any.  An error of the source is, as in
    [srcFail], [io.EOF] or an I/O error with its code. *)
Definition response : Type := (bytes * option (option nat))%type.

(** [pending] is [buf[bufPos:bufLen]]; [calls] is what the next calls of
    [src.Read] return, and [last] the error that the source returns, with
    no bytes, on every call after them. *)
Record Buffer : Type := mkBuffer {
  pending : bytes;
  bufErr : option (option nat);
  calls : list response;
  last : option nat
}.

Definition asError (e : option nat) : error :=
  match e with
  | None => EOF
  | Some code => SourceError code
  end.

(** The loop of [readByte] from [src.Read] on, when [buf] is empty and no
    error is kept: a call that brings nothing and no error is followed by
    the next call. *)
Fixpoint refill (calls : list response) (last : option nat)
  : (ascii + error) * Buffer :=
  match calls with
  | [] => (inr (asError last), mkBuffer [] None [] last)
  | (chunk, err) :: rest =>
      match chunk with
      | [] =>
          match err with
          | Some e => (inr (asError e), mkBuffer [] None rest last)
          | None => refill rest last
          end
      | b :: tl => (inl b, mkBuffer tl err rest last)
      end
  end.

Definition readByte (s : Buffer) : (ascii + error) * Buffer :=
  match pending s with
  | b :: tl => (inl b, mkBuffer tl (bufErr s) (calls s) (last s))
  | [] =>
      match bufErr s with
      | Some e => (inr (asError e), mkBuffer [] None (calls s) (last s))
      | None => refill (calls s) (last s)
      end
  end.

(** The same loop in [peekByte], which leaves the byte in [buf]. *)
Fixpoint refillPeek (calls : list response) (last : option nat)
  : (ascii + error) * Buffer :=
  match calls with
  | [] => (inr (asError last), mkBuffer [] None [] last)
  | (chunk, err) :: rest =>
      match chunk with
      | [] =>
          match err with
          | Some e => (inr (asError e), mkBuffer [] None rest last)
          | None => refillPeek rest last
          end
      | b :: tl => (inl b, mkBuffer (b :: tl) err rest last)
      end
  end.

(** [peekByte] does not take the error out of [bufErr]. *)
Definition peekByte (s : Buffer) : (ascii + error) * Buffer :=
  match pending s with
  | b :: _ => (inl b, s)
  | [] =>
      match bufErr s with
      | Some e => (inr (asError e), s)
      | None => refillPeek (calls s) (last s)
      end
  end.

(** The bytes the source delivers before its first error, and that
    error. *)
Fixpoint ahead (calls : list response) (last : option nat) : bytes * option nat :=
  match calls with
  | [] => ([], last)
  | (chunk, Some e) :: _ => (chunk, e)
  | (chunk, None) :: rest => let (bs, e) := ahead rest last in (chunk ++ bs, e)
  end.

(** The view [FastReader] takes of the buffer: the bytes still to come,
    and the error after them. *)
Definition flat (s : Buffer) : bytes * option nat :=
  match bufErr s with
  | Some e => (pending s, e)
  | None => let (bs, e) := ahead (calls s) (last s) in (pending s ++ bs, e)
  end.

(** A source that sticks to its first error: every later call returns that
    error again, and no bytes. *)
Fixpoint sticks (calls : list response) (last : option nat) : Prop :=
  match calls with
  | [] => True
  | (_, Some e) :: rest => e = last /\ Forall (fun c => c = ([], Some last)) rest
  | (_, None) :: rest => sticks rest last
  end.

Definition settled (s : Buffer) : Prop :=
  match bufErr s with
  | Some e => e = last s /\ Forall (fun c => c = ([], Some (last s))) (calls s)
  | None => sticks (calls s) (last s)
  end.

(** The reader [r] is a view of the buffer [s]. *)
Definition views (r : Reader) (s : Buffer) : Prop :=
  src r = fst (flat s) /\ srcFail r = snd (flat s).

End Buffered.

(** ** The byte-level reader with its storage: unnamed/part_007, lines
    194-338

    [FastReader] above returns the fields of a record as values.  With
    [ReuseRecord] the code returns strings that share the storage of
    [dataBuf] ([unsafe.String] over [unsafe.SliceData(r.dataBuf)]), and the
    next [Read] writes into that storage again.  This is [Read] once more,
    with [dataBuf] as Go has it: a backing array, of which the first [fill]
    bytes are in use, and which [append] writes in place while the capacity
    is enough.  [generation] counts the arrays that were allocated, so that
    a string knows its array. *)

Module ReuseReader.
Import FastReader.

(** A field as [buildRecord] returns it: a copy of the bytes, or a string
    over the bytes [from, to) of the array of [dataBuf]. *)
Inductive Field : Type :=
| Copied (v : bytes)
| Shared (generation from to : nat).

Inductive result : Type :=
| Rec (record : list Field)
| Err (e : error).

Record Reader : Type := mkReader {
  src : bytes;
  srcFail : option nat;
  Comma : ascii;
  Quote : ascii;
  ReuseRecord : bool;
  array : bytes;
  fill : nat;
  generation : nat;
  fieldBounds : list nat;
  finished : bool;
  line : nat
}.

Definition set_src (v : bytes) (r : Reader) : Reader :=
  mkReader v (srcFail r) (Comma r) (Quote r) (ReuseRecord r) (array r) (fill r)
    (generation r) (fieldBounds r) (finished r) (line r).
Definition set_dataBuf (a : bytes) (f g : nat) (r : Reader) : Reader :=
  mkReader (src r) (srcFail r) (Comma r) (Quote r) (ReuseRecord r) a f g
    (fieldBounds r) (finished r) (line r).
Definition set_fieldBounds (v : list nat) (r : Reader) : Reader :=
  mkReader (src r) (srcFail r) (Comma r) (Quote r) (ReuseRecord r) (array r) (fill r)
    (generation r) v (finished r) (line r).
Definition set_finished (v : bool) (r : Reader) : Reader :=
  mkReader (src r) (srcFail r) (Comma r) (Quote r) (ReuseRecord r) (array r) (fill r)
    (generation r) (fieldBounds r) v (line r).
Definition set_line (v : nat) (r : Reader) : Reader :=
  mkReader (src r) (srcFail r) (Comma r) (Quote r) (ReuseRecord r) (array r) (fill r)
    (generation r) (fieldBounds r) (finished r) v.

(** [r.dataBuf]: the bytes of the array that are in use. *)
Definition dataBuf (r : Reader) : bytes := firstn (fill r) (array r).

Definition srcEnd (r : Reader) : error :=
  match srcFail r with
  | None => EOF
  | Some code => SourceError code
  end.

(** [NewReader]: [dataBuf] is made with no byte in use and room for 512. *)
Definition NewReader (input : bytes) : Reader :=
  mkReader input None COMMA DQ false (repeat NUL 512) 0 0 [] false 1.

Definition wrapError (r : Reader) (column : nat) (err : error) : error :=
  ParseError (line r) column err.

(** [buildRecord]: with [ReuseRecord] and a [dataBuf] that is not empty
    the fields are strings over the array of [dataBuf]; they are cut from
    the empty string when it is empty, and from a copy without
    [ReuseRecord].  The slice [r.record] that holds the strings is reused
    as well; the model returns the strings. *)
Definition buildRecord (r : Reader) : list Field :=
  let fieldCount := length (fieldBounds r) / 2 in
  map (fun i =>
         let start := nth (2 * i) (fieldBounds r) 0 in
         let end_ := nth (2 * i + 1) (fieldBounds r) 0 in
         if ReuseRecord r then
           if fill r =? 0 then Copied (slice [] start end_)
           else Shared (generation r) start end_
         else Copied (slice (dataBuf r) start end_))
      (seq 0 fieldCount).

Definition closeField (r : Reader) (l : Locals) : Reader :=
  set_fieldBounds (fieldBounds r ++ [fieldStart l; fill r]) r.

Section Storage.

(** The capacity that [append] leaves free behind the byte it appends when
    it has to allocate; Go leaves the amount to its runtime. *)
Variable grow : nat -> nat.

(** [r.dataBuf = append(r.dataBuf, b)]: in place while the capacity is
    enough, into a new array otherwise. *)
Definition push (b : ascii) (r : Reader) : Reader :=
  if fill r <? length (array r) then
    set_dataBuf (firstn (fill r) (array r) ++ b :: skipn (S (fill r)) (array r))
      (S (fill r)) (generation r) r
  else
    set_dataBuf (firstn (fill r) (array r) ++ b :: repeat NUL (grow (length (array r))))
      (S (fill r)) (S (generation r)) r.

(** The [for] loop of [Read], as in [FastReader.readLoop]. *)
Fixpoint readLoop (comma quote : ascii) (bs : bytes) (r : Reader) (l : Locals)
  {struct bs} : result * Reader :=
  let curColumn := column l in
  match bs with
  | [] =>
      if is_EOF (srcEnd r) then
        if inQuotes l then
          let r := set_finished true r in
          (Err (wrapError r curColumn ErrUnterminatedQuote), set_src [] r)
        else if (0 <? length (fieldBounds r)) || (0 <? fill r)
                || sawQuotedField l then
          let r := closeField r l in
          let r := set_finished true r in
          (Rec (buildRecord r), set_src [] r)
        else
          let r := set_finished true r in
          (Err EOF, set_src [] r)
      else (Err (srcEnd r), set_src [] r)
  | b :: tl =>
      if inQuotes l then
        if Ascii.eqb b quote then
          let closing :=
            readLoop comma quote tl r
              (mkLocals false (sawQuotedField l) (curColumn + 1) (fieldStart l)) in
          match tl with
          | next :: tl' =>
              if Ascii.eqb next quote then
                readLoop comma quote tl' (push quote r)
                  (mkLocals true (sawQuotedField l) (curColumn + 2) (fieldStart l))
              else closing
          | [] =>
              if is_EOF (srcEnd r) then closing
              else (Err (srcEnd r), set_src tl r)
          end
        else
          let r' := if Ascii.eqb b LF then set_line (line r + 1) r else r in
          let column' := if Ascii.eqb b LF then 1 else curColumn + 1 in
          readLoop comma quote tl (push b r')
            (mkLocals true (sawQuotedField l) column' (fieldStart l))
      else if Ascii.eqb b comma then
        let r := closeField r l in
        readLoop comma quote tl r
          (mkLocals false false (curColumn + 1) (fill r))
      else if Ascii.eqb b LF then
        let r := closeField r l in
        let r := set_line (line r + 1) r in
        (Rec (buildRecord r), set_src tl r)
      else if Ascii.eqb b CR then
        match tl with
        | next :: tl' =>
            let rest := if Ascii.eqb next LF then tl' else tl in
            let r := closeField r l in
            let r := set_line (line r + 1) r in
            (Rec (buildRecord r), set_src rest r)
        | [] =>
            if is_EOF (srcEnd r) then
              let r := closeField r l in
              let r := set_line (line r + 1) r in
              (Rec (buildRecord r), set_src tl r)
            else (Err (srcEnd r), set_src tl r)
        end
      else if Ascii.eqb b quote then
        if (fill r =? fieldStart l) && negb (sawQuotedField l) then
          readLoop comma quote tl r
            (mkLocals true true (curColumn + 1) (fieldStart l))
        else (Err (wrapError r curColumn ErrBareQuote), set_src tl r)
      else
        readLoop comma quote tl (push b r)
          (mkLocals false (sawQuotedField l) (curColumn + 1) (fieldStart l))
  end.

(** [Read]; [r.dataBuf = r.dataBuf[:0]] keeps the array. *)
Definition Read (r : Reader) : result * Reader :=
  if finished r then (Err EOF, r)
  else
    let comma := effective (Comma r) COMMA in
    let quote := effective (Quote r) DQ in
    let r := set_dataBuf (array r) 0 (generation r) r in
    let r := set_fieldBounds [] r in
    readLoop comma quote (src r) r (mkLocals false false 1 0).

End Storage.

(** The reader without its storage. *)
Definition view (r : Reader) : FastReader.Reader :=
  FastReader.mkReader (src r) (srcFail r) (Comma r) (Quote r) (dataBuf r)
    (fieldBounds r) (finished r) (line r).

(** What a field holds when [Read] returns it: [recordStr[start:end]],
    where [recordStr] is [dataBuf]. *)
Definition atReturn (r : Reader) (f : Field) : bytes :=
  match f with
  | Copied v => v
  | Shared _ from to => slice (dataBuf r) from to
  end.

Definition seen (r : Reader) (res : result) : FastReader.result :=
  match res with
  | Rec fs => FastReader.Rec (map (atReturn r) fs)
  | Err e => FastReader.Err e
  end.

(** What a field that was returned earlier holds now: a copy holds what
    it held, a string over the array that is still in use holds the bytes
    that are in the array now. *)
Definition now (r : Reader) (f : Field) : option bytes :=
  match f with
  | Copied v => Some v
  | Shared g from to =>
      if g =? generation r then Some (slice (array r) from to) else None
  end.

(** The storage is in order: no more bytes are in use than the array
    has. *)
Definition fits (r : Reader) : Prop := fill r <= length (array r).

(** [r'] has the array of [r], and has left alone what lies behind the
    bytes it uses. *)
Definition keeps (r r' : Reader) : Prop :=
  generation r' = generation r /\
  length (array r') = length (array r) /\
  skipn (fill r') (array r') = skipn (fill r') (array r).

(** [r'] is [r] after some bytes were appended to [dataBuf]: into the
    array of [r], or into a new array once more bytes are in use than the
    array of [r] has. *)
Definition later (r r' : Reader) : Prop :=
  fits r' /\
  fill r <= fill r' /\
  length (array r) <= length (array r') /\
  ReuseRecord r' = ReuseRecord r /\
  (length (array r) < fill r' \/ keeps r r').

End ReuseReader.

(** ** ByteReader: unnamed/part_007, lines 1-110 *)

Module ByteReader.

Inductive error : Type := EOF.

(** [r] is what the [bufio.Reader] will still deliver to [ReadByte]; an
    in-memory stream ends with [io.EOF]. *)
Record Reader : Type := mkReader {
  Comma : ascii;
  r : bytes
}.

Definition NewReader (input : bytes) : Reader := mkReader COMMA input.

(** The [for] loop of [Read], which returns [fields] and [err] side by
    side.  [ReadByte] takes the head of [bs]; a [ReadByte] followed by
    [UnreadByte] leaves the stream where it was. *)
Fixpoint readLoop (comma : ascii) (bs : bytes) (fields : list bytes) (field : bytes)
  (inQuotes : bool) {struct bs} : (list bytes * option error) * bytes :=
  match bs with
  | [] =>
      if 0 <? length field then (fields ++ [field], Some EOF, [])
      else (fields, Some EOF, [])
  | ch :: tl =>
      if Ascii.eqb ch DQ then
        if inQuotes then
          match tl with
          | nextCh :: tl' =>
              if Ascii.eqb nextCh DQ then
                readLoop comma tl' fields (field ++ [DQ]) inQuotes
              else readLoop comma tl fields field false
          | [] => readLoop comma tl fields field false
          end
        else readLoop comma tl fields field true
      else if Ascii.eqb ch comma then
        if inQuotes then readLoop comma tl fields (field ++ [ch]) inQuotes
        else readLoop comma tl (fields ++ [field]) [] inQuotes
      else if Ascii.eqb ch LF then
        if inQuotes then readLoop comma tl fields (field ++ [ch]) inQuotes
        else (fields ++ [field], None, tl)
      else if Ascii.eqb ch CR then
        if inQuotes then readLoop comma tl fields (field ++ [ch]) inQuotes
        else
          match tl with
          | nextCh :: tl' =>
              if Ascii.eqb nextCh LF then (fields ++ [field], None, tl')
              else readLoop comma tl fields (field ++ [ch]) inQuotes
          | [] => readLoop comma tl fields (field ++ [ch]) inQuotes
          end
      else readLoop comma tl fields (field ++ [ch]) inQuotes
  end.

Definition Read (b : Reader) : (list bytes * option error) * Reader :=
  let '(dst, err, rest) := readLoop (Comma b) (r b) [] [] false in
  (dst, err, mkReader (Comma b) rest).

End ByteReader.

(** ** BufReader: unnamed/part_007, lines 391-508 *)

Module BufReader.

Inductive error : Type := EOF.

(** The reader over [bufio.ReadByte] with a buffer of its own for the
    field that is being read; [r] is what the [bufio.Reader] will still
    deliver. *)
Record Reader : Type := mkReader {
  Comma : ascii;
  r : bytes;
  fieldBuf : bytes
}.

Definition NewReader (input : bytes) : Reader := mkReader COMMA input [].

(** The [for] loop of [Read]: [fields], [err], what is left of the input,
    and [fieldBuf] as the loop leaves it. *)
Fixpoint readLoop (comma : ascii) (bs : bytes) (fields : list bytes) (fieldBuf : bytes)
  (inQuotes : bool) {struct bs} : (list bytes * option error) * (bytes * bytes) :=
  match bs with
  | [] =>
      if 0 <? length fieldBuf then (fields ++ [fieldBuf], Some EOF, ([], fieldBuf))
      else (fields, Some EOF, ([], fieldBuf))
  | ch :: tl =>
      if Ascii.eqb ch DQ then
        if inQuotes then
          match tl with
          | nextCh :: tl' =>
              if Ascii.eqb nextCh DQ then
                readLoop comma tl' fields (fieldBuf ++ [DQ]) inQuotes
              else readLoop comma tl fields fieldBuf false
          | [] => readLoop comma tl fields fieldBuf false
          end
        else readLoop comma tl fields fieldBuf true
      else if Ascii.eqb ch comma then
        if inQuotes then readLoop comma tl fields (fieldBuf ++ [ch]) inQuotes
        else readLoop comma tl (fields ++ [fieldBuf]) [] inQuotes
      else if Ascii.eqb ch LF then
        if inQuotes then readLoop comma tl fields (fieldBuf ++ [ch]) inQuotes
        else (fields ++ [fieldBuf], None, (tl, fieldBuf))
      else if Ascii.eqb ch CR then
        if inQuotes then readLoop comma tl fields (fieldBuf ++ [ch]) inQuotes
        else
          match tl with
          | nextCh :: tl' =>
              if Ascii.eqb nextCh LF then (fields ++ [fieldBuf], None, (tl', fieldBuf))
              else readLoop comma tl fields (fieldBuf ++ [ch]) inQuotes
          | [] => readLoop comma tl fields (fieldBuf ++ [ch]) inQuotes
          end
      else readLoop comma tl fields (fieldBuf ++ [ch]) inQuotes
  end.

(** [Read] empties [fieldBuf] before the loop. *)
Definition Read (b : Reader) : (list bytes * option error) * Reader :=
  let '(dst, err, (rest, fieldBuf)) := readLoop (Comma b) (r b) [] [] false in
  (dst, err, mkReader (Comma b) rest fieldBuf).

End BufReader.

(** What the loop of [BufReader] hands to the caller of [Read], in the
    terms of [ByteReader]: the fields, the error and what is left of the
    input. *)
Definition seen (res : (list bytes * option BufReader.error) * (bytes * bytes))
  : (list bytes * option ByteReader.error) * bytes :=
  let '(dst, err, (rest, _)) := res in
  (dst, match err with Some BufReader.EOF => Some ByteReader.EOF | None => None end,
   rest).

(** ** Library routines the later readers call *)

(** Modelled from the Go documentation of [bytes.IndexByte]: the index of the
    first [c] in [s], or nothing (Go's [-1]). *)
Fixpoint IndexByte (s : bytes) (c : ascii) : option nat :=
  match s with
  | [] => None
  | x :: tl =>
      if Ascii.eqb x c then Some 0
      else match IndexByte tl c with Some n => Some (S n) | None => None end
  end.

(** [bufio.Reader] over a stream that hands over the bytes it has and
    reports [io.EOF] by a call that returns no byte, as [strings.Reader],
    [bytes.Reader] and [os.File] do.  The reader is modelled by the bytes it
    has not yet delivered, those in its buffer and those still in the
    stream, and by the size of its buffer.  What follows is modelled from
    the Go documentation of package [bufio]. *)
Inductive bufioError : Type :=
| ErrBufferFull                         (* bufio.ErrBufferFull *)
| io_EOF.                               (* io.EOF *)

(** [ReadSlice('\n')]: the bytes up to and including the first line feed;
    when the buffer fills without a line feed, the full buffer and
    [ErrBufferFull]; when the stream ends first, what is left and
    [io.EOF].  [room] is what the buffer can still take. *)
Fixpoint ReadSlice (room : nat) (bs : bytes) {struct bs}
  : bytes * option bufioError * bytes :=
  match bs with
  | [] =>
      match room with
      | O => ([], Some ErrBufferFull, [])
      | S _ => ([], Some io_EOF, [])
      end
  | c :: tl =>
      match room with
      | O => ([], Some ErrBufferFull, bs)
      | S room' =>
          if Ascii.eqb c LF then ([c], None, tl)
          else
            let '(chunk, err, rest) := ReadSlice room' tl in
            (c :: chunk, err, rest)
      end
  end.

Definition endsWith (s : bytes) (c : ascii) : bool :=
  match rev s with
  | x :: _ => Ascii.eqb x c
  | [] => false
  end.

(** [ReadLine]: a line without its end-of-line marker, a line feed or a
    carriage return and a line feed.  A line that does not fit the buffer
    comes in pieces, [isPrefix] set on all but the last; a carriage return
    at the end of such a piece is put back, for the next call to see
    whether a line feed follows.  [io.EOF] is returned only when no byte
    is left; a last line without a marker is returned without error. *)
Definition ReadLine (size : nat) (bs : bytes)
  : bytes * bool * option bufioError * bytes :=
  let '(line, err, rest) := ReadSlice size bs in
  match err with
  | Some ErrBufferFull =>
      if endsWith line CR then (removelast line, true, None, CR :: rest)
      else (line, true, None, rest)
  | _ =>
      match line with
      | [] => ([], false, err, rest)
      | _ =>
          if endsWith line LF then
            if endsWith (removelast line) CR
            then (removelast (removelast line), false, None, rest)
            else (removelast line, false, None, rest)
          else (line, false, None, rest)
      end
  end.

(** The size of the buffer of [bufio.NewReader]. *)
Definition defaultBufSize : nat := N.to_nat 4096.

(** Modelled from the Go documentation of [strings.TrimSpace], which cuts
    the white space that Unicode defines off both ends of a string.  The
    white space bytes of ASCII are tab, line feed, vertical tab, form
    feed, carriage return and space. *)
Definition isSpace (c : ascii) : bool :=
  let n := nat_of_ascii c in
  ((9 <=? n) && (n <=? 13)) || (n =? 32).

(** The white space characters that take two bytes in UTF-8: U+0085 and
    U+00A0. *)
Definition isSpace2 (c d : ascii) : bool :=
  Ascii.eqb c "194"%char && (Ascii.eqb d "133"%char || Ascii.eqb d "160"%char).

(** Those that take three bytes: U+1680, U+2000 to U+200A, U+2028, U+2029,
    U+202F, U+205F and U+3000. *)
Definition isSpace3 (c d e : ascii) : bool :=
  (Ascii.eqb c "225"%char && Ascii.eqb d "154"%char && Ascii.eqb e "128"%char)
  || (Ascii.eqb c "226"%char && Ascii.eqb d "128"%char
      && (((128 <=? nat_of_ascii e) && (nat_of_ascii e <=? 138))
          || Ascii.eqb e "168"%char || Ascii.eqb e "169"%char
          || Ascii.eqb e "175"%char))
  || (Ascii.eqb c "226"%char && Ascii.eqb d "129"%char && Ascii.eqb e "159"%char)
  || (Ascii.eqb c "227"%char && Ascii.eqb d "128"%char && Ascii.eqb e "128"%char).

Section Trim.

(** Which one, two or three bytes make a white space character. *)
Variable sp1 : ascii -> bool.
Variable sp2 : ascii -> ascii -> bool.
Variable sp3 : ascii -> ascii -> ascii -> bool.

(** The white space characters at the front are cut off, one character of
    one, two or three bytes at a time. *)
Fixpoint trimFront (s : bytes) : bytes :=
  match s with
  | [] => []
  | c :: tl =>
      if sp1 c then trimFront tl
      else
        match tl with
        | d :: tl2 =>
            if sp2 c d then trimFront tl2
            else
              match tl2 with
              | e :: tl3 => if sp3 c d e then trimFront tl3 else s
              | [] => s
              end
        | [] => s
        end
  end.

End Trim.

Definition TrimLeft (s : bytes) : bytes := trimFront isSpace isSpace2 isSpace3 s.

(** The same from the end, on the text read back to front: the last
    character is found by its last byte, or by its two or three last
    bytes. *)
Definition TrimRight (s : bytes) : bytes :=
  trimFront isSpace (fun c d => isSpace2 d c) (fun c d e => isSpace3 e d c) s.

Definition TrimSpace (s : bytes) : bytes := rev (TrimRight (rev (TrimLeft s))).

(** Modelled from the Go documentation of [strings.ReplaceAll] for the one
    call the reader makes, which replaces two quote characters by one:
    non-overlapping pairs of quotes, taken from the left, each become one
    quote. *)
Fixpoint ReplaceAll (s : bytes) : bytes :=
  match s with
  | a :: t =>
      match t with
      | b :: tl =>
          if Ascii.eqb a DQ && Ascii.eqb b DQ then DQ :: ReplaceAll tl
          else a :: ReplaceAll t
      | [] => s
      end
  | [] => []
  end.

(** ** RecordReader: unnamed/part_007, lines 509-821 *)

Module RecordReader.

Inductive error : Type := EOF.

Inductive result : Type :=
| Rec (record : list bytes)
| Err (e : error).

Inductive State : Type :=
| STATE_START_FIELD
| STATE_UNQUOTED
| STATE_QUOTED
| STATE_QUOTE_IN_QUOTED
| STATE_END_FIELD.

(** [r] is what the [bufio.Reader] has not yet delivered: the bytes in its
    buffer and those still in the stream, which ends with [io.EOF].  A
    stream that fails with another error is not modelled, so that the
    last [return err] of [readRecord] is never reached. *)
Record Reader : Type := mkReader {
  Comma : ascii;
  FieldCount : Z;
  r : bytes;
  buf : bytes
}.

Definition NewReader (input : bytes) : Reader := mkReader COMMA 0 input [].

(** The inner loop of [readRecord] over [buf[start:]]: it follows the
    quotes to learn whether the text read so far ends inside a quoted
    field. *)
Fixpoint quoteScan (bs : bytes) (insideQuoted : bool) : bool :=
  match bs with
  | [] => insideQuoted
  | c :: tl =>
      if Ascii.eqb c DQ then
        if insideQuoted then
          match tl with
          | n :: tl' =>
              if Ascii.eqb n DQ then quoteScan tl' insideQuoted
              else quoteScan tl false
          | [] => quoteScan tl false
          end
        else quoteScan tl true
      else quoteScan tl insideQuoted
  end.

(** The size [NewReader] gives to the buffer of its [bufio.Reader]. *)
Definition readerSize : nat := N.to_nat 8192.

(** The outer loop of [readRecord]: one [ReadSlice] per round.  A round
    that goes on has taken a line with its line feed or a full buffer, so
    [length input + 1] rounds are enough.  The scan starts one byte before
    the new chunk. *)
Fixpoint readChunks (fuel : nat) (input buf : bytes) (insideQuoted : bool)
  : option error * bytes * bytes :=
  match fuel with
  | O => (Some EOF, buf, input)
  | S fuel' =>
      let '(chunk, err, rest) := ReadSlice readerSize input in
      let prevLen := length buf in
      let buf' := if 0 <? length chunk then buf ++ chunk else buf in
      let start := if 0 <? prevLen then prevLen - 1 else prevLen in
      let insideQuoted' :=
        if 0 <? length chunk then quoteScan (skipn start buf') insideQuoted
        else insideQuoted in
      match err with
      | None =>
          if negb insideQuoted' then (None, buf', rest)
          else readChunks fuel' rest buf' insideQuoted'
      | Some ErrBufferFull => readChunks fuel' rest buf' insideQuoted'
      | Some io_EOF =>
          if length buf' =? 0 then (Some EOF, buf', rest)
          else (None, buf', rest)
      end
  end.

(** The end of [readRecord]: the record delimiter, CRLF, LF or CR, is cut
    off the end of [buf]. *)
Definition trimDelimiter (buf : bytes) : bytes :=
  let end_ := length buf in
  if (0 <? end_) && Ascii.eqb (nth (end_ - 1) buf NUL) LF then
    let end_ := end_ - 1 in
    if (0 <? end_) && Ascii.eqb (nth (end_ - 1) buf NUL) CR then
      firstn (end_ - 1) buf
    else firstn end_ buf
  else if (0 <? end_) && Ascii.eqb (nth (end_ - 1) buf NUL) CR then
    firstn (end_ - 1) buf
  else buf.

Definition readRecord (b : Reader) : option error * Reader :=
  match readChunks (S (length (r b))) (r b) [] false with
  | (Some e, buf', rest) => (Some e, mkReader (Comma b) (FieldCount b) rest buf')
  | (None, buf', rest) =>
      (None, mkReader (Comma b) (FieldCount b) rest (trimDelimiter buf'))
  end.

(** The fast path of [Read]: [buf] holds no quote and is cut at every
    delimiter. *)
Fixpoint splitPlain (comma : ascii) (bs : bytes) (i start : nat)
  (starts ends : list nat) : list nat * list nat :=
  match bs with
  | [] => (starts ++ [start], ends ++ [i])
  | c :: tl =>
      if Ascii.eqb c comma then
        splitPlain comma tl (i + 1) (i + 1) (starts ++ [start]) (ends ++ [i])
      else splitPlain comma tl (i + 1) start starts ends
  end.

Definition slices (s : bytes) (starts ends : list Z) : list bytes :=
  map (fun se => slice s (Z.to_nat (fst se)) (Z.to_nat (snd se))) (combine starts ends).

(** The variables of the automaton of [Read]. *)
Record Automaton : Type := mkAutomaton {
  state : State;
  lastWasComma : bool;
  fieldStart : Z;
  out : bytes;
  starts : list Z;
  ends : list Z;
  fieldCount : Z
}.

Definition len (s : bytes) : Z := Z.of_nat (length s).

(** One round of the automaton's [for] loop on [buf[i:] = ch :: tl]; the
    answer is the new variables and [buf[i+1:]] for the [i] the round ends
    with. *)
Definition step (comma : ascii) (ch : ascii) (tl : bytes) (a : Automaton)
  : Automaton * bytes :=
  match state a with
  | STATE_START_FIELD =>
      if Ascii.eqb ch DQ then
        (mkAutomaton STATE_QUOTED false (len (out a)) (out a) (starts a) (ends a)
           (fieldCount a), tl)
      else if Ascii.eqb ch comma then
        let pos := len (out a) in
        (mkAutomaton STATE_START_FIELD true (fieldStart a) (out a)
           (starts a ++ [pos]) (ends a ++ [pos]) (fieldCount a + 1), tl)
      else
        (mkAutomaton STATE_UNQUOTED false (len (out a)) (out a ++ [ch]) (starts a)
           (ends a) (fieldCount a), tl)
  | STATE_UNQUOTED =>
      if Ascii.eqb ch comma then
        (mkAutomaton STATE_START_FIELD true (-1) (out a)
           (starts a ++ [fieldStart a]) (ends a ++ [len (out a)])
           (fieldCount a + 1), tl)
      else
        (mkAutomaton STATE_UNQUOTED false (fieldStart a) (out a ++ [ch]) (starts a)
           (ends a) (fieldCount a), tl)
  | STATE_QUOTED =>
      if negb (Ascii.eqb ch DQ) then
        match IndexByte (ch :: tl) DQ with
        | Some idx =>
            (mkAutomaton STATE_QUOTE_IN_QUOTED false (fieldStart a)
               (out a ++ firstn idx (ch :: tl)) (starts a) (ends a) (fieldCount a),
             skipn (idx + 1) (ch :: tl))
        | None =>
            (mkAutomaton STATE_QUOTED false (fieldStart a) (out a ++ ch :: tl)
               (starts a) (ends a) (fieldCount a), [])
        end
      else
        (mkAutomaton STATE_QUOTE_IN_QUOTED false (fieldStart a) (out a) (starts a)
           (ends a) (fieldCount a), tl)
  | STATE_QUOTE_IN_QUOTED =>
      if Ascii.eqb ch DQ then
        (mkAutomaton STATE_QUOTED false (fieldStart a) (out a ++ [DQ]) (starts a)
           (ends a) (fieldCount a), tl)
      else if Ascii.eqb ch comma then
        (mkAutomaton STATE_START_FIELD true (-1) (out a)
           (starts a ++ [fieldStart a]) (ends a ++ [len (out a)])
           (fieldCount a + 1), tl)
      else
        (mkAutomaton STATE_UNQUOTED false (len (out a)) (out a ++ [ch])
           (starts a ++ [fieldStart a]) (ends a ++ [len (out a)])
           (fieldCount a + 1), tl)
  | STATE_END_FIELD =>
      (mkAutomaton STATE_END_FIELD false (fieldStart a) (out a) (starts a) (ends a)
         (fieldCount a), tl)
  end.

(** The automaton's loop; every round moves past at least one byte, so
    [length buf] rounds are enough. *)
Fixpoint run (fuel : nat) (comma : ascii) (bs : bytes) (a : Automaton) : Automaton :=
  match fuel, bs with
  | S fuel', ch :: tl =>
      let (a', rest) := step comma ch tl a in run fuel' comma rest a'
  | _, _ => a
  end.

(** The last field, after the loop. *)
Definition finish (a : Automaton) : Automaton :=
  let open :=
    match state a with
    | STATE_QUOTED | STATE_QUOTE_IN_QUOTED | STATE_UNQUOTED => true
    | _ => false
    end in
  if negb (fieldStart a =? -1)%Z && open then
    mkAutomaton (state a) (lastWasComma a) (fieldStart a) (out a)
      (starts a ++ [fieldStart a]) (ends a ++ [len (out a)]) (fieldCount a + 1)
  else if lastWasComma a then
    let pos := len (out a) in
    mkAutomaton (state a) (lastWasComma a) (fieldStart a) (out a)
      (starts a ++ [pos]) (ends a ++ [pos]) (fieldCount a + 1)
  else a.

(** The field count is learnt from the first record; a shorter record is
    filled up with empty fields. *)
Definition pad (b : Reader) (fieldCount : Z) (fields : list bytes)
  : list bytes * Reader :=
  let FieldCount' := if (FieldCount b =? 0)%Z then fieldCount else FieldCount b in
  let b' := mkReader (Comma b) FieldCount' (r b) (buf b) in
  if (fieldCount <? FieldCount')%Z then
    (fields ++ repeat [] (Z.to_nat (FieldCount' - fieldCount)), b')
  else (fields, b').

Definition Read (b : Reader) : result * Reader :=
  match readRecord b with
  | (Some e, b) => (Err e, b)
  | (None, b) =>
      match IndexByte (buf b) DQ with
      | None =>
          let (starts, ends) := splitPlain (Comma b) (buf b) 0 0 [] [] in
          let fieldCount := Z.of_nat (length starts) in
          let fields :=
            slices (buf b) (map Z.of_nat starts) (map Z.of_nat ends) in
          let (fields, b) := pad b fieldCount fields in
          (Rec fields, b)
      | Some _ =>
          let a := run (length (buf b)) (Comma b) (buf b)
                     (mkAutomaton STATE_START_FIELD false (-1) [] [] [] 0) in
          let a := finish a in
          let fields :=
            if 0 <? length (starts a) then slices (out a) (starts a) (ends a)
            else [] in
          let (fields, b) := pad b (fieldCount a) fields in
          (Rec fields, b)
      end
  end.

End RecordReader.

(** ** LineReader: csvc.go *)

Module LineReader.

Inductive error : Type :=
| EOF
| ErrFieldCount.

Inductive result : Type :=
| Rec (record : list bytes)
| Err (e : error).

(** [Comma] and [Comment] are runes, [FieldsPerRecord] an int; [rd] is
    what the [bufio.Reader] has not yet delivered: the bytes in its buffer
    and those still in the stream, which ends with [io.EOF], the only
    error [ReadLine] then returns.  The stream is taken not to be a
    [bufio.Reader] itself, so that [bufio.NewReader] gives it a buffer of
    [defaultBufSize] bytes. *)
Record Reader : Type := mkReader {
  Comma : N;
  Comment : N;
  FieldsPerRecord : Z;
  LazyQuotes : bool;
  rd : bytes;
  numLine : nat;
  fieldIndexes : list nat
}.

Definition defaultDelimiter : N := 44.
Definition defaultComment : N := 35.
Definition defaultLazyQuotes : bool := false.

(** [NewReader] leaves [FieldsPerRecord] at Go's zero value. *)
Definition NewReader (input : bytes) : Reader :=
  mkReader defaultDelimiter defaultComment 0 defaultLazyQuotes input 0 [].

(** The conversion [byte(rune)] keeps the low eight bits. *)
Definition byte (rune : N) : ascii := ascii_of_N (rune mod 256).

(** The loop of [readLine]: the pieces [ReadLine] returns are put
    together until one comes without [isPrefix]; an error, which over
    such a stream is [io.EOF], ends the loop, and what was put together
    is dropped.  A round that goes on has taken a full buffer, or all of
    it but a carriage return, so [length rd + 1] rounds are enough. *)
Fixpoint readPieces (size fuel : nat) (rd line : bytes) : (bytes + error) * bytes :=
  match fuel with
  | O => (inr EOF, rd)
  | S fuel' =>
      let '(l, isPrefix, err, rest) := ReadLine size rd in
      match err with
      | Some _ => (inr EOF, rest)
      | None =>
          let line := line ++ l in
          if isPrefix then readPieces size fuel' rest line else (inl line, rest)
      end
  end.

(** [readLine]; [numLine] is counted up when a line is returned. *)
Definition readLine (r : Reader) : (bytes + error) * Reader :=
  match readPieces defaultBufSize (S (length (rd r))) (rd r) [] with
  | (inr err, rest) =>
      (inr err, mkReader (Comma r) (Comment r) (FieldsPerRecord r) (LazyQuotes r) rest
                  (numLine r) (fieldIndexes r))
  | (inl line, rest) =>
      (inl line, mkReader (Comma r) (Comment r) (FieldsPerRecord r) (LazyQuotes r) rest
                   (numLine r + 1) (fieldIndexes r))
  end.

(** The first loop of [Read] over [line[i:]]: the boundaries of the
    fields, as pairs of indexes, and the start of the last field. *)
Fixpoint findBounds (comma : ascii) (bs : bytes) (i : nat) (inQuotes : bool)
  (fieldStart : nat) (fieldIndexes : list nat) {struct bs} : list nat * nat :=
  match bs with
  | [] => (fieldIndexes, fieldStart)
  | c :: tl =>
      if Ascii.eqb c DQ then
        if inQuotes then
          match tl with
          | n :: tl' =>
              if Ascii.eqb n DQ then
                findBounds comma tl' (i + 2) inQuotes fieldStart fieldIndexes
              else findBounds comma tl (i + 1) false fieldStart fieldIndexes
          | [] => findBounds comma tl (i + 1) false fieldStart fieldIndexes
          end
        else findBounds comma tl (i + 1) true fieldStart fieldIndexes
      else if Ascii.eqb c comma then
        if negb inQuotes then
          findBounds comma tl (i + 1) inQuotes (i + 1) (fieldIndexes ++ [fieldStart; i])
        else findBounds comma tl (i + 1) inQuotes fieldStart fieldIndexes
      else findBounds comma tl (i + 1) inQuotes fieldStart fieldIndexes
  end.

(** The body of the second loop of [Read]: surrounding quotes are taken
    off and doubled quotes replaced. *)
Definition unquote (field : bytes) : bytes :=
  if (2 <=? length field) && Ascii.eqb (nth 0 field NUL) DQ
     && Ascii.eqb (nth (length field - 1) field NUL) DQ
  then ReplaceAll (slice field 1 (length field - 1))
  else field.

Fixpoint extract (line : bytes) (fieldIndexes : list nat) : list bytes :=
  match fieldIndexes with
  | start :: end_ :: tl => unquote (slice line start end_) :: extract line tl
  | _ => []
  end.

(** [Read] from the reset of [fieldIndexes] to the record. *)
Definition parseLine (comma : ascii) (line : bytes) : list nat * list bytes :=
  let (fieldIndexes, fieldStart) := findBounds comma line 0 false 0 [] in
  let fieldIndexes :=
    if fieldStart <=? length line then fieldIndexes ++ [fieldStart; length line]
    else fieldIndexes in
  let fieldIndexes :=
    if (0 <? length line) && Ascii.eqb (nth (length line - 1) line NUL) comma
    then fieldIndexes ++ [length line; length line]
    else fieldIndexes in
  (fieldIndexes, extract line fieldIndexes).

Definition skipped (r : Reader) (line : bytes) : bool :=
  match line with
  | [] => true
  | c :: _ => negb (Comment r =? 0)%N && Ascii.eqb c (byte (Comment r))
  end.

(** [Read] from the reset of [fieldIndexes] to its end, for a line that is
    neither empty nor a comment. *)
Definition readFields (r : Reader) (line : bytes) : result * Reader :=
  let (bounds, record) := parseLine (byte (Comma r)) line in
  let r := mkReader (Comma r) (Comment r) (FieldsPerRecord r) (LazyQuotes r)
             (rd r) (numLine r) bounds in
  if (0 <? FieldsPerRecord r)%Z then
    if negb (Z.of_nat (length record) =? FieldsPerRecord r)%Z then
      (Err ErrFieldCount, r)
    else (Rec record, r)
  else if (FieldsPerRecord r =? 0)%Z then
    (Rec record,
     mkReader (Comma r) (Comment r) (Z.of_nat (length record)) (LazyQuotes r)
       (rd r) (numLine r) (fieldIndexes r))
  else (Rec record, r).

(** [Read].  It calls itself after an empty or a comment line; every call
    takes a line off the input, so [fuel] above the length of the input is
    never used up. *)
Fixpoint ReadFrom (fuel : nat) (r : Reader) : result * Reader :=
  match readLine r with
  | (inr err, r) => (Err err, r)
  | (inl line, r) =>
      let line := TrimSpace line in
      if skipped r line then
        match fuel with
        | S fuel' => ReadFrom fuel' r
        | O => (Err EOF, r)
        end
      else readFields r line
  end.

Definition Read (r : Reader) : result * Reader := ReadFrom (length (rd r)) r.

(** The [for] loop of [ReadAll]: the records up to [io.EOF], or the first
    other error in place of them.  A round of the loop that goes on has
    taken a line off the input; [None] says that [fuel] rounds were not
    enough. *)
Fixpoint ReadAllFrom (fuel : nat) (r : Reader) (records : list (list bytes))
  : option ((list (list bytes) + error) * Reader) :=
  match fuel with
  | O => None
  | S fuel' =>
      match Read r with
      | (Err EOF, r) => Some (inl records, r)
      | (Err err, r) => Some (inr err, r)
      | (Rec record, r) => ReadAllFrom fuel' r (records ++ [record])
      end
  end.

Definition ReadAll (r : Reader) : option ((list (list bytes) + error) * Reader) :=
  ReadAllFrom (S (length (rd r))) r [].

End LineReader.

(** ** Records as text

    The written form of a logical record, used to state what the readers
    return: a field is written bare or between quotes with its quotes
    doubled, fields are joined by the delimiter. *)

Section Written.

Variables comma quote : ascii.

Definition escape (s : bytes) : bytes :=
  flat_map (fun c => if Ascii.eqb c quote then [quote; quote] else [c]) s.

Definition quoted (s : bytes) : bytes := quote :: escape s ++ [quote].

(** A byte that is neither delimiter, quote nor line ending. *)
Definition ordinary (c : ascii) : bool :=
  negb (Ascii.eqb c comma) && negb (Ascii.eqb c quote)
  && negb (Ascii.eqb c LF) && negb (Ascii.eqb c CR).

Definition bare (s : bytes) : bool := forallb ordinary s.

(** Text without quotes and line endings; delimiters may occur. *)
Definition plain (s : bytes) : bool :=
  forallb (fun c => negb (Ascii.eqb c quote) && negb (Ascii.eqb c LF)
                    && negb (Ascii.eqb c CR)) s.

(** A field as written: whether it is quoted, and its value. *)
Definition written : Type := (bool * bytes)%type.

Definition encodeField (f : written) : bytes :=
  if fst f then quoted (snd f) else snd f.

(** A value may be written bare only when all its bytes are ordinary. *)
Definition wellWritten (f : written) : bool := fst f || bare (snd f).

Fixpoint encodeRecord (fs : list written) : bytes :=
  match fs with
  | [] => []
  | f :: t =>
      match t with
      | [] => encodeField f
      | _ => encodeField f ++ comma :: encodeRecord t
      end
  end.

Definition values (fs : list written) : list bytes := map snd fs.

(** Fields that are each followed by the delimiter: the start of a record
    whose last field is still to come. *)
Definition encodeFields (fs : list written) : bytes :=
  flat_map (fun f => encodeField f ++ [comma]) fs.

(** Line feeds inside the values of a record. *)
Definition lineFeeds (fs : list written) : nat :=
  count_occ ascii_dec (concat (values fs)) LF.

(** The delimiter, the quote and the line endings are four different
    things. *)
Definition sane : Prop :=
  comma <> quote /\ quote <> LF /\ quote <> CR /\ comma <> LF /\ comma <> CR.

End Written.

(** How a record ends in the input. *)
Inductive Ending : Type :=
| EndLF        (* a line feed *)
| EndCRLF      (* a carriage return and a line feed *)
| EndCR        (* a carriage return alone *)
| EndEOF.      (* nothing: the input stops *)

Definition ending (e : Ending) : bytes :=
  match e with
  | EndLF => [LF]
  | EndCRLF => [CR; LF]
  | EndCR => [CR]
  | EndEOF => []
  end.

(** The index pairs of consecutive fields laid end to end from [start]. *)
Fixpoint bounds (start : nat) (vs : list bytes) : list nat :=
  match vs with
  | [] => []
  | v :: t => start :: (start + length v) :: bounds (start + length v) t
  end.

(** The index pairs of fields that stand in a line one delimiter apart,
    the first of them at [start]. *)
Fixpoint spans (start : nat) (es : list bytes) : list nat :=
  match es with
  | [] => []
  | e :: t => start :: (start + length e) :: spans (start + length e + 1) t
  end.

(** The column reached after the bytes [s], read from column [col]: every
    byte is one column, and a line feed starts a new line at column 1. *)
Fixpoint columnAfter (col : nat) (s : bytes) : nat :=
  match s with
  | [] => col
  | c :: t => columnAfter (if Ascii.eqb c LF then 1 else col + 1) t
  end.

(** A document: records as written, each with its ending. *)
Definition document : Type := list (list written * Ending).

Fixpoint encodeDoc (comma quote : ascii) (d : document) : bytes :=
  match d with
  | [] => []
  | (fs, e) :: t => encodeRecord comma quote fs ++ ending e ++ encodeDoc comma quote t
  end.

(** The lines a document spans: the line feeds inside its values and one
    line for every ending. *)
Fixpoint docLines (d : document) : nat :=
  match d with
  | [] => 0
  | (fs, e) :: t =>
      lineFeeds fs + match e with EndEOF => 0 | _ => 1 end + docLines t
  end.

(** ** States and outcomes of the byte-level reader *)

Module FastReaderSpec.
Import FastReader.

(** What can follow a closing quote: not another quote, and at the end of
    the input the source must say [io.EOF]. *)
Definition afterQuote (quote : ascii) (k : bytes) (srcEnd : error) : Prop :=
  match k with
  | [] => srcEnd = EOF
  | c :: _ => c <> quote
  end.

(** What can follow an ending: a lone carriage return is not followed by a
    line feed, and the input stops only where the source says [io.EOF]. *)
Definition follows (e : Ending) (rest : bytes) (srcEnd : error) : Prop :=
  match e with
  | EndLF | EndCRLF => True
  | EndCR =>
      match rest with
      | [] => srcEnd = EOF
      | c :: _ => c <> LF
      end
  | EndEOF => rest = [] /\ srcEnd = EOF
  end.

(** The reader once the record is complete: a line ending moves to the
    next line, the end of the input finishes the reader. *)
Definition finalize (e : Ending) (r : Reader) : Reader :=
  match e with
  | EndEOF => set_finished true r
  | _ => set_line (line r + 1) r
  end.

(** The errors [Read] can return, with the state they leave. *)
Definition errorShape (e : error) (r' : Reader) : Prop :=
  (e = EOF /\ finished r' = true)
  \/ (exists code, e = SourceError code)
  \/ (exists col, 1 <= col /\ e = ParseError (line r') col ErrUnterminatedQuote
                  /\ finished r' = true)
  \/ (exists col, 1 <= col /\ e = ParseError (line r') col ErrBareQuote).

(** The state of the loop of [Read]: the fields closed so far are [vs], laid
    end to end at the start of [dataBuf], and [cur] is the field being
    read. *)
Definition layout (r : Reader) (l : Locals) (vs : list bytes) (cur : bytes) : Prop :=
  fieldBounds r = bounds 0 vs
  /\ dataBuf r = concat vs ++ cur
  /\ fieldStart l = length (concat vs).

(** Whether the record being read has anything in it yet: the test [Read]
    makes at the end of the input. *)
Definition started (r : Reader) (l : Locals) : bool :=
  (0 <? length (fieldBounds r)) || (0 <? length (dataBuf r)) || sawQuotedField l.

(** Where an error of the loop points, for a run over [bs] that started on
    line [line0] at column [col0]: an unterminated quote is reported at the
    end of the input, a bare quote at the quote itself, the bytes after it
    left in the source. *)
Definition located (quote : ascii) (bs : bytes) (line0 col0 : nat) (e : error)
  (r' : Reader) : Prop :=
  match e with
  | ParseError ln col ErrUnterminatedQuote =>
      ln = line0 + count_occ ascii_dec bs LF
      /\ col = columnAfter col0 bs
      /\ src r' = [] /\ finished r' = true
  | ParseError ln col ErrBareQuote =>
      exists pre rest,
        bs = pre ++ quote :: rest /\ src r' = rest
        /\ ln = line0 + count_occ ascii_dec pre LF
        /\ col = columnAfter col0 pre
  | _ => True
  end.

(** A document the reader can take record by record: every record is well
    written, a lone carriage return is not followed by a line feed, and only
    the last record may end with the input. *)
Fixpoint readable (comma quote : ascii) (d : document) : Prop :=
  match d with
  | [] => True
  | (fs, e) :: t =>
      fs <> [] /\ forallb (wellWritten comma quote) fs = true
      /\ follows e (encodeDoc comma quote t) EOF
      /\ (e = EndEOF -> t = [] /\ encodeRecord comma quote fs <> [])
      /\ readable comma quote t
  end.

End FastReaderSpec.

(** ** Quotes and cuts in the reader built on [readRecord] *)

Module RecordReaderSpec.
Import RecordReader.

(** Where a text stands with regard to quotes: outside a quoted field,
    inside one, or right after a quote met inside one, which closes the
    field unless another quote follows. *)
Inductive QuoteState : Type :=
| Outside
| Inside
| AfterQuote.

Definition quoteStep (st : QuoteState) (c : ascii) : QuoteState :=
  match st with
  | Outside => if Ascii.eqb c DQ then Inside else Outside
  | Inside => if Ascii.eqb c DQ then AfterQuote else Inside
  | AfterQuote => if Ascii.eqb c DQ then Inside else Outside
  end.

Definition quoteRun (st : QuoteState) (s : bytes) : QuoteState :=
  fold_left quoteStep s st.

Definition ofBool (insideQuoted : bool) : QuoteState :=
  if insideQuoted then Inside else Outside.

Definition isInside (st : QuoteState) : bool :=
  match st with
  | Inside => true
  | _ => false
  end.

(** Every line feed of [s] stands inside quotes, for a text that starts in
    the state [st]. *)
Definition quotedLF (st : QuoteState) (s : bytes) : Prop :=
  forall p1 p2, s = p1 ++ LF :: p2 -> quoteRun st p1 = Inside.

(** The starts and the ends of fields that lie [gap] bytes apart, the first
    of them at [start]. *)
Fixpoint cutStarts (gap start : nat) (vs : list bytes) : list nat :=
  match vs with
  | [] => []
  | v :: t => start :: cutStarts gap (start + length v + gap) t
  end.

Fixpoint cutEnds (gap start : nat) (vs : list bytes) : list nat :=
  match vs with
  | [] => []
  | v :: t => (start + length v) :: cutEnds gap (start + length v + gap) t
  end.

(** A field is open in these states of the automaton. *)
Definition openField (st : State) : bool :=
  match st with
  | STATE_QUOTED | STATE_QUOTE_IN_QUOTED | STATE_UNQUOTED => true
  | _ => false
  end.

(** What the loop of the automaton keeps: a start for every end, the count
    of both in [fieldCount], a start for the field that is open, and a
    state other than [STATE_END_FIELD], which no round enters. *)
Definition consistent (a : Automaton) : Prop :=
  length (starts a) = length (ends a)
  /\ fieldCount a = Z.of_nat (length (starts a))
  /\ (openField (state a) = true -> (0 <= fieldStart a)%Z)
  /\ state a <> STATE_END_FIELD.

(** The automaton has a field, closed or open. *)
Definition begun (a : Automaton) : Prop :=
  (1 <= fieldCount a)%Z \/ (openField (state a) = true /\ (0 <= fieldStart a)%Z).

(** [Read] between [readRecord] and the filling up of the record: the
    fields and their count, by the fast path or by the automaton. *)
Definition parsed (b1 : Reader) : list bytes * Z :=
  match IndexByte (buf b1) DQ with
  | None =>
      let (starts, ends) := splitPlain (Comma b1) (buf b1) 0 0 [] [] in
      (slices (buf b1) (map Z.of_nat starts) (map Z.of_nat ends),
       Z.of_nat (length starts))
  | Some _ =>
      let a := finish (run (length (buf b1)) (Comma b1) (buf b1)
                         (mkAutomaton STATE_START_FIELD false (-1) [] [] [] 0)) in
      (if 0 <? length (starts a) then slices (out a) (starts a) (ends a) else [],
       fieldCount a)
  end.

(** The automaton between two fields: the fields closed so far lie end to
    end in [out]. *)
Definition between (lastWasComma : bool) (out : bytes) (starts ends : list Z)
  (fieldCount : Z) : Automaton :=
  mkAutomaton STATE_START_FIELD lastWasComma (-1) out starts ends fieldCount.

(** The automaton after the fields [vs], read from [a]. *)
Definition afterFields (a : Automaton) (vs : list bytes) : Automaton :=
  between (match vs with [] => lastWasComma a | _ => true end)
    (out a ++ concat vs)
    (starts a ++ map Z.of_nat (cutStarts 0 (length (out a)) vs))
    (ends a ++ map Z.of_nat (cutEnds 0 (length (out a)) vs))
    (fieldCount a + Z.of_nat (length vs)).

(** Text without quotes. *)
Definition noDQ (s : bytes) : bool := forallb (fun c => negb (Ascii.eqb c DQ)) s.

(** A text cut at every delimiter; [cur] is the field that was being read
    when the text started. *)
Fixpoint splitFrom (comma : ascii) (cur : bytes) (bs : bytes) : list bytes :=
  match bs with
  | [] => [cur]
  | c :: tl =>
      if Ascii.eqb c comma then cur :: splitFrom comma [] tl
      else splitFrom comma (cur ++ [c]) tl
  end.

(** Fields joined by the delimiter. *)
Fixpoint join (comma : ascii) (fields : list bytes) : bytes :=
  match fields with
  | [] => []
  | f :: t =>
      match t with
      | [] => f
      | _ => f ++ comma :: join comma t
      end
  end.

End RecordReaderSpec.

(** ** Lines *)

(** Text that does not start with the byte [c]. *)
Definition startsWithout (c : ascii) (k : bytes) : Prop :=
  match k with
  | x :: _ => x <> c
  | [] => True
  end.

Definition noLF (s : bytes) : bool := forallb (fun c => negb (Ascii.eqb c LF)) s.

(** A blank line: white space only (and no line feed, which ends a line). *)
Definition blank (s : bytes) : bool := forallb isSpace s && noLF s.

(** A line without the carriage return at its end. *)
Definition dropCR (l : bytes) : bytes :=
  if endsWith l CR then removelast l else l.

(** Every line of the text fits a buffer of [size] bytes with its line
    feed, and what follows the last line feed is shorter than the buffer;
    [run] bytes of the line at hand came before the text. *)
Fixpoint linesFit (size run : nat) (bs : bytes) : bool :=
  match bs with
  | [] => run <? size
  | c :: tl =>
      if Ascii.eqb c LF then (run <? size) && linesFit size 0 tl
      else linesFit size (S run) tl
  end.

(** A byte with which a white space character starts: a white space byte
    of ASCII, or the first byte of one of the longer characters. *)
Definition startsSpace (c : ascii) : bool :=
  isSpace c || Ascii.eqb c "194"%char || Ascii.eqb c "225"%char
  || Ascii.eqb c "226"%char || Ascii.eqb c "227"%char.

(** ** Inputs and iterated reads *)



Definition she_said : bytes :=
  [DQ] ++ str "She said " ++ [DQ; DQ] ++ str "Hello" ++ [DQ; DQ] ++ str " and "
  ++ [DQ; DQ] ++ str "Goodbye" ++ [DQ; DQ; DQ].

Definition she_said_value : bytes :=
  str "She said " ++ [DQ] ++ str "Hello" ++ [DQ] ++ str " and " ++ [DQ]
  ++ str "Goodbye" ++ [DQ].

(** Whether a text holds two quotes in a row. *)
Fixpoint hasEscape (s : bytes) : bool :=
  match s with
  | a :: t =>
      match t with
      | b :: _ => (Ascii.eqb a DQ && Ascii.eqb b DQ) || hasEscape t
      | [] => false
      end
  | [] => false
  end.

(** Two readers of csvc.go that differ in [LazyQuotes] at most. *)
Definition sameButLazyQuotes (r1 r2 : LineReader.Reader) : Prop :=
  LineReader.Comma r1 = LineReader.Comma r2
  /\ LineReader.Comment r1 = LineReader.Comment r2
  /\ LineReader.FieldsPerRecord r1 = LineReader.FieldsPerRecord r2
  /\ LineReader.rd r1 = LineReader.rd r2
  /\ LineReader.numLine r1 = LineReader.numLine r2
  /\ LineReader.fieldIndexes r1 = LineReader.fieldIndexes r2.

(** The reader after [k] more calls of [Read]. *)
Definition readerAfter (k : nat) (r : LineReader.Reader) : LineReader.Reader :=
  Nat.iter k (fun x => snd (LineReader.Read x)) r.

(** The byte-level reader after [k] more calls of [Read]. *)
Definition fastReaderAfter (k : nat) (r : FastReader.Reader) : FastReader.Reader :=
  Nat.iter k (fun x => snd (FastReader.Read x)) r.

(** ** Facts on slices and field bounds *)

Lemma skipn_length_app {A : Type} (p q : list A) : skipn (length p) (p ++ q) = q.
Proof. induction p as [|x p IH]; simpl; auto. Qed.

Lemma firstn_length_app {A : Type} (p q : list A) : firstn (length p) (p ++ q) = p.
Proof. induction p as [|x p IH]; simpl; congruence. Qed.

Lemma slice_middle (p v q : bytes) :
  slice (p ++ v ++ q) (length p) (length p + length v) = v.
Proof.
  unfold slice. rewrite skipn_length_app.
  replace (length p + length v - length p) with (length v) by lia.
  apply firstn_length_app.
Qed.

Lemma bounds_length (vs : list bytes) (start : nat) :
  length (bounds start vs) = 2 * length vs.
Proof.
  revert start; induction vs as [|v t IH]; intro start; simpl; auto.
  rewrite IH. lia.
Qed.

Lemma bounds_app (us vs : list bytes) (start : nat) :
  bounds start (us ++ vs) = bounds start us ++ bounds (start + length (concat us)) vs.
Proof.
  revert start; induction us as [|u t IH]; intro start; simpl.
  - now rewrite Nat.add_0_r.
  - rewrite IH, length_app, Nat.add_assoc. reflexivity.
Qed.

Lemma slices_of_bounds (vs : list bytes) :
  forall (p : bytes) (pre : list nat) (k : nat),
    length pre = 2 * k ->
    map (fun i => slice (p ++ concat vs)
                    (nth (2 * i) (pre ++ bounds (length p) vs) 0)
                    (nth (2 * i + 1) (pre ++ bounds (length p) vs) 0))
        (seq k (length vs)) = vs.
Proof.
  induction vs as [|v t IH]; intros p pre k Hpre;
    cbn [bounds concat length seq map]; auto.
  f_equal.
  - rewrite !app_nth2 by lia.
    replace (2 * k - length pre) with 0 by lia.
    replace (2 * k + 1 - length pre) with 1 by lia.
    cbn [nth]. apply slice_middle.
  - specialize (IH (p ++ v) (pre ++ [length p; length p + length v]) (S k)).
    rewrite <- !app_assoc, !length_app in IH. cbn [app length] in IH.
    apply IH. lia.
Qed.

Module FastReaderFacts.
Import FastReader FastReaderSpec.

(** [peekByte] shows what [readByte] would take, and [readByte] takes
    exactly the head of the bytes at hand. *)
Lemma readByte_peekByte (r : Reader) :
  peekByte r = fst (readByte r)
  /\ src (snd (readByte r)) = tl (src r).
Proof. unfold peekByte, readByte. destruct r as [[|b s] e c q d fb fin ln]; auto. Qed.

Lemma buildRecord_bounds (vs : list bytes) s e c q fin ln :
  buildRecord (mkReader s e c q (concat vs) (bounds 0 vs) fin ln) = vs.
Proof.
  unfold buildRecord; cbn [dataBuf fieldBounds].
  rewrite bounds_length.
  replace (2 * length vs / 2) with (length vs)
    by (rewrite Nat.mul_comm, Nat.div_mul; auto).
  exact (slices_of_bounds vs [] [] 0 eq_refl).
Qed.

Ltac reader_eq :=
  repeat match goal with r : Reader |- _ => destruct r end;
  cbv beta iota delta
    [closeField set_src set_dataBuf set_fieldBounds set_finished set_line
     src srcFail Comma Quote dataBuf fieldBounds finished line
     inQuotes sawQuotedField column fieldStart];
  rewrite ?app_nil_r, ?Nat.add_0_r, <- ?app_assoc, ?length_app;
  cbn [app length];
  first [ reflexivity | f_equal; first [ reflexivity | lia ] ].

(** Two runs of the loop agree when they start from equal states. *)
Ltac same_loop := f_equal; reader_eq.


(** Two finished records agree when the readers they are built from do. *)
Ltac same_record e :=
  cbv zeta;
  match goal with
  | |- (Rec (buildRecord (finalize e ?A)), _) = (Rec (buildRecord (finalize e ?B)), _) =>
      replace A with B; [reflexivity|]
  end.

Section Scan.

Variables comma quote : ascii.
Hypothesis Hsane : sane comma quote.

Let Hcq : Ascii.eqb quote comma = false.
Proof. apply Ascii.eqb_neq. destruct Hsane as (H & _). congruence. Qed.
Let Hql : Ascii.eqb quote LF = false.
Proof. apply Ascii.eqb_neq. apply Hsane. Qed.
Let Hqr : Ascii.eqb quote CR = false.
Proof. apply Ascii.eqb_neq. apply Hsane. Qed.
Let Hcl : Ascii.eqb LF comma = false.
Proof. apply Ascii.eqb_neq. destruct Hsane as (_ & _ & _ & H & _). congruence. Qed.
Let Hcr : Ascii.eqb CR comma = false.
Proof. apply Ascii.eqb_neq. destruct Hsane as (_ & _ & _ & _ & H). congruence. Qed.

Lemma bare_no_LF (s : bytes) :
  bare comma quote s = true -> count_occ ascii_dec s LF = 0.
Proof.
  induction s as [|c s IH]; cbn [bare forallb count_occ]; auto.
  intro H. apply andb_prop in H as [Hc Hs].
  destruct (ascii_dec c LF) as [->|_]; [|now apply IH].
  unfold ordinary in Hc. rewrite (Ascii.eqb_refl LF) in Hc.
  rewrite andb_false_r in Hc. discriminate.
Qed.

(** A run of ordinary bytes outside quotes is appended to [dataBuf]. *)
Lemma scan_bare (s : bytes) : forall k r saw col fs,
  bare comma quote s = true ->
  readLoop comma quote (s ++ k) r (mkLocals false saw col fs) =
  readLoop comma quote k (set_dataBuf (dataBuf r ++ s) r)
    (mkLocals false saw (col + length s) fs).
Proof.
  induction s as [|c s IH]; intros k r saw col fs H.
  - cbn [app length]. same_loop.
  - cbn [bare forallb] in H. apply andb_prop in H as [Hc Hs].
    unfold ordinary in Hc.
    apply andb_prop in Hc as [Hc Hc4]. apply andb_prop in Hc as [Hc Hc3].
    apply andb_prop in Hc as [Hc1 Hc2].
    apply negb_true_iff in Hc1, Hc2, Hc3, Hc4.
    cbn [app readLoop inQuotes column sawQuotedField fieldStart].
    rewrite Hc1, Hc2, Hc3, Hc4.
    rewrite (IH k _ saw (col + 1) fs Hs).
    same_loop.
Qed.

(** Inside quotes every byte but the quote is data, a doubled quote is
    one quote, and a single quote closes the field. *)
Lemma scan_quoted (s : bytes) : forall k r saw col fs,
  afterQuote quote k (srcEnd r) ->
  exists col',
    readLoop comma quote (escape quote s ++ quote :: k) r (mkLocals true saw col fs) =
    readLoop comma quote k
      (set_dataBuf (dataBuf r ++ s) (set_line (line r + count_occ ascii_dec s LF) r))
      (mkLocals false saw col' fs).
Proof.
  induction s as [|c s IH]; intros k r saw col fs Hk.
  - exists (col + 1).
    cbn [escape flat_map app readLoop inQuotes column sawQuotedField fieldStart
         count_occ].
    rewrite Ascii.eqb_refl.
    destruct k as [|n k'].
    + cbn [afterQuote] in Hk. rewrite Hk. cbn [is_EOF]. same_loop.
    + cbn [afterQuote] in Hk. apply Ascii.eqb_neq in Hk. rewrite Hk.
      same_loop.
  - cbn [escape flat_map]. fold (escape quote s).
    destruct (Ascii.eqb c quote) eqn:Hc.
    + apply Ascii.eqb_eq in Hc. subst c.
      cbn [app readLoop inQuotes column sawQuotedField fieldStart].
      rewrite Ascii.eqb_refl.
      destruct (IH k (set_dataBuf (dataBuf r ++ [quote]) r) saw (col + 2) fs)
        as [col' E].
      { destruct k; cbn [afterQuote] in *; auto. }
      exists col'. rewrite E. f_equal.
      cbn [count_occ]. destruct (ascii_dec quote LF) as [e|_].
      { exfalso. rewrite e, Ascii.eqb_refl in Hql. discriminate. }
      reader_eq.
    + cbn [app readLoop inQuotes column sawQuotedField fieldStart].
      rewrite Hc.
      destruct (Ascii.eqb c LF) eqn:Hl.
      * apply Ascii.eqb_eq in Hl. subst c.
        destruct (IH k (set_dataBuf (dataBuf r ++ [LF]) (set_line (line r + 1) r))
                    saw 1 fs) as [col' E].
        { destruct k; cbn [afterQuote] in *; auto. }
        exists col'. rewrite E. f_equal.
        cbn [count_occ]. destruct (ascii_dec LF LF) as [_|n]; [|congruence].
        reader_eq.
      * destruct (IH k (set_dataBuf (dataBuf r ++ [c]) r) saw (col + 1) fs)
          as [col' E].
        { destruct k; cbn [afterQuote] in *; auto. }
        exists col'. rewrite E. f_equal.
        cbn [count_occ]. destruct (ascii_dec c LF) as [e|_].
        { subst c. rewrite Ascii.eqb_refl in Hl. discriminate. }
        reader_eq.
Qed.

(** A written field, read from the start of a field. *)
Lemma scan_field (f : written) : forall k r col,
  wellWritten comma quote f = true ->
  afterQuote quote k (srcEnd r) ->
  exists col',
    readLoop comma quote (encodeField quote f ++ k) r
      (mkLocals false false col (length (dataBuf r))) =
    readLoop comma quote k
      (set_dataBuf (dataBuf r ++ snd f)
         (set_line (line r + count_occ ascii_dec (snd f) LF) r))
      (mkLocals false (fst f) col' (length (dataBuf r))).
Proof.
  intros k r col Hw Hk. destruct f as [[|] v]; unfold encodeField; cbn [fst snd].
  - unfold quoted. cbn [app]. rewrite <- app_assoc.
    cbn [app readLoop inQuotes column sawQuotedField fieldStart].
    rewrite Hcq, Hql, Hqr, Ascii.eqb_refl, Nat.eqb_refl. cbn [andb negb].
    destruct (scan_quoted v k r true (col + 1) (length (dataBuf r)) Hk)
      as [col' E].
    exists col'. exact E.
  - unfold wellWritten in Hw. cbn [fst snd orb] in Hw.
    exists (col + length v).
    rewrite (scan_bare v k r false col (length (dataBuf r)) Hw).
    rewrite (bare_no_LF v Hw). same_loop.
Qed.

(** An ending outside quotes closes the last field and the record. *)
Lemma scan_ending (e : Ending) : forall rest r saw col fs,
  follows e rest (srcEnd r) ->
  (e = EndEOF -> fieldBounds r <> [] \/ dataBuf r <> [] \/ saw = true) ->
  readLoop comma quote (ending e ++ rest) r (mkLocals false saw col fs) =
  (Rec (buildRecord (finalize e (closeField r (mkLocals false saw col fs)))),
   set_src rest (finalize e (closeField r (mkLocals false saw col fs)))).
Proof.
  intros rest r saw col fs Hf Hne.
  destruct e; cbn [ending app readLoop inQuotes column sawQuotedField fieldStart
                   finalize].
  - rewrite Hcl, Ascii.eqb_refl. reflexivity.
  - rewrite Hcr. change (Ascii.eqb CR LF) with false.
    rewrite !Ascii.eqb_refl. reflexivity.
  - rewrite Hcr. change (Ascii.eqb CR LF) with false.
    rewrite !Ascii.eqb_refl.
    destruct rest as [|c rest']; cbn [follows] in Hf.
    + rewrite Hf. reflexivity.
    + apply Ascii.eqb_neq in Hf. rewrite Hf. reflexivity.
  - destruct Hf as [-> Hend].
    cbn [readLoop inQuotes column sawQuotedField fieldStart].
    rewrite Hend. cbn [is_EOF].
    replace ((0 <? length (fieldBounds r)) || (0 <? length (dataBuf r)) || saw)
      with true; [reflexivity|].
    symmetry. destruct (Hne eq_refl) as [H|[H|H]].
    + destruct (fieldBounds r); [congruence|reflexivity].
    + destruct (dataBuf r); [congruence|].
      cbn [length Nat.ltb Nat.leb]. now rewrite orb_true_r.
    + rewrite H. now rewrite orb_true_r.
Qed.

Lemma lineFeeds_cons (f : written) (fs : list written) :
  lineFeeds (f :: fs) = count_occ ascii_dec (snd f) LF + lineFeeds fs.
Proof. unfold lineFeeds, values. cbn [map concat]. apply count_occ_app. Qed.

(** A written record and its ending, read from the start of a field:
    the values are laid end to end in [dataBuf] and [fieldBounds] holds
    their bounds. *)
Lemma scan_record (fs : list written) : forall e rest r col,
  fs <> [] ->
  forallb (wellWritten comma quote) fs = true ->
  follows e rest (srcEnd r) ->
  (e = EndEOF -> fieldBounds r <> [] \/ encodeRecord comma quote fs <> []) ->
  readLoop comma quote (encodeRecord comma quote fs ++ ending e ++ rest) r
    (mkLocals false false col (length (dataBuf r))) =
  let r' :=
    finalize e
      (set_fieldBounds (fieldBounds r ++ bounds (length (dataBuf r)) (values fs))
         (set_dataBuf (dataBuf r ++ concat (values fs))
            (set_line (line r + lineFeeds fs) r))) in
  (Rec (buildRecord r'), set_src rest r').
Proof.
  induction fs as [|f fs IH]; intros e rest r col Hne Hw Hf Hnz; [congruence|].
  cbn [forallb] in Hw. apply andb_prop in Hw as [Hwf Hws].
  destruct fs as [|f' fs'].
  - cbn [encodeRecord].
    destruct (scan_field f (ending e ++ rest) r col Hwf) as [col' E].
    { destruct e; cbn [ending app afterQuote]; cbn [follows] in Hf.
      - intro H; rewrite <- H, Ascii.eqb_refl in Hql; discriminate.
      - intro H; rewrite <- H, Ascii.eqb_refl in Hqr; discriminate.
      - intro H; rewrite <- H, Ascii.eqb_refl in Hqr; discriminate.
      - destruct Hf as [-> Hf]. exact Hf. }
    rewrite E, scan_ending.
    + same_record e. rewrite lineFeeds_cons. unfold lineFeeds, values.
      cbn [map concat bounds count_occ]. reader_eq.
    + exact Hf.
    + intro He. destruct (Hnz He) as [H|H].
      * left. destruct r; exact H.
      * right. destruct f as [[|] v]; cbn [fst snd].
        -- right. reflexivity.
        -- left. cbn [encodeRecord encodeField fst snd] in H.
           destruct r; cbn. destruct v; [congruence|].
           destruct dataBuf0; discriminate.
  - change (encodeRecord comma quote (f :: f' :: fs'))
      with (encodeField quote f ++ comma :: encodeRecord comma quote (f' :: fs')).
    rewrite <- app_assoc. cbn [app].
    destruct (scan_field f
                (comma :: encodeRecord comma quote (f' :: fs') ++ ending e ++ rest)
                r col Hwf) as [col' E].
    { cbn [afterQuote]. destruct Hsane as (H & _). exact H. }
    rewrite E.
    cbn [readLoop inQuotes column sawQuotedField fieldStart].
    rewrite Ascii.eqb_refl.
    match goal with
    | |- readLoop _ _ _ ?r1 (mkLocals _ _ ?c1 _) = _ =>
        specialize (IH e rest r1 c1)
    end.
    rewrite IH; try assumption; try discriminate.
    + same_record e. rewrite (lineFeeds_cons f).
      unfold values. cbn [map concat bounds]. fold (values (f' :: fs')).
      reader_eq.
    + intros _. left. destruct r; cbn. destruct fieldBounds0; discriminate.
Qed.

(** A quote met outside quotes once the field has content, or after a
    quoted field was closed, is a bare quote; the error carries the line
    counter and the column of the quote. *)
Lemma bare_quote_step (tl : bytes) (r : Reader) (l : Locals) :
  inQuotes l = false ->
  length (dataBuf r) <> fieldStart l \/ sawQuotedField l = true ->
  readLoop comma quote (quote :: tl) r l =
  (Err (ParseError (line r) (column l) ErrBareQuote), set_src tl r).
Proof.
  intros Hq Hin. cbn [readLoop]. rewrite Hq, Hcq, Hql, Hqr, Ascii.eqb_refl.
  replace ((length (dataBuf r) =? fieldStart l) && negb (sawQuotedField l))
    with false; [reflexivity|].
  symmetry. destruct Hin as [H|H].
  - apply Nat.eqb_neq in H. now rewrite H.
  - rewrite H. apply andb_false_r.
Qed.

(** Text without quotes and line endings leaves the loop outside quotes,
    on the same line, one column further for every byte. *)
Lemma scan_plain (s : bytes) : forall k r saw col fs,
  plain quote s = true ->
  fs <= length (dataBuf r) ->
  exists r1 saw1 fs1,
    readLoop comma quote (s ++ k) r (mkLocals false saw col fs) =
    readLoop comma quote k r1 (mkLocals false saw1 (col + length s) fs1)
    /\ fs1 <= length (dataBuf r1)
    /\ line r1 = line r /\ finished r1 = finished r.
Proof.
  induction s as [|c s IH]; intros k r saw col fs Hp Hfs.
  - exists r, saw, fs. cbn [app length]. rewrite Nat.add_0_r. auto.
  - cbn [plain forallb] in Hp. apply andb_prop in Hp as [Hc Hs].
    apply andb_prop in Hc as [Hc Hc3]. apply andb_prop in Hc as [Hc1 Hc2].
    apply negb_true_iff in Hc1, Hc2, Hc3.
    cbn [app readLoop inQuotes column sawQuotedField fieldStart].
    destruct (Ascii.eqb c comma) eqn:Hcomma.
    + destruct (IH k (closeField r (mkLocals false saw col fs)) false (col + 1)
                  (length (dataBuf (closeField r (mkLocals false saw col fs)))) Hs)
        as (r1 & saw1 & fs1 & E & H1 & H2 & H3); [lia|].
      exists r1, saw1, fs1. rewrite E. cbn [length].
      replace (col + S (length s)) with (col + 1 + length s) by lia.
      repeat split; auto.
    + rewrite Hc1, Hc2, Hc3.
      destruct (IH k (set_dataBuf (dataBuf r ++ [c]) r) saw (col + 1) fs Hs)
        as (r1 & saw1 & fs1 & E & H1 & H2 & H3).
      { destruct r; cbn [dataBuf set_dataBuf] in *. rewrite length_app. lia. }
      exists r1, saw1, fs1. rewrite E. cbn [length].
      replace (col + S (length s)) with (col + 1 + length s) by lia.
      repeat split; auto.
Qed.

End Scan.

Ltac split_branches H :=
  repeat match type of H with
         | context [if ?b then _ else _] => destruct b eqn:?
         | context [match ?x with _ => _ end] => destruct x eqn:?
         end.

Ltac error_leaf H :=
  inversion H; subst; clear H;
  repeat match goal with r : Reader |- _ => destruct r end;
  unfold errorShape, wrapError, srcEnd, set_src, set_finished in *;
  cbn [line finished srcFail] in *;
  solve [ left; split; reflexivity
        | right; left; eexists; reflexivity
        | right; right; left; eexists; split; [|split; reflexivity]; assumption
        | right; right; right; eexists; split; [|reflexivity]; assumption ].

Lemma readLoop_error (comma quote : ascii) : forall n bs,
  length bs <= n ->
  forall r l e r',
    1 <= column l ->
    readLoop comma quote bs r l = (Err e, r') ->
    errorShape e r'.
Proof.
  induction n as [|n IH]; intros bs Hn r l e r' Hc H.
  - destruct bs; [|cbn in Hn; lia].
    cbn [readLoop] in H. unfold srcEnd in H.
    split_branches H; try discriminate; error_leaf H.
  - destruct bs as [|b tl].
    + cbn [readLoop] in H. unfold srcEnd in H.
      split_branches H; try discriminate; error_leaf H.
    + cbn [length] in Hn. cbn [readLoop] in H. unfold srcEnd in H.
      split_branches H; try discriminate;
        first [ error_leaf H
              | subst; cbn [length] in Hn;
                eapply IH; [| |exact H]; cbn [column length] in *; lia ].
Qed.

Lemma Read_error (r : Reader) (e : error) (r' : Reader) :
  Read r = (Err e, r') -> errorShape e r'.
Proof.
  unfold Read. destruct (finished r) eqn:Hfin.
  - intro H. inversion H; subst. left. auto.
  - intro H. eapply readLoop_error; [apply le_n| |exact H]. cbn [column]. lia.
Qed.

(** A quote right after an ordinary byte of an unquoted field: [Read]
    reports it with the line of the record and the column of the quote. *)
Lemma Read_bare_quote (r : Reader) (pre : bytes) (c : ascii) (rest : bytes) :
  let comma := effective (Comma r) COMMA in
  let quote := effective (Quote r) DQ in
  sane comma quote ->
  finished r = false ->
  plain quote pre = true ->
  ordinary comma quote c = true ->
  src r = pre ++ c :: quote :: rest ->
  fst (Read r) = Err (ParseError (line r) (length pre + 2) ErrBareQuote)
  /\ src (snd (Read r)) = rest.
Proof.
  intros comma quote Hsane Hfin Hp Hc Hsrc.
  unfold Read. rewrite Hfin. fold comma quote.
  assert (Hsrc' : src (set_fieldBounds [] (set_dataBuf [] r)) =
                  pre ++ [c] ++ quote :: rest) by (destruct r; exact Hsrc).
  rewrite Hsrc'.
  destruct (scan_plain comma quote pre ([c] ++ quote :: rest)
              (set_fieldBounds [] (set_dataBuf [] r)) false 1 0 Hp)
    as (r1 & saw1 & fs1 & E & H1 & H2 & H3); [lia|].
  rewrite E.
  assert (Hb : bare comma quote [c] = true) by (cbn; now rewrite Hc).
  rewrite (scan_bare comma quote [c] (quote :: rest) r1 saw1
             (1 + length pre) fs1 Hb).
  rewrite (bare_quote_step comma quote Hsane); auto.
  - cbn [fst snd column]. split.
    + f_equal. f_equal.
      * destruct r1; cbn in *. rewrite H2. destruct r; reflexivity.
      * cbn [length]. lia.
    + destruct r1; reflexivity.
  - left. cbn [fieldStart]. destruct r1; cbn in *. rewrite length_app. cbn. lia.
Qed.

(** A finished reader answers [io.EOF] and stays as it is. *)
Lemma Read_finished (r : Reader) : finished r = true -> Read r = (Err EOF, r).
Proof. intro H. unfold Read. now rewrite H. Qed.

(** After [io.EOF] or an unterminated quote the reader is finished. *)
Lemma Read_finishes (r : Reader) (e : error) (r' : Reader) :
  Read r = (Err e, r') ->
  e = EOF \/ (exists ln col, e = ParseError ln col ErrUnterminatedQuote) ->
  finished r' = true.
Proof.
  intros H He. destruct (Read_error r e r' H)
    as [[_ Hf]|[[code Hc]|[(col & _ & _ & Hf)|(col & _ & Hb)]]]; auto.
  - destruct He as [->|(ln & c & ->)]; discriminate.
  - destruct He as [->|(ln & c & ->)]; discriminate.
Qed.

(** [Read] on a written record: it returns the values, in order, and leaves
    the reader after the ending. *)
Lemma Read_written (r : Reader) (fs : list written) (e : Ending) (rest : bytes) :
  let comma := effective (Comma r) COMMA in
  let quote := effective (Quote r) DQ in
  sane comma quote ->
  finished r = false ->
  fs <> [] ->
  forallb (wellWritten comma quote) fs = true ->
  follows e rest (srcEnd r) ->
  (e = EndEOF -> encodeRecord comma quote fs <> []) ->
  src r = encodeRecord comma quote fs ++ ending e ++ rest ->
  Read r =
  (Rec (values fs),
   finalize e
     (mkReader rest (srcFail r) (Comma r) (Quote r) (concat (values fs))
        (bounds 0 (values fs)) false (line r + lineFeeds fs))).
Proof.
  intros comma quote Hsane Hfin Hne Hw Hf Hnz Hsrc.
  unfold Read. rewrite Hfin. fold comma quote.
  replace (src (set_fieldBounds [] (set_dataBuf [] r)))
    with (encodeRecord comma quote fs ++ ending e ++ rest)
    by (rewrite <- Hsrc; destruct r; reflexivity).
  pose proof (scan_record comma quote Hsane fs e rest
                (set_fieldBounds [] (set_dataBuf [] r)) 1 Hne Hw) as H.
  cbv zeta in H.
  replace (length (dataBuf (set_fieldBounds [] (set_dataBuf [] r)))) with 0 in H
    by (destruct r; reflexivity).
  rewrite H.
  - destruct r as [s0 e0 c0 q0 d0 fb0 fin0 ln0]. cbn [finished] in Hfin. subst fin0.
    clear H. destruct e;
      cbv beta iota delta
        [finalize set_src set_line set_finished set_fieldBounds set_dataBuf
         src srcFail Comma Quote dataBuf fieldBounds finished line];
      cbn [app length]; rewrite buildRecord_bounds; reflexivity.
  - destruct r; exact Hf.
  - intro He. right. exact (Hnz He).
Qed.

(** The same, read off the result and the reader: the record, what is left
    of the input, the line counter and the [finished] flag. *)
Lemma Read_written_fields (r : Reader) (fs : list written) (e : Ending) (rest : bytes) :
  let comma := effective (Comma r) COMMA in
  let quote := effective (Quote r) DQ in
  sane comma quote ->
  finished r = false ->
  fs <> [] ->
  forallb (wellWritten comma quote) fs = true ->
  follows e rest (srcEnd r) ->
  (e = EndEOF -> encodeRecord comma quote fs <> []) ->
  src r = encodeRecord comma quote fs ++ ending e ++ rest ->
  fst (Read r) = Rec (values fs)
  /\ src (snd (Read r)) = rest
  /\ line (snd (Read r)) =
     line r + lineFeeds fs + match e with EndEOF => 0 | _ => 1 end
  /\ finished (snd (Read r)) = match e with EndEOF => true | _ => false end.
Proof.
  intros comma quote Hsane Hfin Hne Hw Hf Hnz Hsrc.
  rewrite (Read_written r fs e rest Hsane Hfin Hne Hw Hf Hnz Hsrc).
  destruct e; cbn [fst snd finalize set_line set_finished src line finished];
    repeat split; lia.
Qed.

End FastReaderFacts.


(** ** Facts on [strings.TrimSpace] *)

Section TrimFacts.

Variable sp1 : ascii -> bool.
Variable sp2 : ascii -> ascii -> bool.
Variable sp3 : ascii -> ascii -> ascii -> bool.

Lemma trimFront_spaces (s : bytes) :
  forallb sp1 s = true -> trimFront sp1 sp2 sp3 s = [].
Proof.
  induction s as [|c s IH]; cbn [forallb trimFront]; intro H; [reflexivity|].
  apply andb_prop in H as [Hc Hs]. rewrite Hc. auto.
Qed.

Lemma trimFront_app_spaces (ws s : bytes) :
  forallb sp1 ws = true ->
  trimFront sp1 sp2 sp3 (ws ++ s) = trimFront sp1 sp2 sp3 s.
Proof.
  induction ws as [|c ws IH]; cbn [forallb app]; intro H; [reflexivity|].
  apply andb_prop in H as [Hc Hs]. cbn [trimFront]. rewrite Hc. auto.
Qed.

(** A byte that starts no white space character stops the cutting. *)
Lemma trimFront_stop (c : ascii) (t : bytes) :
  sp1 c = false -> (forall d, sp2 c d = false) -> (forall d e, sp3 c d e = false) ->
  trimFront sp1 sp2 sp3 (c :: t) = c :: t.
Proof.
  intros H1 H2 H3. cbn [trimFront]. rewrite H1.
  destruct t as [|d [|e t]]; rewrite ?H2, ?H3; reflexivity.
Qed.

(** A byte that ends no white space character is never cut off. *)
Lemma trimFront_snoc (c : ascii) :
  sp1 c = false -> (forall x, sp2 x c = false) -> (forall x y, sp3 x y c = false) ->
  forall n u, length u <= n ->
  exists v, trimFront sp1 sp2 sp3 (u ++ [c]) = v ++ [c].
Proof.
  intros H1 H2 H3. induction n as [|n IH]; intros u Hn.
  - destruct u; [|cbn in Hn; lia]. cbn [app trimFront]. rewrite H1. now exists [].
  - destruct u as [|x u]; [cbn [app trimFront]; rewrite H1; now exists []|].
    cbn [length] in Hn. cbn [app trimFront].
    destruct (sp1 x); [apply IH; lia|].
    destruct u as [|d u]; cbn [app].
    + rewrite H2. now exists [x].
    + destruct (sp2 x d); [apply IH; cbn [length] in Hn; lia|].
      destruct u as [|e u]; cbn [app].
      * rewrite H3. now exists [x; d].
      * destruct (sp3 x d e); [apply IH; cbn [length] in Hn; lia|].
        now exists (x :: d :: e :: u).
Qed.

(** What is left does not start with a white space byte. *)
Lemma trimFront_head : forall n s, length s <= n ->
  match trimFront sp1 sp2 sp3 s with
  | c :: _ => sp1 c = false
  | [] => True
  end.
Proof.
  induction n as [|n IH]; intros s Hn.
  - destruct s; [exact I|cbn in Hn; lia].
  - destruct s as [|c s]; [exact I|]. cbn [length] in Hn. cbn [trimFront].
    destruct (sp1 c) eqn:E; [apply IH; lia|].
    destruct s as [|d s]; [exact E|].
    destruct (sp2 c d); [apply IH; cbn [length] in Hn; lia|].
    destruct s as [|e s]; [exact E|].
    destruct (sp3 c d e); [apply IH; cbn [length] in Hn; lia|exact E].
Qed.

End TrimFacts.

Lemma TrimLeft_spaces (s : bytes) : forallb isSpace s = true -> TrimLeft s = [].
Proof. apply trimFront_spaces. Qed.

Lemma TrimSpace_spaces (s : bytes) : forallb isSpace s = true -> TrimSpace s = [].
Proof. intro H. unfold TrimSpace. now rewrite (TrimLeft_spaces s H). Qed.

Lemma TrimLeft_app_spaces (ws s : bytes) :
  forallb isSpace ws = true -> TrimLeft (ws ++ s) = TrimLeft s.
Proof. apply trimFront_app_spaces. Qed.

(** A byte that starts no white space character. *)
Lemma startsSpace_spec (c : ascii) :
  startsSpace c = false ->
  isSpace c = false
  /\ (forall d, isSpace2 c d = false)
  /\ (forall d e, isSpace3 c d e = false).
Proof.
  unfold startsSpace. intro H.
  do 4 (apply orb_false_iff in H; destruct H as [H ?]).
  split; [exact H|]. unfold isSpace2, isSpace3.
  repeat match goal with E : Ascii.eqb c _ = false |- _ => rewrite E; clear E end.
  split; reflexivity.
Qed.

(** What is left of a line after [strings.TrimSpace] starts with the first
    byte of the line that is not white space, unless a white space
    character of more than one byte starts with that byte. *)
Lemma TrimSpace_first (ws t : bytes) (c : ascii) :
  forallb isSpace ws = true -> startsSpace c = false ->
  exists t', TrimSpace (ws ++ c :: t) = c :: t'.
Proof.
  intros Hws Hc. destruct (startsSpace_spec c Hc) as (H1 & H2 & H3).
  unfold TrimSpace. rewrite (TrimLeft_app_spaces ws (c :: t) Hws).
  unfold TrimLeft. rewrite (trimFront_stop _ _ _ c t H1 H2 H3).
  cbn [rev]. unfold TrimRight.
  destruct (trimFront_snoc isSpace (fun c d => isSpace2 d c)
              (fun c d e => isSpace3 e d c) c H1 H2 (fun x y => H3 y x)
              (length (rev t)) (rev t) (le_n _)) as [v Hv].
  rewrite Hv, rev_app_distr. cbn [rev app]. now exists (rev v).
Qed.

(** A line that [strings.TrimSpace] leaves as it is does not end with a
    carriage return. *)
Lemma TrimSpace_fixed_CR (l : bytes) : TrimSpace l = l -> dropCR l = l.
Proof.
  intro H. unfold dropCR, endsWith. rewrite <- H at 1. unfold TrimSpace.
  rewrite rev_involutive. unfold TrimRight.
  pose proof (trimFront_head isSpace (fun c d => isSpace2 d c)
                (fun c d e => isSpace3 e d c) _ (rev (TrimLeft l)) (le_n _)) as Hh.
  destruct (trimFront _ _ _ (rev (TrimLeft l))) as [|c t]; [reflexivity|].
  destruct (Ascii.eqb c CR) eqn:E; [|reflexivity].
  apply Ascii.eqb_eq in E. subst c. discriminate.
Qed.

(** ** Facts on [bufio.Reader] *)

Lemma noLF_app (p q : bytes) : noLF (p ++ q) = noLF p && noLF q.
Proof. unfold noLF. apply forallb_app. Qed.

Lemma endsWith_snoc_eq (s : bytes) (x c : ascii) :
  endsWith (s ++ [x]) c = Ascii.eqb x c.
Proof. unfold endsWith. rewrite rev_app_distr. reflexivity. Qed.

Lemma endsWith_app (u v : bytes) (c : ascii) :
  v <> [] -> endsWith (u ++ v) c = endsWith v c.
Proof.
  intro H. destruct (exists_last H) as (w & y & ->).
  rewrite app_assoc, !endsWith_snoc_eq. reflexivity.
Qed.

Lemma noLF_endsWith_LF (p : bytes) : noLF p = true -> endsWith p LF = false.
Proof.
  intro H. destruct p as [|x p] using rev_ind; [reflexivity|].
  rewrite endsWith_snoc_eq. rewrite noLF_app in H. apply andb_prop in H as [_ H].
  cbn in H. rewrite andb_true_r in H. now apply negb_true_iff in H.
Qed.

Lemma dropCR_app (u v : bytes) : v <> [] -> dropCR (u ++ v) = u ++ dropCR v.
Proof.
  intro H. unfold dropCR. rewrite (endsWith_app u v CR H).
  destruct (endsWith v CR); [|reflexivity].
  destruct (exists_last H) as (w & y & ->).
  rewrite app_assoc, !removelast_last. reflexivity.
Qed.

(** A line that fits the buffer with its line feed is returned whole. *)
Lemma ReadSlice_line : forall p room rest,
  noLF p = true -> length p < room ->
  ReadSlice room (p ++ LF :: rest) = (p ++ [LF], None, rest).
Proof.
  induction p as [|c p IH]; intros room rest Hnl Hlen;
    (destruct room as [|room]; [lia|]); cbn [app ReadSlice].
  - reflexivity.
  - cbn [noLF forallb] in Hnl. apply andb_prop in Hnl as [Hc Hp].
    apply negb_true_iff in Hc. rewrite Hc.
    rewrite (IH room rest Hp); [reflexivity|]. cbn [length] in Hlen. lia.
Qed.

(** What is left of a stream that ends before the buffer is full is
    returned with [io.EOF]. *)
Lemma ReadSlice_end : forall p room,
  noLF p = true -> length p < room -> ReadSlice room p = (p, Some io_EOF, []).
Proof.
  induction p as [|c p IH]; intros room Hnl Hlen;
    (destruct room as [|room]; [lia|]); cbn [ReadSlice].
  - reflexivity.
  - cbn [noLF forallb] in Hnl. apply andb_prop in Hnl as [Hc Hp].
    apply negb_true_iff in Hc. rewrite Hc.
    rewrite (IH room Hp); [reflexivity|]. cbn [length] in Hlen. lia.
Qed.

(** A buffer that fills before a line feed is found is returned with
    [ErrBufferFull]. *)
Lemma ReadSlice_full : forall p room q,
  noLF p = true -> length p = room ->
  ReadSlice room (p ++ q) = (p, Some ErrBufferFull, q).
Proof.
  induction p as [|c p IH]; intros room q Hnl Hlen;
    (destruct room as [|room]; [|]); try discriminate.
  - destruct q; reflexivity.
  - cbn [app ReadSlice].
    cbn [noLF forallb] in Hnl. apply andb_prop in Hnl as [Hc Hp].
    apply negb_true_iff in Hc. rewrite Hc.
    rewrite (IH room q Hp); [reflexivity|]. cbn [length] in Hlen. lia.
Qed.

(** The chunk and what is left make up the input; the chunk ends with a
    line feed exactly when there is no error, and holds no other. *)
Lemma ReadSlice_spec : forall input room chunk err rest,
  ReadSlice room input = (chunk, err, rest) ->
  chunk ++ rest = input
  /\ length chunk <= room
  /\ match err with
     | None => exists p, chunk = p ++ [LF] /\ noLF p = true
     | Some ErrBufferFull => noLF chunk = true /\ length chunk = room
     | Some io_EOF => noLF chunk = true /\ rest = [] /\ length chunk < room
     end.
Proof.
  induction input as [|c tl IH]; intros room chunk err rest H;
    destruct room as [|room]; cbn [ReadSlice] in H.
  - inversion H; subst. cbn. repeat split; lia.
  - inversion H; subst. cbn. repeat split; lia.
  - inversion H; subst. cbn. repeat split; lia.
  - destruct (Ascii.eqb c LF) eqn:Hc.
    + inversion H; subst. apply Ascii.eqb_eq in Hc; subst c.
      repeat split; [cbn; lia|]. exists []. split; reflexivity.
    + destruct (ReadSlice room tl) as [[chunk0 err0] rest0] eqn:E.
      inversion H; subst. destruct (IH _ _ _ _ E) as (H1 & H2 & H3).
      split; [cbn; now rewrite H1|]. split; [cbn; lia|].
      destruct err as [[|]|].
      * destruct H3 as [H3 H4]. split; [|cbn; lia].
        cbn [noLF forallb]. rewrite Hc. exact H3.
      * destruct H3 as (H3 & H4 & H5). repeat split; [|exact H4|cbn; lia].
        cbn [noLF forallb]. rewrite Hc. exact H3.
      * destruct H3 as (p & -> & Hp). exists (c :: p). split; [reflexivity|].
        cbn [noLF forallb]. rewrite Hc. exact Hp.
Qed.

Lemma ReadLine_line (size : nat) (p rest : bytes) :
  noLF p = true -> length p < size ->
  ReadLine size (p ++ LF :: rest) = (dropCR p, false, None, rest).
Proof.
  intros Hnl Hlen. unfold ReadLine. rewrite (ReadSlice_line p size rest Hnl Hlen).
  destruct (p ++ [LF]) eqn:E; [destruct p; discriminate|]. rewrite <- E.
  rewrite endsWith_snoc_eq, Ascii.eqb_refl, removelast_last. unfold dropCR.
  destruct (endsWith p CR); reflexivity.
Qed.

Lemma ReadLine_end (size : nat) (p : bytes) :
  noLF p = true -> p <> [] -> length p < size ->
  ReadLine size p = (p, false, None, []).
Proof.
  intros Hnl Hne Hlen. unfold ReadLine. rewrite (ReadSlice_end p size Hnl Hlen).
  destruct p; [congruence|]. now rewrite (noLF_endsWith_LF _ Hnl).
Qed.

Lemma ReadLine_nil (size : nat) :
  0 < size -> ReadLine size [] = ([], false, Some io_EOF, []).
Proof. intro H. destruct size; [lia|reflexivity]. Qed.

Lemma ReadLine_full (size : nat) (p q : bytes) :
  noLF p = true -> length p = size ->
  ReadLine size (p ++ q)
  = if endsWith p CR then (removelast p, true, None, CR :: q)
    else (p, true, None, q).
Proof.
  intros Hnl Hlen. unfold ReadLine. now rewrite (ReadSlice_full p size q Hnl Hlen).
Qed.

(** ** Facts on the line-oriented reader *)

Module LineReaderFacts.
Import LineReader.

(** Every text is a line with its line feed and what follows, or holds no
    line feed. *)
Lemma first_line (bs : bytes) :
  (exists l rest, bs = l ++ LF :: rest /\ noLF l = true)
  \/ noLF bs = true.
Proof.
  induction bs as [|c bs IH]; [right; reflexivity|].
  destruct (Ascii.eqb c LF) eqn:Hc.
  - apply Ascii.eqb_eq in Hc; subst c. left. exists [], bs. split; reflexivity.
  - destruct IH as [(l & rest & -> & Hl)|Hn].
    + left. exists (c :: l), rest. split; [reflexivity|].
      cbn [noLF forallb]. rewrite Hc. exact Hl.
    + right. cbn [noLF forallb]. rewrite Hc. exact Hn.
Qed.

Section Pieces.

Variable size : nat.
Hypothesis Hsize : 2 <= size.

(** A text without line feed that does not fit the buffer starts with a
    full buffer. *)
Lemma full_buffer (p : bytes) :
  size <= length p ->
  exists p1 p2, p = p1 ++ p2 /\ length p1 = size.
Proof.
  intro H. exists (firstn size p), (skipn size p).
  split; [symmetry; apply firstn_skipn|]. rewrite length_firstn. lia.
Qed.

(** The pieces of a line that ends with a line feed make up the line,
    however long it is. *)
Lemma readPieces_line : forall n p,
  length p <= n -> noLF p = true ->
  forall fuel rest acc,
    length p < fuel ->
    readPieces size fuel (p ++ LF :: rest) acc = (inl (acc ++ dropCR p), rest).
Proof.
  induction n as [n IH] using lt_wf_ind. intros p Hn Hnl fuel rest acc Hfuel.
  destruct fuel as [|fuel]; [lia|]. cbn [readPieces].
  destruct (Nat.lt_ge_cases (length p) size) as [Hfit|Hlong].
  - rewrite (ReadLine_line size p rest Hnl Hfit). reflexivity.
  - destruct (full_buffer p Hlong) as (p1 & p2 & -> & Hp1).
    rewrite noLF_app in Hnl. apply andb_prop in Hnl as [Hn1 Hn2].
    rewrite <- app_assoc, (ReadLine_full size p1 _ Hn1 Hp1).
    rewrite length_app in Hn, Hfuel.
    destruct (endsWith p1 CR) eqn:Hcr.
    + assert (Hp1' : p1 = removelast p1 ++ [CR]).
      { destruct p1 as [|x p1] using rev_ind; [discriminate|].
        rewrite endsWith_snoc_eq in Hcr. apply Ascii.eqb_eq in Hcr; subst x.
        now rewrite removelast_last. }
      change (CR :: p2 ++ LF :: rest) with ((CR :: p2) ++ LF :: rest).
      rewrite (IH (length (CR :: p2))); cbn [length]; try lia.
      * assert (E : removelast p1 ++ dropCR (CR :: p2) = dropCR (p1 ++ p2)).
        { rewrite Hp1' at 2. rewrite <- app_assoc. cbn [app].
          rewrite dropCR_app by discriminate. reflexivity. }
        rewrite <- E, app_assoc. reflexivity.
      * cbn [noLF forallb]. exact Hn2.
    + rewrite (IH (length p2)); try lia; [|exact Hn2].
      assert (E : p1 ++ dropCR p2 = dropCR (p1 ++ p2)).
      { destruct p2 as [|x p2].
        - change (dropCR []) with (@nil ascii). rewrite !app_nil_r.
          unfold dropCR. now rewrite Hcr.
        - rewrite dropCR_app by discriminate. reflexivity. }
      rewrite <- E, app_assoc. reflexivity.
Qed.

(** The pieces of a last line without line feed: the line, or [io.EOF]
    when the stream ends right after a full buffer. *)
Lemma readPieces_end : forall n p,
  length p <= n -> noLF p = true ->
  forall fuel acc,
    length p < fuel ->
    (p <> [] /\ readPieces size fuel p acc = (inl (acc ++ p), []))
    \/ readPieces size fuel p acc = (inr EOF, []).
Proof.
  induction n as [n IH] using lt_wf_ind. intros p Hn Hnl fuel acc Hfuel.
  destruct fuel as [|fuel]; [lia|]. cbn [readPieces].
  destruct (Nat.lt_ge_cases (length p) size) as [Hfit|Hlong].
  - destruct p as [|c p].
    + right. rewrite ReadLine_nil by lia. reflexivity.
    + left. split; [discriminate|].
      rewrite (ReadLine_end size (c :: p) Hnl ltac:(discriminate) Hfit). reflexivity.
  - destruct (full_buffer p Hlong) as (p1 & p2 & -> & Hp1).
    assert (Hne : p1 ++ p2 <> []) by (destruct p1; [cbn in Hp1; lia|discriminate]).
    rewrite noLF_app in Hnl. apply andb_prop in Hnl as [Hn1 Hn2].
    rewrite (ReadLine_full size p1 _ Hn1 Hp1).
    rewrite length_app in Hn, Hfuel.
    destruct (endsWith p1 CR) eqn:Hcr.
    + assert (Hp1' : p1 = removelast p1 ++ [CR]).
      { destruct p1 as [|x p1] using rev_ind; [discriminate|].
        rewrite endsWith_snoc_eq in Hcr. apply Ascii.eqb_eq in Hcr; subst x.
        now rewrite removelast_last. }
      destruct (IH (length (CR :: p2)) ltac:(cbn [length]; lia) (CR :: p2) (le_n _)
                  Hn2 fuel (acc ++ removelast p1) ltac:(cbn [length]; lia))
        as [[_ E]|E]; rewrite E; [left|right; reflexivity].
      split; [exact Hne|]. rewrite <- app_assoc. f_equal. f_equal.
      rewrite Hp1' at 2. rewrite <- app_assoc. reflexivity.
    + destruct (IH (length p2) ltac:(lia) p2 (le_n _) Hn2 fuel (acc ++ p1) ltac:(lia))
        as [[_ E]|E]; rewrite E; [left|right; reflexivity].
      split; [exact Hne|]. now rewrite <- app_assoc.
Qed.

(** A last line that fits the buffer is returned. *)
Lemma readPieces_short (p : bytes) (fuel : nat) :
  noLF p = true -> p <> [] -> length p < size ->
  readPieces size (S fuel) p [] = (inl p, []).
Proof.
  intros Hnl Hne Hfit. cbn [readPieces].
  rewrite (ReadLine_end size p Hnl Hne Hfit). reflexivity.
Qed.

(** A last line that fills the buffer a whole number of times and holds
    no carriage return is lost: every piece comes as a piece of a line,
    and the pieces are dropped when the next call reports [io.EOF]. *)
Lemma readPieces_lost : forall k p fuel acc,
  noLF p = true ->
  forallb (fun c => negb (Ascii.eqb c CR)) p = true ->
  length p = k * size ->
  length p < fuel ->
  readPieces size fuel p acc = (inr EOF, []).
Proof.
  induction k as [|k IH]; intros p fuel acc Hnl Hcr Hlen Hfuel;
    (destruct fuel as [|fuel]; [lia|]); cbn [readPieces].
  - destruct p; [|discriminate]. rewrite ReadLine_nil by lia. reflexivity.
  - destruct (full_buffer p ltac:(lia)) as (p1 & p2 & -> & Hp1).
    rewrite noLF_app in Hnl. apply andb_prop in Hnl as [Hn1 Hn2].
    rewrite forallb_app in Hcr. apply andb_prop in Hcr as [Hc1 Hc2].
    rewrite length_app in Hlen, Hfuel.
    rewrite (ReadLine_full size p1 p2 Hn1 Hp1).
    assert (E : endsWith p1 CR = false).
    { destruct p1 as [|x p1] using rev_ind; [reflexivity|].
      rewrite endsWith_snoc_eq. rewrite forallb_app in Hc1.
      apply andb_prop in Hc1 as [_ Hx]. cbn in Hx. rewrite andb_true_r in Hx.
      now apply negb_true_iff in Hx. }
    rewrite E. apply (IH p2); auto; lia.
Qed.

End Pieces.

Lemma defaultBufSize_ge : 2 <= defaultBufSize.
Proof. apply Nat.leb_le. vm_compute. reflexivity. Qed.

(** [readLine] on a line that ends with a line feed. *)
Lemma readLine_LF (r : Reader) (l rest : bytes) :
  noLF l = true ->
  rd r = l ++ LF :: rest ->
  readLine r =
  (inl (dropCR l),
   mkReader (Comma r) (Comment r) (FieldsPerRecord r) (LazyQuotes r) rest
     (numLine r + 1) (fieldIndexes r)).
Proof.
  intros Hnl Hrd. unfold readLine. rewrite Hrd.
  rewrite (readPieces_line defaultBufSize defaultBufSize_ge _ l (le_n _) Hnl).
  - reflexivity.
  - rewrite length_app. cbn [length]. lia.
Qed.

(** [readLine] on what is left when no line feed is: the line, or
    [io.EOF] and nothing. *)
Lemma readLine_noLF (r : Reader) :
  noLF (rd r) = true ->
  (rd r <> []
   /\ readLine r =
      (inl (rd r),
       mkReader (Comma r) (Comment r) (FieldsPerRecord r) (LazyQuotes r) []
         (numLine r + 1) (fieldIndexes r)))
  \/ readLine r =
     (inr EOF,
      mkReader (Comma r) (Comment r) (FieldsPerRecord r) (LazyQuotes r) []
        (numLine r) (fieldIndexes r)).
Proof.
  intro Hnl. unfold readLine.
  destruct (readPieces_end defaultBufSize defaultBufSize_ge _ (rd r) (le_n _) Hnl
              (S (length (rd r))) [] (Nat.lt_succ_diag_r _)) as [[Hne E]|E];
    rewrite E; [left|right]; auto.
Qed.

(** A last line that is shorter than the buffer is returned. *)
Lemma readLine_short (r : Reader) :
  noLF (rd r) = true -> rd r <> [] -> length (rd r) < defaultBufSize ->
  readLine r =
  (inl (rd r),
   mkReader (Comma r) (Comment r) (FieldsPerRecord r) (LazyQuotes r) []
     (numLine r + 1) (fieldIndexes r)).
Proof.
  intros Hnl Hne Hfit. unfold readLine.
  rewrite (readPieces_short defaultBufSize (rd r) _ Hnl Hne Hfit). reflexivity.
Qed.

(** A successful [readLine] takes at least one byte off the input and
    changes nothing but the input and the line number. *)
Lemma readLine_inl (r : Reader) (l : bytes) (r1 : Reader) :
  readLine r = (inl l, r1) ->
  length (rd r1) < length (rd r)
  /\ FieldsPerRecord r1 = FieldsPerRecord r /\ Comma r1 = Comma r
  /\ Comment r1 = Comment r.
Proof.
  intro H. destruct (first_line (rd r)) as [(l0 & rest & Hrd & Hl)|Hn].
  - rewrite (readLine_LF r l0 rest Hl Hrd) in H. inversion H; subst.
    cbn [rd FieldsPerRecord Comma Comment]. rewrite Hrd, length_app. cbn [length].
    repeat split; lia.
  - destruct (readLine_noLF r Hn) as [[Hne E]|E]; rewrite E in H; [|discriminate].
    inversion H; subst. cbn [rd FieldsPerRecord Comma Comment length].
    repeat split. destruct (rd r); [congruence|cbn; lia].
Qed.

(** [readLine] fails with [io.EOF] only, when no line feed is left, and
    leaves no input. *)
Lemma readLine_inr (r : Reader) (e : error) (r1 : Reader) :
  readLine r = (inr e, r1) ->
  e = EOF
  /\ r1 = mkReader (Comma r) (Comment r) (FieldsPerRecord r) (LazyQuotes r) []
            (numLine r) (fieldIndexes r)
  /\ noLF (rd r) = true.
Proof.
  intro H. destruct (first_line (rd r)) as [(l0 & rest & Hrd & Hl)|Hn].
  - rewrite (readLine_LF r l0 rest Hl Hrd) in H. discriminate.
  - destruct (readLine_noLF r Hn) as [[Hne E]|E]; rewrite E in H; [discriminate|].
    inversion H; subst. auto.
Qed.

(** On an empty input [readLine] says [io.EOF] and leaves the reader as
    it is. *)
Lemma readLine_nil (r : Reader) : rd r = [] -> readLine r = (inr EOF, r).
Proof.
  intro H. unfold readLine. rewrite H. cbn. destruct r; cbn in *; subst. reflexivity.
Qed.

(** Fuel above the length of the input is never used up. *)
Lemma ReadFrom_fuel : forall n m r,
  length (rd r) <= n -> length (rd r) <= m -> ReadFrom n r = ReadFrom m r.
Proof.
  induction n as [|n IH]; intros m r Hn Hm.
  - destruct m; [reflexivity|].
    cbn [ReadFrom]. destruct (readLine r) as [[l|e] r1] eqn:E; [|reflexivity].
    apply readLine_inl in E. lia.
  - destruct m.
    + cbn [ReadFrom]. destruct (readLine r) as [[l|e] r1] eqn:E; [|reflexivity].
      apply readLine_inl in E. lia.
    + cbn [ReadFrom]. destruct (readLine r) as [[l|e] r1] eqn:E; [|reflexivity].
      apply readLine_inl in E.
      destruct (skipped r1 (TrimSpace l)); [|reflexivity].
      apply IH; lia.
Qed.

Lemma forallb_removelast (P : ascii -> bool) (s : bytes) :
  forallb P s = true -> forallb P (removelast s) = true.
Proof.
  induction s as [|c s IH]; cbn [forallb removelast]; intro H; [reflexivity|].
  apply andb_prop in H as [Hc Hs]. destruct s; [reflexivity|].
  cbn [forallb]. rewrite Hc. exact (IH Hs).
Qed.

Lemma dropCR_spaces (s : bytes) : forallb isSpace s = true -> forallb isSpace (dropCR s) = true.
Proof.
  intro H. unfold dropCR. destruct (endsWith s CR); auto using forallb_removelast.
Qed.

(** [Read] over a blank line is [Read] from the line after it. *)
Lemma Read_blank (r : Reader) (ws rest : bytes) :
  blank ws = true ->
  rd r = ws ++ LF :: rest ->
  Read r =
  Read (mkReader (Comma r) (Comment r) (FieldsPerRecord r) (LazyQuotes r) rest
          (numLine r + 1) (fieldIndexes r)).
Proof.
  intros Hb Hrd. unfold blank in Hb. apply andb_prop in Hb as [Hsp Hnl].
  unfold Read at 1. rewrite Hrd, length_app. cbn [length].
  replace (length ws + S (length rest)) with (S (length ws + length rest)) by lia.
  cbn [ReadFrom]. rewrite (readLine_LF r ws rest Hnl Hrd).
  rewrite (TrimSpace_spaces (dropCR ws) (dropCR_spaces ws Hsp)).
  cbn [skipped]. unfold Read. cbn [rd].
  apply ReadFrom_fuel; cbn [rd]; lia.
Qed.

(** Input that is white space throughout yields no record. *)
Lemma Read_spaces : forall n r,
  length (rd r) <= n -> forallb isSpace (rd r) = true -> fst (Read r) = Err EOF.
Proof.
  induction n as [|n IH]; intros r Hn Hsp.
  - unfold Read. destruct (rd r) eqn:E; [|cbn in Hn; lia].
    cbn [length ReadFrom]. rewrite (readLine_nil r E). reflexivity.
  - unfold Read. destruct (rd r) as [|c bs] eqn:E.
    + cbn [length ReadFrom]. rewrite (readLine_nil r E). reflexivity.
    + cbn [length ReadFrom]. rewrite <- E in Hsp.
      destruct (first_line (rd r)) as [(l & rest & Hrd & Hl)|Hnl].
      * rewrite Hrd, forallb_app in Hsp. apply andb_prop in Hsp as [Hsl Hsr].
        cbn [forallb] in Hsr. apply andb_prop in Hsr as [_ Hsr].
        rewrite (readLine_LF r l rest Hl Hrd).
        rewrite (TrimSpace_spaces (dropCR l) (dropCR_spaces l Hsl)). cbn [skipped].
        assert (Hshort : length rest <= length bs).
        { apply (f_equal (@length ascii)) in Hrd. rewrite E, length_app in Hrd.
          cbn [length] in Hrd. lia. }
        match goal with
        | |- fst (ReadFrom _ ?r1) = _ =>
            rewrite (ReadFrom_fuel (length bs) (length (rd r1)) r1);
              [apply (IH r1)|..]; cbn [rd]; auto; cbn [length] in Hn; lia
        end.
      * destruct (readLine_noLF r Hnl) as [[_ Er]|Er]; rewrite Er; [|reflexivity].
        rewrite (TrimSpace_spaces (rd r) Hsp). cbn [skipped].
        destruct bs; cbn [length ReadFrom]; rewrite readLine_nil; reflexivity.
Qed.

(** *** The field-count policy *)

(** [findBounds] adds whole pairs to [fieldIndexes], and the start of the
    last field never lies beyond the end of the line. *)
Lemma findBounds_spec (comma : ascii) : forall n bs,
  length bs <= n ->
  forall i q fs fi,
    fs <= i ->
    snd (findBounds comma bs i q fs fi) <= i + length bs
    /\ exists ps k, fst (findBounds comma bs i q fs fi) = fi ++ ps /\ length ps = 2 * k.
Proof.
  induction n as [|n IH]; intros bs Hn i q fs fi Hfs.
  - destruct bs; [|cbn in Hn; lia]. cbn. split; [lia|].
    exists [], 0. now rewrite app_nil_r.
  - destruct bs as [|c tl].
    + cbn. split; [lia|]. exists [], 0. now rewrite app_nil_r.
    + cbn [length] in Hn. cbn [findBounds length].
      assert (Htl : forall i' q' fs' fi',
                 fs' <= i' -> i' = i + 1 ->
                 snd (findBounds comma tl i' q' fs' fi') <= i + S (length tl)
                 /\ exists ps k, fst (findBounds comma tl i' q' fs' fi') = fi' ++ ps
                                 /\ length ps = 2 * k).
      { intros i' q' fs' fi' H1 ->.
        destruct (IH tl ltac:(lia) (i + 1) q' fs' fi' H1) as [Ha Hb].
        split; [lia|exact Hb]. }
      destruct (Ascii.eqb c DQ).
      * destruct q; [|apply Htl; lia].
        destruct tl as [|n0 tl']; [apply Htl; lia|].
        destruct (Ascii.eqb n0 DQ); [|apply Htl; lia].
        cbn [length] in Hn.
        destruct (IH tl' ltac:(lia) (i + 2) true fs fi ltac:(lia)) as [Ha Hb].
        split; [cbn [length]; lia|exact Hb].
      * destruct (Ascii.eqb c comma); [|apply Htl; lia].
        destruct q; cbn [negb]; [apply Htl; lia|].
        destruct (Htl (i + 1) false (i + 1) (fi ++ [fs; i]) ltac:(lia) eq_refl)
          as [Ha (ps & k & Hb & Hc)].
        split; [exact Ha|].
        exists ([fs; i] ++ ps), (S k). rewrite Hb, <- app_assoc.
        split; [reflexivity|]. cbn [app length]. lia.
Qed.

Lemma extract_app (line : bytes) (ps : list nat) : forall k fi,
  length fi = 2 * k ->
  extract line (fi ++ ps) = extract line fi ++ extract line ps.
Proof.
  induction k as [|k IH]; intros fi Hk.
  - destruct fi; [reflexivity|cbn in Hk; lia].
  - destruct fi as [|a [|b fi']]; try (cbn in Hk; lia).
    cbn [app extract]. rewrite (IH fi'); [reflexivity|]. cbn [length] in Hk. lia.
Qed.

(** A parsed line always has a field. *)
Lemma parseLine_nonempty (comma : ascii) (line : bytes) :
  1 <= length (snd (parseLine comma line)).
Proof.
  unfold parseLine.
  destruct (findBounds_spec comma (length line) line (le_n _) 0 false 0 [] (le_n _))
    as [Ha (ps & k & Hb & Hc)].
  destruct (findBounds comma line 0 false 0 []) as [fi fs].
  cbn [fst snd app] in *. subst fi.
  replace (fs <=? length line) with true by (symmetry; apply Nat.leb_le; lia).
  destruct ((0 <? length line) && Ascii.eqb (nth (length line - 1) line NUL) comma);
    cbn [snd].
  - rewrite (extract_app line [length line; length line] (S k));
      [|rewrite length_app; cbn [length]; lia].
    rewrite length_app. cbn [extract length]. lia.
  - rewrite (extract_app line [fs; length line] k ps Hc).
    rewrite length_app. cbn [extract length]. lia.
Qed.

(** Where a call of [Read] ends: at the end of the input, or in
    [readFields] on a line that counts, with the settings it started with. *)
Lemma ReadFrom_cases : forall n r,
  (exists r1, ReadFrom n r = (Err EOF, r1) /\ FieldsPerRecord r1 = FieldsPerRecord r)
  \/ (exists r1 line,
        ReadFrom n r = readFields r1 line
        /\ FieldsPerRecord r1 = FieldsPerRecord r /\ Comma r1 = Comma r).
Proof.
  induction n as [|n IH]; intro r; cbn [ReadFrom];
    destruct (readLine r) as [[l|e] r1] eqn:E.
  - apply readLine_inl in E. destruct E as (_ & Hf & Hc & _).
    destruct (skipped r1 (TrimSpace l)).
    + left. exists r1. auto.
    + right. exists r1, (TrimSpace l). auto.
  - apply readLine_inr in E. destruct E as (-> & -> & _). left.
    eexists. split; reflexivity.
  - apply readLine_inl in E. destruct E as (_ & Hf & Hc & _).
    destruct (skipped r1 (TrimSpace l)).
    + destruct (IH r1) as [(r2 & H1 & H2)|(r2 & line & H1 & H2 & H3)].
      * left. exists r2. split; [exact H1|congruence].
      * right. exists r2, line. repeat split; congruence.
    + right. exists r1, (TrimSpace l). auto.
  - apply readLine_inr in E. destruct E as (-> & -> & _). left.
    eexists. split; reflexivity.
Qed.

(** What [readFields] does with [FieldsPerRecord]: zero learns the count of
    the record, a positive value is enforced, a negative value is left
    alone. *)
Lemma readFields_count (r : Reader) (line : bytes) (rec : list bytes) (r' : Reader) :
  readFields r line = (Rec rec, r') ->
  1 <= length rec
  /\ ((FieldsPerRecord r = 0)%Z -> FieldsPerRecord r' = Z.of_nat (length rec))
  /\ ((0 < FieldsPerRecord r)%Z ->
      Z.of_nat (length rec) = FieldsPerRecord r /\ FieldsPerRecord r' = FieldsPerRecord r)
  /\ ((FieldsPerRecord r < 0)%Z -> FieldsPerRecord r' = FieldsPerRecord r).
Proof.
  unfold readFields.
  pose proof (parseLine_nonempty (byte (Comma r)) line) as Hne.
  destruct (parseLine (byte (Comma r)) line) as [fi record].
  cbn [FieldsPerRecord snd] in *.
  destruct (0 <? FieldsPerRecord r)%Z eqn:Hpos.
  - apply Z.ltb_lt in Hpos.
    destruct (Z.of_nat (length record) =? FieldsPerRecord r)%Z eqn:Heq; cbn [negb];
      intro H; inversion H; subst. apply Z.eqb_eq in Heq.
    cbn [FieldsPerRecord]. repeat split; intros; try lia.
  - apply Z.ltb_ge in Hpos.
    destruct (FieldsPerRecord r =? 0)%Z eqn:Hz; intro H; inversion H; subst;
      cbn [FieldsPerRecord].
    + repeat split; intros; try lia.
    + apply Z.eqb_neq in Hz. repeat split; intros; try lia.
Qed.

Lemma readFields_ErrFieldCount (r : Reader) (line : bytes) (r' : Reader) :
  readFields r line = (Err ErrFieldCount, r') -> (0 < FieldsPerRecord r)%Z.
Proof.
  unfold readFields. destruct (parseLine (byte (Comma r)) line) as [fi record].
  cbn [FieldsPerRecord].
  destruct (0 <? FieldsPerRecord r)%Z eqn:Hpos.
  - intros _. now apply Z.ltb_lt.
  - destruct (FieldsPerRecord r =? 0)%Z; discriminate.
Qed.

Lemma readFields_keeps (r : Reader) (line : bytes) :
  FieldsPerRecord r <> 0%Z ->
  FieldsPerRecord (snd (readFields r line)) = FieldsPerRecord r.
Proof.
  intro Hnz. unfold readFields. destruct (parseLine (byte (Comma r)) line) as [fi record].
  cbn [FieldsPerRecord].
  destruct (0 <? FieldsPerRecord r)%Z.
  - destruct (negb (Z.of_nat (length record) =? FieldsPerRecord r)%Z); reflexivity.
  - destruct (FieldsPerRecord r =? 0)%Z eqn:Hz; [|reflexivity].
    apply Z.eqb_eq in Hz. contradiction.
Qed.

Lemma Read_count (r : Reader) (rec : list bytes) (r' : Reader) :
  Read r = (Rec rec, r') ->
  1 <= length rec
  /\ ((FieldsPerRecord r = 0)%Z -> FieldsPerRecord r' = Z.of_nat (length rec))
  /\ ((0 < FieldsPerRecord r)%Z ->
      Z.of_nat (length rec) = FieldsPerRecord r /\ FieldsPerRecord r' = FieldsPerRecord r)
  /\ ((FieldsPerRecord r < 0)%Z -> FieldsPerRecord r' = FieldsPerRecord r).
Proof.
  unfold Read. intro H.
  destruct (ReadFrom_cases (length (rd r)) r)
    as [(r1 & H1 & H2)|(r1 & line & H1 & H2 & H3)]; rewrite H1 in H.
  - discriminate.
  - rewrite <- H2. exact (readFields_count r1 line rec r' H).
Qed.

(** [ErrFieldCount] means a count is being enforced. *)
Lemma Read_ErrFieldCount (r r' : Reader) :
  Read r = (Err ErrFieldCount, r') -> (0 < FieldsPerRecord r)%Z.
Proof.
  unfold Read. intro H.
  destruct (ReadFrom_cases (length (rd r)) r)
    as [(r1 & H1 & H2)|(r1 & line & H1 & H2 & H3)]; rewrite H1 in H.
  - discriminate.
  - rewrite <- H2. exact (readFields_ErrFieldCount r1 line r' H).
Qed.

(** A count that is set stays set, whatever [Read] returns. *)
Lemma Read_keeps (r : Reader) :
  FieldsPerRecord r <> 0%Z -> FieldsPerRecord (snd (Read r)) = FieldsPerRecord r.
Proof.
  unfold Read. intro Hnz.
  destruct (ReadFrom_cases (length (rd r)) r)
    as [(r1 & H1 & H2)|(r1 & line & H1 & H2 & H3)]; rewrite H1.
  - exact H2.
  - rewrite <- H2. apply readFields_keeps. congruence.
Qed.

(** *** Quoted fields *)

Lemma ReplaceAll_escape (s : bytes) : ReplaceAll (escape DQ s) = s.
Proof.
  induction s as [|c s IH]; [reflexivity|].
  cbn [escape flat_map]. fold (escape DQ s).
  destruct (Ascii.eqb c DQ) eqn:Hc.
  - apply Ascii.eqb_eq in Hc. subst c. cbn [app ReplaceAll].
    change (Ascii.eqb DQ DQ) with true. cbn [andb]. now rewrite IH.
  - cbn [app]. destruct (escape DQ s) as [|b t] eqn:E.
    + destruct s as [|c' s']; [reflexivity|].
      cbn [escape flat_map] in E. destruct (Ascii.eqb c' DQ); discriminate.
    + cbn [ReplaceAll]. rewrite Hc. cbn [andb]. now rewrite <- IH.
Qed.

Lemma nth_last_app (s : bytes) (c : ascii) : nth (length s) (s ++ [c]) NUL = c.
Proof. induction s as [|x s IH]; cbn; auto. Qed.

(** A field between quotes, its quotes doubled, is returned as its value. *)
Lemma unquote_quoted (s : bytes) : unquote (quoted DQ s) = s.
Proof.
  unfold unquote, quoted. cbn [length nth].
  rewrite length_app. cbn [length].
  replace (S (length (escape DQ s) + 1) - 1) with (S (length (escape DQ s))) by lia.
  cbn [nth]. rewrite nth_last_app.
  replace (2 <=? S (length (escape DQ s) + 1)) with true
    by (symmetry; apply Nat.leb_le; lia).
  change (Ascii.eqb DQ DQ) with true. cbn [andb].
  unfold slice. cbn [skipn].
  replace (S (length (escape DQ s)) - 1) with (length (escape DQ s)) by lia.
  rewrite firstn_length_app. apply ReplaceAll_escape.
Qed.

(** *** The last line *)

(** A last line without a line feed that is shorter than the buffer of
    the [bufio.Reader], neither blank nor a comment, read with no count
    enforced: [Read] returns a record and the next [Read] says [io.EOF]. *)
Lemma Read_last_line (r : Reader) :
  rd r <> [] ->
  noLF (rd r) = true ->
  length (rd r) < defaultBufSize ->
  skipped r (TrimSpace (rd r)) = false ->
  (FieldsPerRecord r <= 0)%Z ->
  exists rec r', Read r = (Rec rec, r') /\ rd r' = [] /\ fst (Read r') = Err EOF.
Proof.
  intros Hne Hnl Hfit Hsk Hf. unfold Read at 1.
  assert (Hlen : length (rd r) = S (pred (length (rd r))))
    by (destruct (rd r); [congruence|reflexivity]).
  rewrite Hlen. cbn [ReadFrom]. rewrite (readLine_short r Hnl Hne Hfit).
  change (skipped _ (TrimSpace (rd r))) with (skipped r (TrimSpace (rd r))).
  rewrite Hsk. unfold readFields.
  destruct (parseLine _ (TrimSpace (rd r))) as [fi record].
  cbn [FieldsPerRecord rd numLine Comma Comment LazyQuotes fieldIndexes].
  replace (0 <? FieldsPerRecord r)%Z with false by (symmetry; apply Z.ltb_ge; lia).
  destruct (FieldsPerRecord r =? 0)%Z; eexists; eexists;
    (split; [reflexivity|split; reflexivity]).
Qed.

(** A last line without a line feed is lost when it fills the buffer of
    the [bufio.Reader] a whole number of times and holds no carriage
    return: [Read] says [io.EOF] and nothing is left. *)
Lemma Read_lost_line (r : Reader) (k : nat) :
  1 <= k ->
  noLF (rd r) = true ->
  forallb (fun c => negb (Ascii.eqb c CR)) (rd r) = true ->
  length (rd r) = k * defaultBufSize ->
  Read r =
  (Err EOF,
   mkReader (Comma r) (Comment r) (FieldsPerRecord r) (LazyQuotes r) []
     (numLine r) (fieldIndexes r)).
Proof.
  intros Hk Hnl Hcr Hlen. unfold Read.
  assert (Hpos : length (rd r) = S (pred (length (rd r)))).
  { rewrite Hlen. pose proof defaultBufSize_ge. nia. }
  rewrite Hpos at 1. cbn [ReadFrom].
  assert (E : readLine r =
              (inr EOF,
               mkReader (Comma r) (Comment r) (FieldsPerRecord r) (LazyQuotes r) []
                 (numLine r) (fieldIndexes r))).
  { unfold readLine.
    rewrite (readPieces_lost defaultBufSize defaultBufSize_ge k (rd r) _ [] Hnl Hcr Hlen
               (Nat.lt_succ_diag_r _)).
    reflexivity. }
  rewrite E. reflexivity.
Qed.

End LineReaderFacts.

(** ** Facts on the reader built on [readRecord] *)

Module RecordReaderFacts.
Import RecordReader.

Lemma readerSize_pos : 1 <= readerSize.
Proof. apply Nat.leb_le. vm_compute. reflexivity. Qed.

(** A chunk of [ReadSlice] is empty only when the input is. *)
Lemma ReadSlice_nonempty (input chunk : bytes) (err : option bufioError) (rest : bytes) :
  ReadSlice readerSize input = (chunk, err, rest) ->
  length chunk + length rest = length input
  /\ (input <> [] -> 1 <= length chunk)
  /\ (err <> Some io_EOF -> 1 <= length chunk).
Proof.
  intro E. pose proof readerSize_pos as Hpos.
  apply ReadSlice_spec in E as (Happ & Hle & Herr).
  split; [rewrite <- Happ, length_app; reflexivity|].
  destruct err as [[|]|].
  - destruct Herr as [_ Hlen]. split; intros; lia.
  - destruct Herr as (_ & -> & _). rewrite app_nil_r in Happ. subst chunk.
    split; [|congruence]. intro H. destruct input; [congruence|cbn; lia].
  - destruct Herr as (p & -> & _). rewrite length_app. cbn [length]. split; intros; lia.
Qed.

(** While text is at hand, the loop of [readRecord] ends without error. *)
Lemma readChunks_ok : forall fuel input buf insideQuoted,
  length input < fuel ->
  input <> [] \/ buf <> [] ->
  exists buf' rest, readChunks fuel input buf insideQuoted = (None, buf', rest).
Proof.
  induction fuel as [|fuel IH]; intros input buf q Hfuel Hne; [lia|].
  cbn [readChunks].
  destruct (ReadSlice readerSize input) as [[chunk err] rest] eqn:E.
  destruct (ReadSlice_nonempty input chunk err rest E) as (Hlen & Hchunk & Hgo).
  set (buf' := if 0 <? length chunk then buf ++ chunk else buf).
  assert (Hbuf : 1 <= length buf').
  { subst buf'. destruct Hne as [Hi|Hb].
    - specialize (Hchunk Hi).
      replace (0 <? length chunk) with true by (symmetry; apply Nat.ltb_lt; lia).
      rewrite length_app. lia.
    - destruct (0 <? length chunk); [rewrite length_app|];
        destruct buf; try congruence; cbn [length]; lia. }
  assert (Hnext : forall q', err <> Some io_EOF ->
            exists b1 rest1, readChunks fuel rest buf' q' = (None, b1, rest1)).
  { intros q' He. specialize (Hgo He). apply IH; [lia|].
    right. destruct buf'; [cbn in Hbuf; lia|discriminate]. }
  destruct err as [[|]|].
  - apply Hnext. discriminate.
  - replace (length buf' =? 0) with false by (symmetry; apply Nat.eqb_neq; lia).
    eexists; eexists; reflexivity.
  - match goal with |- context [negb ?b] => destruct b end; cbn [negb].
    + apply Hnext. discriminate.
    + eexists; eexists; reflexivity.
Qed.

(** While input is left, [Read] returns a record: no field count makes it
    fail. *)
Lemma Read_ok (b : Reader) :
  r b <> [] -> exists rec b', Read b = (Rec rec, b').
Proof.
  intro Hne. unfold Read, readRecord.
  destruct (readChunks_ok (S (length (r b))) (r b) [] false (Nat.lt_succ_diag_r _)
              (or_introl Hne)) as (buf' & rest & E).
  rewrite E.
  match goal with |- context [IndexByte ?x DQ] => destruct (IndexByte x DQ) end.
  - match goal with |- context [pad ?x ?y ?z] => destruct (pad x y z) end.
    eexists; eexists; reflexivity.
  - match goal with |- context [splitPlain ?a ?x ?y ?z ?u ?v] =>
      destruct (splitPlain a x y z u v) end.
    match goal with |- context [pad ?x ?y ?z] => destruct (pad x y z) end.
    eexists; eexists; reflexivity.
Qed.

End RecordReaderFacts.


(** ** The specification's statements, settled on the readers *)

Lemma sane_defaults : sane COMMA DQ.
Proof. repeat split; discriminate. Qed.

(** *** White space *)

(** C2 on csvc.go.  [Read] trims the line before it looks for fields, so the
    first field loses its leading and the last field its trailing white
    space, and with a tab as delimiter the empty first and last fields are
    lost altogether; the byte-level reader returns the same text as it
    stands. *)
Theorem LineReader_trims_the_line :
  fst (LineReader.Read (LineReader.NewReader (str " a,b " ++ [LF])))
  = LineReader.Rec [str "a"; str "b"]
  /\ fst (FastReader.Read (FastReader.NewReader (str " a,b " ++ [LF])))
     = FastReader.Rec [str " a"; str "b "]
  /\ fst (LineReader.Read
            (LineReader.mkReader 9 LineReader.defaultComment 0 false
               ("009"%char :: str "a" ++ ["009"%char; LF]) 0 []))
     = LineReader.Rec [str "a"]
  /\ fst (FastReader.Read
            (FastReader.mkReader ("009"%char :: str "a" ++ ["009"%char; LF]) None
               "009"%char DQ [] [] false 1))
     = FastReader.Rec [[]; str "a"; []].
Proof. repeat split; vm_compute; reflexivity. Qed.

(** The byte-level reader returns the fields of a written record as they
    stand, white space included, in the order in which they were written,
    and leaves the input right after the ending of the record. *)
Theorem FastReader_returns_fields_verbatim
  (r : FastReader.Reader) (fs : list written) (e : Ending) (rest : bytes) :
  sane (FastReader.effective (FastReader.Comma r) COMMA)
       (FastReader.effective (FastReader.Quote r) DQ) ->
  FastReader.finished r = false ->
  fs <> [] ->
  forallb (wellWritten (FastReader.effective (FastReader.Comma r) COMMA)
                       (FastReader.effective (FastReader.Quote r) DQ)) fs = true ->
  FastReaderSpec.follows e rest (FastReader.srcEnd r) ->
  (e = EndEOF ->
   encodeRecord (FastReader.effective (FastReader.Comma r) COMMA)
                (FastReader.effective (FastReader.Quote r) DQ) fs <> []) ->
  FastReader.src r =
    encodeRecord (FastReader.effective (FastReader.Comma r) COMMA)
                 (FastReader.effective (FastReader.Quote r) DQ) fs
    ++ ending e ++ rest ->
  fst (FastReader.Read r) = FastReader.Rec (values fs)
  /\ FastReader.src (snd (FastReader.Read r)) = rest.
Proof.
  intros Hsane Hfin Hne Hw Hf Hnz Hsrc.
  destruct (FastReaderFacts.Read_written_fields r fs e rest Hsane Hfin Hne Hw Hf Hnz
              Hsrc) as (H1 & H2 & _).
  split; assumption.
Qed.

(** [FastReader_returns_fields_verbatim] on a record with white space around
    and inside its fields, one of them quoted, ended by a carriage return
    and a line feed. *)
Lemma FastReader_returns_fields_verbatim_witness :
  fst (FastReader.Read
         (FastReader.NewReader
            (str " a " ++ [COMMA; DQ] ++ str " b, " ++ [DQ; COMMA] ++ str "c  "
             ++ [CR; LF] ++ str "next")))
  = FastReader.Rec [str " a "; str " b, "; str "c  "]
  /\ FastReader.src
       (snd (FastReader.Read
               (FastReader.NewReader
                  (str " a " ++ [COMMA; DQ] ++ str " b, " ++ [DQ; COMMA] ++ str "c  "
                   ++ [CR; LF] ++ str "next"))))
     = str "next".
Proof.
  apply (FastReader_returns_fields_verbatim
           (FastReader.NewReader
              (str " a " ++ [COMMA; DQ] ++ str " b, " ++ [DQ; COMMA] ++ str "c  "
               ++ [CR; LF] ++ str "next"))
           [(false, str " a "); (true, str " b, "); (false, str "c  ")]
           EndCRLF (str "next")).
  - exact sane_defaults.
  - reflexivity.
  - discriminate.
  - reflexivity.
  - exact I.
  - discriminate.
  - reflexivity.
Defined.

(** *** Doubled quotes *)

(** C3 as the specification states it fails: a field that is returned
    without error can hold two quotes in a row.  The quoted field written
    with six quotes holds two doubled quotes, and its value is two quotes. *)
Lemma decoded_text_may_hold_two_quotes :
  ~ (forall (input : bytes) (record : list bytes),
       fst (FastReader.Read (FastReader.NewReader input)) = FastReader.Rec record ->
       forallb (fun f => negb (hasEscape f)) record = true).
Proof.
  intro H.
  specialize (H [DQ; DQ; DQ; DQ; DQ; DQ; LF] [[DQ; DQ]] eq_refl).
  vm_compute in H. discriminate.
Qed.

(** C3, amended.  Every doubled quote inside a quoted field stands for one
    quote of the value: the byte-level reader returns the values of a written
    record, in which a quoted field is its value with every quote doubled,
    and the line-oriented reader takes the quotes off such a field and
    returns its value.  A value that holds two quotes in a row is returned
    with both.  The field of [she_said] is returned as [she_said_value] by
    both readers. *)
Theorem doubled_quotes_collapse :
  (forall (r : FastReader.Reader) (fs : list written) (e : Ending) (rest : bytes),
      sane (FastReader.effective (FastReader.Comma r) COMMA)
           (FastReader.effective (FastReader.Quote r) DQ) ->
      FastReader.finished r = false ->
      fs <> [] ->
      forallb (wellWritten (FastReader.effective (FastReader.Comma r) COMMA)
                           (FastReader.effective (FastReader.Quote r) DQ)) fs = true ->
      FastReaderSpec.follows e rest (FastReader.srcEnd r) ->
      (e = EndEOF ->
       encodeRecord (FastReader.effective (FastReader.Comma r) COMMA)
                    (FastReader.effective (FastReader.Quote r) DQ) fs <> []) ->
      FastReader.src r =
        encodeRecord (FastReader.effective (FastReader.Comma r) COMMA)
                     (FastReader.effective (FastReader.Quote r) DQ) fs
        ++ ending e ++ rest ->
      fst (FastReader.Read r) = FastReader.Rec (values fs))
  /\ (forall s : bytes, LineReader.unquote (quoted DQ s) = s)
  /\ fst (FastReader.Read (FastReader.NewReader she_said))
     = FastReader.Rec [she_said_value]
  /\ fst (LineReader.Read (LineReader.NewReader she_said))
     = LineReader.Rec [she_said_value].
Proof.
  split.
  { intros r fs e rest Hsane Hfin Hne Hw Hf Hnz Hsrc.
    exact (proj1 (FastReaderFacts.Read_written_fields r fs e rest Hsane Hfin Hne Hw Hf
                    Hnz Hsrc)). }
  split; [exact LineReaderFacts.unquote_quoted|].
  split; vm_compute; reflexivity.
Qed.

(** The general part of [doubled_quotes_collapse] at the input [she_said],
    which stops without a line ending. *)
Lemma doubled_quotes_collapse_witness :
  fst (FastReader.Read (FastReader.NewReader she_said))
  = FastReader.Rec (values [(true, she_said_value)]).
Proof.
  apply (proj1 doubled_quotes_collapse (FastReader.NewReader she_said)
           [(true, she_said_value)] EndEOF []).
  - exact sane_defaults.
  - reflexivity.
  - discriminate.
  - reflexivity.
  - split; reflexivity.
  - intros _. discriminate.
  - vm_compute; reflexivity.
Defined.

(** *** Line endings *)

(** C4 as the specification states it fails on the first reader: it keeps a
    lone carriage return as a byte of the field, so the record ended by a
    carriage return differs from the one ended by a line feed. *)
Lemma ByteReader_keeps_a_lone_CR :
  ~ (fst (fst (ByteReader.Read (ByteReader.NewReader (str "a,b" ++ [CR]))))
     = fst (fst (ByteReader.Read (ByteReader.NewReader (str "a,b" ++ [LF]))))).
Proof. vm_compute. discriminate. Qed.

(** C4, amended.  In the byte-level reader with [peekByte] a written record
    gives the same fields whether a line feed, a carriage return and a line
    feed, or a lone carriage return ends it, and the reader goes on right
    after the ending; what follows a lone carriage return must not start with
    a line feed.  The first reader takes a lone carriage return for a byte of
    the field. *)
Theorem line_endings_agree :
  (forall (r : FastReader.Reader) (fs : list written) (rest : bytes) (e : Ending),
      sane (FastReader.effective (FastReader.Comma r) COMMA)
           (FastReader.effective (FastReader.Quote r) DQ) ->
      FastReader.finished r = false ->
      fs <> [] ->
      forallb (wellWritten (FastReader.effective (FastReader.Comma r) COMMA)
                           (FastReader.effective (FastReader.Quote r) DQ)) fs = true ->
      FastReaderSpec.follows EndCR rest (FastReader.srcEnd r) ->
      e <> EndEOF ->
      fst (FastReader.Read
             (FastReader.set_src
                (encodeRecord (FastReader.effective (FastReader.Comma r) COMMA)
                              (FastReader.effective (FastReader.Quote r) DQ) fs
                 ++ ending e ++ rest) r))
      = FastReader.Rec (values fs)
      /\ FastReader.src
           (snd (FastReader.Read
                   (FastReader.set_src
                      (encodeRecord (FastReader.effective (FastReader.Comma r) COMMA)
                                    (FastReader.effective (FastReader.Quote r) DQ) fs
                       ++ ending e ++ rest) r)))
         = rest)
  /\ fst (ByteReader.Read (ByteReader.NewReader (str "a,b" ++ [CR])))
     = ([str "a"; str "b" ++ [CR]], Some ByteReader.EOF).
Proof.
  split; [|vm_compute; reflexivity].
  intros r fs rest e Hsane Hfin Hne Hw Hf He.
  set (r' := FastReader.set_src _ r).
  assert (Hf' : FastReaderSpec.follows e rest (FastReader.srcEnd r')).
  { destruct e; try exact I; [exact Hf|congruence]. }
  destruct (FastReaderFacts.Read_written_fields r' fs e rest Hsane Hfin Hne Hw Hf'
              (fun H => False_ind _ (He H)) eq_refl) as (H1 & H2 & _).
  split; assumption.
Qed.

(** [line_endings_agree] for a record ended by a lone carriage return with
    more input behind it. *)
Lemma line_endings_agree_witness :
  fst (FastReader.Read
         (FastReader.set_src (str "a,b" ++ [CR] ++ str "c")
            (FastReader.NewReader [])))
  = FastReader.Rec [str "a"; str "b"]
  /\ FastReader.src
       (snd (FastReader.Read
               (FastReader.set_src (str "a,b" ++ [CR] ++ str "c")
                  (FastReader.NewReader []))))
     = str "c".
Proof.
  apply (proj1 line_endings_agree (FastReader.NewReader [])
           [(false, str "a"); (false, str "b")] (str "c") EndCR).
  - exact sane_defaults.
  - reflexivity.
  - discriminate.
  - reflexivity.
  - cbn. discriminate.
  - discriminate.
Defined.

(** *** The last record *)

(** C5 on both readers.  When the input stops after a record with no line
    ending, [Read] of the byte-level reader returns that record and the
    next [Read] returns [io.EOF], for every written record of at least one
    byte.  The line-oriented reader does so for a last line that is
    shorter than the buffer of its [bufio.Reader] and neither blank nor a
    comment, while no field count is enforced.  A last line that fills the
    buffer a whole number of times and holds no carriage return is lost
    there: [Read] returns [io.EOF] in its place.  For the input a,b,c both
    readers return the three fields and then [io.EOF]; for a last line of
    4096 bytes the byte-level reader returns the field and the
    line-oriented reader [io.EOF]. *)
Theorem last_record_without_newline :
  (forall (r : FastReader.Reader) (fs : list written),
      sane (FastReader.effective (FastReader.Comma r) COMMA)
           (FastReader.effective (FastReader.Quote r) DQ) ->
      FastReader.finished r = false ->
      fs <> [] ->
      forallb (wellWritten (FastReader.effective (FastReader.Comma r) COMMA)
                           (FastReader.effective (FastReader.Quote r) DQ)) fs = true ->
      FastReader.srcEnd r = FastReader.EOF ->
      FastReader.src r <> [] ->
      FastReader.src r =
        encodeRecord (FastReader.effective (FastReader.Comma r) COMMA)
                     (FastReader.effective (FastReader.Quote r) DQ) fs ->
      fst (FastReader.Read r) = FastReader.Rec (values fs)
      /\ FastReader.Read (snd (FastReader.Read r))
         = (FastReader.Err FastReader.EOF, snd (FastReader.Read r)))
  /\ (forall r : LineReader.Reader,
         LineReader.rd r <> [] ->
         noLF (LineReader.rd r) = true ->
         length (LineReader.rd r) < defaultBufSize ->
         LineReader.skipped r (TrimSpace (LineReader.rd r)) = false ->
         (LineReader.FieldsPerRecord r <= 0)%Z ->
         exists rec r',
           LineReader.Read r = (LineReader.Rec rec, r')
           /\ fst (LineReader.Read r') = LineReader.Err LineReader.EOF)
  /\ (forall (r : LineReader.Reader) (k : nat),
         1 <= k ->
         noLF (LineReader.rd r) = true ->
         forallb (fun c => negb (Ascii.eqb c CR)) (LineReader.rd r) = true ->
         length (LineReader.rd r) = k * defaultBufSize ->
         fst (LineReader.Read r) = LineReader.Err LineReader.EOF
         /\ LineReader.rd (snd (LineReader.Read r)) = [])
  /\ fst (FastReader.Read (FastReader.NewReader (str "a,b,c")))
     = FastReader.Rec [str "a"; str "b"; str "c"]
  /\ fst (FastReader.Read (snd (FastReader.Read (FastReader.NewReader (str "a,b,c")))))
     = FastReader.Err FastReader.EOF
  /\ fst (LineReader.Read (LineReader.NewReader (str "a,b,c")))
     = LineReader.Rec [str "a"; str "b"; str "c"]
  /\ fst (LineReader.Read (snd (LineReader.Read (LineReader.NewReader (str "a,b,c")))))
     = LineReader.Err LineReader.EOF
  /\ fst (FastReader.Read (FastReader.NewReader (repeat "a"%char defaultBufSize)))
     = FastReader.Rec [repeat "a"%char defaultBufSize]
  /\ fst (LineReader.Read (LineReader.NewReader (repeat "a"%char defaultBufSize)))
     = LineReader.Err LineReader.EOF.
Proof.
  split.
  { intros r fs Hsane Hfin Hne Hw Hend Hnz Hsrc.
    assert (Hsrc' : FastReader.src r =
                    encodeRecord (FastReader.effective (FastReader.Comma r) COMMA)
                      (FastReader.effective (FastReader.Quote r) DQ) fs
                    ++ ending EndEOF ++ []).
    { cbn [ending app]. now rewrite app_nil_r. }
    destruct (FastReaderFacts.Read_written_fields r fs EndEOF [] Hsane Hfin Hne Hw
                (conj eq_refl Hend) (fun _ => eq_ind _ (fun x => x <> []) Hnz _ Hsrc)
                Hsrc') as (H1 & _ & _ & H4).
    split; [exact H1|]. apply FastReaderFacts.Read_finished. exact H4. }
  split.
  { intros r Hne Hnl Hfit Hsk Hf.
    destruct (LineReaderFacts.Read_last_line r Hne Hnl Hfit Hsk Hf)
      as (rec & r' & H1 & _ & H3).
    exists rec, r'. split; assumption. }
  split.
  { intros r k Hk Hnl Hcr Hlen.
    rewrite (LineReaderFacts.Read_lost_line r k Hk Hnl Hcr Hlen). split; reflexivity. }
  do 4 (split; [vm_compute; reflexivity|]).
  split.
  - assert (Hw : forallb (wellWritten COMMA DQ) [(false, repeat "a"%char defaultBufSize)]
                 = true) by (vm_compute; reflexivity).
    assert (Hsrc : FastReader.src (FastReader.NewReader (repeat "a"%char defaultBufSize))
                   = encodeRecord COMMA DQ [(false, repeat "a"%char defaultBufSize)]
                     ++ ending EndEOF ++ [])
      by (vm_compute; reflexivity).
    exact (proj1 (FastReaderFacts.Read_written_fields
                    (FastReader.NewReader (repeat "a"%char defaultBufSize))
                    [(false, repeat "a"%char defaultBufSize)] EndEOF []
                    sane_defaults eq_refl ltac:(discriminate) Hw (conj eq_refl eq_refl)
                    ltac:(intros _; vm_compute; discriminate) Hsrc)).
  - apply (f_equal fst
             (LineReaderFacts.Read_lost_line
                (LineReader.NewReader (repeat "a"%char defaultBufSize)) 1 (le_n _)
                ltac:(vm_compute; reflexivity) ltac:(vm_compute; reflexivity)
                ltac:(vm_compute; reflexivity))).
Qed.

(** The general parts of [last_record_without_newline]: both readers at
    the input a,b,c, and the line-oriented reader at a last line of 4096
    bytes. *)
Lemma last_record_without_newline_witness :
  (fst (FastReader.Read (FastReader.NewReader (str "a,b,c")))
   = FastReader.Rec (values [(false, str "a"); (false, str "b"); (false, str "c")])
   /\ FastReader.Read (snd (FastReader.Read (FastReader.NewReader (str "a,b,c"))))
      = (FastReader.Err FastReader.EOF,
         snd (FastReader.Read (FastReader.NewReader (str "a,b,c")))))
  /\ (exists rec r',
         LineReader.Read (LineReader.NewReader (str "a,b,c")) = (LineReader.Rec rec, r')
         /\ fst (LineReader.Read r') = LineReader.Err LineReader.EOF)
  /\ (fst (LineReader.Read (LineReader.NewReader (repeat "a"%char defaultBufSize)))
      = LineReader.Err LineReader.EOF
      /\ LineReader.rd
           (snd (LineReader.Read (LineReader.NewReader (repeat "a"%char defaultBufSize))))
         = []).
Proof.
  split; [|split].
  - apply (proj1 last_record_without_newline (FastReader.NewReader (str "a,b,c"))
             [(false, str "a"); (false, str "b"); (false, str "c")]).
    + exact sane_defaults.
    + reflexivity.
    + discriminate.
    + reflexivity.
    + reflexivity.
    + discriminate.
    + reflexivity.
  - apply (proj1 (proj2 last_record_without_newline)
             (LineReader.NewReader (str "a,b,c"))).
    + discriminate.
    + reflexivity.
    + apply Nat.ltb_lt. vm_compute. reflexivity.
    + reflexivity.
    + cbn. lia.
  - apply (proj1 (proj2 (proj2 last_record_without_newline))
             (LineReader.NewReader (repeat "a"%char defaultBufSize)) 1).
    + lia.
    + vm_compute. reflexivity.
    + vm_compute. reflexivity.
    + vm_compute. reflexivity.
Defined.

(** *** Empty fields *)

(** C6 on csvc.go.  The last field is added once after the loop, and once
    more when the line ends with the delimiter, so a trailing delimiter
    yields two empty fields; the reader built on [readRecord] yields one. *)
Theorem LineReader_doubles_the_trailing_empty_field :
  fst (LineReader.Read (LineReader.NewReader (str ",a,,b," ++ [LF])))
  = LineReader.Rec [[]; str "a"; []; str "b"; []; []]
  /\ fst (LineReader.Read (LineReader.NewReader (str "a," ++ [LF])))
     = LineReader.Rec [str "a"; []; []]
  /\ fst (RecordReader.Read (RecordReader.NewReader (str ",a,,b," ++ [LF])))
     = RecordReader.Rec [[]; str "a"; []; str "b"; []].
Proof. repeat split; vm_compute; reflexivity. Qed.

(** *** Bare quotes and the location of errors *)

(** C7.  The byte-level reader is strict.  A quote that follows an ordinary
    byte of an unquoted field makes [Read] return [ErrBareQuote] in a
    [ParseError] with the line counter of the reader and the column of the
    quote, counted from 1; the loop does so in every state outside quotes in
    which the field has content or a quoted field was just closed; and every
    error [Read] returns is [io.EOF], an error of the source, or a
    [ParseError] with the reader's line and a column of at least 1 around
    [ErrBareQuote] or [ErrUnterminatedQuote]. *)
Theorem bare_quote_reported_with_location :
  (forall (r : FastReader.Reader) (pre : bytes) (c : ascii) (rest : bytes),
      sane (FastReader.effective (FastReader.Comma r) COMMA)
           (FastReader.effective (FastReader.Quote r) DQ) ->
      FastReader.finished r = false ->
      plain (FastReader.effective (FastReader.Quote r) DQ) pre = true ->
      ordinary (FastReader.effective (FastReader.Comma r) COMMA)
               (FastReader.effective (FastReader.Quote r) DQ) c = true ->
      FastReader.src r =
        pre ++ c :: FastReader.effective (FastReader.Quote r) DQ :: rest ->
      fst (FastReader.Read r)
      = FastReader.Err
          (FastReader.ParseError (FastReader.line r) (length pre + 2)
             FastReader.ErrBareQuote))
  /\ (forall (comma quote : ascii) (tl : bytes) (r : FastReader.Reader)
             (l : FastReader.Locals),
         sane comma quote ->
         FastReader.inQuotes l = false ->
         length (FastReader.dataBuf r) <> FastReader.fieldStart l
         \/ FastReader.sawQuotedField l = true ->
         FastReader.readLoop comma quote (quote :: tl) r l
         = (FastReader.Err
              (FastReader.ParseError (FastReader.line r) (FastReader.column l)
                 FastReader.ErrBareQuote),
            FastReader.set_src tl r))
  /\ (forall (r : FastReader.Reader) (e : FastReader.error) (r' : FastReader.Reader),
         FastReader.Read r = (FastReader.Err e, r') ->
         FastReaderSpec.errorShape e r').
Proof.
  split.
  { intros r pre c rest Hsane Hfin Hp Hc Hsrc.
    exact (proj1 (FastReaderFacts.Read_bare_quote r pre c rest Hsane Hfin Hp Hc Hsrc)). }
  split.
  { intros comma quote tl r l Hsane. apply FastReaderFacts.bare_quote_step. exact Hsane. }
  exact FastReaderFacts.Read_error.
Qed.

(** [bare_quote_reported_with_location] at the input of the repository test
    for bare quotes: line 1, column 2. *)
Lemma bare_quote_reported_with_location_witness :
  fst (FastReader.Read (FastReader.NewReader (str "a" ++ [DQ] ++ str "b,c" ++ [LF])))
  = FastReader.Err (FastReader.ParseError 1 2 FastReader.ErrBareQuote).
Proof.
  apply (proj1 bare_quote_reported_with_location
           (FastReader.NewReader (str "a" ++ [DQ] ++ str "b,c" ++ [LF]))
           [] "a"%char (str "b,c" ++ [LF])).
  - exact sane_defaults.
  - reflexivity.
  - reflexivity.
  - reflexivity.
  - reflexivity.
Defined.

(** *** The field-count policy *)

(** C8 as the specification states it fails on csvc.go: a new reader learns
    the count of the first record and the second record, with three fields
    after two, is refused. *)
Lemma default_count_is_enforced :
  ~ (exists rec,
        fst (LineReader.Read
               (snd (LineReader.Read
                       (LineReader.NewReader
                          (str "a,b" ++ [LF] ++ str "1,2,3" ++ [LF])))))
        = LineReader.Rec rec).
Proof. intros [rec H]. vm_compute in H. discriminate. Qed.

Lemma readerAfter_keeps (k : nat) (r : LineReader.Reader) :
  LineReader.FieldsPerRecord r <> 0%Z ->
  LineReader.FieldsPerRecord (readerAfter k r) = LineReader.FieldsPerRecord r.
Proof.
  intro Hnz. induction k as [|k IH]; [reflexivity|].
  replace (readerAfter (S k) r) with (snd (LineReader.Read (readerAfter k r)))
    by reflexivity.
  rewrite LineReaderFacts.Read_keeps; congruence.
Qed.

(** C8, amended.  In csvc.go a reader whose [FieldsPerRecord] is 0, as
    [NewReader] leaves it, takes the count of the first record it returns
    and enforces it from then on: every record returned later has that many
    fields, and a line with another count is refused with [ErrFieldCount];
    [ErrFieldCount] is never returned while [FieldsPerRecord] is negative.
    The reader built on [readRecord] keeps the first count only to fill up
    shorter records with empty fields and returns a record whenever input is
    left. *)
Theorem field_count_policy :
  (forall (r : LineReader.Reader) (rec1 : list bytes) (r1 : LineReader.Reader),
      LineReader.FieldsPerRecord r = 0%Z ->
      LineReader.Read r = (LineReader.Rec rec1, r1) ->
      LineReader.FieldsPerRecord r1 = Z.of_nat (length rec1)
      /\ forall (k : nat) (rec : list bytes) (r2 : LineReader.Reader),
           LineReader.Read (readerAfter k r1) = (LineReader.Rec rec, r2) ->
           length rec = length rec1)
  /\ (forall r r' : LineReader.Reader,
         LineReader.Read r = (LineReader.Err LineReader.ErrFieldCount, r') ->
         (0 < LineReader.FieldsPerRecord r)%Z)
  /\ fst (LineReader.Read
            (snd (LineReader.Read
                    (LineReader.NewReader (str "a,b" ++ [LF] ++ str "1,2,3" ++ [LF])))))
     = LineReader.Err LineReader.ErrFieldCount
  /\ fst (LineReader.Read
            (snd (LineReader.Read
                    (LineReader.mkReader LineReader.defaultDelimiter
                       LineReader.defaultComment (-1) false
                       (str "a,b" ++ [LF] ++ str "1,2,3" ++ [LF]) 0 []))))
     = LineReader.Rec [str "1"; str "2"; str "3"]
  /\ (forall b : RecordReader.Reader,
         RecordReader.r b <> [] ->
         exists rec b', RecordReader.Read b = (RecordReader.Rec rec, b'))
  /\ fst (RecordReader.Read
            (snd (RecordReader.Read
                    (RecordReader.NewReader (str "a,b" ++ [LF] ++ str "1,2,3" ++ [LF])))))
     = RecordReader.Rec [str "1"; str "2"; str "3"]
  /\ fst (RecordReader.Read
            (snd (RecordReader.Read
                    (RecordReader.NewReader (str "a,b,c" ++ [LF] ++ str "1" ++ [LF])))))
     = RecordReader.Rec [str "1"; []; []].
Proof.
  split.
  { intros r rec1 r1 Hz H.
    destruct (LineReaderFacts.Read_count r rec1 r1 H) as (Hne & H0 & _).
    specialize (H0 Hz). split; [exact H0|].
    intros k rec r2 Hk.
    assert (Hnz : LineReader.FieldsPerRecord r1 <> 0%Z) by lia.
    pose proof (readerAfter_keeps k r1 Hnz) as Hkeep.
    destruct (LineReaderFacts.Read_count (readerAfter k r1) rec r2 Hk)
      as (_ & _ & Hpos & _).
    destruct Hpos as [Hlen _]; lia. }
  split; [exact LineReaderFacts.Read_ErrFieldCount|].
  split; [vm_compute; reflexivity|].
  split; [vm_compute; reflexivity|].
  split; [exact RecordReaderFacts.Read_ok|].
  split; vm_compute; reflexivity.
Qed.

(** [field_count_policy] for a new reader and a first record of two fields. *)
Lemma field_count_policy_witness :
  LineReader.FieldsPerRecord
    (snd (LineReader.Read
            (LineReader.NewReader (str "a,b" ++ [LF] ++ str "1,2" ++ [LF]))))
  = Z.of_nat (length [str "a"; str "b"])
  /\ forall (k : nat) (rec : list bytes) (r2 : LineReader.Reader),
       LineReader.Read
         (readerAfter k
            (snd (LineReader.Read
                    (LineReader.NewReader (str "a,b" ++ [LF] ++ str "1,2" ++ [LF])))))
       = (LineReader.Rec rec, r2) ->
       length rec = length [str "a"; str "b"].
Proof.
  apply (proj1 field_count_policy
           (LineReader.NewReader (str "a,b" ++ [LF] ++ str "1,2" ++ [LF]))).
  - reflexivity.
  - vm_compute; reflexivity.
Defined.

(** *** Exhaustion *)

(** C9.  Once [Read] has returned [io.EOF] or a [ParseError] around
    [ErrUnterminatedQuote], the reader is finished: every later [Read]
    returns [io.EOF] with no record and leaves the reader, and with it the
    bytes of the source, as they were. *)
Theorem finished_reader_returns_EOF
  (r : FastReader.Reader) (e : FastReader.error) (r' : FastReader.Reader) :
  FastReader.Read r = (FastReader.Err e, r') ->
  e = FastReader.EOF
  \/ (exists ln col, e = FastReader.ParseError ln col FastReader.ErrUnterminatedQuote) ->
  FastReader.finished r' = true
  /\ forall k : nat,
       fastReaderAfter k r' = r'
       /\ FastReader.Read (fastReaderAfter k r') = (FastReader.Err FastReader.EOF, r').
Proof.
  intros H He.
  pose proof (FastReaderFacts.Read_finishes r e r' H He) as Hfin.
  split; [exact Hfin|].
  assert (Hk : forall k, fastReaderAfter k r' = r').
  { induction k as [|k IH]; [reflexivity|].
    replace (fastReaderAfter (S k) r')
      with (snd (FastReader.Read (fastReaderAfter k r'))) by reflexivity.
    rewrite IH, (FastReaderFacts.Read_finished r' Hfin). reflexivity. }
  intro k. split; [apply Hk|].
  rewrite Hk. apply FastReaderFacts.Read_finished. exact Hfin.
Qed.

(** [finished_reader_returns_EOF] after the unterminated quote of the
    repository test. *)
Lemma finished_reader_returns_EOF_witness :
  FastReader.finished
    (snd (FastReader.Read (FastReader.NewReader ([DQ] ++ str "unterminated" ++ [LF]))))
  = true
  /\ forall k : nat,
       fastReaderAfter k
         (snd (FastReader.Read
                 (FastReader.NewReader ([DQ] ++ str "unterminated" ++ [LF]))))
       = snd (FastReader.Read (FastReader.NewReader ([DQ] ++ str "unterminated" ++ [LF])))
       /\ FastReader.Read
            (fastReaderAfter k
               (snd (FastReader.Read
                       (FastReader.NewReader ([DQ] ++ str "unterminated" ++ [LF])))))
          = (FastReader.Err FastReader.EOF,
             snd (FastReader.Read
                    (FastReader.NewReader ([DQ] ++ str "unterminated" ++ [LF])))).
Proof.
  apply (finished_reader_returns_EOF
           (FastReader.NewReader ([DQ] ++ str "unterminated" ++ [LF]))
           (FastReader.ParseError 2 1 FastReader.ErrUnterminatedQuote)).
  - vm_compute; reflexivity.
  - right. exists 2, 1. reflexivity.
Defined.

(** *** Blank lines *)

(** C10.  In csvc.go a line of white space only, empty or not, gives no
    record: [Read] goes on with the line after it, one line further in its
    count, and on input that is white space throughout it returns
    [io.EOF]. *)
Theorem blank_line_yields_no_record :
  (forall (r : LineReader.Reader) (ws rest : bytes),
      blank ws = true ->
      LineReader.rd r = ws ++ LF :: rest ->
      LineReader.Read r =
      LineReader.Read
        (LineReader.mkReader (LineReader.Comma r) (LineReader.Comment r)
           (LineReader.FieldsPerRecord r) (LineReader.LazyQuotes r) rest
           (LineReader.numLine r + 1) (LineReader.fieldIndexes r)))
  /\ (forall r : LineReader.Reader,
         forallb isSpace (LineReader.rd r) = true ->
         fst (LineReader.Read r) = LineReader.Err LineReader.EOF).
Proof.
  split.
  - exact LineReaderFacts.Read_blank.
  - intros r H. exact (LineReaderFacts.Read_spaces (length (LineReader.rd r)) r (le_n _) H).
Qed.

(** [blank_line_yields_no_record] on a line of two spaces before a record,
    and on input of blank lines only. *)
Lemma blank_line_yields_no_record_witness :
  LineReader.Read (LineReader.NewReader (str "  " ++ LF :: str "a,b"))
  = LineReader.Read
      (LineReader.mkReader LineReader.defaultDelimiter LineReader.defaultComment 0
         false (str "a,b") 1 [])
  /\ fst (LineReader.Read (LineReader.NewReader ([LF] ++ str " " ++ [CR; LF])))
     = LineReader.Err LineReader.EOF.
Proof.
  split.
  - apply (proj1 blank_line_yields_no_record
             (LineReader.NewReader (str "  " ++ LF :: str "a,b")) (str "  ") (str "a,b")).
    + reflexivity.
    + reflexivity.
  - apply (proj2 blank_line_yields_no_record
             (LineReader.NewReader ([LF] ++ str " " ++ [CR; LF]))).
    reflexivity.
Defined.


(** ** More on the byte-level reader *)

Module FastReaderMore.
Import FastReader FastReaderSpec.

Ltac split_branches_more H :=
  repeat match type of H with
         | context [if ?b then _ else _] => destruct b eqn:?
         | context [match ?x with _ => _ end] => destruct x eqn:?
         end.

(** [buildRecord] looks at [dataBuf] and [fieldBounds] only. *)
Lemma buildRecord_ext (r1 r2 : Reader) :
  dataBuf r1 = dataBuf r2 -> fieldBounds r1 = fieldBounds r2 ->
  buildRecord r1 = buildRecord r2.
Proof. intros H1 H2. unfold buildRecord. now rewrite H1, H2. Qed.

Lemma layout_close (r : Reader) (l : Locals) (vs : list bytes) (cur : bytes) :
  layout r l vs cur ->
  fieldBounds (closeField r l) = bounds 0 (vs ++ [cur])
  /\ dataBuf (closeField r l) = concat (vs ++ [cur]).
Proof.
  intros (Hb & Hd & Hs). destruct r as [s e c q d fb fin ln].
  cbn [closeField set_fieldBounds fieldBounds dataBuf] in *. subst fb d.
  rewrite bounds_app, concat_app, Hs. cbn [bounds concat Nat.add].
  rewrite app_nil_r, length_app. auto.
Qed.

Lemma layout_record (r r2 : Reader) (l : Locals) (vs : list bytes) (cur : bytes) :
  layout r l vs cur ->
  dataBuf r2 = dataBuf (closeField r l) ->
  fieldBounds r2 = fieldBounds (closeField r l) ->
  buildRecord r2 = vs ++ [cur] /\ dataBuf r2 = concat (vs ++ [cur])
  /\ fieldBounds r2 = bounds 0 (vs ++ [cur]).
Proof.
  intros Hl Hd Hb. destruct (layout_close r l vs cur Hl) as [H1 H2].
  split; [|split; congruence].
  rewrite (buildRecord_ext r2
             (mkReader [] None COMMA DQ (concat (vs ++ [cur])) (bounds 0 (vs ++ [cur]))
                false 0)).
  - apply FastReaderFacts.buildRecord_bounds.
  - cbn [dataBuf]. congruence.
  - cbn [fieldBounds]. congruence.
Qed.

Lemma layout_keep (r r1 : Reader) (l l1 : Locals) (vs : list bytes) (cur : bytes) :
  layout r l vs cur ->
  dataBuf r1 = dataBuf r -> fieldBounds r1 = fieldBounds r ->
  fieldStart l1 = fieldStart l ->
  layout r1 l1 vs cur.
Proof. unfold layout. intros (H1 & H2 & H3) Hd Hb Hs. repeat split; congruence. Qed.

Lemma layout_push (r r1 : Reader) (l l1 : Locals) (vs : list bytes) (cur : bytes)
  (b : ascii) :
  layout r l vs cur ->
  dataBuf r1 = dataBuf r ++ [b] -> fieldBounds r1 = fieldBounds r ->
  fieldStart l1 = fieldStart l ->
  layout r1 l1 vs (cur ++ [b]).
Proof.
  unfold layout. intros (H1 & H2 & H3) Hd Hb Hs. repeat split; try congruence.
  rewrite Hd, H2. now rewrite app_assoc.
Qed.

Lemma layout_next (r : Reader) (l : Locals) (vs : list bytes) (cur : bytes)
  (q s : bool) (c : nat) :
  layout r l vs cur ->
  layout (closeField r l) (mkLocals q s c (length (dataBuf (closeField r l))))
    (vs ++ [cur]) [].
Proof.
  intro H. destruct (layout_close r l vs cur H) as [H1 H2].
  unfold layout. cbn [fieldStart]. rewrite H1, H2, app_nil_r. auto.
Qed.

Ltac record_leaf H vs cur :=
  inversion H; subst; clear H;
  match goal with
  | Hl : layout ?r ?l vs cur |- exists _ _, buildRecord ?r2 = _ /\ _ =>
      destruct (layout_record r r2 l vs cur Hl eq_refl eq_refl)
        as (Hrec & Hdata & Hbounds);
      exists vs, cur; split; [exact Hrec|rewrite Hrec; split; [exact Hdata|exact Hbounds]]
  end.

(** Every record [Read] builds is the run of fields that lie end to end in
    [dataBuf], the last of them the field that was being read. *)
Lemma readLoop_layout (comma quote : ascii) : forall n bs,
  length bs <= n ->
  forall r l vs cur rec r',
    layout r l vs cur ->
    readLoop comma quote bs r l = (Rec rec, r') ->
    exists vs' cur',
      rec = vs' ++ [cur'] /\ dataBuf r' = concat rec /\ fieldBounds r' = bounds 0 rec.
Proof.
  induction n as [|n IH]; intros bs Hn r l vs cur rec r' Hl H.
  - destruct bs; [|cbn in Hn; lia].
    cbn [readLoop] in H. split_branches_more H; try discriminate.
    record_leaf H vs cur.
  - destruct bs as [|b tl].
    + cbn [readLoop] in H. split_branches_more H; try discriminate.
      record_leaf H vs cur.
    + cbn [length] in Hn. cbn [readLoop] in H.
      split_branches_more H; try discriminate; subst; cbn [length] in Hn;
        first
          [ record_leaf H vs cur
          | eapply IH with (vs := vs) (cur := cur); [| |exact H];
              [cbn [length] in *; lia
              |eapply layout_keep; [exact Hl|reflexivity..]]
          | eapply IH with (vs := vs) (cur := cur ++ [b]); [| |exact H];
              [cbn [length] in *; lia
              |eapply layout_push; [exact Hl|reflexivity..]]
          | eapply IH with (vs := vs) (cur := cur ++ [quote]); [| |exact H];
              [cbn [length] in *; lia
              |eapply layout_push; [exact Hl|reflexivity..]]
          | eapply IH with (vs := vs ++ [cur]) (cur := []); [| |exact H];
              [cbn [length] in *; lia
              |eapply layout_next; exact Hl] ].
Qed.

(** Every record has a field, and its fields laid end to end are the
    reader's [dataBuf], with [fieldBounds] their bounds. *)
Lemma Read_layout (r : Reader) (rec : list bytes) (r' : Reader) :
  Read r = (Rec rec, r') ->
  rec <> [] /\ dataBuf r' = concat rec /\ fieldBounds r' = bounds 0 rec.
Proof.
  unfold Read. destruct (finished r); [discriminate|]. intro H.
  assert (Hl : layout (set_fieldBounds [] (set_dataBuf [] r)) (mkLocals false false 1 0)
                 [] []) by (repeat split).
  destruct (readLoop_layout _ _ _ _ (le_n _) _ _ [] [] rec r' Hl H)
    as (vs & cur & Hrec & Hd).
  split; [|exact Hd]. subst rec. destruct vs; discriminate.
Qed.

(** A record is returned only after the loop took a byte, or the input is
    at its end and the reader is finished. *)
Lemma readLoop_progress (comma quote : ascii) : forall n bs,
  length bs <= n ->
  forall r l rec r',
    readLoop comma quote bs r l = (Rec rec, r') ->
    (bs = [] /\ finished r' = true /\ src r' = []) \/ length (src r') < length bs.
Proof.
  induction n as [|n IH]; intros bs Hn r l rec r' H.
  - destruct bs; [|cbn in Hn; lia].
    cbn [readLoop] in H. split_branches_more H; try discriminate.
    inversion H; subst. left. repeat split; reflexivity.
  - destruct bs as [|b tl].
    + cbn [readLoop] in H. split_branches_more H; try discriminate.
      inversion H; subst. left. repeat split; reflexivity.
    + right. cbn [length] in Hn. cbn [readLoop] in H.
      split_branches_more H; try discriminate; subst; cbn [length] in Hn;
        first
          [ inversion H; subst; cbn [src set_src length]; lia
          | apply IH in H; [|cbn [length] in *; lia];
            destruct H as [(Hnil & _ & Hsrc)|Hlt];
            [rewrite Hsrc; cbn [length]; lia
            |cbn [length] in *; lia] ].
Qed.

(** A record comes with progress: the source got shorter, or the reader is
    finished. *)
Lemma Read_progress (r : Reader) (rec : list bytes) (r' : Reader) :
  Read r = (Rec rec, r') ->
  finished r' = true \/ length (src r') < length (src r).
Proof.
  unfold Read. destruct (finished r); [discriminate|]. intro H.
  apply (readLoop_progress _ _ _ _ (le_n _)) in H.
  destruct H as [(_ & Hf & _)|Hlt]; [left; exact Hf|right; exact Hlt].
Qed.

Lemma started_push (r : Reader) (l : Locals) (d : bytes) (b : ascii) :
  dataBuf r = d ++ [b] -> started r l = true.
Proof.
  intro H. unfold started. rewrite H, length_app. cbn [length].
  replace (0 <? length d + 1) with true by (symmetry; apply Nat.ltb_lt; lia).
  now rewrite orb_true_r.
Qed.

Lemma started_closeField (r : Reader) (l l' : Locals) : started (closeField r l) l' = true.
Proof.
  unfold started. destruct r as [s e c q d fb fin ln].
  cbn [closeField set_fieldBounds fieldBounds]. rewrite length_app. cbn [length].
  replace (0 <? length fb + 2) with true by (symmetry; apply Nat.ltb_lt; lia).
  reflexivity.
Qed.

Lemma started_saw (r : Reader) (l : Locals) : sawQuotedField l = true -> started r l = true.
Proof. intro H. unfold started. rewrite H. apply orb_true_r. Qed.

(** [io.EOF] comes out of the loop only where it starts: nothing read, nothing
    left. *)
Lemma readLoop_EOF (comma quote : ascii) : forall n bs,
  length bs <= n ->
  forall r l r',
    (inQuotes l = true -> sawQuotedField l = true) ->
    readLoop comma quote bs r l = (Err EOF, r') ->
    bs = [] /\ started r l = false /\ inQuotes l = false /\ srcFail r = None.
Proof.
  induction n as [|n IH]; intros bs Hn r l r' Hinv H.
  - destruct bs; [|cbn in Hn; lia].
    cbn [readLoop] in H. unfold srcEnd in H. fold (started r l) in H.
    split_branches_more H; try discriminate; repeat split; auto;
      destruct (srcFail r); [discriminate|reflexivity].
  - destruct bs as [|b tl].
    + cbn [readLoop] in H. unfold srcEnd in H. fold (started r l) in H.
      split_branches_more H; try discriminate; repeat split; auto;
      destruct (srcFail r); [discriminate|reflexivity].
    + exfalso. cbn [length] in Hn. cbn [readLoop] in H. unfold srcEnd in H.
      split_branches_more H; try discriminate; subst; cbn [length] in Hn;
        (eapply IH in H;
         [destruct H as (_ & Hs & Hq & _)
         |cbn [length] in *; lia
         |cbn [inQuotes sawQuotedField]; auto; try discriminate]);
        cbn [inQuotes] in Hq; try discriminate;
        first
          [ erewrite started_push in Hs by reflexivity; discriminate
          | rewrite started_closeField in Hs; discriminate
          | rewrite started_saw in Hs; [discriminate|cbn [sawQuotedField]; auto] ].
Qed.

(** *** Where errors point *)

Lemma located_cons (quote b : ascii) (tl : bytes) (ln col : nat) (e : error)
  (r' : Reader) :
  Ascii.eqb b LF = false ->
  located quote tl ln (col + 1) e r' ->
  located quote (b :: tl) ln col e r'.
Proof.
  intros Hb H. destruct e as [| | | |ln' col' e']; auto.
  assert (Hn : b <> LF) by (now apply Ascii.eqb_neq).
  destruct e'; auto; cbn [located] in *.
  - destruct H as (pre & rest & -> & Hs & Hl & Hc).
    exists (b :: pre), rest. cbn [app count_occ columnAfter]. rewrite Hb.
    destruct (ascii_dec b LF); [contradiction|]. auto.
  - cbn [count_occ columnAfter]. rewrite Hb.
    destruct (ascii_dec b LF); [contradiction|]. exact H.
Qed.

Lemma located_LF (quote : ascii) (tl : bytes) (ln col : nat) (e : error) (r' : Reader) :
  located quote tl (ln + 1) 1 e r' ->
  located quote (LF :: tl) ln col e r'.
Proof.
  intro H. destruct e as [| | | |ln' col' e']; auto.
  destruct e'; auto; cbn [located] in *.
  - destruct H as (pre & rest & -> & Hs & Hl & Hc).
    exists (LF :: pre), rest. cbn [app count_occ columnAfter].
    rewrite Ascii.eqb_refl. destruct (ascii_dec LF LF); [|contradiction].
    repeat split; auto. lia.
  - cbn [count_occ columnAfter]. rewrite Ascii.eqb_refl.
    destruct (ascii_dec LF LF); [|contradiction].
    destruct H as (Hl & Hc & Hs & Hf). repeat split; auto. lia.
Qed.

Lemma located_pair (quote : ascii) (tl : bytes) (ln col : nat) (e : error) (r' : Reader) :
  Ascii.eqb quote LF = false ->
  located quote tl ln (col + 2) e r' ->
  located quote (quote :: quote :: tl) ln col e r'.
Proof.
  intros Hq H. apply located_cons; [exact Hq|]. apply located_cons; [exact Hq|].
  now replace (col + 1 + 1) with (col + 2) by lia.
Qed.

Ltac eqb_subst :=
  repeat match goal with
         | H : Ascii.eqb ?b _ = true |- _ => apply Ascii.eqb_eq in H; subst b
         end.

Ltac located_leaf H :=
  inversion H; subst; clear H; cbn [located wrapError];
  solve
    [ exact I
    | repeat split; cbn [count_occ columnAfter line set_finished set_src src finished];
      rewrite ?Nat.add_0_r; auto
    | eexists [], _; cbn [app count_occ columnAfter src set_src];
      rewrite ?Nat.add_0_r; repeat split; auto ].

(** Every [ParseError] of the loop points at its cause. *)
Lemma readLoop_located (comma quote : ascii) :
  Ascii.eqb comma LF = false -> Ascii.eqb quote LF = false ->
  forall n bs,
    length bs <= n ->
    forall r l e r',
      readLoop comma quote bs r l = (Err e, r') ->
      located quote bs (line r) (column l) e r'.
Proof.
  intros Hcl Hql. induction n as [|n IH]; intros bs Hn r l e r' H.
  - destruct bs; [|cbn in Hn; lia].
    cbn [readLoop] in H. unfold srcEnd in H.
    split_branches_more H; try discriminate; located_leaf H.
  - destruct bs as [|b tl].
    + cbn [readLoop] in H. unfold srcEnd in H.
      split_branches_more H; try discriminate; located_leaf H.
    + cbn [length] in Hn. cbn [readLoop] in H. unfold srcEnd in H.
      split_branches_more H; try discriminate; subst; cbn [length] in Hn;
        eqb_subst;
        first
          [ located_leaf H
          | apply located_pair; [assumption|];
            apply IH in H; [exact H|cbn [length] in *; lia]
          | apply located_LF;
            apply IH in H; [exact H|cbn [length] in *; lia]
          | apply located_cons; [assumption|];
            apply IH in H; [exact H|cbn [length] in *; lia] ].
Qed.

Lemma Read_located (r : Reader) (e : error) (r' : Reader) :
  effective (Comma r) COMMA <> LF -> effective (Quote r) DQ <> LF ->
  finished r = false ->
  Read r = (Err e, r') ->
  located (effective (Quote r) DQ) (src r) (line r) 1 e r'.
Proof.
  intros Hc Hq Hfin H. unfold Read in H. rewrite Hfin in H.
  apply Ascii.eqb_neq in Hc, Hq.
  exact (readLoop_located _ _ Hc Hq _ _ (le_n _) _ _ _ _ H).
Qed.

(** *** The end of the input *)

Lemma Read_EOF_iff (r : Reader) :
  fst (Read r) = Err EOF <-> finished r = true \/ (src r = [] /\ srcFail r = None).
Proof.
  split.
  - unfold Read. destruct (finished r) eqn:Hfin; [auto|]. intro H. right.
    destruct (readLoop _ _ _ _ _) as [res r'] eqn:E. cbn [fst] in H. subst res.
    apply (readLoop_EOF _ _ _ _ (le_n _)) in E; [|discriminate].
    destruct E as (Hs & _ & _ & Hf). split; [exact Hs|exact Hf].
  - intros [H|[Hs Hf]]; unfold Read.
    + now rewrite H.
    + destruct (finished r); [reflexivity|].
      replace (src (set_fieldBounds [] (set_dataBuf [] r))) with (@nil ascii)
        by (symmetry; exact Hs).
      cbn [readLoop]. unfold srcEnd.
      replace (srcFail (set_fieldBounds [] (set_dataBuf [] r))) with (@None nat)
        by (symmetry; exact Hf).
      reflexivity.
Qed.

(** *** A source that fails *)

Ltac failing_leaf H :=
  inversion H; subst; clear H;
  solve [ left; repeat split; reflexivity
        | right; eexists _, _; reflexivity ].

(** Over a source that ends with an error of its own, the loop passes that
    error on as it is; it reports neither [io.EOF] nor an unterminated
    quote, and it does not finish the reader. *)
Lemma readLoop_failing (comma quote : ascii) (code : nat) : forall n bs,
  length bs <= n ->
  forall r l e r',
    srcFail r = Some code ->
    readLoop comma quote bs r l = (Err e, r') ->
    (e = SourceError code /\ src r' = [] /\ finished r' = finished r)
    \/ (exists ln col, e = ParseError ln col ErrBareQuote).
Proof.
  induction n as [|n IH]; intros bs Hn r l e r' Hsf H.
  - destruct bs; [|cbn in Hn; lia].
    cbn [readLoop] in H. unfold srcEnd in H. rewrite Hsf in H. cbn [is_EOF] in H.
    failing_leaf H.
  - destruct bs as [|b tl].
    + cbn [readLoop] in H. unfold srcEnd in H. rewrite Hsf in H. cbn [is_EOF] in H.
      failing_leaf H.
    + cbn [length] in Hn. cbn [readLoop] in H. unfold srcEnd in H.
      rewrite Hsf in H. cbn [is_EOF] in H.
      split_branches_more H; try discriminate; subst; cbn [length] in Hn;
        first
          [ failing_leaf H
          | apply IH in H; [exact H|cbn [length] in *; lia|exact Hsf] ].
Qed.

Lemma Read_failing (r : Reader) (code : nat) (e : error) (r' : Reader) :
  srcFail r = Some code ->
  finished r = false ->
  Read r = (Err e, r') ->
  (e = SourceError code /\ src r' = [] /\ finished r' = false)
  \/ (exists ln col, e = ParseError ln col ErrBareQuote).
Proof.
  intros Hsf Hfin H. unfold Read in H. rewrite Hfin in H.
  apply (readLoop_failing _ _ code _ _ (le_n _)) in H; [|exact Hsf].
  destruct H as [(He & Hs & Hf)|H]; [left|right; exact H].
  repeat split; auto. rewrite Hf. exact Hfin.
Qed.

(** *** Fields before an open quote *)

Section Open.

Variables comma quote : ascii.
Hypothesis Hsane : sane comma quote.

(** Written fields, each followed by the delimiter, leave the loop at the
    start of the next field. *)
Lemma scan_fields (fs : list written) : forall k r col,
  forallb (wellWritten comma quote) fs = true ->
  exists r1 col',
    readLoop comma quote (encodeFields comma quote fs ++ k) r
      (mkLocals false false col (length (dataBuf r))) =
    readLoop comma quote k r1 (mkLocals false false col' (length (dataBuf r1)))
    /\ line r1 = line r + lineFeeds fs
    /\ srcFail r1 = srcFail r /\ finished r1 = finished r.
Proof.
  induction fs as [|f fs IH]; intros k r col Hw.
  - exists r, col. cbn [encodeFields flat_map app]. unfold lineFeeds. cbn.
    rewrite Nat.add_0_r. auto.
  - cbn [forallb] in Hw. apply andb_prop in Hw as [Hwf Hws].
    cbn [encodeFields flat_map]. fold (encodeFields comma quote fs).
    rewrite <- !app_assoc. cbn [app].
    destruct (FastReaderFacts.scan_field comma quote Hsane f
                (comma :: encodeFields comma quote fs ++ k) r col Hwf)
      as [col1 E].
    { cbn [afterQuote]. destruct Hsane as (H & _). exact H. }
    rewrite E. cbn [readLoop inQuotes column sawQuotedField fieldStart].
    rewrite Ascii.eqb_refl.
    match goal with
    | |- exists _ _, readLoop _ _ _ ?r1 (mkLocals _ _ ?c1 _) = _ /\ _ =>
        destruct (IH k r1 c1 Hws) as (r2 & col2 & E2 & Hl & Hf & Hfin)
    end.
    exists r2, col2. rewrite E2. rewrite Hl, Hf, Hfin.
    rewrite FastReaderFacts.lineFeeds_cons.
    destruct r; cbn. repeat split; auto. lia.
Qed.

(** Inside quotes the loop runs to the end of the input, where the open
    quote is reported. *)
Lemma scan_inside (s : bytes) : forall r saw col fs,
  srcFail r = None ->
  exists col' r',
    readLoop comma quote (escape quote s) r (mkLocals true saw col fs) =
    (Err (ParseError (line r + count_occ ascii_dec s LF) col' ErrUnterminatedQuote), r')
    /\ finished r' = true.
Proof.
  assert (Hql : Ascii.eqb quote LF = false)
    by (apply Ascii.eqb_neq; apply Hsane).
  induction s as [|c s IH]; intros r saw col fs Hsf.
  - cbn [escape flat_map readLoop inQuotes column]. unfold srcEnd. rewrite Hsf.
    cbn [is_EOF count_occ]. rewrite Nat.add_0_r.
    eexists _, _. split; reflexivity.
  - cbn [escape flat_map]. fold (escape quote s).
    destruct (Ascii.eqb c quote) eqn:Hc.
    + apply Ascii.eqb_eq in Hc. subst c.
      cbn [app readLoop inQuotes column sawQuotedField fieldStart].
      rewrite Ascii.eqb_refl.
      destruct (IH (set_dataBuf (dataBuf r ++ [quote]) r) saw (col + 2) fs Hsf)
        as (col' & r' & E & Hfin).
      exists col', r'. rewrite E. split; [|exact Hfin].
      cbn [count_occ]. destruct (ascii_dec quote LF) as [e|_].
      { exfalso. rewrite e, Ascii.eqb_refl in Hql. discriminate. }
      reflexivity.
    + cbn [app readLoop inQuotes column sawQuotedField fieldStart].
      rewrite Hc.
      destruct (Ascii.eqb c LF) eqn:Hl.
      * apply Ascii.eqb_eq in Hl. subst c.
        destruct (IH (set_dataBuf (dataBuf r ++ [LF]) (set_line (line r + 1) r))
                    saw 1 fs Hsf) as (col' & r' & E & Hfin).
        exists col', r'. rewrite E. split; [|exact Hfin].
        cbn [count_occ]. destruct (ascii_dec LF LF) as [_|n]; [|congruence].
        cbn [line set_dataBuf set_line]. do 3 f_equal. lia.
      * destruct (IH (set_dataBuf (dataBuf r ++ [c]) r) saw (col + 1) fs Hsf)
          as (col' & r' & E & Hfin).
        exists col', r'. rewrite E. split; [|exact Hfin].
        cbn [count_occ]. destruct (ascii_dec c LF) as [e|_].
        { subst c. rewrite Ascii.eqb_refl in Hl. discriminate. }
        reflexivity.
Qed.

(** A quote opened at the start of a field and never closed. *)
Lemma scan_open (fs : list written) (s : bytes) (r : Reader) (col : nat) :
  forallb (wellWritten comma quote) fs = true ->
  srcFail r = None ->
  exists col' r',
    readLoop comma quote (encodeFields comma quote fs ++ quote :: escape quote s) r
      (mkLocals false false col (length (dataBuf r))) =
    (Err (ParseError (line r + lineFeeds fs + count_occ ascii_dec s LF) col'
            ErrUnterminatedQuote), r')
    /\ finished r' = true.
Proof.
  intros Hw Hsf.
  destruct (scan_fields fs (quote :: escape quote s) r col Hw)
    as (r1 & col1 & E & Hl & Hf & _).
  rewrite E. cbn [readLoop inQuotes column sawQuotedField fieldStart].
  replace (Ascii.eqb quote comma) with false
    by (symmetry; apply Ascii.eqb_neq; destruct Hsane as (H & _); congruence).
  replace (Ascii.eqb quote LF) with false
    by (symmetry; apply Ascii.eqb_neq; apply Hsane).
  replace (Ascii.eqb quote CR) with false
    by (symmetry; apply Ascii.eqb_neq; apply Hsane).
  rewrite Ascii.eqb_refl, Nat.eqb_refl. cbn [andb negb].
  destruct (scan_inside s r1 true (col1 + 1) (length (dataBuf r1)))
    as (col' & r' & E' & Hfin); [congruence|].
  exists col', r'. rewrite E', Hl. auto.
Qed.

End Open.

Lemma Read_open (r : Reader) (fs : list written) (s : bytes) :
  let comma := effective (Comma r) COMMA in
  let quote := effective (Quote r) DQ in
  sane comma quote ->
  finished r = false ->
  srcFail r = None ->
  forallb (wellWritten comma quote) fs = true ->
  src r = encodeFields comma quote fs ++ quote :: escape quote s ->
  exists r',
    Read r =
    (Err (ParseError (line r + lineFeeds fs + count_occ ascii_dec s LF)
            (columnAfter 1 (src r)) ErrUnterminatedQuote), r')
    /\ finished r' = true.
Proof.
  intros comma quote Hsane Hfin Hsf Hw Hsrc.
  destruct (scan_open comma quote Hsane fs s (set_fieldBounds [] (set_dataBuf [] r)) 1 Hw)
    as (col' & r' & E & Hf); [exact Hsf|].
  assert (HR : Read r =
               (Err (ParseError (line r + lineFeeds fs + count_occ ascii_dec s LF) col'
                       ErrUnterminatedQuote), r')).
  { unfold Read. rewrite Hfin. fold comma quote.
    replace (src (set_fieldBounds [] (set_dataBuf [] r)))
      with (encodeFields comma quote fs ++ quote :: escape quote s)
      by (rewrite <- Hsrc; destruct r; reflexivity).
    exact E. }
  exists r'. split; [|exact Hf].
  destruct Hsane as (_ & Hq & _ & Hc & _).
  assert (Hloc := Read_located r _ r' Hc Hq Hfin HR). cbn [located] in Hloc.
  destruct Hloc as (_ & Hcol & _). rewrite HR, Hcol. reflexivity.
Qed.

(** *** Record after record *)

Lemma fastReaderAfter_S (k : nat) (r : Reader) :
  fastReaderAfter (S k) r = fastReaderAfter k (snd (Read r)).
Proof. unfold fastReaderAfter. apply Nat.iter_succ_r. Qed.

Lemma Read_document (comma quote : ascii) (d : document) : forall r,
  comma = effective (Comma r) COMMA ->
  quote = effective (Quote r) DQ ->
  sane comma quote ->
  finished r = false ->
  srcFail r = None ->
  readable comma quote d ->
  src r = encodeDoc comma quote d ->
  (forall k, k < length d ->
     fst (Read (fastReaderAfter k r)) = Rec (values (fst (nth k d ([], EndLF)))))
  /\ fst (Read (fastReaderAfter (length d) r)) = Err EOF
  /\ line (fastReaderAfter (length d) r) = line r + docLines d.
Proof.
  induction d as [|[fs e] t IH]; intros r Hc Hq Hsane Hfin Hsf Hd Hsrc.
  - cbn [length docLines]. change (fastReaderAfter 0 r) with r.
    split; [intros k Hk; lia|]. split; [|lia].
    apply Read_EOF_iff. right. auto.
  - cbn [readable] in Hd. destruct Hd as (Hne & Hw & Hf & Hlast & Ht).
    cbn [encodeDoc] in Hsrc.
    assert (HR := FastReaderFacts.Read_written r fs e (encodeDoc comma quote t)).
    cbv zeta in HR. rewrite <- Hc, <- Hq in HR.
    assert (Hf' : follows e (encodeDoc comma quote t) (srcEnd r))
      by (unfold srcEnd; rewrite Hsf; exact Hf).
    specialize (HR Hsane Hfin Hne Hw Hf' (fun He => proj2 (Hlast He)) Hsrc).
    destruct e.
    1-3: specialize (IH (snd (Read r)));
         rewrite HR in IH; cbn [snd finalize] in IH;
         destruct IH as (Hk & Hend & Hline);
           [exact Hc|exact Hq|exact Hsane|reflexivity|exact Hsf|exact Ht|reflexivity|];
         cbn [length]; rewrite fastReaderAfter_S, HR; cbn [snd finalize];
         (split; [|split]);
           [intros [|k] Hlt;
              [change (fastReaderAfter 0 r) with r; rewrite HR; reflexivity
              |rewrite fastReaderAfter_S, HR; cbn [snd finalize nth];
               apply Hk; cbn [length] in Hlt; lia]
           |exact Hend
           |rewrite Hline; cbn [docLines line set_line]; lia].
    destruct (Hlast eq_refl) as [-> _].
    cbn [length docLines]. rewrite fastReaderAfter_S, HR.
    cbn [snd finalize].
    match goal with
    | |- context [fastReaderAfter 0 ?x] => change (fastReaderAfter 0 x) with x
    end.
    split; [|split].
    + intros [|k] Hlt; [|cbn [length] in Hlt; lia].
      change (fastReaderAfter 0 r) with r. rewrite HR. reflexivity.
    + reflexivity.
    + cbn [line set_finished]. lia.
Qed.

End FastReaderMore.


(** ** Facts on the reader over [bufio.ReadByte] *)

Module ByteReaderFacts.
Import ByteReader.

Lemma encodeRecord_last (comma quote : ascii) (fs : list written) (f : written) :
  encodeRecord comma quote (fs ++ [f]) = encodeFields comma quote fs ++ encodeField quote f.
Proof.
  induction fs as [|g fs IH]; [reflexivity|].
  assert (E : encodeRecord comma quote ((g :: fs) ++ [f]) =
              encodeField quote g ++ comma :: encodeRecord comma quote (fs ++ [f]))
    by (destruct fs; reflexivity).
  rewrite E, IH. cbn [encodeFields flat_map]. fold (encodeFields comma quote fs).
  rewrite <- !app_assoc. reflexivity.
Qed.

Section Scan.

Variable comma : ascii.
Hypothesis Hsane : sane comma DQ.

Lemma byte_scan_bare (s : bytes) : forall k fields field,
  bare comma DQ s = true ->
  readLoop comma (s ++ k) fields field false =
  readLoop comma k fields (field ++ s) false.
Proof.
  induction s as [|c s IH]; intros k fields field H.
  - cbn [app]. now rewrite app_nil_r.
  - cbn [bare forallb] in H. apply andb_prop in H as [Hc Hs].
    unfold ordinary in Hc.
    apply andb_prop in Hc as [Hc Hc4]. apply andb_prop in Hc as [Hc Hc3].
    apply andb_prop in Hc as [Hc1 Hc2].
    apply negb_true_iff in Hc1, Hc2, Hc3, Hc4.
    cbn [app readLoop]. rewrite Hc1, Hc2, Hc3, Hc4.
    rewrite (IH k fields (field ++ [c]) Hs), <- app_assoc. reflexivity.
Qed.

(** Inside quotes every byte but the quote is data, two quotes are one, and
    a single quote closes the field. *)
Lemma byte_scan_quoted (s : bytes) : forall k fields field,
  startsWithout DQ k ->
  readLoop comma (escape DQ s ++ DQ :: k) fields field true =
  readLoop comma k fields (field ++ s) false.
Proof.
  induction s as [|c s IH]; intros k fields field Hk.
  - cbn [escape flat_map app readLoop]. rewrite Ascii.eqb_refl, app_nil_r.
    destruct k as [|x k']; [reflexivity|].
    cbn [startsWithout] in Hk. apply Ascii.eqb_neq in Hk. now rewrite Hk.
  - cbn [escape flat_map]. fold (escape DQ s).
    destruct (Ascii.eqb c DQ) eqn:Hc.
    + apply Ascii.eqb_eq in Hc. subst c.
      cbn [app readLoop]. rewrite Ascii.eqb_refl.
      rewrite (IH k fields (field ++ [DQ]) Hk), <- app_assoc. reflexivity.
    + cbn [app readLoop]. rewrite Hc.
      replace (readLoop comma (escape DQ s ++ DQ :: k) fields (field ++ [c]) true)
        with (readLoop comma k fields (field ++ c :: s) false)
        by (rewrite (IH k fields (field ++ [c]) Hk), <- app_assoc; reflexivity).
      destruct (Ascii.eqb c comma); [reflexivity|].
      destruct (Ascii.eqb c LF); [reflexivity|].
      destruct (Ascii.eqb c CR); reflexivity.
Qed.

Lemma byte_scan_field (f : written) (k : bytes) (fields : list bytes) (field : bytes) :
  wellWritten comma DQ f = true ->
  startsWithout DQ k ->
  readLoop comma (encodeField DQ f ++ k) fields field false =
  readLoop comma k fields (field ++ snd f) false.
Proof.
  intros Hw Hk. destruct f as [[|] v]; unfold encodeField; cbn [fst snd].
  - unfold quoted. cbn [app]. rewrite <- app_assoc.
    cbn [app readLoop]. rewrite Ascii.eqb_refl.
    apply byte_scan_quoted. exact Hk.
  - apply byte_scan_bare. exact Hw.
Qed.

Lemma byte_scan_fields (fs : list written) : forall k fields,
  forallb (wellWritten comma DQ) fs = true ->
  readLoop comma (encodeFields comma DQ fs ++ k) fields [] false =
  readLoop comma k (fields ++ values fs) [] false.
Proof.
  induction fs as [|f fs IH]; intros k fields Hw.
  - cbn [encodeFields flat_map app values map]. now rewrite app_nil_r.
  - cbn [forallb] in Hw. apply andb_prop in Hw as [Hwf Hws].
    cbn [encodeFields flat_map]. fold (encodeFields comma DQ fs).
    rewrite <- !app_assoc. cbn [app].
    rewrite byte_scan_field; [|exact Hwf|].
    + cbn [readLoop].
      replace (Ascii.eqb comma DQ) with false
        by (symmetry; apply Ascii.eqb_neq; apply Hsane).
      rewrite Ascii.eqb_refl. cbn [app]. rewrite (IH k (fields ++ [snd f]) Hws).
      cbn [values map]. now rewrite <- app_assoc.
    + cbn [startsWithout]. apply Hsane.
Qed.

(** A written record up to its ending: the fields before the last are
    closed, the last one is in the buffer. *)
Lemma byte_scan_record (fs : list written) (f : written) (k : bytes) :
  forallb (wellWritten comma DQ) (fs ++ [f]) = true ->
  startsWithout DQ k ->
  readLoop comma (encodeRecord comma DQ (fs ++ [f]) ++ k) [] [] false =
  readLoop comma k (values fs) (snd f) false.
Proof.
  intros Hw Hk. rewrite forallb_app in Hw. apply andb_prop in Hw as [Hws Hwf].
  cbn [forallb] in Hwf. rewrite andb_true_r in Hwf.
  rewrite encodeRecord_last, <- app_assoc, byte_scan_fields by exact Hws.
  rewrite byte_scan_field by assumption. reflexivity.
Qed.

End Scan.

(** [Read] on a written record that ends with a line feed, alone or after a
    carriage return. *)
Lemma byte_Read_written (b : Reader) (fs : list written) (e : Ending) (rest : bytes) :
  sane (Comma b) DQ ->
  fs <> [] ->
  forallb (wellWritten (Comma b) DQ) fs = true ->
  e = EndLF \/ e = EndCRLF ->
  r b = encodeRecord (Comma b) DQ fs ++ ending e ++ rest ->
  Read b = (values fs, None, mkReader (Comma b) rest).
Proof.
  intros Hsane Hne Hw He Hsrc.
  destruct (exists_last Hne) as (fs' & f & ->).
  unfold Read. rewrite Hsrc.
  rewrite (byte_scan_record (Comma b) Hsane fs' f (ending e ++ rest) Hw).
  - assert (Hcl : Ascii.eqb LF (Comma b) = false).
    { apply Ascii.eqb_neq. destruct Hsane as (_ & _ & _ & H & _). congruence. }
    assert (Hcr : Ascii.eqb CR (Comma b) = false).
    { apply Ascii.eqb_neq. destruct Hsane as (_ & _ & _ & _ & H). congruence. }
    unfold values. rewrite map_app. cbn [map].
    destruct He as [-> | ->]; cbn [ending app readLoop].
    + change (Ascii.eqb LF DQ) with false. rewrite Hcl, Ascii.eqb_refl. reflexivity.
    + change (Ascii.eqb CR DQ) with false. change (Ascii.eqb CR LF) with false.
      rewrite Hcr, !Ascii.eqb_refl. reflexivity.
  - destruct He as [-> | ->]; cbn [ending app startsWithout]; discriminate.
Qed.

(** [Read] on a written record at the end of the input: the fields come
    back together with [io.EOF], the last one only when it is not empty. *)
Lemma byte_Read_written_EOF (b : Reader) (fs : list written) (f : written) :
  sane (Comma b) DQ ->
  forallb (wellWritten (Comma b) DQ) (fs ++ [f]) = true ->
  r b = encodeRecord (Comma b) DQ (fs ++ [f]) ->
  Read b =
  (if 0 <? length (snd f) then values (fs ++ [f]) else values fs, Some EOF,
   mkReader (Comma b) []).
Proof.
  intros Hsane Hw Hsrc. unfold Read.
  rewrite Hsrc, <- (app_nil_r (encodeRecord _ _ _)).
  rewrite (byte_scan_record (Comma b) Hsane fs f [] Hw I).
  cbn [readLoop]. unfold values. rewrite map_app. cbn [map].
  destruct (0 <? length (snd f)); reflexivity.
Qed.

(** Without an error [Read] has taken at least one byte; with [io.EOF] it
    has taken them all. *)
Lemma byte_readLoop_progress (comma : ascii) : forall n bs,
  length bs <= n ->
  forall fields field q dst err rest,
    readLoop comma bs fields field q = (dst, err, rest) ->
    match err with
    | None => length rest < length bs
    | Some EOF => rest = []
    end.
Proof.
  induction n as [|n IH]; intros bs Hn fields field q dst err rest H.
  - destruct bs; [|cbn in Hn; lia].
    cbn [readLoop] in H. destruct (0 <? length field); inversion H; reflexivity.
  - destruct bs as [|ch tl].
    + cbn [readLoop] in H. destruct (0 <? length field); inversion H; reflexivity.
    + cbn [length] in Hn. cbn [readLoop] in H.
      repeat match type of H with
             | context [if ?c then _ else _] => destruct c eqn:?
             | context [match ?x with _ => _ end] => destruct x eqn:?
             end;
        subst; cbn [length] in Hn;
        first
          [ inversion H; subst; cbn [length]; lia
          | apply IH in H; [|cbn [length] in *; lia];
            destruct err as [[]|]; [exact H|cbn [length] in *; lia] ].
Qed.

End ByteReaderFacts.


(** ** The buffer under the byte-level reader *)

Module BufferedFacts.
Import FastReader Buffered.

Lemma flat_err (p : bytes) (e : option nat) (cs : list response) (l : option nat) :
  flat (mkBuffer p (Some e) cs l) = (p, e).
Proof. reflexivity. Qed.

Lemma flat_ok (p : bytes) (cs : list response) (l : option nat) :
  flat (mkBuffer p None cs l) = (p ++ fst (ahead cs l), snd (ahead cs l)).
Proof. unfold flat. cbn [bufErr pending calls last]. now destruct (ahead cs l). Qed.

Lemma refill_ahead (cs : list response) (l : option nat) :
  match fst (ahead cs l) with
  | b :: tl =>
      fst (refill cs l) = inl b /\ flat (snd (refill cs l)) = (tl, snd (ahead cs l))
  | [] => fst (refill cs l) = inr (asError (snd (ahead cs l)))
  end.
Proof.
  induction cs as [|[chunk [e|]] rest IH]; cbn [ahead refill fst snd].
  - reflexivity.
  - destruct chunk as [|b tl]; cbn [fst snd]; [reflexivity|].
    split; reflexivity.
  - destruct (ahead rest l) as [bs e'] eqn:E. cbn [fst snd] in *.
    destruct chunk as [|b tl]; cbn [app fst snd].
    + exact IH.
    + split; [reflexivity|]. unfold flat. cbn [bufErr pending calls last].
      now rewrite E.
Qed.

Lemma refillPeek_ahead (cs : list response) (l : option nat) :
  match fst (ahead cs l) with
  | b :: tl =>
      fst (refillPeek cs l) = inl b /\ flat (snd (refillPeek cs l)) = ahead cs l
  | [] => fst (refillPeek cs l) = inr (asError (snd (ahead cs l)))
  end.
Proof.
  induction cs as [|[chunk [e|]] rest IH]; cbn [ahead refillPeek fst snd].
  - reflexivity.
  - destruct chunk as [|b tl]; cbn [fst snd]; [reflexivity|].
    split; reflexivity.
  - destruct (ahead rest l) as [bs e'] eqn:E. cbn [fst snd] in *.
    destruct chunk as [|b tl]; cbn [app fst snd].
    + destruct bs; [exact IH|]. destruct IH as [I1 I2]. split; [exact I1|].
      rewrite I2. reflexivity.
    + split; [reflexivity|]. unfold flat. cbn [bufErr pending calls last].
      now rewrite E.
Qed.

(** [readByte] takes the first of the bytes that are still to come, and
    when none is left it returns the error of the source. *)
Lemma readByte_flat (s : Buffer) :
  match fst (flat s) with
  | b :: tl =>
      fst (readByte s) = inl b /\ flat (snd (readByte s)) = (tl, snd (flat s))
  | [] => fst (readByte s) = inr (asError (snd (flat s)))
  end.
Proof.
  unfold flat, readByte. destruct s as [p [e|] cs l]; cbn [pending bufErr calls last].
  - destruct p as [|b tl]; cbn [fst snd]; [reflexivity|]. split; reflexivity.
  - destruct p as [|b tl].
    + pose proof (refill_ahead cs l) as H.
      destruct (ahead cs l) as [bs e']. cbn [app fst snd] in *. exact H.
    + destruct (ahead cs l) as [bs e'] eqn:E. cbn [app fst snd].
      split; [reflexivity|]. unfold flat. cbn [pending bufErr calls last].
      now rewrite E.
Qed.

(** [peekByte] shows that byte or that error, and takes no byte. *)
Lemma peekByte_flat (s : Buffer) :
  match fst (flat s) with
  | b :: tl => fst (peekByte s) = inl b /\ flat (snd (peekByte s)) = flat s
  | [] => fst (peekByte s) = inr (asError (snd (flat s)))
  end.
Proof.
  destruct s as [p [e|] cs l].
  - rewrite flat_err. unfold peekByte. cbn [pending bufErr fst snd].
    destruct p as [|b tl]; cbn [fst snd]; [reflexivity|]. split; reflexivity.
  - rewrite flat_ok. unfold peekByte. cbn [pending bufErr calls last].
    destruct p as [|b tl]; cbn [app fst snd].
    + pose proof (refillPeek_ahead cs l) as H.
      destruct (ahead cs l) as [bs e']. cbn [fst snd] in *. exact H.
    + rewrite flat_ok. split; reflexivity.
Qed.

Lemma sticks_ahead (cs : list response) (l : option nat) :
  sticks cs l -> fst (ahead cs l) = [] -> snd (ahead cs l) = l.
Proof.
  induction cs as [|[chunk [e|]] rest IH]; cbn [sticks ahead fst snd]; auto.
  - intros [H _] _. exact H.
  - intros H. destruct (ahead rest l) as [bs e']. cbn [fst snd] in *.
    intro E. apply app_eq_nil in E as [_ E]. auto.
Qed.

Lemma stuck_ahead (cs : list response) (l : option nat) :
  Forall (fun c => c = ([], Some l)) cs -> ahead cs l = ([], l).
Proof. intro H. destruct H as [|c cs Hc _]; [reflexivity|]. subst c. reflexivity. Qed.

Lemma stuck_sticks (cs : list response) (l : option nat) :
  Forall (fun c => c = ([], Some l)) cs -> sticks cs l.
Proof.
  intro H. destruct H as [|c cs Hc Hcs]; [exact I|]. subst c. cbn. auto.
Qed.

Lemma refill_settled (cs : list response) (l : option nat) :
  sticks cs l ->
  settled (snd (refill cs l))
  /\ (fst (ahead cs l) = [] -> flat (snd (refill cs l)) = ([], l)).
Proof.
  induction cs as [|[chunk [e|]] rest IH]; cbn [sticks refill ahead fst snd].
  - intros _. split; [exact I|reflexivity].
  - intros [-> Hrest]. destruct chunk as [|b tl]; cbn [fst snd].
    + split; [apply stuck_sticks; exact Hrest|].
      intros _. unfold flat. cbn [bufErr pending calls last].
      now rewrite (stuck_ahead rest l Hrest).
    + split; [split; [reflexivity|exact Hrest]|discriminate].
  - intro H. destruct (ahead rest l) as [bs e'] eqn:E. cbn [fst snd] in *.
    destruct chunk as [|b tl]; cbn [app fst snd].
    + exact (IH H).
    + split; [exact H|discriminate].
Qed.

Lemma refillPeek_settled (cs : list response) (l : option nat) :
  sticks cs l ->
  settled (snd (refillPeek cs l))
  /\ (fst (ahead cs l) = [] -> flat (snd (refillPeek cs l)) = ([], l)).
Proof.
  induction cs as [|[chunk [e|]] rest IH]; cbn [sticks refillPeek ahead fst snd].
  - intros _. split; [exact I|reflexivity].
  - intros [-> Hrest]. destruct chunk as [|b tl]; cbn [fst snd].
    + split; [apply stuck_sticks; exact Hrest|].
      intros _. unfold flat. cbn [bufErr pending calls last].
      now rewrite (stuck_ahead rest l Hrest).
    + split; [split; [reflexivity|exact Hrest]|discriminate].
  - intro H. destruct (ahead rest l) as [bs e'] eqn:E. cbn [fst snd] in *.
    destruct chunk as [|b tl]; cbn [app fst snd].
    + exact (IH H).
    + split; [exact H|discriminate].
Qed.

(** Over a source that sticks to its first error, the view stays as it is
    once that error was returned. *)
Lemma readByte_settled (s : Buffer) :
  settled s ->
  settled (snd (readByte s))
  /\ (fst (flat s) = [] -> flat (snd (readByte s)) = ([], snd (flat s))).
Proof.
  destruct s as [p [e|] cs l]; intro H.
  - destruct H as [He Hcs]. cbn [last calls] in He, Hcs. subst e.
    rewrite flat_err. unfold readByte. cbn [pending bufErr calls last fst snd].
    destruct p as [|b tl]; cbn [fst snd].
    + split; [apply stuck_sticks; exact Hcs|].
      intros _. rewrite flat_ok, (stuck_ahead cs l Hcs). reflexivity.
    + split; [split; [reflexivity|exact Hcs]|discriminate].
  - unfold settled in H. cbn [bufErr calls last] in H.
    rewrite flat_ok. unfold readByte. cbn [pending bufErr calls last fst snd].
    destruct p as [|b tl]; cbn [app].
    + destruct (refill_settled cs l H) as [H1 H2]. split; [exact H1|].
      intro E. rewrite (H2 E), (sticks_ahead cs l H E). reflexivity.
    + split; [exact H|discriminate].
Qed.

Lemma peekByte_settled (s : Buffer) :
  settled s ->
  settled (snd (peekByte s))
  /\ (fst (flat s) = [] -> flat (snd (peekByte s)) = ([], snd (flat s))).
Proof.
  destruct s as [p [e|] cs l]; intro H.
  - rewrite flat_err. unfold peekByte. cbn [pending bufErr calls last fst snd].
    destruct p as [|b tl]; cbn [snd]; (split; [exact H|]).
    + intros _. reflexivity.
    + discriminate.
  - pose proof H as H'. unfold settled in H'. cbn [bufErr calls last] in H'.
    rewrite flat_ok. unfold peekByte. cbn [pending bufErr calls last fst snd].
    destruct p as [|b tl]; cbn [app snd].
    + destruct (refillPeek_settled cs l H') as [H1 H2]. split; [exact H1|].
      intro E. rewrite (H2 E), (sticks_ahead cs l H' E). reflexivity.
    + split; [exact H|discriminate].
Qed.

(** The list of bytes of [FastReader] is a view of the buffer that
    [readByte] keeps: both return the same, and the view holds on. *)
Lemma readByte_views (r : Reader) (s : Buffer) :
  views r s -> settled s ->
  fst (FastReader.readByte r) = fst (Buffered.readByte s)
  /\ views (snd (FastReader.readByte r)) (snd (Buffered.readByte s))
  /\ settled (snd (Buffered.readByte s)).
Proof.
  intros [Hsrc Hfail] Hs.
  pose proof (readByte_flat s) as Hf.
  destruct (readByte_settled s Hs) as [Hs' He].
  unfold FastReader.readByte, views, srcEnd. rewrite Hsrc, Hfail.
  destruct (fst (flat s)) as [|b tl] eqn:E.
  - rewrite Hf. cbn [fst snd]. rewrite (He eq_refl). cbn [fst snd].
    repeat split; auto.
  - destruct Hf as [Hf1 Hf2]. rewrite Hf1, Hf2.
    cbn [fst snd src srcFail set_src]. repeat split; auto.
Qed.

Lemma peekByte_views (r : Reader) (s : Buffer) :
  views r s -> settled s ->
  FastReader.peekByte r = fst (Buffered.peekByte s)
  /\ views r (snd (Buffered.peekByte s))
  /\ settled (snd (Buffered.peekByte s)).
Proof.
  intros [Hsrc Hfail] Hs.
  pose proof (peekByte_flat s) as Hf.
  destruct (peekByte_settled s Hs) as [Hs' He].
  unfold FastReader.peekByte, views, srcEnd. rewrite Hsrc, Hfail.
  destruct (fst (flat s)) as [|b tl] eqn:E.
  - rewrite Hf. rewrite (He eq_refl). cbn [fst snd]. repeat split; auto.
  - destruct Hf as [Hf1 Hf2]. rewrite Hf1, Hf2, E. repeat split; auto.
Qed.

End BufferedFacts.

(** ** The reader with a field buffer of its own *)

Module BufReaderFacts.

Lemma readLoop_same (comma : ascii) : forall n bs,
  length bs <= n ->
  forall fields field q,
    seen (BufReader.readLoop comma bs fields field q)
    = ByteReader.readLoop comma bs fields field q.
Proof.
  induction n as [|n IH]; intros bs Hn fields field q.
  - destruct bs; [|cbn in Hn; lia].
    cbn [BufReader.readLoop ByteReader.readLoop].
    destruct (0 <? length field); reflexivity.
  - destruct bs as [|ch tl].
    + cbn [BufReader.readLoop ByteReader.readLoop].
      destruct (0 <? length field); reflexivity.
    + cbn [length] in Hn. cbn [BufReader.readLoop ByteReader.readLoop].
      destruct tl as [|x tl'];
        repeat match goal with
               | |- context [if ?b then _ else _] => destruct b
               end;
        try reflexivity; apply IH; cbn [length] in *; lia.
Qed.

End BufReaderFacts.

(** ** More on the line-oriented reader *)

Module LineReaderMore.
Import LineReader.

Lemma readFields_rd (r : Reader) (line : bytes) : rd (snd (readFields r line)) = rd r.
Proof.
  unfold readFields. destruct (parseLine (byte (Comma r)) line) as [fi record].
  cbn [FieldsPerRecord].
  destruct (0 <? FieldsPerRecord r)%Z.
  - destruct (negb (Z.of_nat (length record) =? FieldsPerRecord r)%Z); reflexivity.
  - destruct (FieldsPerRecord r =? 0)%Z; reflexivity.
Qed.

(** [Read] says [io.EOF] only when the input is used up, and anything else
    only after it took a line. *)
Lemma ReadFrom_rd : forall n r,
  length (rd r) <= n ->
  match fst (ReadFrom n r) with
  | Err EOF => rd (snd (ReadFrom n r)) = []
  | _ => length (rd (snd (ReadFrom n r))) < length (rd r)
  end.
Proof.
  induction n as [|n IH]; intros r Hn; cbn [ReadFrom];
    destruct (readLine r) as [[l|e] r1] eqn:E.
  - apply LineReaderFacts.readLine_inl in E. lia.
  - apply LineReaderFacts.readLine_inr in E. destruct E as (-> & -> & Hrd).
    reflexivity.
  - apply LineReaderFacts.readLine_inl in E. destruct E as (Hlt & _).
    destruct (skipped r1 (TrimSpace l)).
    + specialize (IH r1 ltac:(lia)).
      destruct (fst (ReadFrom n r1)) as [rec|[|]]; [lia|exact IH|lia].
    + pose proof (readFields_rd r1 (TrimSpace l)) as Hrd.
      destruct (readFields r1 (TrimSpace l)) as [[rec|[|]] r2] eqn:Ef;
        cbn [fst snd] in *; rewrite ?Hrd; try lia.
      unfold readFields in Ef.
      destruct (parseLine (byte (Comma r1)) (TrimSpace l)) as [fi record].
      cbn [FieldsPerRecord] in Ef.
      destruct (0 <? FieldsPerRecord r1)%Z.
      * destruct (negb (Z.of_nat (length record) =? FieldsPerRecord r1)%Z);
          discriminate.
      * destruct (FieldsPerRecord r1 =? 0)%Z; discriminate.
  - apply LineReaderFacts.readLine_inr in E. destruct E as (-> & -> & Hrd).
    reflexivity.
Qed.

Lemma Read_rd (r : Reader) :
  match fst (Read r) with
  | Err EOF => rd (snd (Read r)) = []
  | _ => length (rd (snd (Read r))) < length (rd r)
  end.
Proof. unfold Read. apply ReadFrom_rd. apply le_n. Qed.

(** The records of [ReadAll] under a count that is enforced. *)
Lemma ReadAllFrom_enforced : forall fuel r records,
  length (rd r) < fuel ->
  (0 < FieldsPerRecord r)%Z ->
  exists res r',
    ReadAllFrom fuel r records = Some (res, r')
    /\ match res with
       | inl rs =>
           rd r' = []
           /\ exists more,
                rs = records ++ more
                /\ Forall (fun rec => Z.of_nat (length rec) = FieldsPerRecord r) more
       | inr e => e = ErrFieldCount
       end.
Proof.
  induction fuel as [|fuel IH]; intros r records Hfuel Hpos; [lia|].
  cbn [ReadAllFrom].
  pose proof (Read_rd r) as Hrd.
  pose proof (LineReaderFacts.Read_keeps r ltac:(lia)) as Hkeep.
  destruct (Read r) as [[rec|[|]] r1] eqn:E; cbn [fst snd] in *.
  - destruct (LineReaderFacts.Read_count r rec r1 E) as (_ & _ & Hc & _).
    destruct (Hc Hpos) as [Hlen _].
    destruct (IH r1 (records ++ [rec]) ltac:(lia) ltac:(lia))
      as (res & r' & Hres & Hspec).
    exists res, r'. split; [exact Hres|].
    destruct res as [rs|e]; [|exact Hspec].
    destruct Hspec as (Hnil & more & -> & Hall).
    split; [exact Hnil|]. exists (rec :: more).
    rewrite <- app_assoc. split; [reflexivity|].
    constructor; [exact Hlen|]. rewrite <- Hkeep. exact Hall.
  - exists (inl records), r1. split; [reflexivity|].
    split; [exact Hrd|]. exists []. rewrite app_nil_r. auto.
  - exists (inr ErrFieldCount), r1. auto.
Qed.

(** The records of [ReadAll] when no count is enforced. *)
Lemma ReadAllFrom_free : forall fuel r records,
  length (rd r) < fuel ->
  (FieldsPerRecord r < 0)%Z ->
  exists rs r',
    ReadAllFrom fuel r records = Some (inl rs, r')
    /\ rd r' = []
    /\ exists more, rs = records ++ more /\ Forall (fun rec => 1 <= length rec) more.
Proof.
  induction fuel as [|fuel IH]; intros r records Hfuel Hneg; [lia|].
  cbn [ReadAllFrom].
  pose proof (Read_rd r) as Hrd.
  pose proof (LineReaderFacts.Read_keeps r ltac:(lia)) as Hkeep.
  destruct (Read r) as [[rec|[|]] r1] eqn:E; cbn [fst snd] in *.
  - destruct (LineReaderFacts.Read_count r rec r1 E) as (Hlen & _).
    destruct (IH r1 (records ++ [rec]) ltac:(lia) ltac:(lia))
      as (rs & r' & Hres & Hnil & more & -> & Hall).
    exists (((records ++ [rec]) ++ more)), r'. split; [exact Hres|].
    split; [exact Hnil|]. exists (rec :: more).
    rewrite <- app_assoc. split; [reflexivity|]. constructor; assumption.
  - exists records, r1. split; [reflexivity|].
    split; [exact Hrd|]. exists []. rewrite app_nil_r. auto.
  - apply LineReaderFacts.Read_ErrFieldCount in E. lia.
Qed.

(** [ReadAll] returns: the records with the input used up, every record
    with a field and, unless the count is left free, all of one length; or
    [ErrFieldCount], never [io.EOF]. *)
Lemma ReadAll_returns (r : Reader) :
  exists res r',
    ReadAll r = Some (res, r')
    /\ match res with
       | inl rs =>
           rd r' = []
           /\ Forall (fun rec => 1 <= length rec) rs
           /\ ((0 <= FieldsPerRecord r)%Z ->
               forall a b, In a rs -> In b rs -> length a = length b)
       | inr e => e = ErrFieldCount /\ (0 <= FieldsPerRecord r)%Z
       end.
Proof.
  unfold ReadAll.
  destruct (Z.lt_trichotomy (FieldsPerRecord r) 0) as [Hneg|[Hz|Hpos]].
  - destruct (ReadAllFrom_free (S (length (rd r))) r [] ltac:(lia) Hneg)
      as (rs & r' & Hres & Hnil & more & -> & Hall).
    exists (inl ([] ++ more)), r'. split; [exact Hres|].
    split; [exact Hnil|]. split; [exact Hall|]. intro H. lia.
  - cbn [ReadAllFrom].
    pose proof (Read_rd r) as Hrd.
    destruct (Read r) as [[rec|[|]] r1] eqn:E; cbn [fst snd] in *.
    + destruct (LineReaderFacts.Read_count r rec r1 E) as (Hlen & Hc & _).
      specialize (Hc Hz).
      destruct (ReadAllFrom_enforced (length (rd r)) r1 ([] ++ [rec]) Hrd ltac:(lia))
        as (res & r' & Hres & Hspec).
      exists res, r'. split; [exact Hres|].
      destruct res as [rs|e]; [|split; [exact Hspec|lia]].
      destruct Hspec as (Hnil & more & -> & Hall).
      split; [exact Hnil|].
      assert (Hall' : Forall (fun x => length x = length rec) (([] ++ [rec]) ++ more)).
      { cbn [app]. constructor; [reflexivity|].
        eapply Forall_impl; [|exact Hall]. cbn beta. intros a Ha. lia. }
      split.
      * eapply Forall_impl; [|exact Hall']. cbn beta. intros a Ha. lia.
      * intros _ a b Ha Hb. rewrite Forall_forall in Hall'.
        rewrite (Hall' a Ha), (Hall' b Hb). reflexivity.
    + exists (inl []), r1. split; [reflexivity|].
      split; [exact Hrd|]. split; [constructor|]. intros _ a b [].
    + apply LineReaderFacts.Read_ErrFieldCount in E. lia.
  - destruct (ReadAllFrom_enforced (S (length (rd r))) r [] ltac:(lia) Hpos)
      as (res & r' & Hres & Hspec).
    exists res, r'. split; [exact Hres|].
    destruct res as [rs|e]; [|split; [exact Hspec|lia]].
    destruct Hspec as (Hnil & more & -> & Hall).
    split; [exact Hnil|]. cbn [app]. split.
    + eapply Forall_impl; [|exact Hall]. cbn beta. intros a Ha. lia.
    + intros _ a b Ha Hb. rewrite Forall_forall in Hall.
      apply Nat2Z.inj. rewrite (Hall a Ha), (Hall b Hb). reflexivity.
Qed.

(** *** Lines that are passed over *)

Lemma endsWith_snoc (s : bytes) (x c : ascii) : endsWith (s ++ [x]) c = Ascii.eqb x c.
Proof. unfold endsWith. rewrite rev_app_distr. reflexivity. Qed.

Lemma dropCR_first (ws t : bytes) (c : ascii) :
  isSpace c = false -> exists t', dropCR (ws ++ c :: t) = ws ++ c :: t'.
Proof.
  intro Hc. unfold dropCR.
  destruct (endsWith (ws ++ c :: t) CR) eqn:E; [|now exists t].
  destruct t as [|x t] using rev_ind.
  - rewrite endsWith_snoc in E. apply Ascii.eqb_eq in E. subst c. discriminate.
  - exists t. replace (ws ++ c :: t ++ [x]) with ((ws ++ c :: t) ++ [x])
      by (rewrite <- app_assoc; reflexivity).
    apply removelast_last.
Qed.

(** [Read] over a line that [Read] skips is [Read] from the line after
    it. *)
Lemma Read_skip (r : Reader) (l rest : bytes) :
  noLF l = true ->
  skipped r (TrimSpace (dropCR l)) = true ->
  rd r = l ++ LF :: rest ->
  Read r =
  Read (mkReader (Comma r) (Comment r) (FieldsPerRecord r) (LazyQuotes r) rest
          (numLine r + 1) (fieldIndexes r)).
Proof.
  intros Hnl Hsk Hrd.
  unfold Read at 1. rewrite Hrd, length_app. cbn [length].
  replace (length l + S (length rest)) with (S (length l + length rest)) by lia.
  cbn [ReadFrom]. rewrite (LineReaderFacts.readLine_LF r l rest Hnl Hrd).
  match goal with
  | |- (if skipped ?r1 ?x then _ else _) = _ =>
      change (skipped r1 x) with (skipped r x)
  end.
  rewrite Hsk. unfold Read. cbn [rd].
  apply LineReaderFacts.ReadFrom_fuel; cbn [rd]; lia.
Qed.

(** A line whose first byte that is not white space is the comment
    character is skipped. *)
Lemma skipped_comment (r : Reader) (ws t : bytes) :
  Comment r <> 0%N ->
  startsSpace (byte (Comment r)) = false ->
  forallb isSpace ws = true ->
  skipped r (TrimSpace (dropCR (ws ++ byte (Comment r) :: t))) = true.
Proof.
  intros Hc Hst Hws.
  pose proof (proj1 (startsSpace_spec _ Hst)) as Hsp.
  destruct (dropCR_first ws t (byte (Comment r)) Hsp) as [t1 ->].
  destruct (TrimSpace_first ws t1 (byte (Comment r)) Hws Hst) as [t2 ->].
  cbn [skipped]. rewrite Ascii.eqb_refl, andb_true_r.
  apply negb_true_iff. now apply N.eqb_neq.
Qed.

(** *** Written records on one line *)

Lemma spans_length (es : list bytes) : forall start, length (spans start es) = 2 * length es.
Proof.
  induction es as [|e t IH]; intro start; cbn [spans length]; [reflexivity|].
  rewrite IH. lia.
Qed.

Section Bounds.

Variable comma : ascii.
Hypothesis Hsane : sane comma DQ.

Lemma findBounds_bare (s : bytes) : forall k i fs fi,
  bare comma DQ s = true ->
  findBounds comma (s ++ k) i false fs fi = findBounds comma k (i + length s) false fs fi.
Proof.
  induction s as [|c s IH]; intros k i fs fi H.
  - cbn [app length]. now rewrite Nat.add_0_r.
  - cbn [bare forallb] in H. apply andb_prop in H as [Hc Hs].
    unfold ordinary in Hc.
    apply andb_prop in Hc as [Hc _]. apply andb_prop in Hc as [Hc _].
    apply andb_prop in Hc as [Hc1 Hc2].
    apply negb_true_iff in Hc1, Hc2.
    cbn [app findBounds length]. rewrite Hc1, Hc2, (IH k (i + 1) fs fi Hs).
    f_equal. lia.
Qed.

Lemma findBounds_quoted (s : bytes) : forall k i fs fi,
  startsWithout DQ k ->
  findBounds comma (escape DQ s ++ DQ :: k) i true fs fi =
  findBounds comma k (i + length (escape DQ s) + 1) false fs fi.
Proof.
  induction s as [|c s IH]; intros k i fs fi Hk.
  - cbn [escape flat_map app findBounds length]. rewrite Ascii.eqb_refl, Nat.add_0_r.
    destruct k as [|x k']; [reflexivity|].
    cbn [startsWithout] in Hk. apply Ascii.eqb_neq in Hk. now rewrite Hk.
  - cbn [escape flat_map]. fold (escape DQ s).
    destruct (Ascii.eqb c DQ) eqn:Hc.
    + apply Ascii.eqb_eq in Hc. subst c.
      cbn [app findBounds length]. rewrite Ascii.eqb_refl.
      rewrite (IH k (i + 2) fs fi Hk). f_equal. lia.
    + cbn [app findBounds length]. rewrite Hc.
      replace (findBounds comma (escape DQ s ++ DQ :: k) (i + 1) true fs fi)
        with (findBounds comma k (i + S (length (escape DQ s)) + 1) false fs fi)
        by (rewrite (IH k (i + 1) fs fi Hk); f_equal; lia).
      destruct (Ascii.eqb c comma); reflexivity.
Qed.

Lemma findBounds_field (f : written) (k : bytes) (i fs : nat) (fi : list nat) :
  wellWritten comma DQ f = true ->
  startsWithout DQ k ->
  findBounds comma (encodeField DQ f ++ k) i false fs fi =
  findBounds comma k (i + length (encodeField DQ f)) false fs fi.
Proof.
  intros Hw Hk. destruct f as [[|] v]; unfold encodeField; cbn [fst snd].
  - unfold quoted. cbn [app]. rewrite <- app_assoc.
    cbn [app findBounds length]. rewrite Ascii.eqb_refl.
    rewrite findBounds_quoted by exact Hk. rewrite length_app. cbn [length].
    f_equal. lia.
  - apply findBounds_bare. exact Hw.
Qed.

Lemma findBounds_fields (fs : list written) : forall k i fi,
  forallb (wellWritten comma DQ) fs = true ->
  findBounds comma (encodeFields comma DQ fs ++ k) i false i fi =
  findBounds comma k (i + length (encodeFields comma DQ fs)) false
    (i + length (encodeFields comma DQ fs))
    (fi ++ spans i (map (encodeField DQ) fs)).
Proof.
  induction fs as [|f fs IH]; intros k i fi Hw.
  - cbn [encodeFields flat_map app length map spans].
    now rewrite Nat.add_0_r, app_nil_r.
  - cbn [forallb] in Hw. apply andb_prop in Hw as [Hwf Hws].
    cbn [encodeFields flat_map]. fold (encodeFields comma DQ fs).
    rewrite <- !app_assoc. cbn [app].
    rewrite findBounds_field; [|exact Hwf|cbn [startsWithout]; apply Hsane].
    cbn [findBounds].
    replace (Ascii.eqb comma DQ) with false
      by (symmetry; apply Ascii.eqb_neq; apply Hsane).
    rewrite Ascii.eqb_refl. cbn [negb].
    rewrite (IH k (i + length (encodeField DQ f) + 1) _ Hws).
    rewrite !length_app. cbn [length map spans].
    rewrite <- app_assoc. cbn [app].
    f_equal; lia.
Qed.

(** Taking the quotes off a written field gives its value. *)
Lemma unquote_field (f : written) :
  wellWritten comma DQ f = true -> unquote (encodeField DQ f) = snd f.
Proof.
  intro Hw. destruct f as [[|] v]; unfold encodeField; cbn [fst snd].
  - apply LineReaderFacts.unquote_quoted.
  - unfold wellWritten in Hw. cbn [fst snd orb] in Hw.
    unfold unquote. destruct v as [|c v]; [reflexivity|].
    cbn [bare forallb] in Hw. apply andb_prop in Hw as [Hc _].
    unfold ordinary in Hc.
    apply andb_prop in Hc as [Hc _]. apply andb_prop in Hc as [Hc _].
    apply andb_prop in Hc as [_ Hc]. apply negb_true_iff in Hc.
    cbn [nth]. rewrite Hc, andb_false_r. reflexivity.
Qed.

(** The fields cut out of a line at the spans of its written fields. *)
Lemma extract_spans (fs : list written) : forall p q,
  forallb (wellWritten comma DQ) fs = true ->
  extract (p ++ encodeFields comma DQ fs ++ q)
    (spans (length p) (map (encodeField DQ) fs)) = values fs.
Proof.
  induction fs as [|f fs IH]; intros p q Hw; [reflexivity|].
  cbn [forallb] in Hw. apply andb_prop in Hw as [Hwf Hws].
  cbn [encodeFields flat_map map spans extract values].
  fold (encodeFields comma DQ fs). fold (values fs).
  f_equal.
  - rewrite <- !app_assoc, slice_middle. apply unquote_field. exact Hwf.
  - specialize (IH (p ++ encodeField DQ f ++ [comma]) q Hws).
    rewrite !length_app in IH. cbn [length] in IH.
    rewrite Nat.add_assoc in IH. rewrite <- IH. f_equal.
    rewrite <- !app_assoc. reflexivity.
Qed.

(** A written record whose last field is not empty as written: the line is
    cut at its delimiters, and the fields are the values. *)
Lemma parseLine_written (fs : list written) (f : written) :
  forallb (wellWritten comma DQ) (fs ++ [f]) = true ->
  encodeField DQ f <> [] ->
  snd (parseLine comma (encodeRecord comma DQ (fs ++ [f]))) = values (fs ++ [f]).
Proof.
  intros Hw Hne. rewrite forallb_app in Hw. apply andb_prop in Hw as [Hws Hwf].
  cbn [forallb] in Hwf. rewrite andb_true_r in Hwf.
  rewrite ByteReaderFacts.encodeRecord_last.
  set (line := encodeFields comma DQ fs ++ encodeField DQ f).
  unfold parseLine.
  assert (Hfb : findBounds comma line 0 false 0 [] =
                (spans 0 (map (encodeField DQ) fs), length (encodeFields comma DQ fs))).
  { unfold line. rewrite (findBounds_fields fs (encodeField DQ f) 0 [] Hws).
    rewrite <- (app_nil_r (encodeField DQ f)).
    rewrite findBounds_field; [reflexivity|exact Hwf|exact I]. }
  rewrite Hfb.
  replace (length (encodeFields comma DQ fs) <=? length line) with true
    by (symmetry; apply Nat.leb_le; unfold line; rewrite length_app; lia).
  assert (Hlast : Ascii.eqb (nth (length line - 1) line NUL) comma = false).
  { unfold line. destruct (encodeField DQ f) as [|x t] eqn:E using rev_ind;
      [congruence|]. clear IHt.
    rewrite app_assoc, length_app. cbn [length].
    replace (length (encodeFields comma DQ fs ++ t) + 1 - 1)
      with (length (encodeFields comma DQ fs ++ t)) by lia.
    rewrite LineReaderFacts.nth_last_app.
    destruct f as [[|] v]; unfold encodeField in E; cbn [fst snd] in E.
    - unfold quoted in E. change (DQ :: escape DQ v ++ [DQ])
        with ((DQ :: escape DQ v) ++ [DQ]) in E.
      apply app_inj_tail in E as [_ <-].
      apply Ascii.eqb_neq. intro H. destruct Hsane as (Hc & _). congruence.
    - unfold wellWritten in Hwf. cbn [fst snd orb] in Hwf. subst v.
      unfold bare in Hwf. rewrite forallb_app in Hwf.
      apply andb_prop in Hwf as [_ Hx]. cbn [forallb] in Hx.
      rewrite andb_true_r in Hx. unfold ordinary in Hx.
      apply andb_prop in Hx as [Hx _]. apply andb_prop in Hx as [Hx _].
      apply andb_prop in Hx as [Hx _]. now apply negb_true_iff in Hx. }
  rewrite Hlast, andb_false_r. cbn [snd].
  rewrite (LineReaderFacts.extract_app line _ (length fs));
    [|rewrite spans_length, length_map; reflexivity].
  unfold values. rewrite map_app. cbn [map]. f_equal.
  - unfold line. exact (extract_spans fs [] (encodeField DQ f) Hws).
  - cbn [extract]. f_equal. unfold line.
    rewrite length_app.
    rewrite <- (app_nil_r (encodeField DQ f)) at 1.
    rewrite slice_middle. apply unquote_field. exact Hwf.
Qed.

End Bounds.

Lemma readFields_numLine (r : Reader) (line : bytes) :
  numLine (snd (readFields r line)) = numLine r.
Proof.
  unfold readFields. destruct (parseLine (byte (Comma r)) line) as [fi record].
  cbn [FieldsPerRecord].
  destruct (0 <? FieldsPerRecord r)%Z.
  - destruct (negb (Z.of_nat (length record) =? FieldsPerRecord r)%Z); reflexivity.
  - destruct (FieldsPerRecord r =? 0)%Z; reflexivity.
Qed.

(** A record that passes the count is returned as [parseLine] made it. *)
Lemma readFields_accepts (r : Reader) (line : bytes) :
  ((0 < FieldsPerRecord r)%Z ->
   FieldsPerRecord r = Z.of_nat (length (snd (parseLine (byte (Comma r)) line)))) ->
  fst (readFields r line) = Rec (snd (parseLine (byte (Comma r)) line)).
Proof.
  intro H. unfold readFields.
  destruct (parseLine (byte (Comma r)) line) as [fi record].
  cbn [FieldsPerRecord snd] in *.
  destruct (0 <? FieldsPerRecord r)%Z eqn:Hpos.
  - apply Z.ltb_lt in Hpos. rewrite (H Hpos), Z.eqb_refl. reflexivity.
  - destruct (FieldsPerRecord r =? 0)%Z; reflexivity.
Qed.

(** [readLine] on a line that ends with a line feed, alone or after a
    carriage return, or with the input when it is shorter than the buffer
    of the [bufio.Reader]. *)
Lemma readLine_line (r : Reader) (line : bytes) (e : Ending) (rest : bytes) :
  line <> [] ->
  noLF line = true ->
  dropCR line = line ->
  e = EndLF \/ e = EndCRLF \/ (e = EndEOF /\ rest = []) ->
  (e = EndEOF -> length line < defaultBufSize) ->
  rd r = line ++ ending e ++ rest ->
  readLine r =
  (inl line, mkReader (Comma r) (Comment r) (FieldsPerRecord r) (LazyQuotes r) rest
               (numLine r + 1) (fieldIndexes r)).
Proof.
  intros Hne Hnl Hcr He Hfit Hrd.
  destruct He as [->|[->|[-> ->]]]; cbn [ending app] in Hrd.
  - rewrite (LineReaderFacts.readLine_LF r line rest Hnl Hrd), Hcr. reflexivity.
  - replace (line ++ CR :: LF :: rest) with ((line ++ [CR]) ++ LF :: rest) in Hrd
      by (rewrite <- app_assoc; reflexivity).
    rewrite (LineReaderFacts.readLine_LF r (line ++ [CR]) rest); [|
      unfold noLF in *; rewrite forallb_app, Hnl; reflexivity | exact Hrd].
    unfold dropCR. rewrite endsWith_snoc, Ascii.eqb_refl, removelast_last.
    reflexivity.
  - rewrite app_nil_r in Hrd.
    rewrite (LineReaderFacts.readLine_short r); rewrite Hrd; auto.
Qed.

(** [Read] on a written record that stands on one line. *)
Lemma line_Read_written (r : Reader) (fs : list written) (f : written) (e : Ending)
  (rest : bytes) :
  let comma := byte (Comma r) in
  let line := encodeRecord comma DQ (fs ++ [f]) in
  sane comma DQ ->
  forallb (wellWritten comma DQ) (fs ++ [f]) = true ->
  encodeField DQ f <> [] ->
  noLF line = true ->
  TrimSpace line = line ->
  skipped r line = false ->
  ((0 < FieldsPerRecord r)%Z -> FieldsPerRecord r = Z.of_nat (length (fs ++ [f]))) ->
  e = EndLF \/ e = EndCRLF \/ (e = EndEOF /\ rest = []) ->
  (e = EndEOF -> length line < defaultBufSize) ->
  rd r = line ++ ending e ++ rest ->
  fst (Read r) = Rec (values (fs ++ [f]))
  /\ rd (snd (Read r)) = rest
  /\ numLine (snd (Read r)) = numLine r + 1.
Proof.
  intros comma line Hsane Hw Hne Hnl Htrim Hsk Hcount He Hfit Hrd.
  assert (Hline : line <> []) by (intro H; rewrite H in Hsk; discriminate).
  pose proof (readLine_line r line e rest Hline Hnl (TrimSpace_fixed_CR line Htrim)
                He Hfit Hrd) as Hrl.
  assert (HR : Read r =
               readFields
                 (mkReader (Comma r) (Comment r) (FieldsPerRecord r) (LazyQuotes r) rest
                    (numLine r + 1) (fieldIndexes r)) line).
  { unfold Read. destruct (length (rd r)); cbn [ReadFrom]; rewrite Hrl, Htrim;
      match goal with
      | |- (if skipped ?r1 ?x then _ else _) = _ =>
          change (skipped r1 x) with (skipped r x)
      end; rewrite Hsk; reflexivity. }
  rewrite HR, readFields_rd, readFields_numLine. cbn [rd numLine].
  split; [|split; reflexivity].
  pose proof (parseLine_written comma Hsane fs f Hw Hne) as Hp. fold line in Hp.
  rewrite readFields_accepts; cbn [Comma FieldsPerRecord]; fold comma; rewrite Hp.
  - reflexivity.
  - intro Hpos. unfold values. rewrite length_map. exact (Hcount Hpos).
Qed.

(** *** The setting that is not read *)

Lemma readFields_LazyQuotes (r1 r2 : Reader) (line : bytes) :
  sameButLazyQuotes r1 r2 ->
  fst (readFields r1 line) = fst (readFields r2 line)
  /\ sameButLazyQuotes (snd (readFields r1 line)) (snd (readFields r2 line)).
Proof.
  intros (H1 & H2 & H3 & H4 & H5 & H6).
  destruct r1 as [c1 m1 f1 l1 d1 n1 i1], r2 as [c2 m2 f2 l2 d2 n2 i2].
  cbn [Comma Comment FieldsPerRecord rd numLine fieldIndexes] in *. subst.
  unfold readFields, sameButLazyQuotes. cbn [Comma FieldsPerRecord].
  destruct (parseLine (byte c2) line) as [fi record].
  cbn [Comma Comment FieldsPerRecord LazyQuotes rd numLine fieldIndexes].
  destruct (0 <? f2)%Z.
  - destruct (negb (Z.of_nat (length record) =? f2)%Z); cbn; auto 10.
  - destruct (f2 =? 0)%Z; cbn; auto 10.
Qed.

Lemma skipped_LazyQuotes (r1 r2 : Reader) (line : bytes) :
  Comment r1 = Comment r2 -> skipped r1 line = skipped r2 line.
Proof. intro H. unfold skipped. now rewrite H. Qed.

Lemma readLine_LazyQuotes (r1 r2 : Reader) :
  sameButLazyQuotes r1 r2 ->
  fst (readLine r1) = fst (readLine r2)
  /\ sameButLazyQuotes (snd (readLine r1)) (snd (readLine r2)).
Proof.
  intro H. pose proof H as (H1 & H2 & H3 & H4 & H5 & H6).
  unfold readLine. rewrite H1, H2, H3, H4, H5, H6.
  destruct (readPieces defaultBufSize (S (length (rd r2))) (rd r2) [])
    as [[l|e] rest]; cbn [fst snd];
    (split; [reflexivity|repeat split; reflexivity]).
Qed.

Lemma ReadFrom_LazyQuotes : forall n r1 r2,
  sameButLazyQuotes r1 r2 ->
  fst (ReadFrom n r1) = fst (ReadFrom n r2)
  /\ sameButLazyQuotes (snd (ReadFrom n r1)) (snd (ReadFrom n r2)).
Proof.
  induction n as [|n IH]; intros r1 r2 H;
    destruct (readLine_LazyQuotes r1 r2 H) as [Hl Hs];
    cbn [ReadFrom];
    destruct (readLine r1) as [[l1|e1] ra], (readLine r2) as [[l2|e2] rb];
    cbn [fst snd] in Hl, Hs; try discriminate;
    try (inversion Hl; subst; split; [reflexivity|exact Hs]).
  - inversion Hl; subst l2.
    rewrite (skipped_LazyQuotes ra rb _ (proj1 (proj2 Hs))).
    destruct (skipped rb (TrimSpace l1));
      [split; [reflexivity|exact Hs]|apply readFields_LazyQuotes; exact Hs].
  - inversion Hl; subst l2.
    rewrite (skipped_LazyQuotes ra rb _ (proj1 (proj2 Hs))).
    destruct (skipped rb (TrimSpace l1));
      [apply IH; exact Hs|apply readFields_LazyQuotes; exact Hs].
Qed.

End LineReaderMore.


(** ** More on the reader built on [readRecord] *)

Module RecordReaderMore.
Import RecordReader RecordReaderSpec.

(** *** The automaton on any input *)

(** A round of the automaton moves past the byte it looks at. *)
Lemma step_rest_length (comma ch : ascii) (tl : bytes) (a : Automaton) :
  length (snd (step comma ch tl a)) <= length tl.
Proof.
  unfold step.
  destruct (state a);
    repeat match goal with
           | |- context [if ?b then _ else _] => destruct b
           | |- context [match IndexByte ?x ?c with _ => _ end] =>
               destruct (IndexByte x c)
           end;
    cbn [snd length]; try lia.
  rewrite Nat.add_1_r. cbn [skipn]. rewrite length_skipn. lia.
Qed.

(** Fuel above the length of the input is never used up. *)
Lemma run_fuel (comma : ascii) : forall n m bs a,
  length bs <= n -> length bs <= m -> run n comma bs a = run m comma bs a.
Proof.
  induction n as [|n IH]; intros m bs a Hn Hm.
  - destruct bs; [|cbn in Hn; lia]. destruct m; reflexivity.
  - destruct bs as [|ch tl]; [destruct m; reflexivity|].
    destruct m; [cbn in Hm; lia|].
    cbn [run]. pose proof (step_rest_length comma ch tl a) as Hlen.
    destruct (step comma ch tl a) as [a' rest]. cbn [snd length] in *.
    apply IH; lia.
Qed.

Lemma run_cons (comma : ascii) (fuel : nat) (ch : ascii) (tl : bytes) (a : Automaton) :
  length (ch :: tl) <= fuel ->
  run fuel comma (ch :: tl) a =
  run fuel comma (snd (step comma ch tl a)) (fst (step comma ch tl a)).
Proof.
  intro H. destruct fuel as [|f]; [cbn in H; lia|].
  change (run (S f) comma (ch :: tl) a)
    with (let (a', rest) := step comma ch tl a in run f comma rest a').
  pose proof (step_rest_length comma ch tl a) as Hlen.
  destruct (step comma ch tl a) as [a' rest]. cbn [fst snd length] in *.
  apply run_fuel; lia.
Qed.

Lemma step_consistent (comma ch : ascii) (tl : bytes) (a : Automaton) :
  consistent a ->
  consistent (fst (step comma ch tl a)) /\ begun (fst (step comma ch tl a)).
Proof.
  intros (Hlen & Hcount & Hopen & Hend). unfold step, consistent, begun, len.
  destruct (state a) eqn:Hst; [| | | |congruence]; cbn [openField] in Hopen;
    repeat match goal with
           | |- context [if ?b then _ else _] => destruct b
           | |- context [match IndexByte ?x ?c with _ => _ end] =>
               destruct (IndexByte x c)
           end;
    cbn [fst starts ends fieldCount state fieldStart openField];
    rewrite ?length_app; cbn [length];
    repeat split; try (intro; discriminate); try lia;
    try (right; split; [reflexivity|lia]);
    try (left; lia).
Qed.

Lemma run_consistent (comma : ascii) : forall fuel bs a,
  consistent a ->
  consistent (run fuel comma bs a)
  /\ (begun a \/ (0 < fuel /\ bs <> []) -> begun (run fuel comma bs a)).
Proof.
  induction fuel as [|fuel IH]; intros bs a Ha.
  - cbn [run]. split; [exact Ha|]. intros [H|[H _]]; [exact H|lia].
  - destruct bs as [|ch tl].
    + cbn [run]. split; [exact Ha|]. intros [H|[_ H]]; [exact H|congruence].
    + cbn [run]. destruct (step_consistent comma ch tl a Ha) as [Hc Hb].
      destruct (step comma ch tl a) as [a' rest]. cbn [fst] in *.
      destruct (IH rest a' Hc) as [H1 H2]. split; [exact H1|].
      intros _. apply H2. left. exact Hb.
Qed.

Lemma finish_consistent (a : Automaton) :
  consistent a ->
  length (starts (finish a)) = length (ends (finish a))
  /\ fieldCount (finish a) = Z.of_nat (length (starts (finish a)))
  /\ (begun a -> (1 <= fieldCount (finish a))%Z).
Proof.
  intros (Hlen & Hcount & Hopen & _). unfold finish, begun.
  change (match state a with
          | STATE_QUOTED | STATE_QUOTE_IN_QUOTED | STATE_UNQUOTED => true
          | _ => false
          end) with (openField (state a)).
  destruct (fieldStart a =? -1)%Z eqn:Hfs; cbn [negb andb].
  - apply Z.eqb_eq in Hfs.
    destruct (lastWasComma a); cbn [starts ends fieldCount];
      rewrite ?length_app; cbn [length]; repeat split; try lia;
      intros [H|[Ho H]]; try lia; specialize (Hopen Ho); lia.
  - destruct (openField (state a)) eqn:Ho.
    + cbn [starts ends fieldCount]. rewrite ?length_app. cbn [length].
      repeat split; try lia.
    + destruct (lastWasComma a); cbn [starts ends fieldCount];
        rewrite ?length_app; cbn [length]; repeat split; try lia;
        intros [H|[Ho' H]]; try lia; congruence.
Qed.

Lemma slices_length (s : bytes) (ss es : list Z) :
  length ss = length es -> length (slices s ss es) = length ss.
Proof.
  intro H. unfold slices. rewrite length_map, length_combine. lia.
Qed.

Lemma splitPlain_length (comma : ascii) (bs : bytes) : forall i start ss es,
  length ss = length es ->
  length (fst (splitPlain comma bs i start ss es))
  = length (snd (splitPlain comma bs i start ss es))
  /\ 1 <= length (fst (splitPlain comma bs i start ss es)).
Proof.
  induction bs as [|c tl IH]; intros i start ss es H; cbn [splitPlain].
  - cbn [fst snd]. rewrite !length_app. cbn [length]. lia.
  - destruct (Ascii.eqb c comma); apply IH; rewrite ?length_app; cbn [length]; lia.
Qed.

(** What [Read] does with [FieldCount]: a count that is set is kept, a
    count that is zero is learnt, and the record is filled up to it. *)
Lemma pad_spec (b : Reader) (fields : list bytes) :
  let fc := Z.of_nat (length fields) in
  (FieldCount (snd (pad b fc fields)) = if (FieldCount b =? 0)%Z then fc else FieldCount b)
  /\ Z.of_nat (length (fst (pad b fc fields)))
     = Z.max fc (FieldCount (snd (pad b fc fields)))
  /\ r (snd (pad b fc fields)) = r b /\ buf (snd (pad b fc fields)) = buf b
  /\ Comma (snd (pad b fc fields)) = Comma b.
Proof.
  intro fc. unfold pad. fold fc.
  set (FC := if (FieldCount b =? 0)%Z then fc else FieldCount b).
  destruct (fc <? FC)%Z eqn:E; cbn [fst snd FieldCount r buf Comma].
  - apply Z.ltb_lt in E. rewrite length_app, repeat_length.
    repeat split. subst fc. lia.
  - apply Z.ltb_ge in E. repeat split. subst fc. lia.
Qed.

(** *** What [readRecord] takes *)

(** The loop of [readRecord] moves a piece from the front of the input to
    the end of [buf], and when it ends without error [buf] is not empty. *)
Lemma readChunks_takes : forall fuel input buf q buf' rest,
  readChunks fuel input buf q = (None, buf', rest) ->
  buf' ++ rest = buf ++ input /\ buf' <> [].
Proof.
  induction fuel as [|fuel IH]; intros input buf q buf' rest H; [discriminate|].
  cbn [readChunks] in H.
  destruct (ReadSlice readerSize input) as [[chunk err] rest0] eqn:E.
  destruct (ReadSlice_spec _ _ _ _ _ E) as (Happ & _ & Herr).
  assert (Hbuf : (if 0 <? length chunk then buf ++ chunk else buf) ++ rest0
                 = buf ++ input).
  { destruct chunk; cbn [length Nat.ltb Nat.leb].
    - now rewrite <- Happ.
    - now rewrite <- Happ, <- app_assoc. }
  destruct err as [[|]|].
  - apply IH in H. destruct H as [H1 H2]. split; [congruence|exact H2].
  - destruct (length (if 0 <? length chunk then buf ++ chunk else buf) =? 0) eqn:E0;
      [discriminate|].
    inversion H; subst. split; [exact Hbuf|].
    apply Nat.eqb_neq in E0. intro Hnil. rewrite Hnil in E0. apply E0. reflexivity.
  - match type of H with context [negb ?b] => destruct b end; cbn [negb] in H.
    + apply IH in H. destruct H as [H1 H2]. split; [congruence|exact H2].
    + inversion H; subst. split; [exact Hbuf|].
      destruct Herr as (p & -> & _). rewrite length_app. cbn [length].
      replace (0 <? length p + 1) with true by (symmetry; apply Nat.ltb_lt; lia).
      destruct buf; [destruct p|]; discriminate.
Qed.

(** [readRecord] without error has taken a piece that is not empty from
    the front of the input; [buf] is that piece without its ending. *)
Lemma readRecord_takes (b b1 : Reader) :
  readRecord b = (None, b1) ->
  exists taken,
    r b = taken ++ r b1 /\ taken <> [] /\ buf b1 = trimDelimiter taken
    /\ Comma b1 = Comma b /\ FieldCount b1 = FieldCount b.
Proof.
  unfold readRecord.
  destruct (readChunks (S (length (r b))) (r b) [] false) as [[[e|] buf'] rest] eqn:E;
    [discriminate|].
  intro H. inversion H; subst. cbn [r buf Comma FieldCount].
  apply readChunks_takes in E. destruct E as [E1 E2].
  exists buf'. cbn [app] in E1. auto.
Qed.

(** [readRecord] fails only with [io.EOF] and only on an input that is
    used up. *)
Lemma readRecord_EOF (b : Reader) :
  (exists e b1, readRecord b = (Some e, b1)) <-> r b = [].
Proof.
  split.
  - intros (e & b1 & H). destruct (r b) as [|c tl] eqn:Hr; [reflexivity|].
    exfalso. unfold readRecord in H.
    destruct (RecordReaderFacts.readChunks_ok (S (length (r b))) (r b) [] false
                (Nat.lt_succ_diag_r _)) as (buf' & rest & E).
    { left. rewrite Hr. discriminate. }
    rewrite Hr in E, H. rewrite E in H. discriminate.
  - intro Hr. unfold readRecord. rewrite Hr. cbn. eexists; eexists; reflexivity.
Qed.

(** *** The field count *)

Lemma initial_consistent :
  consistent (mkAutomaton STATE_START_FIELD false (-1) [] [] [] 0).
Proof. repeat split; cbn; try discriminate. Qed.

Lemma IndexByte_nonempty (s : bytes) (c : ascii) (n : nat) :
  IndexByte s c = Some n -> s <> [].
Proof. destruct s; [discriminate|discriminate]. Qed.

Lemma Read_parsed (b b1 : Reader) :
  readRecord b = (None, b1) ->
  Read b = (Rec (fst (pad b1 (snd (parsed b1)) (fst (parsed b1)))),
            snd (pad b1 (snd (parsed b1)) (fst (parsed b1)))).
Proof.
  intro H. unfold Read, parsed. rewrite H.
  destruct (IndexByte (buf b1) DQ).
  - cbn [fst snd]. destruct (pad b1 _ _). reflexivity.
  - destruct (splitPlain (Comma b1) (buf b1) 0 0 [] []) as [ss es].
    cbn [fst snd]. destruct (pad b1 _ _). reflexivity.
Qed.

Lemma parsed_count (b1 : Reader) :
  snd (parsed b1) = Z.of_nat (length (fst (parsed b1)))
  /\ 1 <= length (fst (parsed b1)).
Proof.
  unfold parsed. destruct (IndexByte (buf b1) DQ) as [n|] eqn:E.
  - cbn [fst snd].
    destruct (run_consistent (Comma b1) (length (buf b1)) (buf b1) _ initial_consistent)
      as [Hc Hb].
    apply IndexByte_nonempty in E.
    assert (Hbegun : begun (run (length (buf b1)) (Comma b1) (buf b1)
                              (mkAutomaton STATE_START_FIELD false (-1) [] [] [] 0))).
    { apply Hb. right. split; [destruct (buf b1); [congruence|cbn; lia]|exact E]. }
    destruct (finish_consistent _ Hc) as (H1 & H2 & H3). specialize (H3 Hbegun).
    set (a := finish _) in *.
    assert (Hpos : 1 <= length (starts a)) by lia.
    replace (0 <? length (starts a)) with true by (symmetry; apply Nat.ltb_lt; lia).
    rewrite (slices_length (out a) (starts a) (ends a) H1). split; [exact H2|exact Hpos].
  - pose proof (splitPlain_length (Comma b1) (buf b1) 0 0 [] [] eq_refl) as [H1 H2].
    destruct (splitPlain (Comma b1) (buf b1) 0 0 [] []) as [ss es].
    cbn [fst snd] in *. rewrite slices_length by (rewrite !length_map; exact H1).
    rewrite length_map. split; [reflexivity|exact H2].
Qed.

(** The field count of [Read]: a record has a field; a count that is set
    is kept and a count of zero is learnt from the record; a record is
    never shorter than the count. *)
Lemma record_Read_count (b : Reader) (fields : list bytes) (b' : Reader) :
  Read b = (Rec fields, b') ->
  1 <= length fields
  /\ (FieldCount b' <= Z.of_nat (length fields))%Z
  /\ (FieldCount b <> 0%Z -> FieldCount b' = FieldCount b)
  /\ (FieldCount b = 0%Z -> FieldCount b' = Z.of_nat (length fields)).
Proof.
  intro H.
  destruct (readRecord b) as [[e|] b1] eqn:E.
  { unfold Read in H. rewrite E in H. discriminate. }
  rewrite (Read_parsed b b1 E) in H. inversion H; subst. clear H.
  destruct (readRecord_takes b b1 E) as (taken & _ & _ & _ & _ & Hfc).
  destruct (parsed_count b1) as [Hc Hpos]. rewrite Hc.
  destruct (pad_spec b1 (fst (parsed b1))) as (H1 & H2 & _). cbv zeta in H1, H2.
  rewrite H1 in *. rewrite Hfc in *.
  destruct (FieldCount b =? 0)%Z eqn:Hz.
  - apply Z.eqb_eq in Hz. repeat split; try lia.
  - apply Z.eqb_neq in Hz. repeat split; try lia.
Qed.

(** *** The fast path *)

Lemma combine_snoc {A B : Type} (l : list A) : forall (l' : list B) (a : A) (b : B),
  length l = length l' ->
  combine (l ++ [a]) (l' ++ [b]) = combine l l' ++ [(a, b)].
Proof.
  induction l as [|x l IH]; intros [|y l'] a b H; try discriminate; [reflexivity|].
  cbn [app combine]. rewrite IH; [reflexivity|]. cbn [length] in H. lia.
Qed.

Lemma slices_snoc (s : bytes) (ss es : list Z) (a b : Z) :
  length ss = length es ->
  slices s (ss ++ [a]) (es ++ [b]) = slices s ss es ++ [slice s (Z.to_nat a) (Z.to_nat b)].
Proof.
  intro H. unfold slices. rewrite combine_snoc by exact H.
  rewrite map_app. reflexivity.
Qed.

Lemma slice_to_end (pre tl : bytes) (start : nat) :
  start <= length pre ->
  slice (pre ++ tl) start (length pre) = skipn start pre.
Proof.
  intro H. unfold slice. rewrite skipn_app.
  replace (start - length pre) with 0 by lia. cbn [skipn].
  rewrite firstn_app, length_skipn.
  replace (length pre - start - (length pre - start)) with 0 by lia.
  cbn [firstn]. rewrite app_nil_r. apply firstn_all2. rewrite length_skipn. lia.
Qed.

(** The fast path cuts the text at every delimiter. *)
Lemma splitPlain_splitFrom (comma : ascii) (bs : bytes) : forall pre start ss es,
  start <= length pre ->
  length ss = length es ->
  slices (pre ++ bs)
    (map Z.of_nat (fst (splitPlain comma bs (length pre) start ss es)))
    (map Z.of_nat (snd (splitPlain comma bs (length pre) start ss es)))
  = slices (pre ++ bs) (map Z.of_nat ss) (map Z.of_nat es)
    ++ splitFrom comma (skipn start pre) bs.
Proof.
  induction bs as [|c tl IH]; intros pre start ss es Hs Hlen; cbn [splitPlain splitFrom].
  - cbn [fst snd]. rewrite !map_app. cbn [map].
    rewrite slices_snoc by (rewrite !length_map; exact Hlen).
    rewrite !Nat2Z.id, slice_to_end by exact Hs. reflexivity.
  - replace (pre ++ c :: tl) with ((pre ++ [c]) ++ tl)
      by (rewrite <- app_assoc; reflexivity).
    replace (length pre + 1) with (length (pre ++ [c]))
      by (rewrite length_app; reflexivity).
    destruct (Ascii.eqb c comma).
    + rewrite IH; [|lia|rewrite !length_app; cbn [length]; lia].
      rewrite !map_app. cbn [map].
      rewrite slices_snoc by (rewrite !length_map; exact Hlen).
      rewrite !Nat2Z.id, <- app_assoc. cbn [app]. f_equal. f_equal.
      * rewrite <- app_assoc. cbn [app]. apply slice_to_end. exact Hs.
      * rewrite skipn_all2 by lia. reflexivity.
    + rewrite IH; [|rewrite length_app; lia|exact Hlen].
      rewrite skipn_app. replace (start - length pre) with 0 by lia. reflexivity.
Qed.

Lemma join_cons (comma : ascii) (f : bytes) (t : list bytes) :
  t <> [] -> join comma (f :: t) = f ++ comma :: join comma t.
Proof. destruct t; [congruence|reflexivity]. Qed.

Lemma splitFrom_nonempty (comma : ascii) (bs : bytes) : forall cur,
  splitFrom comma cur bs <> [].
Proof.
  induction bs as [|c tl IH]; intro cur; cbn [splitFrom]; [discriminate|].
  destruct (Ascii.eqb c comma); [discriminate|apply IH].
Qed.

(** Nothing is lost at the cuts: the fields joined by the delimiter are
    the text, and no field holds a delimiter. *)
Lemma splitFrom_join (comma : ascii) (bs : bytes) : forall cur,
  join comma (splitFrom comma cur bs) = cur ++ bs.
Proof.
  induction bs as [|c tl IH]; intro cur; cbn [splitFrom].
  - cbn. now rewrite app_nil_r.
  - destruct (Ascii.eqb c comma) eqn:E.
    + apply Ascii.eqb_eq in E. subst c.
      rewrite join_cons by apply splitFrom_nonempty. now rewrite IH.
    + rewrite IH, <- app_assoc. reflexivity.
Qed.

Lemma splitFrom_fields (comma : ascii) (bs : bytes) : forall cur,
  forallb (fun c => negb (Ascii.eqb c comma)) cur = true ->
  Forall (fun f => forallb (fun c => negb (Ascii.eqb c comma)) f = true)
    (splitFrom comma cur bs).
Proof.
  induction bs as [|c tl IH]; intros cur Hcur; cbn [splitFrom].
  - constructor; [exact Hcur|constructor].
  - destruct (Ascii.eqb c comma) eqn:E.
    + constructor; [exact Hcur|]. apply IH. reflexivity.
    + apply IH. rewrite forallb_app, Hcur. cbn. now rewrite E.
Qed.

Lemma parsed_plain (b1 : Reader) :
  IndexByte (buf b1) DQ = None ->
  fst (parsed b1) = splitFrom (Comma b1) [] (buf b1).
Proof.
  intro H. unfold parsed. rewrite H.
  pose proof (splitPlain_splitFrom (Comma b1) (buf b1) [] 0 [] [] (le_n _) eq_refl) as E.
  cbn [app length skipn map] in E. change (slices (buf b1) [] []) with (@nil bytes) in E.
  destruct (splitPlain (Comma b1) (buf b1) 0 0 [] []) as [ss es].
  cbn [fst snd app] in *. exact E.
Qed.

Lemma pad_fields (b : Reader) (fc : Z) (fields : list bytes) :
  exists k, fst (pad b fc fields) = fields ++ repeat [] k.
Proof.
  unfold pad. match goal with |- context [if ?c then _ else _] => destruct c end.
  - eexists. reflexivity.
  - exists 0. cbn. now rewrite app_nil_r.
Qed.

(** *** Quotes across the lines of a record *)

(** The scan of [readRecord] follows the quotes as [quoteRun] does. *)
Lemma quoteScan_quoteRun : forall n bs,
  length bs <= n ->
  forall q, quoteScan bs q = isInside (quoteRun (ofBool q) bs).
Proof.
  induction n as [|n IH]; intros bs Hn q.
  - destruct bs; [|cbn in Hn; lia]. destruct q; reflexivity.
  - destruct bs as [|c tl]; [destruct q; reflexivity|].
    cbn [length] in Hn. cbn [quoteScan]. unfold quoteRun. cbn [fold_left].
    destruct (Ascii.eqb c DQ) eqn:Hc.
    + destruct q; cbn [ofBool quoteStep]; rewrite Hc.
      * destruct tl as [|x tl']; [reflexivity|].
        cbn [fold_left quoteStep]. destruct (Ascii.eqb x DQ) eqn:Hx.
        -- cbn [length] in Hn. exact (IH tl' ltac:(lia) true).
        -- rewrite (IH (x :: tl') ltac:(lia) false). unfold quoteRun.
           cbn [fold_left ofBool quoteStep]. rewrite Hx. reflexivity.
      * exact (IH tl ltac:(lia) true).
    + rewrite (IH tl ltac:(lia) q). destruct q; cbn [ofBool quoteStep]; rewrite Hc;
        reflexivity.
Qed.

Lemma quoteRun_app (st : QuoteState) (a b : bytes) :
  quoteRun st (a ++ b) = quoteRun (quoteRun st a) b.
Proof. apply fold_left_app. Qed.

Lemma quoteStep_LF (st : QuoteState) :
  quoteStep st LF = (if isInside st then Inside else Outside).
Proof. destruct st; reflexivity. Qed.

(** The scan that starts one byte before the new chunk gives the state of
    the whole of [buf]. *)
Lemma quoteScan_rescan (buf chunk : bytes) :
  buf = [] \/ (exists u, buf = u ++ [LF]) ->
  quoteScan
    (skipn (if 0 <? length buf then length buf - 1 else length buf) (buf ++ chunk))
    (isInside (quoteRun Outside buf))
  = isInside (quoteRun Outside (buf ++ chunk)).
Proof.
  intros [->|[u ->]].
  - cbn [length Nat.ltb Nat.leb skipn app quoteRun fold_left isInside].
    apply (quoteScan_quoteRun _ _ (le_n _)).
  - rewrite length_app. cbn [length].
    replace (0 <? length u + 1) with true by (symmetry; apply Nat.ltb_lt; lia).
    replace (length u + 1 - 1) with (length u) by lia.
    replace (skipn (length u) ((u ++ [LF]) ++ chunk)) with (LF :: chunk)
      by (rewrite <- app_assoc; symmetry; apply skipn_length_app).
    assert (E : quoteRun Outside (u ++ [LF]) = quoteStep (quoteRun Outside u) LF)
      by (rewrite quoteRun_app; reflexivity).
    rewrite (quoteScan_quoteRun _ _ (le_n _)), (quoteRun_app Outside (u ++ [LF]) chunk), E.
    unfold quoteRun at 1. cbn [fold_left]. fold (quoteRun Outside u).
    destruct (quoteRun Outside u); reflexivity.
Qed.

Lemma first_LF (p : bytes) :
  noLF p = true \/ exists p1 p2, p = p1 ++ LF :: p2 /\ noLF p1 = true.
Proof.
  induction p as [|c p IH]; [left; reflexivity|].
  destruct (Ascii.eqb c LF) eqn:Hc.
  - apply Ascii.eqb_eq in Hc. subst c. right. exists [], p. auto.
  - destruct IH as [H|(p1 & p2 & -> & H)].
    + left. cbn [noLF forallb]. rewrite Hc. exact H.
    + right. exists (c :: p1), p2. split; [reflexivity|].
      cbn [noLF forallb]. rewrite Hc. exact H.
Qed.

Lemma endsWith_app_one (s : bytes) (x c : ascii) : endsWith (s ++ [x]) c = Ascii.eqb x c.
Proof. unfold endsWith. rewrite rev_app_distr. reflexivity. Qed.

Lemma noLF_endsWith (p : bytes) : noLF p = true -> endsWith p LF = false.
Proof.
  intro H. destruct p as [|x p] using rev_ind; [reflexivity|].
  rewrite endsWith_app_one. unfold noLF in H. rewrite forallb_app in H.
  apply andb_prop in H as [_ H]. cbn in H. rewrite andb_true_r in H.
  now apply negb_true_iff in H.
Qed.

Lemma quotedLF_tail (st : QuoteState) (p1 p2 : bytes) :
  quotedLF st (p1 ++ LF :: p2) ->
  quoteRun st p1 = Inside /\ quotedLF (quoteRun st (p1 ++ [LF])) p2.
Proof.
  intro H. split; [exact (H p1 p2 eq_refl)|].
  intros q1 q2 ->. rewrite <- quoteRun_app.
  apply (H ((p1 ++ [LF]) ++ q1) q2). rewrite <- !app_assoc. reflexivity.
Qed.

(** The loop of [readRecord] over a text whose line feeds all stand inside
    quotes, followed by a line feed outside quotes: when the text is
    shorter than the buffer of the [bufio.Reader], it takes the text and
    that line feed. *)
Lemma readChunks_record : forall fuel p rest buf,
  length (p ++ LF :: rest) < fuel ->
  length p < readerSize ->
  buf = [] \/ (exists u, buf = u ++ [LF]) ->
  quotedLF (quoteRun Outside buf) p ->
  quoteRun Outside (buf ++ p) <> Inside ->
  readChunks fuel (p ++ LF :: rest) buf (isInside (quoteRun Outside buf))
  = (None, buf ++ p ++ [LF], rest).
Proof.
  induction fuel as [|fuel IH]; intros p rest buf Hfuel Hfit Hbuf Hq Hend; [lia|].
  cbn [readChunks].
  destruct (first_LF p) as [Hnl|(p1 & p2 & -> & Hnl)].
  - rewrite (ReadSlice_line p readerSize rest Hnl Hfit).
    replace (0 <? length (p ++ [LF])) with true
      by (symmetry; apply Nat.ltb_lt; rewrite length_app; cbn; lia).
    rewrite (quoteScan_rescan buf (p ++ [LF]) Hbuf).
    rewrite app_assoc, quoteRun_app. unfold quoteRun at 1. cbn [fold_left].
    rewrite quoteStep_LF.
    destruct (quoteRun Outside (buf ++ p)); [reflexivity|congruence|reflexivity].
  - rewrite length_app in Hfit. cbn [length] in Hfit.
    rewrite <- app_assoc. cbn [app].
    rewrite (ReadSlice_line p1 readerSize (p2 ++ LF :: rest) Hnl ltac:(lia)).
    replace (0 <? length (p1 ++ [LF])) with true
      by (symmetry; apply Nat.ltb_lt; rewrite length_app; cbn; lia).
    rewrite (quoteScan_rescan buf (p1 ++ [LF]) Hbuf).
    destruct (quotedLF_tail _ p1 p2 Hq) as [Hin Htail].
    assert (Hst : quoteRun Outside (buf ++ p1 ++ [LF]) = Inside).
    { rewrite app_assoc, quoteRun_app. unfold quoteRun at 1. cbn [fold_left].
      rewrite quoteRun_app, Hin. reflexivity. }
    rewrite Hst. cbn [isInside negb].
    replace true with (isInside (quoteRun Outside (buf ++ p1 ++ [LF])))
      by (rewrite Hst; reflexivity).
    rewrite IH.
    + rewrite <- !app_assoc. reflexivity.
    + rewrite !length_app in *. cbn [length] in *. lia.
    + lia.
    + right. exists (buf ++ p1). now rewrite app_assoc.
    + rewrite quoteRun_app. exact Htail.
    + rewrite <- !app_assoc. cbn [app]. exact Hend.
Qed.

(** The same at the end of the input, where no line feed follows. *)
Lemma readChunks_last : forall fuel p buf,
  length p < fuel ->
  length p < readerSize ->
  buf = [] \/ (exists u, buf = u ++ [LF]) ->
  quotedLF (quoteRun Outside buf) p ->
  buf ++ p <> [] ->
  readChunks fuel p buf (isInside (quoteRun Outside buf)) = (None, buf ++ p, []).
Proof.
  induction fuel as [|fuel IH]; intros p buf Hfuel Hfit Hbuf Hq Hne; [lia|].
  cbn [readChunks].
  destruct (first_LF p) as [Hnl|(p1 & p2 & -> & Hnl)].
  - rewrite (ReadSlice_end p readerSize Hnl Hfit).
    assert (E : (if 0 <? length p then buf ++ p else buf) = buf ++ p).
    { destruct p; cbn [length Nat.ltb Nat.leb]; [now rewrite app_nil_r|reflexivity]. }
    rewrite E.
    replace (length (buf ++ p) =? 0) with false; [reflexivity|].
    symmetry. apply Nat.eqb_neq. destruct (buf ++ p); [congruence|discriminate].
  - rewrite length_app in Hfit. cbn [length] in Hfit.
    rewrite (ReadSlice_line p1 readerSize p2 Hnl ltac:(lia)).
    replace (0 <? length (p1 ++ [LF])) with true
      by (symmetry; apply Nat.ltb_lt; rewrite length_app; cbn; lia).
    rewrite (quoteScan_rescan buf (p1 ++ [LF]) Hbuf).
    destruct (quotedLF_tail _ p1 p2 Hq) as [Hin Htail].
    assert (Hst : quoteRun Outside (buf ++ p1 ++ [LF]) = Inside).
    { rewrite app_assoc, quoteRun_app. unfold quoteRun at 1. cbn [fold_left].
      rewrite quoteRun_app, Hin. reflexivity. }
    rewrite Hst. cbn [isInside negb].
    replace true with (isInside (quoteRun Outside (buf ++ p1 ++ [LF])))
      by (rewrite Hst; reflexivity).
    rewrite IH.
    + rewrite <- !app_assoc. reflexivity.
    + rewrite !length_app in *. cbn [length] in *. lia.
    + lia.
    + right. exists (buf ++ p1). now rewrite app_assoc.
    + rewrite quoteRun_app. exact Htail.
    + intro H. apply app_eq_nil in H as [H _]. apply app_eq_nil in H as [_ H].
      apply app_eq_nil in H as [_ H]. discriminate.
Qed.

(** *** Quotes in written records *)

Lemma quotedLF_nil (st : QuoteState) : quotedLF st [].
Proof. intros p1 p2 H. destruct p1; discriminate. Qed.

Lemma quotedLF_app (st : QuoteState) (x y : bytes) :
  quotedLF st x -> quotedLF (quoteRun st x) y -> quotedLF st (x ++ y).
Proof.
  intros Hx Hy p1 p2 E. apply app_eq_app in E.
  destruct E as [l [[E1 E2]|[E1 E2]]].
  - destruct l as [|c l].
    + cbn [app] in E2. rewrite app_nil_r in E1. subst x.
      exact (Hy [] p2 (eq_sym E2)).
    + cbn [app] in E2. inversion E2; subst. exact (Hx p1 l eq_refl).
  - subst p1. rewrite quoteRun_app. exact (Hy l p2 E2).
Qed.

Lemma quotedLF_one (st : QuoteState) (c : ascii) :
  c <> LF \/ st = Inside -> quotedLF st [c].
Proof.
  intros H p1 p2 E. destruct p1 as [|x p1].
  - cbn [app] in E. inversion E; subst. destruct H as [H|H]; [congruence|exact H].
  - cbn [app] in E. inversion E. destruct p1; discriminate.
Qed.

(** Between quotes: every byte of the value, its quotes doubled, leaves
    the text inside quotes. *)
Lemma quoteRun_escape (s : bytes) :
  quoteRun Inside (escape DQ s) = Inside /\ quotedLF Inside (escape DQ s).
Proof.
  induction s as [|c s [IH1 IH2]]; [split; [reflexivity|apply quotedLF_nil]|].
  cbn [escape flat_map]. fold (escape DQ s).
  destruct (Ascii.eqb c DQ) eqn:Hc.
  - change ([DQ; DQ] ++ escape DQ s) with ([DQ] ++ [DQ] ++ escape DQ s).
    split.
    + rewrite !quoteRun_app. exact IH1.
    + apply quotedLF_app; [apply quotedLF_one; left; discriminate|].
      apply quotedLF_app; [apply quotedLF_one; left; discriminate|]. exact IH2.
  - assert (E : quoteRun Inside [c] = Inside)
      by (unfold quoteRun; cbn [fold_left quoteStep]; now rewrite Hc).
    split.
    + rewrite quoteRun_app, E. exact IH1.
    + apply quotedLF_app; [apply quotedLF_one; right; reflexivity|].
      rewrite E. exact IH2.
Qed.

Section Quiet.

Variable comma : ascii.
Hypothesis Hsane : sane comma DQ.

(** An ordinary byte outside quotes stays outside and is no line feed. *)
Lemma quiet_ordinary (st : QuoteState) (c : ascii) :
  Ascii.eqb c DQ = false -> c <> LF -> st <> Inside ->
  quoteRun st [c] = Outside /\ quotedLF st [c].
Proof.
  intros Hc Hl Hst. split; [|apply quotedLF_one; left; exact Hl].
  unfold quoteRun. cbn [fold_left]. destruct st; cbn [quoteStep]; rewrite ?Hc;
    congruence.
Qed.

Lemma quiet_bare (s : bytes) : forall st,
  bare comma DQ s = true -> st <> Inside ->
  quoteRun st s <> Inside /\ quotedLF st s.
Proof.
  induction s as [|c s IH]; intros st H Hst.
  - split; [exact Hst|apply quotedLF_nil].
  - cbn [bare forallb] in H. apply andb_prop in H as [Hc Hs].
    unfold ordinary in Hc.
    apply andb_prop in Hc as [Hc _]. apply andb_prop in Hc as [Hc Hc3].
    apply andb_prop in Hc as [_ Hc2].
    apply negb_true_iff in Hc2, Hc3. apply Ascii.eqb_neq in Hc3.
    destruct (quiet_ordinary st c Hc2 Hc3 Hst) as [E1 E2].
    change (c :: s) with ([c] ++ s).
    destruct (IH Outside Hs ltac:(discriminate)) as [I1 I2].
    split.
    + rewrite quoteRun_app, E1. exact I1.
    + apply quotedLF_app; [exact E2|]. rewrite E1. exact I2.
Qed.

Lemma quiet_field (f : written) (st : QuoteState) :
  wellWritten comma DQ f = true -> st <> Inside ->
  quoteRun st (encodeField DQ f) <> Inside /\ quotedLF st (encodeField DQ f).
Proof.
  intros Hw Hst. destruct f as [[|] v]; unfold encodeField; cbn [fst snd].
  - unfold quoted. change (DQ :: escape DQ v ++ [DQ]) with ([DQ] ++ escape DQ v ++ [DQ]).
    assert (E : quoteRun st [DQ] = Inside) by (destruct st; [reflexivity|congruence|reflexivity]).
    destruct (quoteRun_escape v) as [E1 E2].
    split.
    + rewrite !quoteRun_app, E, E1. discriminate.
    + apply quotedLF_app; [apply quotedLF_one; left; discriminate|].
      rewrite E. apply quotedLF_app; [exact E2|].
      apply quotedLF_one. left. discriminate.
  - apply quiet_bare; assumption.
Qed.

Lemma quiet_comma (st : QuoteState) :
  st <> Inside -> quoteRun st [comma] = Outside /\ quotedLF st [comma].
Proof.
  intro Hst. apply quiet_ordinary; [| |exact Hst].
  - apply Ascii.eqb_neq. apply Hsane.
  - apply Hsane.
Qed.

Lemma quiet_fields (fs : list written) : forall st,
  forallb (wellWritten comma DQ) fs = true -> st <> Inside ->
  quoteRun st (encodeFields comma DQ fs) <> Inside
  /\ quotedLF st (encodeFields comma DQ fs).
Proof.
  induction fs as [|f fs IH]; intros st Hw Hst.
  - split; [exact Hst|apply quotedLF_nil].
  - cbn [forallb] in Hw. apply andb_prop in Hw as [Hwf Hws].
    cbn [encodeFields flat_map]. fold (encodeFields comma DQ fs).
    rewrite <- app_assoc.
    destruct (quiet_field f st Hwf Hst) as [F1 F2].
    destruct (quiet_comma _ F1) as [C1 C2].
    destruct (IH Outside Hws ltac:(discriminate)) as [I1 I2].
    split.
    + rewrite !quoteRun_app, C1. exact I1.
    + apply quotedLF_app; [exact F2|]. apply quotedLF_app; [exact C2|].
      rewrite C1. exact I2.
Qed.

(** In a written record every line feed stands inside quotes, and the
    record ends outside them. *)
Lemma quiet_record (fs : list written) (f : written) :
  forallb (wellWritten comma DQ) (fs ++ [f]) = true ->
  quoteRun Outside (encodeRecord comma DQ (fs ++ [f])) <> Inside
  /\ quotedLF Outside (encodeRecord comma DQ (fs ++ [f])).
Proof.
  intro Hw. rewrite forallb_app in Hw. apply andb_prop in Hw as [Hws Hwf].
  cbn [forallb] in Hwf. rewrite andb_true_r in Hwf.
  rewrite ByteReaderFacts.encodeRecord_last.
  destruct (quiet_fields fs Outside Hws ltac:(discriminate)) as [F1 F2].
  destruct (quiet_field f _ Hwf F1) as [L1 L2].
  split.
  - rewrite quoteRun_app. exact L1.
  - apply quotedLF_app; assumption.
Qed.

(** A written record does not end with a line ending. *)
Lemma record_end (fs : list written) (f : written) (c : ascii) :
  forallb (wellWritten comma DQ) (fs ++ [f]) = true ->
  endsWith (encodeRecord comma DQ (fs ++ [f])) c = true ->
  c <> LF /\ c <> CR.
Proof.
  intros Hw H. rewrite forallb_app in Hw. apply andb_prop in Hw as [_ Hwf].
  cbn [forallb] in Hwf. rewrite andb_true_r in Hwf.
  rewrite ByteReaderFacts.encodeRecord_last in H.
  destruct (encodeField DQ f) as [|x t] eqn:E using rev_ind.
  - rewrite app_nil_r in H. destruct fs as [|g fs] using rev_ind; [discriminate|].
    unfold encodeFields in H. rewrite flat_map_app in H. cbn [flat_map] in H.
    rewrite app_nil_r, !app_assoc, endsWith_app_one in H.
    apply Ascii.eqb_eq in H. subst c. split; apply Hsane.
  - clear IHt. rewrite app_assoc, endsWith_app_one in H.
    apply Ascii.eqb_eq in H. subst c.
    destruct f as [[|] v]; unfold encodeField in E; cbn [fst snd] in E.
    + unfold quoted in E. change (DQ :: escape DQ v ++ [DQ])
        with ((DQ :: escape DQ v) ++ [DQ]) in E.
      apply app_inj_tail in E as [_ <-]. split; discriminate.
    + unfold wellWritten in Hwf. cbn [fst snd orb] in Hwf. subst v.
      unfold bare in Hwf. rewrite forallb_app in Hwf.
      apply andb_prop in Hwf as [_ Hx]. cbn [forallb] in Hx.
      rewrite andb_true_r in Hx. unfold ordinary in Hx.
      apply andb_prop in Hx as [Hx Hx4]. apply andb_prop in Hx as [_ Hx3].
      apply negb_true_iff in Hx3, Hx4. split; now apply Ascii.eqb_neq.
Qed.

End Quiet.

(** *** The ending that [readRecord] cuts off *)

Lemma nth_before_last (s : bytes) (x c : ascii) :
  nth (length ((s ++ [x]) ++ [c]) - 1 - 1) ((s ++ [x]) ++ [c]) NUL = x.
Proof.
  rewrite !length_app. cbn [length].
  replace (length s + 1 + 1 - 1 - 1) with (length s) by lia.
  rewrite <- app_assoc, app_nth2 by lia. now rewrite Nat.sub_diag.
Qed.

Lemma nth_last (s : bytes) (c : ascii) : nth (length (s ++ [c]) - 1) (s ++ [c]) NUL = c.
Proof.
  rewrite length_app. cbn [length].
  replace (length s + 1 - 1) with (length s) by lia.
  apply LineReaderFacts.nth_last_app.
Qed.

Lemma endsWith_nth (s : bytes) (c : ascii) :
  endsWith s c = (0 <? length s) && Ascii.eqb (nth (length s - 1) s NUL) c.
Proof.
  destruct s as [|x s] using rev_ind; [reflexivity|].
  rewrite endsWith_app_one, nth_last, length_app. cbn [length].
  replace (0 <? length s + 1) with true by (symmetry; apply Nat.ltb_lt; lia).
  reflexivity.
Qed.

(** A line feed at the end is cut off, and a carriage return before it as
    well. *)
Lemma trimDelimiter_snoc_LF (s : bytes) :
  trimDelimiter (s ++ [LF]) = if endsWith s CR then removelast s else s.
Proof.
  destruct s as [|x s _] using rev_ind; [reflexivity|].
  rewrite endsWith_app_one, removelast_last.
  unfold trimDelimiter. rewrite nth_last, Ascii.eqb_refl, nth_before_last.
  rewrite !length_app. cbn [length].
  replace (0 <? length s + 1 + 1) with true by (symmetry; apply Nat.ltb_lt; lia).
  replace (0 <? length s + 1 + 1 - 1) with true by (symmetry; apply Nat.ltb_lt; lia).
  cbn [andb]. destruct (Ascii.eqb x CR).
  - replace (length s + 1 + 1 - 1 - 1) with (length s) by lia.
    rewrite <- app_assoc. apply firstn_length_app.
  - replace (length s + 1 + 1 - 1) with (length (s ++ [x]))
      by (rewrite length_app; cbn [length]; lia).
    apply firstn_length_app.
Qed.

Lemma trimDelimiter_LF (s : bytes) :
  endsWith s CR = false -> trimDelimiter (s ++ [LF]) = s.
Proof. intro H. now rewrite trimDelimiter_snoc_LF, H. Qed.

Lemma trimDelimiter_CRLF (s : bytes) : trimDelimiter (s ++ [CR; LF]) = s.
Proof.
  replace (s ++ [CR; LF]) with ((s ++ [CR]) ++ [LF]) by (rewrite <- app_assoc; reflexivity).
  rewrite trimDelimiter_snoc_LF, endsWith_app_one, Ascii.eqb_refl.
  apply removelast_last.
Qed.

Lemma trimDelimiter_CR (s : bytes) : trimDelimiter (s ++ [CR]) = s.
Proof.
  unfold trimDelimiter. rewrite nth_last.
  change (Ascii.eqb CR LF) with false. rewrite andb_false_r, Ascii.eqb_refl.
  rewrite length_app. cbn [length].
  replace (0 <? length s + 1) with true by (symmetry; apply Nat.ltb_lt; lia).
  cbn [andb]. replace (length s + 1 - 1) with (length s) by lia.
  apply firstn_length_app.
Qed.

Lemma trimDelimiter_none (s : bytes) :
  endsWith s LF = false -> endsWith s CR = false -> trimDelimiter s = s.
Proof.
  intros H1 H2. unfold trimDelimiter. rewrite <- !endsWith_nth, H1, H2. reflexivity.
Qed.

(** [readRecord] on a written record that is, with its ending, shorter
    than the buffer of the [bufio.Reader]: it takes the record and its
    ending, across the line feeds between quotes, and leaves the record in
    [buf]. *)
Lemma readRecord_written (b : Reader) (fs : list written) (f : written) (e : Ending)
  (rest : bytes) :
  sane (Comma b) DQ ->
  forallb (wellWritten (Comma b) DQ) (fs ++ [f]) = true ->
  e = EndLF \/ e = EndCRLF
  \/ ((e = EndCR \/ e = EndEOF) /\ rest = []
      /\ encodeRecord (Comma b) DQ (fs ++ [f]) ++ ending e <> []) ->
  length (encodeRecord (Comma b) DQ (fs ++ [f]) ++ ending e) < readerSize ->
  r b = encodeRecord (Comma b) DQ (fs ++ [f]) ++ ending e ++ rest ->
  readRecord b =
  (None, mkReader (Comma b) (FieldCount b) rest (encodeRecord (Comma b) DQ (fs ++ [f]))).
Proof.
  intros Hsane Hw He Hfit Hr.
  set (rec := encodeRecord (Comma b) DQ (fs ++ [f])) in *.
  destruct (quiet_record (Comma b) Hsane fs f Hw) as [Q1 Q2]. fold rec in Q1, Q2.
  assert (Hcr : endsWith rec CR = false).
  { destruct (endsWith rec CR) eqn:E; [|reflexivity].
    destruct (record_end (Comma b) Hsane fs f CR Hw E) as [_ H]. congruence. }
  assert (Hlf : endsWith rec LF = false).
  { destruct (endsWith rec LF) eqn:E; [|reflexivity].
    destruct (record_end (Comma b) Hsane fs f LF Hw E) as [H _]. congruence. }
  unfold readRecord. rewrite Hr.
  change false with (isInside (quoteRun Outside [])).
  rewrite length_app in Hfit.
  destruct He as [->|[->|[[-> | ->] [-> Hne]]]]; cbn [ending app length] in *.
  - rewrite (readChunks_record _ rec rest [] (Nat.lt_succ_diag_r _) ltac:(lia)
               (or_introl eq_refl) Q2 Q1).
    cbn [app]. now rewrite trimDelimiter_LF.
  - replace (rec ++ CR :: LF :: rest) with ((rec ++ [CR]) ++ LF :: rest)
      by (rewrite <- app_assoc; reflexivity).
    rewrite (readChunks_record _ (rec ++ [CR]) rest [] (Nat.lt_succ_diag_r _)
               ltac:(rewrite length_app; cbn [length]; lia) (or_introl eq_refl)).
    + cbn [app]. rewrite <- app_assoc. cbn [app]. now rewrite trimDelimiter_CRLF.
    + apply quotedLF_app; [exact Q2|]. apply quotedLF_one. left. discriminate.
    + cbn [app]. rewrite quoteRun_app.
      destruct (quoteRun Outside rec); [discriminate|congruence|discriminate].
  - rewrite (readChunks_last _ (rec ++ [CR]) [] (Nat.lt_succ_diag_r _)
               ltac:(rewrite length_app; cbn [length]; lia) (or_introl eq_refl)).
    + cbn [app]. now rewrite trimDelimiter_CR.
    + apply quotedLF_app; [exact Q2|]. apply quotedLF_one. left. discriminate.
    + cbn [app]. destruct rec; discriminate.
  - rewrite app_nil_r in *.
    rewrite (readChunks_last _ rec [] (Nat.lt_succ_diag_r _) ltac:(lia)
               (or_introl eq_refl) Q2 Hne).
    cbn [app]. now rewrite trimDelimiter_none.
Qed.

(** *** The fast path on written records *)

Lemma IndexByte_noDQ (s : bytes) : IndexByte s DQ = None <-> noDQ s = true.
Proof.
  induction s as [|c s IH]; cbn [IndexByte noDQ forallb]; [tauto|].
  fold (noDQ s). destruct (Ascii.eqb c DQ); cbn [negb andb].
  - split; discriminate.
  - rewrite <- IH. destruct (IndexByte s DQ); split; congruence.
Qed.

Lemma splitFrom_bare (comma : ascii) (s : bytes) : forall cur k,
  bare comma DQ s = true ->
  splitFrom comma cur (s ++ k) = splitFrom comma (cur ++ s) k.
Proof.
  induction s as [|c s IH]; intros cur k H.
  - cbn [app]. now rewrite app_nil_r.
  - cbn [bare forallb] in H. apply andb_prop in H as [Hc Hs].
    unfold ordinary in Hc.
    apply andb_prop in Hc as [Hc _]. apply andb_prop in Hc as [Hc _].
    apply andb_prop in Hc as [Hc1 _]. apply negb_true_iff in Hc1.
    cbn [app splitFrom]. rewrite Hc1, (IH (cur ++ [c]) k Hs), <- app_assoc.
    reflexivity.
Qed.

(** A written field without a quote in it is not quoted. *)
Lemma noDQ_field (comma : ascii) (f : written) (k : bytes) :
  wellWritten comma DQ f = true ->
  noDQ (encodeField DQ f ++ k) = true ->
  encodeField DQ f = snd f /\ bare comma DQ (snd f) = true /\ noDQ k = true.
Proof.
  intros Hw H. destruct f as [[|] v]; unfold encodeField in *; cbn [fst snd] in *.
  - discriminate.
  - unfold noDQ in H. rewrite forallb_app in H. apply andb_prop in H as [_ H].
    auto.
Qed.

Lemma splitFrom_fields_written (comma : ascii) (fs : list written) : forall k,
  forallb (wellWritten comma DQ) fs = true ->
  noDQ (encodeFields comma DQ fs ++ k) = true ->
  splitFrom comma [] (encodeFields comma DQ fs ++ k)
  = values fs ++ splitFrom comma [] k.
Proof.
  induction fs as [|f fs IH]; intros k Hw H; [reflexivity|].
  cbn [forallb] in Hw. apply andb_prop in Hw as [Hwf Hws].
  cbn [encodeFields flat_map] in *. fold (encodeFields comma DQ fs) in *.
  rewrite <- !app_assoc in *. cbn [app] in *.
  destruct (noDQ_field comma f _ Hwf H) as (E & Hb & Hk). rewrite E.
  rewrite (splitFrom_bare comma (snd f) [] _ Hb). cbn [app splitFrom].
  rewrite Ascii.eqb_refl. cbn [values map app]. fold (values fs). f_equal.
  apply IH; [exact Hws|]. cbn [noDQ forallb] in Hk.
  apply andb_prop in Hk as [_ Hk]. exact Hk.
Qed.

(** The fast path on a written record without quotes: the fields are the
    values. *)
Lemma splitFrom_written (comma : ascii) (fs : list written) (f : written) :
  forallb (wellWritten comma DQ) (fs ++ [f]) = true ->
  noDQ (encodeRecord comma DQ (fs ++ [f])) = true ->
  splitFrom comma [] (encodeRecord comma DQ (fs ++ [f])) = values (fs ++ [f]).
Proof.
  intros Hw H. rewrite forallb_app in Hw. apply andb_prop in Hw as [Hws Hwf].
  cbn [forallb] in Hwf. rewrite andb_true_r in Hwf.
  rewrite ByteReaderFacts.encodeRecord_last in *.
  rewrite (splitFrom_fields_written comma fs _ Hws H).
  unfold values. rewrite map_app. cbn [map]. f_equal.
  unfold noDQ in H. rewrite forallb_app in H. apply andb_prop in H as [_ H].
  rewrite <- (app_nil_r (encodeField DQ f)) in H.
  destruct (noDQ_field comma f [] Hwf H) as (E & Hb & _). rewrite E.
  rewrite <- (app_nil_r (snd f)) at 1.
  rewrite (splitFrom_bare comma (snd f) [] [] Hb). reflexivity.
Qed.

(** *** The automaton on written records *)

Lemma run_nil (fuel : nat) (comma : ascii) (a : Automaton) : run fuel comma [] a = a.
Proof. destruct fuel; reflexivity. Qed.

(** Between quotes the jump to the next quote does what a walk byte by
    byte does. *)
Lemma run_quoted_byte (comma : ascii) (fuel : nat) (c : ascii) (tl : bytes)
  (fs : Z) (o : bytes) (ss es : list Z) (n : Z) :
  Ascii.eqb c DQ = false ->
  length (c :: tl) <= fuel ->
  run fuel comma (c :: tl) (mkAutomaton STATE_QUOTED false fs o ss es n) =
  run fuel comma tl (mkAutomaton STATE_QUOTED false fs (o ++ [c]) ss es n).
Proof.
  intros Hc Hfuel. rewrite run_cons by exact Hfuel.
  unfold step. cbn [state out fieldStart starts ends fieldCount IndexByte].
  rewrite Hc. cbn [negb].
  destruct tl as [|x tl'].
  - cbn [IndexByte fst snd]. now rewrite !run_nil.
  - assert (Hfuel' : length (x :: tl') <= fuel) by (cbn [length] in *; lia).
    rewrite (run_cons comma fuel x tl' _ Hfuel').
    unfold step. cbn [state out fieldStart starts ends fieldCount IndexByte].
    destruct (Ascii.eqb x DQ) eqn:Hx; cbn [negb fst snd].
    + cbn [Nat.add firstn skipn]. reflexivity.
    + destruct (IndexByte tl' DQ) as [m|]; cbn [fst snd].
      * replace (S (S m) + 1) with (S (S m + 1)) by lia.
        cbn [firstn skipn]. rewrite <- app_assoc. reflexivity.
      * rewrite <- app_assoc. reflexivity.
Qed.

(** A value between quotes, its quotes doubled, and the closing quote. *)
Lemma run_escape (comma : ascii) (fuel : nat) (s : bytes) : forall k fs o ss es n,
  length (escape DQ s ++ DQ :: k) <= fuel ->
  run fuel comma (escape DQ s ++ DQ :: k) (mkAutomaton STATE_QUOTED false fs o ss es n) =
  run fuel comma k (mkAutomaton STATE_QUOTE_IN_QUOTED false fs (o ++ s) ss es n).
Proof.
  induction s as [|c s IH]; intros k fs o ss es n Hfuel.
  - cbn [escape flat_map app] in *. rewrite run_cons by exact Hfuel.
    unfold step. cbn [state out fieldStart starts ends fieldCount].
    rewrite Ascii.eqb_refl. cbn [negb fst snd]. now rewrite app_nil_r.
  - cbn [escape flat_map] in *. fold (escape DQ s) in *.
    destruct (Ascii.eqb c DQ) eqn:Hc.
    + apply Ascii.eqb_eq in Hc. subst c. cbn [app] in *.
      rewrite run_cons by exact Hfuel.
      unfold step at 1 2. cbn [state out fieldStart starts ends fieldCount].
      rewrite Ascii.eqb_refl. cbn [negb fst snd].
      rewrite run_cons by (cbn [length] in *; lia).
      unfold step. cbn [state out fieldStart starts ends fieldCount].
      rewrite Ascii.eqb_refl. cbn [fst snd].
      rewrite IH by (cbn [length] in *; lia). rewrite <- app_assoc. reflexivity.
    + cbn [app] in *. rewrite run_quoted_byte by assumption.
      rewrite IH by (cbn [length] in *; lia). rewrite <- app_assoc. reflexivity.
Qed.

Section Automaton.

Variable comma : ascii.
Hypothesis Hsane : sane comma DQ.

Let Hcq : Ascii.eqb comma DQ = false.
Proof. apply Ascii.eqb_neq. apply Hsane. Qed.

(** An unquoted field goes on up to the delimiter. *)
Lemma run_unquoted (fuel : nat) (s : bytes) : forall k fs o ss es n,
  bare comma DQ s = true ->
  length (s ++ k) <= fuel ->
  run fuel comma (s ++ k) (mkAutomaton STATE_UNQUOTED false fs o ss es n) =
  run fuel comma k (mkAutomaton STATE_UNQUOTED false fs (o ++ s) ss es n).
Proof.
  induction s as [|c s IH]; intros k fs o ss es n H Hfuel.
  - cbn [app]. now rewrite app_nil_r.
  - cbn [bare forallb] in H. apply andb_prop in H as [Hc Hs].
    unfold ordinary in Hc.
    apply andb_prop in Hc as [Hc _]. apply andb_prop in Hc as [Hc _].
    apply andb_prop in Hc as [Hc1 _]. apply negb_true_iff in Hc1.
    cbn [app] in *. rewrite run_cons by exact Hfuel.
    unfold step. cbn [state out fieldStart starts ends fieldCount].
    rewrite Hc1. cbn [fst snd].
    rewrite IH by (try assumption; cbn [length] in *; lia).
    rewrite <- app_assoc. reflexivity.
Qed.

(** A written field, read from between two fields: it lies at the end of
    [out], and the automaton is in the state of its kind. *)
Lemma run_field (fuel : nat) (f : written) (k : bytes) (lw : bool) (o : bytes)
  (ss es : list Z) (n : Z) :
  wellWritten comma DQ f = true ->
  length (encodeField DQ f ++ k) <= fuel ->
  run fuel comma (encodeField DQ f ++ k) (between lw o ss es n) =
  run fuel comma k
    (if fst f then mkAutomaton STATE_QUOTE_IN_QUOTED false (len o) (o ++ snd f) ss es n
     else match snd f with
          | [] => between lw o ss es n
          | _ => mkAutomaton STATE_UNQUOTED false (len o) (o ++ snd f) ss es n
          end).
Proof.
  intros Hw Hfuel. destruct f as [[|] v]; unfold encodeField in *; cbn [fst snd] in *.
  - unfold quoted in *. cbn [app] in *. rewrite <- app_assoc in *. cbn [app] in *.
    rewrite run_cons by exact Hfuel.
    unfold step, between. cbn [state out fieldStart starts ends fieldCount].
    rewrite Ascii.eqb_refl. cbn [fst snd].
    apply run_escape. cbn [length] in Hfuel. lia.
  - unfold wellWritten in Hw. cbn [fst snd orb] in Hw.
    destruct v as [|c v]; [reflexivity|].
    cbn [bare forallb] in Hw. apply andb_prop in Hw as [Hc Hs].
    unfold ordinary in Hc.
    apply andb_prop in Hc as [Hc _]. apply andb_prop in Hc as [Hc _].
    apply andb_prop in Hc as [Hc1 Hc2]. apply negb_true_iff in Hc1, Hc2.
    cbn [app] in *. rewrite run_cons by exact Hfuel.
    unfold step, between. cbn [state out fieldStart starts ends fieldCount].
    rewrite Hc1, Hc2. cbn [fst snd].
    rewrite run_unquoted by (try assumption; cbn [length] in *; lia).
    rewrite <- app_assoc. reflexivity.
Qed.

(** A written field and the delimiter after it: the field is closed. *)
Lemma run_field_comma (fuel : nat) (f : written) (k : bytes) (lw : bool) (o : bytes)
  (ss es : list Z) (n : Z) :
  wellWritten comma DQ f = true ->
  length (encodeField DQ f ++ comma :: k) <= fuel ->
  run fuel comma (encodeField DQ f ++ comma :: k) (between lw o ss es n) =
  run fuel comma k
    (between true (o ++ snd f) (ss ++ [len o]) (es ++ [len (o ++ snd f)]) (n + 1)).
Proof.
  intros Hw Hfuel. rewrite run_field by assumption.
  assert (Hk : length (comma :: k) <= fuel)
    by (rewrite length_app in Hfuel; lia).
  rewrite run_cons by exact Hk.
  destruct (fst f).
  - unfold step, between. cbn [state out fieldStart starts ends fieldCount].
    rewrite Hcq, Ascii.eqb_refl. reflexivity.
  - destruct (snd f) as [|c v].
    + unfold step, between. cbn [state out fieldStart starts ends fieldCount].
      rewrite Hcq, Ascii.eqb_refl, app_nil_r. reflexivity.
    + unfold step, between. cbn [state out fieldStart starts ends fieldCount].
      rewrite Ascii.eqb_refl. reflexivity.
Qed.

Lemma afterFields_cons (lw : bool) (o : bytes) (ss es : list Z) (n : Z) (v : bytes)
  (vs : list bytes) :
  afterFields (between true (o ++ v) (ss ++ [len o]) (es ++ [len (o ++ v)]) (n + 1)) vs
  = afterFields (between lw o ss es n) (v :: vs).
Proof.
  unfold afterFields, between, len.
  cbn [lastWasComma out starts ends fieldCount concat cutStarts cutEnds map length].
  rewrite <- !app_assoc, !length_app, !Nat.add_0_r. cbn [app].
  f_equal; [destruct vs; reflexivity|lia].
Qed.

(** Written fields, each followed by the delimiter. *)
Lemma run_fields (fuel : nat) (fs : list written) : forall k lw o ss es n,
  forallb (wellWritten comma DQ) fs = true ->
  length (encodeFields comma DQ fs ++ k) <= fuel ->
  run fuel comma (encodeFields comma DQ fs ++ k) (between lw o ss es n) =
  run fuel comma k (afterFields (between lw o ss es n) (values fs)).
Proof.
  induction fs as [|f fs IH]; intros k lw o ss es n Hw Hfuel.
  - unfold afterFields, between.
    cbn [encodeFields flat_map app values map concat cutStarts cutEnds length
         lastWasComma out starts ends fieldCount].
    rewrite !app_nil_r, Z.add_0_r. reflexivity.
  - cbn [forallb] in Hw. apply andb_prop in Hw as [Hwf Hws].
    cbn [encodeFields flat_map] in *. fold (encodeFields comma DQ fs) in *.
    rewrite <- !app_assoc in *. cbn [app] in *.
    rewrite run_field_comma by assumption.
    rewrite IH;
      [|exact Hws
       |rewrite !length_app in Hfuel; cbn [length] in Hfuel;
        rewrite !length_app in Hfuel; rewrite !length_app; lia].
    cbn [values map]. fold (values fs). now rewrite (afterFields_cons lw).
Qed.

(** The last field of a record and the end of the loop. *)
Lemma finish_field (fuel : nat) (f : written) (lw : bool) (o : bytes)
  (ss es : list Z) (n : Z) :
  wellWritten comma DQ f = true ->
  lw = true \/ encodeField DQ f <> [] ->
  length (encodeField DQ f) <= fuel ->
  let a := finish (run fuel comma (encodeField DQ f) (between lw o ss es n)) in
  out a = o ++ snd f
  /\ starts a = ss ++ [len o]
  /\ ends a = es ++ [len (o ++ snd f)]
  /\ fieldCount a = (n + 1)%Z.
Proof.
  intros Hw Hlw Hfuel.
  rewrite <- (app_nil_r (encodeField DQ f)).
  rewrite run_field by (rewrite ?app_nil_r; assumption).
  rewrite run_nil. unfold finish, between, len.
  destruct f as [[|] v]; cbn [fst snd].
  - cbn [state fieldStart out starts ends fieldCount lastWasComma].
    replace (Z.of_nat (length o) =? -1)%Z with false
      by (symmetry; apply Z.eqb_neq; lia).
    cbn [negb andb out starts ends fieldCount]. auto.
  - destruct v as [|c v].
    + cbn [state fieldStart out starts ends fieldCount lastWasComma].
      cbn [negb andb Z.eqb]. rewrite andb_false_r.
      destruct Hlw as [->|H]; [|cbn in H; congruence].
      cbn [out starts ends fieldCount]. rewrite app_nil_r. auto.
    + cbn [state fieldStart out starts ends fieldCount lastWasComma].
      replace (Z.of_nat (length o) =? -1)%Z with false
        by (symmetry; apply Z.eqb_neq; lia).
      cbn [negb andb out starts ends fieldCount]. auto.
Qed.

End Automaton.

(** The fields cut out of [out] at the cuts of values that lie end to
    end. *)
Lemma slices_cuts (vs : list bytes) : forall p q,
  slices (p ++ concat vs ++ q)
    (map Z.of_nat (cutStarts 0 (length p) vs))
    (map Z.of_nat (cutEnds 0 (length p) vs)) = vs.
Proof.
  induction vs as [|v vs IH]; intros p q; [reflexivity|].
  cbn [concat cutStarts cutEnds map]. unfold slices. cbn [combine map fst snd].
  rewrite !Nat2Z.id. f_equal.
  - rewrite <- app_assoc. apply slice_middle.
  - specialize (IH (p ++ v) q). rewrite length_app in IH.
    rewrite Nat.add_0_r. unfold slices in IH.
    rewrite <- !app_assoc in *. exact IH.
Qed.

Lemma cutStarts_snoc (vs : list bytes) (v : bytes) : forall start,
  cutStarts 0 start (vs ++ [v]) = cutStarts 0 start vs ++ [start + length (concat vs)].
Proof.
  induction vs as [|u vs IH]; intro start; cbn [app cutStarts concat length].
  - now rewrite Nat.add_0_r.
  - rewrite IH, length_app. f_equal. f_equal. f_equal. lia.
Qed.

Lemma cutEnds_snoc (vs : list bytes) (v : bytes) : forall start,
  cutEnds 0 start (vs ++ [v])
  = cutEnds 0 start vs ++ [start + length (concat vs) + length v].
Proof.
  induction vs as [|u vs IH]; intro start; cbn [app cutEnds concat length].
  - now rewrite Nat.add_0_r.
  - rewrite IH, length_app. f_equal. f_equal. f_equal. lia.
Qed.

(** [Read] between [readRecord] and the filling up, on a written record:
    the fields are the values, by the fast path when the record holds no
    quote and by the automaton when it does. *)
Lemma parsed_written (b1 : Reader) (fs : list written) (f : written) :
  sane (Comma b1) DQ ->
  forallb (wellWritten (Comma b1) DQ) (fs ++ [f]) = true ->
  buf b1 = encodeRecord (Comma b1) DQ (fs ++ [f]) ->
  fst (parsed b1) = values (fs ++ [f]).
Proof.
  intros Hsane Hw Hbuf.
  destruct (IndexByte (buf b1) DQ) as [i|] eqn:E.
  - unfold parsed. rewrite E. cbn [fst].
    rewrite Hbuf in *. rewrite ByteReaderFacts.encodeRecord_last in *.
    pose proof Hw as Hw'. rewrite forallb_app in Hw'. apply andb_prop in Hw' as [Hws Hwf].
    cbn [forallb] in Hwf. rewrite andb_true_r in Hwf.
    change (mkAutomaton STATE_START_FIELD false (-1) [] [] [] 0)
      with (between false [] [] [] 0).
    rewrite (run_fields (Comma b1) Hsane _ fs (encodeField DQ f) false [] [] [] 0 Hws
               (le_n _)).
    unfold afterFields.
    cbn [out starts ends fieldCount lastWasComma between app length].
    match goal with
    | |- context [finish (run ?fuel ?c ?k (between ?lw ?o ?ss ?es ?n))] =>
        destruct (finish_field c fuel f lw o ss es n Hwf) as (Ho & Hs & He & Hn)
    end.
    { destruct fs as [|g fs]; [|left; reflexivity]. right.
      intro H. cbn [encodeFields flat_map app] in E. rewrite H in E. discriminate. }
    { rewrite length_app. lia. }
    cbv zeta in Ho, Hs, He, Hn. rewrite Ho, Hs, He.
    rewrite length_app. cbn [length].
    replace (0 <? length (map Z.of_nat (cutStarts 0 0 (values fs))) + 1) with true
      by (symmetry; apply Nat.ltb_lt; lia).
    unfold len. rewrite !length_app.
    pose proof (slices_cuts (values (fs ++ [f])) [] []) as Hcut.
    unfold values in *. rewrite map_app in *. cbn [map] in *.
    rewrite cutStarts_snoc, cutEnds_snoc, !map_app in Hcut.
    rewrite concat_app in Hcut. cbn [concat map app length Nat.add] in Hcut.
    rewrite !app_nil_r in Hcut. exact Hcut.
  - rewrite (parsed_plain b1 E), Hbuf. apply splitFrom_written; [exact Hw|].
    apply IndexByte_noDQ. now rewrite <- Hbuf.
Qed.

Lemma pad_eq (b : Reader) (fc : Z) (fields : list bytes) :
  pad b fc fields =
  (fields
   ++ repeat [] (Z.to_nat ((if (FieldCount b =? 0)%Z then fc else FieldCount b) - fc)),
   mkReader (Comma b) (if (FieldCount b =? 0)%Z then fc else FieldCount b) (r b) (buf b)).
Proof.
  unfold pad. destruct (fc <? _)%Z eqn:E; [reflexivity|].
  apply Z.ltb_ge in E.
  replace (Z.to_nat _) with 0 by lia. cbn [repeat]. now rewrite app_nil_r.
Qed.

(** [Read] on a written record. *)
Lemma record_Read_written (b : Reader) (fs : list written) (f : written) (e : Ending)
  (rest : bytes) :
  sane (Comma b) DQ ->
  forallb (wellWritten (Comma b) DQ) (fs ++ [f]) = true ->
  e = EndLF \/ e = EndCRLF
  \/ ((e = EndCR \/ e = EndEOF) /\ rest = []
      /\ encodeRecord (Comma b) DQ (fs ++ [f]) ++ ending e <> []) ->
  length (encodeRecord (Comma b) DQ (fs ++ [f]) ++ ending e) < readerSize ->
  r b = encodeRecord (Comma b) DQ (fs ++ [f]) ++ ending e ++ rest ->
  Read b =
  (Rec (values (fs ++ [f])
        ++ repeat []
             (Z.to_nat ((if (FieldCount b =? 0)%Z then Z.of_nat (length (fs ++ [f]))
                         else FieldCount b) - Z.of_nat (length (fs ++ [f]))))),
   mkReader (Comma b)
     (if (FieldCount b =? 0)%Z then Z.of_nat (length (fs ++ [f])) else FieldCount b)
     rest (encodeRecord (Comma b) DQ (fs ++ [f]))).
Proof.
  intros Hsane Hw He Hfit Hr.
  pose proof (readRecord_written b fs f e rest Hsane Hw He Hfit Hr) as Hrr.
  rewrite (Read_parsed b _ Hrr).
  set (b1 := mkReader (Comma b) (FieldCount b) rest
               (encodeRecord (Comma b) DQ (fs ++ [f]))) in *.
  destruct (parsed_count b1) as [Hc _].
  rewrite Hc, (parsed_written b1 fs f Hsane Hw eq_refl).
  rewrite pad_eq. unfold values. rewrite length_map. reflexivity.
Qed.

(** *** Where a record ends *)

Lemma linesFit_line (size : nat) : forall p run rest,
  noLF p = true ->
  linesFit size run (p ++ LF :: rest) = true ->
  run + length p < size /\ linesFit size 0 rest = true.
Proof.
  induction p as [|c p IH]; intros run rest Hnl H; cbn [app linesFit] in H.
  - rewrite Ascii.eqb_refl in H. apply andb_prop in H as [H1 H2].
    apply Nat.ltb_lt in H1. cbn [length]. split; [lia|exact H2].
  - cbn [noLF forallb] in Hnl. apply andb_prop in Hnl as [Hc Hp].
    apply negb_true_iff in Hc. rewrite Hc in H.
    destruct (IH (S run) rest Hp H) as [H1 H2]. cbn [length]. split; [lia|exact H2].
Qed.

Lemma linesFit_end (size : nat) : forall p run,
  noLF p = true -> linesFit size run p = true -> run + length p < size.
Proof.
  induction p as [|c p IH]; intros run Hnl H; cbn [linesFit] in H.
  - apply Nat.ltb_lt in H. cbn [length]. lia.
  - cbn [noLF forallb] in Hnl. apply andb_prop in Hnl as [Hc Hp].
    apply negb_true_iff in Hc. rewrite Hc in H.
    specialize (IH (S run) Hp H). cbn [length]. lia.
Qed.

(** On a text whose lines fit the buffer [ReadSlice] returns a line with
    its line feed, or at the end what is left. *)
Lemma ReadSlice_cases (input : bytes) :
  linesFit readerSize 0 input = true ->
  (exists p rest,
      input = p ++ LF :: rest /\ noLF p = true
      /\ ReadSlice readerSize input = (p ++ [LF], None, rest)
      /\ linesFit readerSize 0 rest = true)
  \/ (ReadSlice readerSize input = (input, Some io_EOF, []) /\ noLF input = true).
Proof.
  intro Hfit. destruct (first_LF input) as [Hnl|(p & rest & -> & Hnl)].
  - right. split; [|exact Hnl]. apply ReadSlice_end; [exact Hnl|].
    exact (linesFit_end _ _ _ Hnl Hfit).
  - left. destruct (linesFit_line _ _ _ _ Hnl Hfit) as [H1 H2].
    exists p, rest. repeat split; auto. apply ReadSlice_line; [exact Hnl|lia].
Qed.

Lemma quotedLF_noLF (st : QuoteState) (p : bytes) : noLF p = true -> quotedLF st p.
Proof.
  intros H p1 p2 E. subst p. unfold noLF in H. rewrite forallb_app in H.
  apply andb_prop in H as [_ H]. cbn [forallb] in H.
  rewrite Ascii.eqb_refl in H. discriminate.
Qed.

(** On an input whose lines fit the buffer, the loop of [readRecord] ends
    at the end of the input or at the first line feed that stands outside
    quotes. *)
Lemma readChunks_ends : forall fuel input buf buf' rest,
  linesFit readerSize 0 input = true ->
  buf = [] \/ (exists u, buf = u ++ [LF]) ->
  readChunks fuel input buf (isInside (quoteRun Outside buf)) = (None, buf', rest) ->
  rest = []
  \/ exists p,
       buf' = buf ++ p ++ [LF]
       /\ quotedLF (quoteRun Outside buf) p
       /\ quoteRun Outside (buf ++ p) <> Inside.
Proof.
  induction fuel as [|fuel IH]; intros input buf buf' rest Hfit Hbuf H; [discriminate|].
  cbn [readChunks] in H.
  destruct (ReadSlice_cases input Hfit) as [(p & rest0 & _ & Hp & E & Hfit0)|[E Hn]];
    rewrite E in H.
  - replace (0 <? length (p ++ [LF])) with true in H
      by (symmetry; apply Nat.ltb_lt; rewrite length_app; cbn; lia).
    rewrite (quoteScan_rescan buf (p ++ [LF]) Hbuf) in H.
    assert (Hst : quoteRun Outside (buf ++ p ++ [LF])
                  = quoteStep (quoteRun Outside (buf ++ p)) LF)
      by (rewrite app_assoc, quoteRun_app; reflexivity).
    destruct (isInside (quoteRun Outside (buf ++ p ++ [LF]))) eqn:Hin; cbn [negb] in H.
    + rewrite <- Hin in H. apply IH in H; [|exact Hfit0|].
      * destruct H as [H|(p' & H1 & H2 & H3)]; [left; exact H|right].
        exists (p ++ LF :: p'). split; [rewrite H1, <- !app_assoc; reflexivity|].
        assert (Hp1 : quoteRun (quoteRun Outside buf) p = Inside).
        { rewrite <- quoteRun_app. rewrite Hst, quoteStep_LF in Hin.
          destruct (quoteRun Outside (buf ++ p)); [discriminate|reflexivity|discriminate]. }
        split.
        -- apply quotedLF_app; [apply quotedLF_noLF; exact Hp|].
           change (LF :: p') with ([LF] ++ p').
           apply quotedLF_app; [apply quotedLF_one; right; exact Hp1|].
           rewrite <- !quoteRun_app. exact H2.
        -- replace (buf ++ p ++ LF :: p') with ((buf ++ p ++ [LF]) ++ p')
             by (rewrite <- !app_assoc; reflexivity).
           exact H3.
      * right. exists (buf ++ p). now rewrite app_assoc.
    + inversion H; subst. right. exists p. split; [reflexivity|].
      split; [apply quotedLF_noLF; exact Hp|].
      rewrite Hst, quoteStep_LF in Hin. intro Hi. rewrite Hi in Hin. discriminate.
  - destruct (length _ =? 0); [discriminate|]. inversion H. left. reflexivity.
Qed.

(** What [Read] takes for a record, on an input whose lines fit the
    buffer. *)
Lemma Read_takes (b : Reader) (fields : list bytes) (b' : Reader) :
  Read b = (Rec fields, b') ->
  exists taken,
    r b = taken ++ r b' /\ taken <> [] /\ buf b' = trimDelimiter taken
    /\ (linesFit readerSize 0 (r b) = true ->
        r b' = []
        \/ exists p, taken = p ++ [LF] /\ quotedLF Outside p
                     /\ quoteRun Outside p <> Inside).
Proof.
  intros H.
  destruct (readRecord b) as [[e|] b1] eqn:E.
  { unfold Read in H. rewrite E in H. discriminate. }
  rewrite (Read_parsed b b1 E) in H. inversion H; subst. clear H.
  destruct (pad_spec b1 (fst (parsed b1))) as (_ & _ & Hr & Hb & _).
  cbv zeta in Hr, Hb. destruct (parsed_count b1) as [Hc _]. rewrite Hc, Hr, Hb.
  destruct (readRecord_takes b b1 E) as (taken & H1 & H2 & H3 & _).
  exists taken. repeat split; try assumption. intro Hfit.
  unfold readRecord in E.
  destruct (readChunks (S (length (r b))) (r b) [] false) as [[[e|] buf'] rest] eqn:Ec;
    [discriminate|].
  inversion E; subst. cbn [r buf] in *.
  pose proof (readChunks_takes _ _ _ _ _ _ Ec) as [Ht _]. cbn [app] in Ht.
  assert (taken = buf').
  { rewrite H1 in Ht. now apply app_inv_tail in Ht. }
  subst taken.
  change false with (isInside (quoteRun Outside [])) in Ec.
  apply readChunks_ends in Ec; [|exact Hfit|left; reflexivity].
  destruct Ec as [->|(p & Hp & Hq & Hn)]; [left; reflexivity|right].
  exists p. cbn [app] in *. auto.
Qed.

(** [Read] answers [io.EOF] exactly when the input is used up. *)
Lemma Read_EOF_empty (b : Reader) : fst (Read b) = Err EOF <-> r b = [].
Proof.
  split.
  - intro H. destruct (r b) as [|c tl] eqn:Hr; [reflexivity|]. exfalso.
    destruct (RecordReaderFacts.Read_ok b) as (rec & b' & E).
    { rewrite Hr. discriminate. }
    rewrite E in H. discriminate.
  - intro Hr. unfold Read, readRecord. rewrite Hr. reflexivity.
Qed.

(** The fast path on any record without a quote: the fields are the text
    cut at every delimiter, filled up with empty fields; joined by the
    delimiter they give the text back, and none of them holds a
    delimiter. *)
Lemma Read_plain (b : Reader) (fields : list bytes) (b' : Reader) :
  Read b = (Rec fields, b') ->
  noDQ (buf b') = true ->
  exists k,
    fields = splitFrom (Comma b) [] (buf b') ++ repeat [] k
    /\ join (Comma b) (splitFrom (Comma b) [] (buf b')) = buf b'
    /\ Forall (fun f => forallb (fun c => negb (Ascii.eqb c (Comma b))) f = true)
         (splitFrom (Comma b) [] (buf b')).
Proof.
  intros H Hq.
  destruct (readRecord b) as [[e|] b1] eqn:E.
  { unfold Read in H. rewrite E in H. discriminate. }
  rewrite (Read_parsed b b1 E) in H. inversion H; subst. clear H.
  destruct (pad_spec b1 (fst (parsed b1))) as (_ & _ & _ & Hb & _).
  cbv zeta in Hb. destruct (parsed_count b1) as [Hc _]. rewrite Hc, Hb in *.
  destruct (readRecord_takes b b1 E) as (_ & _ & _ & _ & Hcomma & _).
  rewrite <- Hcomma.
  destruct (pad_fields b1 (Z.of_nat (length (fst (parsed b1)))) (fst (parsed b1)))
    as [k Hk].
  exists k. rewrite Hk, (parsed_plain b1 (proj2 (IndexByte_noDQ _) Hq)).
  split; [reflexivity|]. split.
  - apply splitFrom_join.
  - apply splitFrom_fields. reflexivity.
Qed.

(** *** A quote on which a full buffer ends *)

Lemma quoteScan_noDQ : forall x q, noDQ x = true -> quoteScan x q = q.
Proof.
  induction x as [|c x IH]; intros q H; [reflexivity|].
  cbn [noDQ forallb] in H. apply andb_prop in H as [Hc Hx].
  apply negb_true_iff in Hc. cbn [quoteScan]. rewrite Hc. exact (IH q Hx).
Qed.

Lemma quoteRun_noDQ : forall x, noDQ x = true -> quoteRun Inside x = Inside.
Proof.
  intros x H. unfold quoteRun.
  induction x as [|c x IH]; [reflexivity|].
  cbn [noDQ forallb] in H. apply andb_prop in H as [Hc Hx].
  apply negb_true_iff in Hc. cbn [fold_left quoteStep]. rewrite Hc. exact (IH Hx).
Qed.

Lemma readChunks_S (fuel : nat) (input buf : bytes) (insideQuoted : bool) :
  readChunks (S fuel) input buf insideQuoted
  = let '(chunk, err, rest) := ReadSlice readerSize input in
    let prevLen := length buf in
    let buf' := if 0 <? length chunk then buf ++ chunk else buf in
    let start := if 0 <? prevLen then prevLen - 1 else prevLen in
    let insideQuoted' :=
      if 0 <? length chunk then quoteScan (skipn start buf') insideQuoted
      else insideQuoted in
    match err with
    | None =>
        if negb insideQuoted' then (None, buf', rest)
        else readChunks fuel rest buf' insideQuoted'
    | Some ErrBufferFull => readChunks fuel rest buf' insideQuoted'
    | Some io_EOF =>
        if length buf' =? 0 then (Some EOF, buf', rest)
        else (None, buf', rest)
    end.
Proof. reflexivity. Qed.

(** When a full buffer ends on a quote after which the text stands inside
    a quoted field, the scan over the next chunk starts at that quote
    again and takes it for the closing one: the first line feed of the
    field ends the record. *)
Lemma readChunks_boundary (fuel : nat) (pre x rest : bytes) :
  length pre + 1 = readerSize ->
  noLF pre = true ->
  quoteRun Outside (pre ++ [DQ]) = Inside ->
  noDQ x = true -> noLF x = true -> length x < readerSize ->
  readChunks (S (S fuel)) (pre ++ DQ :: x ++ LF :: rest) [] false
  = (None, pre ++ DQ :: x ++ [LF], rest).
Proof.
  intros Hlen Hnl Hq Hdq Hxl Hfit.
  assert (Hn1 : noLF (pre ++ [DQ]) = true).
  { unfold noLF in *. rewrite forallb_app, Hnl. reflexivity. }
  assert (Hl1 : length (pre ++ [DQ]) = readerSize)
    by (rewrite length_app; exact Hlen).
  replace (pre ++ DQ :: x ++ LF :: rest) with ((pre ++ [DQ]) ++ x ++ LF :: rest)
    by (rewrite <- app_assoc; reflexivity).
  rewrite readChunks_S, (ReadSlice_full (pre ++ [DQ]) readerSize _ Hn1 Hl1).
  cbv beta iota zeta.
  replace (0 <? length (pre ++ [DQ])) with true
    by (symmetry; apply Nat.ltb_lt; rewrite Hl1; apply RecordReaderFacts.readerSize_pos).
  change (length (@nil ascii)) with 0. change (0 <? 0) with false.
  cbv iota. cbn [skipn app].
  rewrite (quoteScan_quoteRun _ _ (le_n _)). cbn [ofBool]. rewrite Hq. cbn [isInside].
  rewrite readChunks_S, (ReadSlice_line x readerSize rest Hxl Hfit).
  cbv beta iota zeta.
  replace (0 <? length (x ++ [LF])) with true
    by (symmetry; apply Nat.ltb_lt; rewrite length_app; cbn; lia).
  replace (0 <? length (pre ++ [DQ])) with true
    by (symmetry; apply Nat.ltb_lt; rewrite Hl1; apply RecordReaderFacts.readerSize_pos).
  replace (length (pre ++ [DQ]) - 1) with (length pre)
    by (rewrite length_app; cbn [length]; lia).
  replace (skipn (length pre) ((pre ++ [DQ]) ++ x ++ [LF])) with (DQ :: x ++ [LF])
    by (rewrite <- app_assoc; symmetry; apply skipn_length_app).
  assert (Hs : quoteScan (DQ :: x ++ [LF]) true = false).
  { cbn [quoteScan]. rewrite Ascii.eqb_refl.
    assert (Hx : noDQ (x ++ [LF]) = true).
    { unfold noDQ in *. rewrite forallb_app, Hdq. reflexivity. }
    destruct (x ++ [LF]) as [|n tl] eqn:E; [destruct x; discriminate|].
    cbn [noDQ forallb] in Hx. pose proof Hx as Hx'.
    apply andb_prop in Hx as [Hn _]. apply negb_true_iff in Hn. rewrite Hn.
    apply quoteScan_noDQ. exact Hx'. }
  rewrite Hs. cbn [negb]. rewrite <- !app_assoc. reflexivity.
Qed.

(** [Read] then returns a record that ends inside the quoted field. *)
Lemma Read_boundary (b : Reader) (pre x rest : bytes) :
  length pre + 1 = readerSize ->
  noLF pre = true ->
  quoteRun Outside (pre ++ [DQ]) = Inside ->
  noDQ x = true -> noLF x = true -> length x < readerSize ->
  r b = pre ++ DQ :: x ++ LF :: rest ->
  quoteRun Outside (pre ++ DQ :: x) = Inside
  /\ exists fields b',
       Read b = (Rec fields, b')
       /\ r b' = rest
       /\ buf b' = trimDelimiter (pre ++ DQ :: x ++ [LF]).
Proof.
  intros Hlen Hnl Hq Hdq Hxl Hfit Hr. split.
  { replace (pre ++ DQ :: x) with ((pre ++ [DQ]) ++ x)
      by (rewrite <- app_assoc; reflexivity).
    rewrite quoteRun_app, Hq. apply quoteRun_noDQ. exact Hdq. }
  assert (E : readRecord b =
              (None, mkReader (Comma b) (FieldCount b) rest
                       (trimDelimiter (pre ++ DQ :: x ++ [LF])))).
  { unfold readRecord. rewrite Hr.
    assert (Hl : length (pre ++ DQ :: x ++ LF :: rest)
                 = S (length (pre ++ x ++ rest) + 1)).
    { rewrite !length_app. cbn [length]. rewrite !length_app. cbn [length]. lia. }
    rewrite Hl.
    rewrite (readChunks_boundary _ pre x rest Hlen Hnl Hq Hdq Hxl Hfit). reflexivity. }
  rewrite (Read_parsed b _ E).
  match goal with |- context [pad ?b1 ?fc ?fs] =>
    destruct (pad_spec b1 fs) as (_ & _ & H1 & H2 & _) end.
  cbv zeta in H1, H2.
  eexists; eexists. split; [reflexivity|]. cbn [fst snd].
  destruct (parsed_count (mkReader (Comma b) (FieldCount b) rest
                            (trimDelimiter (pre ++ DQ :: x ++ [LF])))) as [Hc _].
  rewrite Hc, H1, H2. split; reflexivity.
Qed.

End RecordReaderMore.

(** ** The storage of the byte-level reader *)

Module ReuseReaderFacts.
Import ReuseReader.

Lemma length_dataBuf (r : Reader) : fits r -> length (dataBuf r) = fill r.
Proof.
  unfold fits, dataBuf. intros H. rewrite length_firstn. lia.
Qed.

Lemma view_closeField (r : Reader) (l : FastReader.Locals) :
  fits r -> FastReader.closeField (view r) l = view (closeField r l).
Proof.
  intros H. unfold FastReader.closeField, closeField, view,
    FastReader.set_fieldBounds, set_fieldBounds.
  cbn. rewrite (length_dataBuf r H). reflexivity.
Qed.

Section Storage.
Variable grow : nat -> nat.

Lemma push_dataBuf (b : ascii) (r : Reader) :
  fits r -> dataBuf (push grow b r) = dataBuf r ++ [b].
Proof.
  unfold fits, push, dataBuf. intros H.
  assert (L : length (firstn (fill r) (array r)) = fill r)
    by (rewrite length_firstn; lia).
  destruct (fill r <? length (array r)); cbn [fill array set_dataBuf];
    rewrite firstn_app, L, firstn_all2 by lia;
    replace (S (fill r) - fill r) with 1 by lia; reflexivity.
Qed.

Lemma push_fits (b : ascii) (r : Reader) : fits r -> fits (push grow b r).
Proof.
  unfold fits, push. intros H.
  destruct (fill r <? length (array r)) eqn:E; cbn [fill array set_dataBuf];
    rewrite length_app, length_firstn; cbn [length];
    [ apply Nat.ltb_lt in E; rewrite length_skipn; lia | lia ].
Qed.

Lemma view_push (b : ascii) (r : Reader) :
  fits r ->
  view (push grow b r)
  = FastReader.set_dataBuf (FastReader.dataBuf (view r) ++ [b]) (view r).
Proof.
  intros H. unfold view at 1. rewrite (push_dataBuf b r H).
  unfold push. destruct (fill r <? length (array r)); reflexivity.
Qed.

End Storage.

Lemma view_buildRecord (r : Reader) :
  FastReader.buildRecord (view r) = map (atReturn r) (buildRecord r).
Proof.
  unfold FastReader.buildRecord, buildRecord. rewrite map_map.
  apply map_ext. intros i. cbn [view FastReader.fieldBounds FastReader.dataBuf].
  destruct (ReuseRecord r); [|reflexivity].
  destruct (fill r =? 0) eqn:E; [|reflexivity].
  apply Nat.eqb_eq in E. cbn [atReturn]. unfold dataBuf. rewrite E. reflexivity.
Qed.

Ltac split_storage H :=
  repeat match type of H with
         | context [if ?b then _ else _] => destruct b eqn:?
         | context [match ?x with _ => _ end] => destruct x eqn:?
         end.

Ltac fold_view :=
  repeat match goal with
         | |- context [FastReader.set_finished ?v (view ?x)] =>
             change (FastReader.set_finished v (view x)) with (view (set_finished v x))
         | |- context [FastReader.set_line ?v (view ?x)] =>
             change (FastReader.set_line v (view x)) with (view (set_line v x))
         | |- context [FastReader.set_src ?v (view ?x)] =>
             change (FastReader.set_src v (view x)) with (view (set_src v x))
         end.

Ltac view_leaf Hfit :=
  cbn [seen]; rewrite ?(view_closeField _ _ Hfit); fold_view;
  rewrite ?view_buildRecord; reflexivity.

Section Loop.
Variable grow : nat -> nat.
Variables comma quote : ascii.

Ltac view_args Hfit :=
  first
    [ reflexivity
    | f_equal;
      first
        [ reflexivity
        | rewrite ?view_push, <- ?(view_closeField _ _ Hfit) by exact Hfit;
          reflexivity
        | match goal with
          | |- context [FastReader.dataBuf (FastReader.closeField (view ?x) ?l)] =>
              change (FastReader.dataBuf (FastReader.closeField (view x) l))
                with (dataBuf x)
          end;
          rewrite ?length_dataBuf by exact Hfit; reflexivity ] ].

Ltac view_step IH Hfit H :=
  apply IH in H;
  [ rewrite <- H; view_args Hfit
  | cbn [length] in *; lia
  | first [ exact Hfit | apply push_fits; exact Hfit ] ].

Lemma readLoop_view (n : nat) :
  forall bs, length bs <= n ->
  forall r l res r',
    fits r ->
    readLoop grow comma quote bs r l = (res, r') ->
    FastReader.readLoop comma quote bs (view r) l = (seen r' res, view r').
Proof.
  induction n as [|n IH]; intros bs Hn r l res r' Hfit H;
    (destruct bs as [|b tl]; [|cbn [length] in Hn; try lia]).
  - cbn [readLoop] in H. cbn [FastReader.readLoop].
    change (FastReader.srcEnd (view r)) with (srcEnd r).
    change (FastReader.fieldBounds (view r)) with (fieldBounds r).
    change (FastReader.dataBuf (view r)) with (dataBuf r).
    rewrite (length_dataBuf r Hfit).
    split_storage H; inversion H; subst; clear H; view_leaf Hfit.
  - cbn [readLoop] in H. cbn [FastReader.readLoop].
    change (FastReader.srcEnd (view r)) with (srcEnd r).
    change (FastReader.fieldBounds (view r)) with (fieldBounds r).
    change (FastReader.dataBuf (view r)) with (dataBuf r).
    rewrite (length_dataBuf r Hfit).
    split_storage H; inversion H; subst; clear H; view_leaf Hfit.
  - cbn [readLoop] in H. cbn [FastReader.readLoop].
    change (FastReader.srcEnd (view r)) with (srcEnd r).
    change (FastReader.line (view r)) with (line r).
    change (length (FastReader.dataBuf (view r))) with (length (dataBuf r)).
    rewrite ?(length_dataBuf r Hfit).
    split_storage H;
      solve [ inversion H; subst; clear H; view_leaf Hfit
            | view_step IH Hfit H ].
Qed.

Lemma later_refl (r : Reader) : fits r -> later r r.
Proof.
  intros H. unfold later, keeps. repeat split; auto.
Qed.

Lemma later_trans (r r1 r2 : Reader) : later r r1 -> later r1 r2 -> later r r2.
Proof.
  unfold later, keeps.
  intros (F1 & L1 & A1 & R1 & K1) (F2 & L2 & A2 & R2 & K2).
  repeat split; [assumption | lia | lia | congruence | ].
  destruct K2 as [K2 | (G2 & N2 & S2)]; [left; lia|].
  destruct K1 as [K1 | (G1 & N1 & S1)]; [left; lia|].
  right. repeat split; [congruence | congruence |].
  rewrite S2.
  replace (fill r2) with ((fill r2 - fill r1) + fill r1) by lia.
  rewrite <- !skipn_skipn. rewrite S1. reflexivity.
Qed.

Lemma later_push (b : ascii) (r : Reader) : fits r -> later r (push grow b r).
Proof.
  intros H. unfold later. split; [apply push_fits; exact H|].
  unfold fits, keeps, push in *.
  destruct (fill r <? length (array r)) eqn:E;
    cbn [fill array generation ReuseRecord set_dataBuf].
  - apply Nat.ltb_lt in E.
    assert (L : length (firstn (fill r) (array r)) = fill r)
      by (rewrite length_firstn; lia).
    repeat split; [lia | | ].
    + rewrite length_app, L. cbn [length]. rewrite length_skipn. lia.
    + right. repeat split.
      * rewrite length_app, L. cbn [length]. rewrite length_skipn. lia.
      * rewrite skipn_app, L, skipn_all2 by lia.
        replace (S (fill r) - fill r) with 1 by lia. reflexivity.
  - apply Nat.ltb_ge in E.
    repeat split; [lia | | left; lia].
    rewrite length_app, length_firstn. cbn [length]. lia.
Qed.

Ltac later_step IH Hfit H :=
  apply IH in H;
  [ refine (later_trans _ _ _ _ H);
    first [ exact (later_refl _ Hfit)
          | match goal with
            | |- later _ (push _ ?b ?x) => exact (later_push b x Hfit)
            end ]
  | cbn [length] in *; lia
  | first [ exact Hfit | apply push_fits; exact Hfit ] ].

Lemma readLoop_later (n : nat) :
  forall bs, length bs <= n ->
  forall r l res r',
    fits r ->
    readLoop grow comma quote bs r l = (res, r') ->
    later r r'.
Proof.
  induction n as [|n IH]; intros bs Hn r l res r' Hfit H;
    (destruct bs as [|b tl]; [|cbn [length] in Hn; try lia]).
  - cbn [readLoop] in H.
    split_storage H; inversion H; subst; clear H; exact (later_refl _ Hfit).
  - cbn [readLoop] in H.
    split_storage H; inversion H; subst; clear H; exact (later_refl _ Hfit).
  - cbn [readLoop] in H.
    split_storage H;
      solve [ inversion H; subst; clear H; exact (later_refl _ Hfit)
            | later_step IH Hfit H ].
Qed.

Lemma readLoop_record (n : nat) :
  forall bs, length bs <= n ->
  forall r l rec r',
    readLoop grow comma quote bs r l = (Rec rec, r') ->
    rec = buildRecord r'.
Proof.
  induction n as [|n IH]; intros bs Hn r l rec r' H;
    (destruct bs as [|b tl]; [|cbn [length] in Hn; try lia]).
  - cbn [readLoop] in H.
    split_storage H; inversion H; subst; clear H; reflexivity.
  - cbn [readLoop] in H.
    split_storage H; inversion H; subst; clear H; reflexivity.
  - cbn [readLoop] in H.
    split_storage H;
      solve [ inversion H; subst; clear H; reflexivity
            | apply IH in H; [exact H | cbn [length] in *; lia] ].
Qed.

End Loop.

Section Reads.
Variable grow : nat -> nat.

Lemma Read_view (r : Reader) (res : result) (r' : Reader) :
  fits r ->
  Read grow r = (res, r') ->
  FastReader.Read (view r) = (seen r' res, view r').
Proof.
  intros Hfit H. unfold Read in H. unfold FastReader.Read.
  change (FastReader.finished (view r)) with (finished r).
  destruct (finished r).
  - inversion H; subst. reflexivity.
  - apply (readLoop_view grow _ _ _ _ (le_n _)) in H.
    + exact H.
    + unfold fits. cbn. lia.
Qed.

Lemma Read_record (r : Reader) (rec : list Field) (r' : Reader) :
  Read grow r = (Rec rec, r') -> rec = buildRecord r'.
Proof.
  unfold Read. destruct (finished r); [discriminate|].
  apply (readLoop_record grow _ _ _ _ (le_n _)).
Qed.

Lemma Read_storage (r : Reader) (res : result) (r' : Reader) :
  fits r ->
  Read grow r = (res, r') ->
  fits r' /\ ReuseRecord r' = ReuseRecord r /\
  (length (array r) < fill r' \/ keeps r r').
Proof.
  intros Hfit H. unfold Read in H. destruct (finished r).
  - inversion H; subst. repeat split; auto. right. repeat split; auto.
  - apply (readLoop_later grow _ _ _ _ (le_n _)) in H.
    + destruct H as (F & _ & _ & R & K). repeat split; auto.
    + unfold fits. cbn. lia.
Qed.

Lemma Read_dataBuf (r : Reader) (rec : list Field) (r' : Reader) :
  fits r ->
  Read grow r = (Rec rec, r') ->
  dataBuf r' = concat (map (atReturn r') rec).
Proof.
  intros Hfit H. apply (Read_view r _ _ Hfit) in H. cbn [seen] in H.
  apply FastReaderMore.Read_layout in H. apply H.
Qed.

End Reads.
End ReuseReaderFacts.

(** ** The specification's statement on multi-line quoted fields *)




(** ** Further properties of the readers *)

(** *** The byte-level reader *)

(** [Read] of the byte-level reader answers [io.EOF] exactly when the
    reader is finished or the source has nothing left and ends with
    [io.EOF]: no byte that is left is ever dropped for an [io.EOF]. *)
Theorem FastReader_EOF_only_when_nothing_is_left (r : FastReader.Reader) :
  fst (FastReader.Read r) = FastReader.Err FastReader.EOF
  <-> FastReader.finished r = true
      \/ (FastReader.src r = [] /\ FastReader.srcFail r = None).
Proof. exact (FastReaderMore.Read_EOF_iff r). Qed.

(** A record of the byte-level reader has at least one field, its fields
    lie end to end in [dataBuf], which holds nothing else, and
    [fieldBounds] holds their bounds, so that [buildRecord] cuts inside
    [dataBuf]. *)
Theorem FastReader_record_lies_in_dataBuf
  (r : FastReader.Reader) (rec : list bytes) (r' : FastReader.Reader) :
  FastReader.Read r = (FastReader.Rec rec, r') ->
  rec <> []
  /\ FastReader.dataBuf r' = concat rec
  /\ FastReader.fieldBounds r' = bounds 0 rec.
Proof. exact (FastReaderMore.Read_layout r rec r'). Qed.

(** [FastReader_record_lies_in_dataBuf] on a record with a quoted and an
    empty field. *)
Lemma FastReader_record_lies_in_dataBuf_witness :
  [str "a"; str "b,c"; []] <> []
  /\ FastReader.dataBuf
       (FastReader.mkReader [] None COMMA DQ (str "ab,c") [0; 1; 1; 4; 4; 4] false 2)
     = concat [str "a"; str "b,c"; []]
  /\ FastReader.fieldBounds
       (FastReader.mkReader [] None COMMA DQ (str "ab,c") [0; 1; 1; 4; 4; 4] false 2)
     = bounds 0 [str "a"; str "b,c"; []].
Proof.
  apply (FastReader_record_lies_in_dataBuf
           (FastReader.NewReader (str "a," ++ [DQ] ++ str "b,c" ++ [DQ; COMMA; LF]))).
  reflexivity.
Defined.

(** A record of the byte-level reader means progress: the source got
    shorter, or the reader is finished; a loop that calls [Read] until it
    fails comes to an end. *)
Theorem FastReader_record_means_progress
  (r : FastReader.Reader) (rec : list bytes) (r' : FastReader.Reader) :
  FastReader.Read r = (FastReader.Rec rec, r') ->
  FastReader.finished r' = true
  \/ length (FastReader.src r') < length (FastReader.src r).
Proof. exact (FastReaderMore.Read_progress r rec r'). Qed.

(** [FastReader_record_means_progress] on a line with an empty field
    only. *)
Lemma FastReader_record_means_progress_witness :
  FastReader.finished
    (FastReader.mkReader (str "x") None COMMA DQ [] [0; 0] false 2) = true
  \/ length (FastReader.src
               (FastReader.mkReader (str "x") None COMMA DQ [] [0; 0] false 2))
     < length (FastReader.src (FastReader.NewReader (LF :: str "x"))).
Proof.
  apply (FastReader_record_means_progress (FastReader.NewReader (LF :: str "x")) [[]]).
  reflexivity.
Defined.

(** A [ParseError] of the byte-level reader points at its cause, whatever
    the input.  An unterminated quote is reported where the input ends:
    the line is the reader's line plus the line feeds that were read, the
    column is one past the last byte of the last line, and the reader is
    finished.  A bare quote is reported at the quote: the line feeds and
    the column are those of the bytes before it, and the source is left
    right after it. *)
Theorem FastReader_error_location
  (r : FastReader.Reader) (ln col : nat) (e : FastReader.error) (r' : FastReader.Reader) :
  FastReader.effective (FastReader.Comma r) COMMA <> LF ->
  FastReader.effective (FastReader.Quote r) DQ <> LF ->
  FastReader.finished r = false ->
  FastReader.Read r = (FastReader.Err (FastReader.ParseError ln col e), r') ->
  (e = FastReader.ErrUnterminatedQuote ->
   ln = FastReader.line r + count_occ ascii_dec (FastReader.src r) LF
   /\ col = columnAfter 1 (FastReader.src r)
   /\ FastReader.src r' = [] /\ FastReader.finished r' = true)
  /\ (e = FastReader.ErrBareQuote ->
      exists pre rest,
        FastReader.src r = pre ++ FastReader.effective (FastReader.Quote r) DQ :: rest
        /\ FastReader.src r' = rest
        /\ ln = FastReader.line r + count_occ ascii_dec pre LF
        /\ col = columnAfter 1 pre).
Proof.
  intros Hc Hq Hfin H.
  pose proof (FastReaderMore.Read_located r _ r' Hc Hq Hfin H) as Hloc.
  split; intros ->; exact Hloc.
Qed.

(** [FastReader_error_location] on a bare quote in the second line of a
    record: line 2, column 5. *)
Lemma FastReader_error_location_witness :
  (FastReader.ErrBareQuote = FastReader.ErrUnterminatedQuote ->
   2 = 1 + count_occ ascii_dec ([DQ] ++ str "a" ++ [LF; DQ] ++ str ",bc" ++ [DQ] ++ str "d") LF
   /\ 5 = columnAfter 1 ([DQ] ++ str "a" ++ [LF; DQ] ++ str ",bc" ++ [DQ] ++ str "d")
   /\ str "d" = [] /\ false = true)
  /\ (FastReader.ErrBareQuote = FastReader.ErrBareQuote ->
      exists pre rest,
        [DQ] ++ str "a" ++ [LF; DQ] ++ str ",bc" ++ [DQ] ++ str "d" = pre ++ DQ :: rest
        /\ str "d" = rest
        /\ 2 = 1 + count_occ ascii_dec pre LF
        /\ 5 = columnAfter 1 pre).
Proof.
  apply (FastReader_error_location
           (FastReader.NewReader
              ([DQ] ++ str "a" ++ [LF; DQ] ++ str ",bc" ++ [DQ] ++ str "d"))
           2 5 FastReader.ErrBareQuote
           (FastReader.mkReader (str "d") None COMMA DQ (str "a" ++ [LF] ++ str "bc")
              [0; 2] false 2)).
  - discriminate.
  - discriminate.
  - reflexivity.
  - reflexivity.
Defined.

(** A quote that opens a field and is never closed: after any number of
    well-written fields, each followed by the delimiter, [Read] of the
    byte-level reader reports [ErrUnterminatedQuote] on the line the input
    ends on, at the column after its last byte, and finishes the reader;
    no part of the record is returned. *)
Theorem FastReader_open_quote_is_reported
  (r : FastReader.Reader) (fs : list written) (s : bytes) :
  sane (FastReader.effective (FastReader.Comma r) COMMA)
       (FastReader.effective (FastReader.Quote r) DQ) ->
  FastReader.finished r = false ->
  FastReader.srcFail r = None ->
  forallb (wellWritten (FastReader.effective (FastReader.Comma r) COMMA)
                       (FastReader.effective (FastReader.Quote r) DQ)) fs = true ->
  FastReader.src r =
    encodeFields (FastReader.effective (FastReader.Comma r) COMMA)
                 (FastReader.effective (FastReader.Quote r) DQ) fs
    ++ FastReader.effective (FastReader.Quote r) DQ
       :: escape (FastReader.effective (FastReader.Quote r) DQ) s ->
  exists r',
    FastReader.Read r =
    (FastReader.Err
       (FastReader.ParseError
          (FastReader.line r + lineFeeds fs + count_occ ascii_dec s LF)
          (columnAfter 1 (FastReader.src r)) FastReader.ErrUnterminatedQuote), r')
    /\ FastReader.finished r' = true.
Proof. exact (FastReaderMore.Read_open r fs s). Qed.

(** [FastReader_open_quote_is_reported] on a field and an open quote with
    a line feed after it: line 2, column 3. *)
Lemma FastReader_open_quote_is_reported_witness :
  exists r',
    FastReader.Read (FastReader.NewReader (str "a," ++ [DQ] ++ str "b" ++ [LF] ++ str "cd")) =
    (FastReader.Err (FastReader.ParseError 2 3 FastReader.ErrUnterminatedQuote), r')
    /\ FastReader.finished r' = true.
Proof.
  apply (FastReader_open_quote_is_reported
           (FastReader.NewReader (str "a," ++ [DQ] ++ str "b" ++ [LF] ++ str "cd"))
           [(false, str "a")] (str "b" ++ [LF] ++ str "cd")).
  - exact sane_defaults.
  - reflexivity.
  - reflexivity.
  - reflexivity.
  - reflexivity.
Defined.

(** Record after record: over a document of well-written records, each
    with its ending, the [k]-th call of [Read] of the byte-level reader
    returns the values of the [k]-th record, the call after the last
    record answers [io.EOF], and the line counter has then advanced by the
    lines of the document. *)
Theorem FastReader_reads_a_document (r : FastReader.Reader) (d : document) :
  sane (FastReader.effective (FastReader.Comma r) COMMA)
       (FastReader.effective (FastReader.Quote r) DQ) ->
  FastReader.finished r = false ->
  FastReader.srcFail r = None ->
  FastReaderSpec.readable (FastReader.effective (FastReader.Comma r) COMMA)
                          (FastReader.effective (FastReader.Quote r) DQ) d ->
  FastReader.src r =
    encodeDoc (FastReader.effective (FastReader.Comma r) COMMA)
              (FastReader.effective (FastReader.Quote r) DQ) d ->
  (forall k, k < length d ->
     fst (FastReader.Read (fastReaderAfter k r))
     = FastReader.Rec (values (fst (nth k d ([], EndLF)))))
  /\ fst (FastReader.Read (fastReaderAfter (length d) r)) = FastReader.Err FastReader.EOF
  /\ FastReader.line (fastReaderAfter (length d) r) = FastReader.line r + docLines d.
Proof.
  intros Hsane Hfin Hsf Hd Hsrc.
  exact (FastReaderMore.Read_document _ _ d r eq_refl eq_refl Hsane Hfin Hsf Hd Hsrc).
Qed.

(** [FastReader_reads_a_document] on three records, the second with a line
    feed between quotes, the third ended by the input. *)
Lemma FastReader_reads_a_document_witness :
  (forall k, k < 3 ->
     fst (FastReader.Read
            (fastReaderAfter k
               (FastReader.NewReader
                  (str "a,b" ++ [CR; LF; DQ] ++ str "c" ++ [LF] ++ str "d" ++ [DQ; LF]
                   ++ str "e"))))
     = FastReader.Rec
         (values (fst (nth k [([(false, str "a"); (false, str "b")], EndCRLF);
                              ([(true, str "c" ++ [LF] ++ str "d")], EndLF);
                              ([(false, str "e")], EndEOF)] ([], EndLF)))))
  /\ fst (FastReader.Read
            (fastReaderAfter 3
               (FastReader.NewReader
                  (str "a,b" ++ [CR; LF; DQ] ++ str "c" ++ [LF] ++ str "d" ++ [DQ; LF]
                   ++ str "e"))))
     = FastReader.Err FastReader.EOF
  /\ FastReader.line
       (fastReaderAfter 3
          (FastReader.NewReader
             (str "a,b" ++ [CR; LF; DQ] ++ str "c" ++ [LF] ++ str "d" ++ [DQ; LF]
              ++ str "e")))
     = 1 + 3.
Proof.
  apply (FastReader_reads_a_document
           (FastReader.NewReader
              (str "a,b" ++ [CR; LF; DQ] ++ str "c" ++ [LF] ++ str "d" ++ [DQ; LF]
               ++ str "e"))
           [([(false, str "a"); (false, str "b")], EndCRLF);
            ([(true, str "c" ++ [LF] ++ str "d")], EndLF);
            ([(false, str "e")], EndEOF)]).
  - exact sane_defaults.
  - reflexivity.
  - reflexivity.
  - cbn [FastReaderSpec.readable]. repeat split; try discriminate; try reflexivity.
  - reflexivity.
Defined.

(** Over a source that ends with an error of its own, [Read] of the
    byte-level reader passes that error on as it is: an error is the
    source's error, unwrapped, with the reader not finished, or a bare
    quote; it is never [io.EOF] and never an unterminated quote. *)
Theorem FastReader_passes_source_errors_on
  (r : FastReader.Reader) (code : nat) (e : FastReader.error) (r' : FastReader.Reader) :
  FastReader.srcFail r = Some code ->
  FastReader.finished r = false ->
  FastReader.Read r = (FastReader.Err e, r') ->
  (e = FastReader.SourceError code /\ FastReader.src r' = []
   /\ FastReader.finished r' = false)
  \/ (exists ln col, e = FastReader.ParseError ln col FastReader.ErrBareQuote).
Proof. exact (FastReaderMore.Read_failing r code e r'). Qed.

(** [FastReader_passes_source_errors_on] on a source that fails inside a
    quoted field. *)
Lemma FastReader_passes_source_errors_on_witness :
  (FastReader.SourceError 5 = FastReader.SourceError 5
   /\ FastReader.src
        (FastReader.mkReader [] (Some 5) COMMA DQ (str "ab") [0; 1] false 1) = []
   /\ FastReader.finished
        (FastReader.mkReader [] (Some 5) COMMA DQ (str "ab") [0; 1] false 1) = false)
  \/ (exists ln col,
        FastReader.SourceError 5 = FastReader.ParseError ln col FastReader.ErrBareQuote).
Proof.
  apply (FastReader_passes_source_errors_on
           (FastReader.mkReader (str "a," ++ [DQ] ++ str "b") (Some 5) COMMA DQ
              [] [] false 1) 5).
  - reflexivity.
  - reflexivity.
  - reflexivity.
Defined.

(** *** The buffer under the byte-level reader *)

(** [readByte] and [peekByte] deliver the bytes of the source in order,
    however [src.Read] cuts them into pieces and also when a call brings
    nothing: while a byte is to come before the first error of the source,
    [readByte] returns it and leaves the bytes after it, and [peekByte]
    returns it and leaves all of them; when none is to come, both return
    that first error, as it is. *)
Theorem readByte_delivers_the_source_in_order (s : Buffered.Buffer) :
  match fst (Buffered.flat s) with
  | b :: tl =>
      fst (Buffered.readByte s) = inl b
      /\ Buffered.flat (snd (Buffered.readByte s)) = (tl, snd (Buffered.flat s))
      /\ fst (Buffered.peekByte s) = inl b
      /\ Buffered.flat (snd (Buffered.peekByte s)) = Buffered.flat s
  | [] =>
      fst (Buffered.readByte s) = inr (Buffered.asError (snd (Buffered.flat s)))
      /\ fst (Buffered.peekByte s) = inr (Buffered.asError (snd (Buffered.flat s)))
  end.
Proof.
  pose proof (BufferedFacts.readByte_flat s) as Hr.
  pose proof (BufferedFacts.peekByte_flat s) as Hp.
  destruct (fst (Buffered.flat s)); [auto|].
  destruct Hr, Hp. auto.
Qed.

(** The list of bytes that the model of the byte-level reader keeps is a
    faithful view of the buffer: over a source that sticks to its first
    error, [readByte] and [peekByte] on the list return what [readByte]
    and [peekByte] on the buffer return, and the list that is left is
    again a view of the buffer that is left. *)
Theorem FastReader_views_the_buffer (r : FastReader.Reader) (s : Buffered.Buffer) :
  Buffered.views r s ->
  Buffered.settled s ->
  (fst (FastReader.readByte r) = fst (Buffered.readByte s)
   /\ Buffered.views (snd (FastReader.readByte r)) (snd (Buffered.readByte s))
   /\ Buffered.settled (snd (Buffered.readByte s)))
  /\ (FastReader.peekByte r = fst (Buffered.peekByte s)
      /\ Buffered.views r (snd (Buffered.peekByte s))
      /\ Buffered.settled (snd (Buffered.peekByte s))).
Proof.
  intros Hv Hs. split.
  - exact (BufferedFacts.readByte_views r s Hv Hs).
  - exact (BufferedFacts.peekByte_views r s Hv Hs).
Qed.

(** [FastReader_views_the_buffer] on an empty buffer over a source that
    brings two bytes, then nothing, then a third byte together with
    [io.EOF]. *)
Lemma FastReader_views_the_buffer_witness :
  (fst (FastReader.readByte (FastReader.NewReader (str "abc")))
   = fst (Buffered.readByte
            (Buffered.mkBuffer [] None
               [(str "ab", None); ([], None); (str "c", Some None)] None))
   /\ Buffered.views (snd (FastReader.readByte (FastReader.NewReader (str "abc"))))
        (snd (Buffered.readByte
                (Buffered.mkBuffer [] None
                   [(str "ab", None); ([], None); (str "c", Some None)] None)))
   /\ Buffered.settled
        (snd (Buffered.readByte
                (Buffered.mkBuffer [] None
                   [(str "ab", None); ([], None); (str "c", Some None)] None))))
  /\ (FastReader.peekByte (FastReader.NewReader (str "abc"))
      = fst (Buffered.peekByte
               (Buffered.mkBuffer [] None
                  [(str "ab", None); ([], None); (str "c", Some None)] None))
      /\ Buffered.views (FastReader.NewReader (str "abc"))
           (snd (Buffered.peekByte
                   (Buffered.mkBuffer [] None
                      [(str "ab", None); ([], None); (str "c", Some None)] None)))
      /\ Buffered.settled
           (snd (Buffered.peekByte
                   (Buffered.mkBuffer [] None
                      [(str "ab", None); ([], None); (str "c", Some None)] None)))).
Proof.
  apply (FastReader_views_the_buffer (FastReader.NewReader (str "abc"))
           (Buffered.mkBuffer [] None
              [(str "ab", None); ([], None); (str "c", Some None)] None)).
  - split; reflexivity.
  - cbn. split; [reflexivity|constructor].
Defined.

(** *** The reader over [bufio.ReadByte] *)

(** The reader over [bufio.ReadByte] returns the values of a written
    record that ends with a line feed, alone or after a carriage return:
    white space, delimiters and line endings between quotes included, in
    order, with no error, and the input is left right after the ending. *)
Theorem ByteReader_returns_fields_verbatim
  (b : ByteReader.Reader) (fs : list written) (e : Ending) (rest : bytes) :
  sane (ByteReader.Comma b) DQ ->
  fs <> [] ->
  forallb (wellWritten (ByteReader.Comma b) DQ) fs = true ->
  e = EndLF \/ e = EndCRLF ->
  ByteReader.r b = encodeRecord (ByteReader.Comma b) DQ fs ++ ending e ++ rest ->
  ByteReader.Read b = (values fs, None, ByteReader.mkReader (ByteReader.Comma b) rest).
Proof. exact (ByteReaderFacts.byte_Read_written b fs e rest). Qed.

(** [ByteReader_returns_fields_verbatim] on a record with a quoted field
    that holds a doubled quote, a delimiter and a line feed. *)
Lemma ByteReader_returns_fields_verbatim_witness :
  ByteReader.Read
    (ByteReader.NewReader
       (str " a," ++ [DQ] ++ str "b" ++ [DQ; DQ] ++ str ",c" ++ [LF] ++ str "d" ++ [DQ]
        ++ [CR; LF] ++ str "next"))
  = (values [(false, str " a"); (true, str "b" ++ [DQ] ++ str ",c" ++ [LF] ++ str "d")],
     None, ByteReader.mkReader COMMA (str "next")).
Proof.
  apply (ByteReader_returns_fields_verbatim
           (ByteReader.NewReader
              (str " a," ++ [DQ] ++ str "b" ++ [DQ; DQ] ++ str ",c" ++ [LF] ++ str "d"
               ++ [DQ] ++ [CR; LF] ++ str "next"))
           [(false, str " a"); (true, str "b" ++ [DQ] ++ str ",c" ++ [LF] ++ str "d")]
           EndCRLF (str "next")).
  - exact sane_defaults.
  - discriminate.
  - reflexivity.
  - right. reflexivity.
  - reflexivity.
Defined.

(** At the end of the input the reader over [bufio.ReadByte] hands back the
    fields of the last record together with [io.EOF], not before it; and
    the last field is among them only when it is not empty, so that a
    record that ends with a delimiter, or with an empty pair of quotes,
    comes back one field short. *)
Theorem ByteReader_last_record_comes_with_EOF
  (b : ByteReader.Reader) (fs : list written) (f : written) :
  sane (ByteReader.Comma b) DQ ->
  forallb (wellWritten (ByteReader.Comma b) DQ) (fs ++ [f]) = true ->
  ByteReader.r b = encodeRecord (ByteReader.Comma b) DQ (fs ++ [f]) ->
  ByteReader.Read b =
  (if 0 <? length (snd f) then values (fs ++ [f]) else values fs,
   Some ByteReader.EOF, ByteReader.mkReader (ByteReader.Comma b) []).
Proof. exact (ByteReaderFacts.byte_Read_written_EOF b fs f). Qed.

(** [ByteReader_last_record_comes_with_EOF] on a last record that ends
    with a delimiter: two fields are written, one comes back. *)
Lemma ByteReader_last_record_comes_with_EOF_witness :
  ByteReader.Read (ByteReader.NewReader (str "a,"))
  = (if 0 <? length (snd (false, @nil ascii))
     then values ([(false, str "a")] ++ [(false, [])])
     else values [(false, str "a")],
     Some ByteReader.EOF, ByteReader.mkReader COMMA []).
Proof.
  apply (ByteReader_last_record_comes_with_EOF
           (ByteReader.NewReader (str "a,")) [(false, str "a")] (false, [])).
  - exact sane_defaults.
  - reflexivity.
  - reflexivity.
Defined.

(** [Read] of the reader over [bufio.ReadByte] without an error has taken
    at least one byte off the input, and [Read] with [io.EOF] has taken
    all of it. *)
Theorem ByteReader_takes_bytes (b : ByteReader.Reader) :
  match snd (fst (ByteReader.Read b)) with
  | None => length (ByteReader.r (snd (ByteReader.Read b))) < length (ByteReader.r b)
  | Some ByteReader.EOF => ByteReader.r (snd (ByteReader.Read b)) = []
  end.
Proof.
  unfold ByteReader.Read.
  destruct (ByteReader.readLoop (ByteReader.Comma b) (ByteReader.r b) [] [] false)
    as [[dst err] rest] eqn:E.
  cbn [fst snd ByteReader.r].
  exact (ByteReaderFacts.byte_readLoop_progress _ _ _ (le_n _) _ _ _ _ _ _ E).
Qed.

(** *** The line-oriented reader *)

(** [Read] of the line-oriented reader answers [io.EOF] only when the
    input is used up, and whatever else it returns, a record or
    [ErrFieldCount], it has taken at least one byte off the input. *)
Theorem LineReader_takes_lines (r : LineReader.Reader) :
  match fst (LineReader.Read r) with
  | LineReader.Err LineReader.EOF => LineReader.rd (snd (LineReader.Read r)) = []
  | _ => length (LineReader.rd (snd (LineReader.Read r))) < length (LineReader.rd r)
  end.
Proof. exact (LineReaderMore.Read_rd r). Qed.

(** [ReadAll] of the line-oriented reader returns, whatever the input.  A
    successful call has used up the input; every record it returns has a
    field, and unless the count is left free (negative [FieldsPerRecord])
    all records are of one length.  A failed call reports [ErrFieldCount],
    never [io.EOF], and only when a count is enforced or learnt. *)
Theorem LineReader_ReadAll_returns (r : LineReader.Reader) :
  exists res r',
    LineReader.ReadAll r = Some (res, r')
    /\ match res with
       | inl rs =>
           LineReader.rd r' = []
           /\ Forall (fun rec => 1 <= length rec) rs
           /\ ((0 <= LineReader.FieldsPerRecord r)%Z ->
               forall a b, In a rs -> In b rs -> length a = length b)
       | inr e =>
           e = LineReader.ErrFieldCount /\ (0 <= LineReader.FieldsPerRecord r)%Z
       end.
Proof. exact (LineReaderMore.ReadAll_returns r). Qed.

(** A line that starts with the comment character yields no record:
    [Read] of the line-oriented reader goes on with the line after it.
    It does so as well when white space of ASCII stands before the
    comment character, since the line is cut by [strings.TrimSpace]
    before it is tested.  The comment character is taken as the byte
    [byte(r.Comment)], which must not be one that starts a white space
    character. *)
Theorem LineReader_skips_comment_lines
  (r : LineReader.Reader) (ws t rest : bytes) :
  LineReader.Comment r <> 0%N ->
  startsSpace (LineReader.byte (LineReader.Comment r)) = false ->
  forallb isSpace ws = true ->
  noLF (ws ++ LineReader.byte (LineReader.Comment r) :: t) = true ->
  LineReader.rd r = (ws ++ LineReader.byte (LineReader.Comment r) :: t) ++ LF :: rest ->
  LineReader.Read r =
  LineReader.Read
    (LineReader.mkReader (LineReader.Comma r) (LineReader.Comment r)
       (LineReader.FieldsPerRecord r) (LineReader.LazyQuotes r) rest
       (LineReader.numLine r + 1) (LineReader.fieldIndexes r)).
Proof.
  intros Hc Hsp Hws Hnl Hrd.
  apply (LineReaderMore.Read_skip r _ rest Hnl); [|exact Hrd].
  apply LineReaderMore.skipped_comment; assumption.
Qed.

(** [LineReader_skips_comment_lines] on a comment that is indented by a
    space and a tab. *)
Lemma LineReader_skips_comment_lines_witness :
  LineReader.Read
    (LineReader.NewReader ((str " " ++ ["009"%char] ++ str "# x,y") ++ LF :: str "a,b"))
  = LineReader.Read
      (LineReader.mkReader LineReader.defaultDelimiter LineReader.defaultComment 0
         LineReader.defaultLazyQuotes (str "a,b") (0 + 1) []).
Proof.
  apply (LineReader_skips_comment_lines
           (LineReader.NewReader
              ((str " " ++ ["009"%char] ++ str "# x,y") ++ LF :: str "a,b"))
           (str " " ++ ["009"%char]) (str " x,y") (str "a,b")).
  - discriminate.
  - reflexivity.
  - reflexivity.
  - reflexivity.
  - reflexivity.
Defined.

(** The line-oriented reader returns the values of a written record that
    stands on one line: when the line holds no line feed, is left as it is
    by [strings.TrimSpace], is not a comment, does not end with an empty
    unquoted field, passes the field count, and, where it ends with the
    input, is shorter than the buffer of the [bufio.Reader], [Read]
    returns the values, quotes taken off and doubled quotes made one,
    takes the line and its ending off the input and counts one line. *)
Theorem LineReader_returns_written_fields
  (r : LineReader.Reader) (fs : list written) (f : written) (e : Ending) (rest : bytes) :
  sane (LineReader.byte (LineReader.Comma r)) DQ ->
  forallb (wellWritten (LineReader.byte (LineReader.Comma r)) DQ) (fs ++ [f]) = true ->
  encodeField DQ f <> [] ->
  noLF (encodeRecord (LineReader.byte (LineReader.Comma r)) DQ (fs ++ [f])) = true ->
  TrimSpace (encodeRecord (LineReader.byte (LineReader.Comma r)) DQ (fs ++ [f]))
  = encodeRecord (LineReader.byte (LineReader.Comma r)) DQ (fs ++ [f]) ->
  LineReader.skipped r
    (encodeRecord (LineReader.byte (LineReader.Comma r)) DQ (fs ++ [f])) = false ->
  ((0 < LineReader.FieldsPerRecord r)%Z ->
   LineReader.FieldsPerRecord r = Z.of_nat (length (fs ++ [f]))) ->
  e = EndLF \/ e = EndCRLF \/ (e = EndEOF /\ rest = []) ->
  (e = EndEOF ->
   length (encodeRecord (LineReader.byte (LineReader.Comma r)) DQ (fs ++ [f]))
   < defaultBufSize) ->
  LineReader.rd r =
    encodeRecord (LineReader.byte (LineReader.Comma r)) DQ (fs ++ [f])
    ++ ending e ++ rest ->
  fst (LineReader.Read r) = LineReader.Rec (values (fs ++ [f]))
  /\ LineReader.rd (snd (LineReader.Read r)) = rest
  /\ LineReader.numLine (snd (LineReader.Read r)) = LineReader.numLine r + 1.
Proof. exact (LineReaderMore.line_Read_written r fs f e rest). Qed.

(** [LineReader_returns_written_fields] on a line with a quoted field that
    holds a delimiter and a doubled quote, ended by a carriage return and
    a line feed. *)
Lemma LineReader_returns_written_fields_witness :
  fst (LineReader.Read
         (LineReader.NewReader
            (str "a," ++ [DQ] ++ str "b,c" ++ [DQ; DQ] ++ str "d" ++ [DQ] ++ [CR; LF]
             ++ str "next")))
  = LineReader.Rec
      (values ([(false, str "a")] ++ [(true, str "b,c" ++ [DQ] ++ str "d")]))
  /\ LineReader.rd
       (snd (LineReader.Read
               (LineReader.NewReader
                  (str "a," ++ [DQ] ++ str "b,c" ++ [DQ; DQ] ++ str "d" ++ [DQ]
                   ++ [CR; LF] ++ str "next"))))
     = str "next"
  /\ LineReader.numLine
       (snd (LineReader.Read
               (LineReader.NewReader
                  (str "a," ++ [DQ] ++ str "b,c" ++ [DQ; DQ] ++ str "d" ++ [DQ]
                   ++ [CR; LF] ++ str "next"))))
     = 0 + 1.
Proof.
  apply (LineReader_returns_written_fields
           (LineReader.NewReader
              (str "a," ++ [DQ] ++ str "b,c" ++ [DQ; DQ] ++ str "d" ++ [DQ]
               ++ [CR; LF] ++ str "next"))
           [(false, str "a")] (true, str "b,c" ++ [DQ] ++ str "d") EndCRLF
           (str "next")).
  - exact sane_defaults.
  - reflexivity.
  - discriminate.
  - reflexivity.
  - reflexivity.
  - reflexivity.
  - intro H. discriminate H.
  - right. left. reflexivity.
  - intro H. discriminate H.
  - reflexivity.
Defined.

(** [Read] of the line-oriented reader never reads [LazyQuotes]: two
    readers that differ in this setting only return the same record or the
    same error and are left with the same input, line number, field count
    and field indexes.  A quote is taken in the same way whether
    [LazyQuotes] is set or not. *)
Theorem LineReader_ignores_LazyQuotes (r : LineReader.Reader) (lazy : bool) :
  fst (LineReader.Read
         (LineReader.mkReader (LineReader.Comma r) (LineReader.Comment r)
            (LineReader.FieldsPerRecord r) lazy (LineReader.rd r)
            (LineReader.numLine r) (LineReader.fieldIndexes r)))
  = fst (LineReader.Read r)
  /\ sameButLazyQuotes
       (snd (LineReader.Read
               (LineReader.mkReader (LineReader.Comma r) (LineReader.Comment r)
                  (LineReader.FieldsPerRecord r) lazy (LineReader.rd r)
                  (LineReader.numLine r) (LineReader.fieldIndexes r))))
       (snd (LineReader.Read r)).
Proof.
  unfold LineReader.Read. cbn [LineReader.rd].
  apply LineReaderMore.ReadFrom_LazyQuotes. repeat split; reflexivity.
Qed.

(** *** The reader built on [readRecord] *)

(** The reader built on [readRecord] returns the values of a written
    record that is, with its ending, shorter than the 8192 bytes of the
    buffer of its [bufio.Reader], by the fast path when the record holds
    no quote and by the automaton when it does: line feeds between quotes
    do not end the record, the ending (a line feed, alone or after a
    carriage return, or the end of the input, with or without a carriage
    return) is cut off, the record is filled up with empty fields to
    [FieldCount], and a [FieldCount] of zero is set to the number of
    fields. *)
Theorem RecordReader_returns_written_fields
  (b : RecordReader.Reader) (fs : list written) (f : written) (e : Ending)
  (rest : bytes) :
  sane (RecordReader.Comma b) DQ ->
  forallb (wellWritten (RecordReader.Comma b) DQ) (fs ++ [f]) = true ->
  e = EndLF \/ e = EndCRLF
  \/ ((e = EndCR \/ e = EndEOF) /\ rest = []
      /\ encodeRecord (RecordReader.Comma b) DQ (fs ++ [f]) ++ ending e <> []) ->
  length (encodeRecord (RecordReader.Comma b) DQ (fs ++ [f]) ++ ending e)
  < RecordReader.readerSize ->
  RecordReader.r b =
    encodeRecord (RecordReader.Comma b) DQ (fs ++ [f]) ++ ending e ++ rest ->
  RecordReader.Read b =
  (RecordReader.Rec
     (values (fs ++ [f])
      ++ repeat []
           (Z.to_nat
              ((if (RecordReader.FieldCount b =? 0)%Z
                then Z.of_nat (length (fs ++ [f]))
                else RecordReader.FieldCount b)
               - Z.of_nat (length (fs ++ [f]))))),
   RecordReader.mkReader (RecordReader.Comma b)
     (if (RecordReader.FieldCount b =? 0)%Z
      then Z.of_nat (length (fs ++ [f]))
      else RecordReader.FieldCount b)
     rest (encodeRecord (RecordReader.Comma b) DQ (fs ++ [f]))).
Proof. exact (RecordReaderMore.record_Read_written b fs f e rest). Qed.

(** [RecordReader_returns_written_fields] on a record of three fields, the
    second between quotes with a line feed and a doubled quote, the third
    empty, ended by a carriage return and a line feed. *)
Lemma RecordReader_returns_written_fields_witness :
  RecordReader.Read
    (RecordReader.NewReader
       (str "a," ++ [DQ] ++ str "b" ++ [LF] ++ str "c" ++ [DQ; DQ; DQ; COMMA]
        ++ [CR; LF] ++ str "next"))
  = (RecordReader.Rec [str "a"; str "b" ++ [LF] ++ str "c" ++ [DQ]; []],
     RecordReader.mkReader COMMA 3 (str "next")
       (str "a," ++ [DQ] ++ str "b" ++ [LF] ++ str "c" ++ [DQ; DQ; DQ; COMMA])).
Proof.
  apply (RecordReader_returns_written_fields
           (RecordReader.NewReader
              (str "a," ++ [DQ] ++ str "b" ++ [LF] ++ str "c" ++ [DQ; DQ; DQ; COMMA]
               ++ [CR; LF] ++ str "next"))
           [(false, str "a"); (true, str "b" ++ [LF] ++ str "c" ++ [DQ])] (false, [])
           EndCRLF (str "next")).
  - exact sane_defaults.
  - reflexivity.
  - right. left. reflexivity.
  - apply Nat.ltb_lt. vm_compute. reflexivity.
  - reflexivity.
Defined.

(** The field count of the reader built on [readRecord], on any input: a
    record has at least one field and is never shorter than [FieldCount];
    a [FieldCount] that is set is kept, and a [FieldCount] of zero is set
    to the length of the record. *)
Theorem RecordReader_field_count
  (b : RecordReader.Reader) (fields : list bytes) (b' : RecordReader.Reader) :
  RecordReader.Read b = (RecordReader.Rec fields, b') ->
  1 <= length fields
  /\ (RecordReader.FieldCount b' <= Z.of_nat (length fields))%Z
  /\ (RecordReader.FieldCount b <> 0%Z ->
      RecordReader.FieldCount b' = RecordReader.FieldCount b)
  /\ (RecordReader.FieldCount b = 0%Z ->
      RecordReader.FieldCount b' = Z.of_nat (length fields)).
Proof. exact (RecordReaderMore.record_Read_count b fields b'). Qed.

(** [RecordReader_field_count] on a record of one field read with a count
    of three. *)
Lemma RecordReader_field_count_witness :
  1 <= length [str "1"; []; []]
  /\ (RecordReader.FieldCount (RecordReader.mkReader COMMA 3 (str "x") (str "1"))
      <= Z.of_nat (length [str "1"; []; []]))%Z
  /\ (RecordReader.FieldCount
        (RecordReader.mkReader COMMA 3 (str "1" ++ [LF] ++ str "x") []) <> 0%Z ->
      RecordReader.FieldCount (RecordReader.mkReader COMMA 3 (str "x") (str "1"))
      = RecordReader.FieldCount
          (RecordReader.mkReader COMMA 3 (str "1" ++ [LF] ++ str "x") []))
  /\ (RecordReader.FieldCount
        (RecordReader.mkReader COMMA 3 (str "1" ++ [LF] ++ str "x") []) = 0%Z ->
      RecordReader.FieldCount (RecordReader.mkReader COMMA 3 (str "x") (str "1"))
      = Z.of_nat (length [str "1"; []; []])).
Proof.
  apply (RecordReader_field_count
           (RecordReader.mkReader COMMA 3 (str "1" ++ [LF] ++ str "x") [])).
  reflexivity.
Defined.

(** [Read] of the reader built on [readRecord] answers [io.EOF] exactly
    when the input is used up. *)
Theorem RecordReader_EOF_only_at_end (b : RecordReader.Reader) :
  fst (RecordReader.Read b) = RecordReader.Err RecordReader.EOF
  <-> RecordReader.r b = [].
Proof. exact (RecordReaderMore.Read_EOF_empty b). Qed.

(** What the reader built on [readRecord] takes for a record, on any
    input: a piece from the front of the input that is not empty, which it
    keeps in [buf] without its ending.  When every line of the input fits
    the 8192 bytes of the buffer of the [bufio.Reader], then, unless the
    input is used up, the piece ends with the first line feed that stands
    outside quotes, every line feed before it standing between quotes. *)
Theorem RecordReader_takes_a_record
  (b : RecordReader.Reader) (fields : list bytes) (b' : RecordReader.Reader) :
  RecordReader.Read b = (RecordReader.Rec fields, b') ->
  exists taken,
    RecordReader.r b = taken ++ RecordReader.r b'
    /\ taken <> []
    /\ RecordReader.buf b' = RecordReader.trimDelimiter taken
    /\ (linesFit RecordReader.readerSize 0 (RecordReader.r b) = true ->
        RecordReader.r b' = []
        \/ exists p,
             taken = p ++ [LF]
             /\ RecordReaderSpec.quotedLF RecordReaderSpec.Outside p
             /\ RecordReaderSpec.quoteRun RecordReaderSpec.Outside p
                <> RecordReaderSpec.Inside).
Proof. exact (RecordReaderMore.Read_takes b fields b'). Qed.

(** [RecordReader_takes_a_record] on a record that goes over two lines. *)
Lemma RecordReader_takes_a_record_witness :
  exists taken,
    RecordReader.r
      (RecordReader.NewReader
         (str "x," ++ [DQ] ++ str "a" ++ [LF] ++ str "b" ++ [DQ; LF] ++ str "c"))
    = taken
      ++ RecordReader.r
           (RecordReader.mkReader COMMA 2 (str "c")
              (str "x," ++ [DQ] ++ str "a" ++ [LF] ++ str "b" ++ [DQ]))
    /\ taken <> []
    /\ RecordReader.buf
         (RecordReader.mkReader COMMA 2 (str "c")
            (str "x," ++ [DQ] ++ str "a" ++ [LF] ++ str "b" ++ [DQ]))
       = RecordReader.trimDelimiter taken
    /\ (RecordReader.r
          (RecordReader.mkReader COMMA 2 (str "c")
             (str "x," ++ [DQ] ++ str "a" ++ [LF] ++ str "b" ++ [DQ])) = []
        \/ exists p,
             taken = p ++ [LF]
             /\ RecordReaderSpec.quotedLF RecordReaderSpec.Outside p
             /\ RecordReaderSpec.quoteRun RecordReaderSpec.Outside p
                <> RecordReaderSpec.Inside).
Proof.
  destruct (RecordReader_takes_a_record
              (RecordReader.NewReader
                 (str "x," ++ [DQ] ++ str "a" ++ [LF] ++ str "b" ++ [DQ; LF] ++ str "c"))
              [str "x"; str "a" ++ [LF] ++ str "b"]
              (RecordReader.mkReader COMMA 2 (str "c")
                 (str "x," ++ [DQ] ++ str "a" ++ [LF] ++ str "b" ++ [DQ]))
              eq_refl) as (taken & H1 & H2 & H3 & H4).
  exists taken. split; [exact H1|]. split; [exact H2|]. split; [exact H3|].
  apply H4. vm_compute. reflexivity.
Defined.

(** The fast path of the reader built on [readRecord], on any record that
    holds no quote: the fields are the text cut at every delimiter, then
    the empty fields that fill the record up; joined by the delimiter the
    fields give the text back, and no field holds a delimiter. *)
Theorem RecordReader_fast_path_cuts_at_delimiters
  (b : RecordReader.Reader) (fields : list bytes) (b' : RecordReader.Reader) :
  RecordReader.Read b = (RecordReader.Rec fields, b') ->
  RecordReaderSpec.noDQ (RecordReader.buf b') = true ->
  exists k,
    fields =
      RecordReaderSpec.splitFrom (RecordReader.Comma b) [] (RecordReader.buf b')
      ++ repeat [] k
    /\ RecordReaderSpec.join (RecordReader.Comma b)
         (RecordReaderSpec.splitFrom (RecordReader.Comma b) [] (RecordReader.buf b'))
       = RecordReader.buf b'
    /\ Forall
         (fun f =>
            forallb (fun c => negb (Ascii.eqb c (RecordReader.Comma b))) f = true)
         (RecordReaderSpec.splitFrom (RecordReader.Comma b) [] (RecordReader.buf b')).
Proof. exact (RecordReaderMore.Read_plain b fields b'). Qed.

(** [RecordReader_fast_path_cuts_at_delimiters] on a line that ends with
    two delimiters. *)
Lemma RecordReader_fast_path_cuts_at_delimiters_witness :
  exists k,
    [str "a"; str "b"; []; []] =
      RecordReaderSpec.splitFrom
        (RecordReader.Comma (RecordReader.NewReader (str "a,b,," ++ [LF] ++ str "c"))) []
        (RecordReader.buf (RecordReader.mkReader COMMA 4 (str "c") (str "a,b,,")))
      ++ repeat [] k
    /\ RecordReaderSpec.join
         (RecordReader.Comma (RecordReader.NewReader (str "a,b,," ++ [LF] ++ str "c")))
         (RecordReaderSpec.splitFrom
            (RecordReader.Comma (RecordReader.NewReader (str "a,b,," ++ [LF] ++ str "c")))
            [] (RecordReader.buf (RecordReader.mkReader COMMA 4 (str "c") (str "a,b,,"))))
       = RecordReader.buf (RecordReader.mkReader COMMA 4 (str "c") (str "a,b,,"))
    /\ Forall
         (fun f =>
            forallb
              (fun c =>
                 negb (Ascii.eqb c
                         (RecordReader.Comma
                            (RecordReader.NewReader (str "a,b,," ++ [LF] ++ str "c")))))
              f = true)
         (RecordReaderSpec.splitFrom
            (RecordReader.Comma (RecordReader.NewReader (str "a,b,," ++ [LF] ++ str "c")))
            [] (RecordReader.buf (RecordReader.mkReader COMMA 4 (str "c") (str "a,b,,")))).
Proof.
  apply (RecordReader_fast_path_cuts_at_delimiters
           (RecordReader.NewReader (str "a,b,," ++ [LF] ++ str "c"))
           [str "a"; str "b"; []; []]
           (RecordReader.mkReader COMMA 4 (str "c") (str "a,b,,"))).
  - reflexivity.
  - reflexivity.
Defined.

(** The reader built on [readRecord] sees a record that is longer than
    the buffer of its [bufio.Reader] in chunks, and its scan of a chunk
    starts at the last byte of the chunk before.  When a full buffer ends
    on a quote after which the text stands inside a quoted field, that
    quote is scanned a second time and taken for the closing one: the
    first line feed of the quoted field ends the record, although it
    stands between quotes, and what follows it is left for the next
    [Read]. *)
Theorem RecordReader_quote_at_buffer_end
  (b : RecordReader.Reader) (pre x rest : bytes) :
  length pre + 1 = RecordReader.readerSize ->
  noLF pre = true ->
  RecordReaderSpec.quoteRun RecordReaderSpec.Outside (pre ++ [DQ])
  = RecordReaderSpec.Inside ->
  RecordReaderSpec.noDQ x = true ->
  noLF x = true ->
  length x < RecordReader.readerSize ->
  RecordReader.r b = pre ++ DQ :: x ++ LF :: rest ->
  RecordReaderSpec.quoteRun RecordReaderSpec.Outside (pre ++ DQ :: x)
  = RecordReaderSpec.Inside
  /\ exists fields b',
       RecordReader.Read b = (RecordReader.Rec fields, b')
       /\ RecordReader.r b' = rest
       /\ RecordReader.buf b' = RecordReader.trimDelimiter (pre ++ DQ :: x ++ [LF]).
Proof. exact (RecordReaderMore.Read_boundary b pre x rest). Qed.

(** [RecordReader_quote_at_buffer_end] on 8190 bytes, a delimiter and a
    quoted field of two lines. *)
Lemma RecordReader_quote_at_buffer_end_witness :
  RecordReaderSpec.quoteRun RecordReaderSpec.Outside
    ((repeat "a"%char (RecordReader.readerSize - 2) ++ [COMMA]) ++ DQ :: str "x")
  = RecordReaderSpec.Inside
  /\ exists fields b',
       RecordReader.Read
         (RecordReader.NewReader
            ((repeat "a"%char (RecordReader.readerSize - 2) ++ [COMMA])
             ++ DQ :: str "x" ++ LF :: str "y" ++ [DQ; LF]))
       = (RecordReader.Rec fields, b')
       /\ RecordReader.r b' = str "y" ++ [DQ; LF]
       /\ RecordReader.buf b'
          = RecordReader.trimDelimiter
              ((repeat "a"%char (RecordReader.readerSize - 2) ++ [COMMA])
               ++ DQ :: str "x" ++ [LF]).
Proof.
  apply (RecordReader_quote_at_buffer_end
           (RecordReader.NewReader
              ((repeat "a"%char (RecordReader.readerSize - 2) ++ [COMMA])
               ++ DQ :: str "x" ++ LF :: str "y" ++ [DQ; LF]))
           (repeat "a"%char (RecordReader.readerSize - 2) ++ [COMMA]) (str "x")
           (str "y" ++ [DQ; LF])).
  - vm_compute. reflexivity.
  - vm_compute. reflexivity.
  - vm_compute. reflexivity.
  - reflexivity.
  - reflexivity.
  - apply Nat.ltb_lt. vm_compute. reflexivity.
  - reflexivity.
Defined.

(** *** The reader with a field buffer of its own *)

(** The reader that keeps its field buffer between calls returns what the
    first reader returns, on every input: the same fields, an error in the
    same cases, and the same input left; so what [fieldBuf] held before
    the call has no effect, and what is proved of the first reader holds
    of this one. *)
Theorem BufReader_agrees_with_ByteReader (b : BufReader.Reader) :
  fst (fst (BufReader.Read b))
  = fst (fst (ByteReader.Read (ByteReader.mkReader (BufReader.Comma b) (BufReader.r b))))
  /\ (snd (fst (BufReader.Read b)) = None
      <-> snd (fst (ByteReader.Read
                      (ByteReader.mkReader (BufReader.Comma b) (BufReader.r b)))) = None)
  /\ BufReader.r (snd (BufReader.Read b))
     = ByteReader.r
         (snd (ByteReader.Read (ByteReader.mkReader (BufReader.Comma b) (BufReader.r b)))).
Proof.
  unfold BufReader.Read, ByteReader.Read. cbn [ByteReader.Comma ByteReader.r].
  rewrite <- (BufReaderFacts.readLoop_same (BufReader.Comma b) _ _ (le_n _) [] [] false).
  destruct (BufReader.readLoop (BufReader.Comma b) (BufReader.r b) [] [] false)
    as [[dst [[]|]] [rest fb]]; cbn; repeat split; congruence.
Qed.

(** *** The storage of the byte-level reader *)

(** [Read] with [dataBuf] as an array that [append] writes in place or
    allocates anew returns what [FastReader.Read] returns, where a field is
    taken as what it holds when [Read] returns: the same fields or the same
    error, and the same state.  So neither [ReuseRecord] nor the capacity
    that [append] allocates decides what a record holds when it is
    returned, and what is proved of [FastReader.Read] holds of the fields
    at that time.  The storage stays in order. *)
Theorem Read_returns_the_same_with_storage
  (grow : nat -> nat) (r : ReuseReader.Reader)
  (res : ReuseReader.result) (r' : ReuseReader.Reader) :
  ReuseReader.fits r ->
  ReuseReader.Read grow r = (res, r') ->
  FastReader.Read (ReuseReader.view r)
  = (ReuseReader.seen r' res, ReuseReader.view r')
  /\ ReuseReader.fits r'.
Proof.
  intros Hfit H. split.
  - exact (ReuseReaderFacts.Read_view grow r res r' Hfit H).
  - exact (proj1 (ReuseReaderFacts.Read_storage grow r res r' Hfit H)).
Qed.

(** [Read_returns_the_same_with_storage] on a reader whose array has room
    for two bytes, so that [append] allocates at the third. *)
Lemma Read_returns_the_same_with_storage_witness :
  FastReader.Read
    (ReuseReader.view
       (ReuseReader.mkReader (str "ab,cd" ++ [LF]) None COMMA DQ false
          (repeat NUL 2) 0 0 [] false 1))
  = (ReuseReader.seen
       (ReuseReader.mkReader [] None COMMA DQ false (str "abcd" ++ [NUL]) 4 1
          [0; 2; 2; 4] false 2)
       (ReuseReader.Rec [ReuseReader.Copied (str "ab"); ReuseReader.Copied (str "cd")]),
     ReuseReader.view
       (ReuseReader.mkReader [] None COMMA DQ false (str "abcd" ++ [NUL]) 4 1
          [0; 2; 2; 4] false 2))
  /\ ReuseReader.fits
       (ReuseReader.mkReader [] None COMMA DQ false (str "abcd" ++ [NUL]) 4 1
          [0; 2; 2; 4] false 2).
Proof.
  apply (Read_returns_the_same_with_storage (fun n => n)
           (ReuseReader.mkReader (str "ab,cd" ++ [LF]) None COMMA DQ false
              (repeat NUL 2) 0 0 [] false 1)
           (ReuseReader.Rec [ReuseReader.Copied (str "ab"); ReuseReader.Copied (str "cd")])
           (ReuseReader.mkReader [] None COMMA DQ false (str "abcd" ++ [NUL]) 4 1
              [0; 2; 2; 4] false 2)).
  - unfold ReuseReader.fits. cbn. lia.
  - reflexivity.
Defined.

(** With [ReuseRecord], a string of a record does not keep its text over
    the next [Read].  When [Read] returns it, the string holds the bytes
    from [from] to [to] of the text of its record.  After the next [Read]
    has returned a record whose text fits in the array of [dataBuf], the
    same string holds the bytes from [from] to [to] of the text of that
    record, followed by what the array held behind it. *)
Theorem ReuseRecord_strings_change_with_the_next_Read
  (grow : nat -> nat) (r r1 r2 : ReuseReader.Reader)
  (rec1 rec2 : list ReuseReader.Field) (g from to : nat) :
  ReuseReader.fits r ->
  ReuseReader.Read grow r = (ReuseReader.Rec rec1, r1) ->
  ReuseReader.Read grow r1 = (ReuseReader.Rec rec2, r2) ->
  length (concat (map (ReuseReader.atReturn r2) rec2)) <= length (ReuseReader.array r1) ->
  In (ReuseReader.Shared g from to) rec1 ->
  ReuseReader.atReturn r1 (ReuseReader.Shared g from to)
  = slice (concat (map (ReuseReader.atReturn r1) rec1)) from to
  /\ ReuseReader.now r2 (ReuseReader.Shared g from to)
     = Some (slice (concat (map (ReuseReader.atReturn r2) rec2)
                    ++ skipn (length (concat (map (ReuseReader.atReturn r2) rec2)))
                         (ReuseReader.array r1))
               from to).
Proof.
  intros Hfit H1 H2 Hroom Hin.
  destruct (ReuseReaderFacts.Read_storage grow r _ r1 Hfit H1) as (Hfit1 & _ & _).
  destruct (ReuseReaderFacts.Read_storage grow r1 _ r2 Hfit1 H2) as (Hfit2 & _ & K).
  rewrite <- (ReuseReaderFacts.Read_dataBuf grow r rec1 r1 Hfit H1).
  rewrite <- (ReuseReaderFacts.Read_dataBuf grow r1 rec2 r2 Hfit1 H2) in *.
  rewrite (ReuseReaderFacts.length_dataBuf r2 Hfit2) in *.
  split; [reflexivity|].
  assert (Hg : g = ReuseReader.generation r1).
  { rewrite (ReuseReaderFacts.Read_record grow r rec1 r1 H1) in Hin.
    unfold ReuseReader.buildRecord in Hin. apply in_map_iff in Hin.
    destruct Hin as (i & Hi & _).
    destruct (ReuseReader.ReuseRecord r1); [|discriminate].
    destruct (ReuseReader.fill r1 =? 0); [discriminate|].
    inversion Hi; reflexivity. }
  destruct K as [K | (G & _ & S)]; [lia|].
  cbn [ReuseReader.now]. rewrite Hg, G, Nat.eqb_refl.
  f_equal. f_equal. unfold ReuseReader.dataBuf. rewrite <- S.
  symmetry. apply firstn_skipn.
Qed.

(** [ReuseRecord_strings_change_with_the_next_Read] on two lines: the
    first field of the first record, [ab] when it is returned, holds [xy]
    after the second record was read. *)
Lemma ReuseRecord_strings_change_with_the_next_Read_witness :
  ReuseReader.atReturn
    (ReuseReader.mkReader (str "xy" ++ [LF]) None COMMA DQ true
       (str "abcd" ++ repeat NUL 4) 4 0 [0; 2; 2; 4] false 2)
    (ReuseReader.Shared 0 0 2)
  = str "ab"
  /\ ReuseReader.now
       (ReuseReader.mkReader [] None COMMA DQ true
          (str "xycd" ++ repeat NUL 4) 2 0 [0; 2] false 3)
       (ReuseReader.Shared 0 0 2)
     = Some (str "xy").
Proof.
  apply (ReuseRecord_strings_change_with_the_next_Read (fun n => n)
           (ReuseReader.mkReader (str "ab,cd" ++ LF :: str "xy" ++ [LF]) None COMMA DQ
              true (repeat NUL 8) 0 0 [] false 1)
           (ReuseReader.mkReader (str "xy" ++ [LF]) None COMMA DQ true
              (str "abcd" ++ repeat NUL 4) 4 0 [0; 2; 2; 4] false 2)
           (ReuseReader.mkReader [] None COMMA DQ true
              (str "xycd" ++ repeat NUL 4) 2 0 [0; 2] false 3)
           [ReuseReader.Shared 0 0 2; ReuseReader.Shared 0 2 4]
           [ReuseReader.Shared 0 0 2] 0 0 2).
  - unfold ReuseReader.fits. cbn. lia.
  - reflexivity.
  - reflexivity.
  - cbn. lia.
  - left. reflexivity.
Defined.

(** Without [ReuseRecord] every field of a record is a copy: whatever the
    reader does afterwards, the field holds what it held when [Read]
    returned it. *)
Theorem without_ReuseRecord_fields_are_copies
  (grow : nat -> nat) (r r1 : ReuseReader.Reader)
  (rec : list ReuseReader.Field) (f : ReuseReader.Field) :
  ReuseReader.fits r ->
  ReuseReader.ReuseRecord r = false ->
  ReuseReader.Read grow r = (ReuseReader.Rec rec, r1) ->
  In f rec ->
  forall r2, ReuseReader.now r2 f = Some (ReuseReader.atReturn r1 f).
Proof.
  intros Hfit Hoff H Hin r2.
  destruct (ReuseReaderFacts.Read_storage grow r _ r1 Hfit H) as (_ & Hsame & _).
  rewrite (ReuseReaderFacts.Read_record grow r rec r1 H) in Hin.
  unfold ReuseReader.buildRecord in Hin. apply in_map_iff in Hin.
  destruct Hin as (i & Hi & _). rewrite Hsame, Hoff in Hi.
  subst f. reflexivity.
Qed.

(** [without_ReuseRecord_fields_are_copies] on the first field of a line,
    seen from a reader that has used the array again. *)
Lemma without_ReuseRecord_fields_are_copies_witness :
  ReuseReader.now
    (ReuseReader.mkReader [] None COMMA DQ false (str "xycd" ++ repeat NUL 4) 2 0
       [0; 2] false 3)
    (ReuseReader.Copied (str "ab"))
  = Some
      (ReuseReader.atReturn
         (ReuseReader.mkReader (str "xy" ++ [LF]) None COMMA DQ false
            (str "abcd" ++ repeat NUL 4) 4 0 [0; 2; 2; 4] false 2)
         (ReuseReader.Copied (str "ab"))).
Proof.
  apply (without_ReuseRecord_fields_are_copies (fun n => n)
           (ReuseReader.mkReader (str "ab,cd" ++ LF :: str "xy" ++ [LF]) None COMMA DQ
              false (repeat NUL 8) 0 0 [] false 1)
           (ReuseReader.mkReader (str "xy" ++ [LF]) None COMMA DQ false
              (str "abcd" ++ repeat NUL 4) 4 0 [0; 2; 2; 4] false 2)
           [ReuseReader.Copied (str "ab"); ReuseReader.Copied (str "cd")]
           (ReuseReader.Copied (str "ab"))).
  - unfold ReuseReader.fits. cbn. lia.
  - reflexivity.
  - reflexivity.
  - left. reflexivity.
Defined.
